(** * A limit order book with price-time priority

    Shallow embedding of [order.py] and [orderbook.py].

    Modelling conventions.
    - Prices, quantities and timestamps are Python floats in the source.
      The program is embedded twice.  The first embedding idealises them as
      exact rationals ([Q]); Python's numeric [==], [<], [<=] become
      [Qeq_bool], [Qlt_bool], [Qle_bool], and numeric results are compared
      with [==] ([Qeq]).  It carries the properties of the control flow:
      which orders match, in which order, what is queued, popped or raised.
      The second embedding, [Binary64], computes with IEEE 754 doubles as
      the code does; the properties that depend on how a result is rounded
      (the conservation of an order's quantity, the volume counter, the
      spread and the mid price) are stated on it.
    - Order objects are shared and mutated in place: the caller, the id
      index, the heaps and the price levels all refer to the same object.
      The objects live in one table keyed by order id (the book's
      [_orders] index); heaps and levels hold ids, which stand for the
      references.
    - An exception aborts the computation: a function returns [Ok] with its
      result and the new state, or the exception.  [Stuck] is not a Python
      exception; it marks what Python cannot do (an exhausted loop budget, a
      reference to an object that does not exist).
    - [time.time()] is an input: the constructor of an order receives the
      clock reading.  The wall-clock stamp of a [Trade] is left out. *)

From Stdlib Require Import Floats QArith Qminmax Qround Qabs Lqa Sorted.
From stdpp Require Import gmap list strings.

Local Open Scope Q_scope.
Local Open Scope nat_scope.

(** A decimal literal such as [0.3] denotes the double nearest to it, as in
    Python. *)
Set Warnings "-inexact-float".

(** ** Outcomes of a computation *)

Inductive res (A : Type) : Type :=
| Ok (a : A)
| TypeError
| Stuck.
Arguments Ok {A} a.
Arguments TypeError {A}.
Arguments Stuck {A}.

Definition res_bind {A B : Type} (f : A → res B) (m : res A) : res B :=
  match m with
  | Ok a => f a
  | TypeError => TypeError
  | Stuck => Stuck
  end.

#[global] Instance res_mbind : MBind res := @res_bind.
#[global] Instance res_mret : MRet res := @Ok.

(** Python's [<] on floats. *)
Definition Qlt_bool (x y : Q) : bool := negb (Qle_bool y x).

(** ** [heapq]: a binary min-heap stored in a list

    The heaps of the book hold tuples [(key, timestamp, order)].  Tuples are
    compared lexicographically: the first component on which the two tuples
    differ decides.  [Order] defines neither [__eq__] nor [__lt__], so two
    tuples that agree on key and timestamp are equal when they hold the same
    object and cannot be ordered otherwise. *)

Module heapq.

Abbreviation entry := (Q * Q * nat)%type.

Definition lt (a b : entry) : res bool :=
  let '(ka, ta, oa) := a in
  let '(kb, tb, ob) := b in
  if negb (Qeq_bool ka kb) then Ok (Qlt_bool ka kb)
  else if negb (Qeq_bool ta tb) then Ok (Qlt_bool ta tb)
  else if Nat.eqb oa ob then Ok false
  else TypeError.

(** [heap[i], heap[j] = heap[j], heap[i]] *)
Definition swap (heap : list entry) (i j : nat) : list entry :=
  match heap !! i, heap !! j with
  | Some x, Some y => <[i := y]> (<[j := x]> heap)
  | _, _ => heap
  end.

(** Move the item at [pos] up while it is less than its parent. *)
Fixpoint _siftdown (fuel : nat) (heap : list entry) (startpos pos : nat)
  : res (list entry) :=
  match fuel with
  | O => Stuck
  | S fuel' =>
      if startpos <? pos then
        let parentpos := (pos - 1) / 2 in
        match heap !! pos, heap !! parentpos with
        | Some newitem, Some parent =>
            b ← lt newitem parent;
            if (b : bool) then _siftdown fuel' (swap heap pos parentpos) startpos parentpos
            else Ok heap
        | _, _ => Stuck
        end
      else Ok heap
  end.

(** Bubble the smaller child up until [pos] is a leaf; returns the heap
    and the leaf reached. *)
Fixpoint _siftup_loop (fuel : nat) (heap : list entry) (pos : nat)
  : res (list entry * nat) :=
  match fuel with
  | O => Stuck
  | S fuel' =>
      let endpos := length heap in
      let childpos := 2 * pos + 1 in
      if childpos <? endpos then
        let rightpos := childpos + 1 in
        c ← (if rightpos <? endpos then
               match heap !! childpos, heap !! rightpos with
               | Some l, Some r =>
                   b ← lt l r;
                   Ok (if (b : bool) then childpos else rightpos)
               | _, _ => Stuck
               end
             else Ok childpos);
        _siftup_loop fuel' (swap heap pos c) c
      else Ok (heap, pos)
  end.

Definition _siftup (heap : list entry) (pos : nat) : res (list entry) :=
  '(heap', leaf) ← _siftup_loop (S (length heap)) heap pos;
  _siftdown (S leaf) heap' pos leaf.

Definition heappush (heap : list entry) (item : entry) : res (list entry) :=
  let heap' := heap ++ [item] in
  _siftdown (length heap') heap' 0 (length heap' - 1).

(** Returns the heap without its smallest item. *)
Definition heappop (heap : list entry) : res (list entry) :=
  match last heap with
  | None => Stuck
  | Some lastelt =>
      let heap' := removelast heap in
      match heap' with
      | [] => Ok []
      | _ :: _ => _siftup (<[0 := lastelt]> heap') 0
      end
  end.

End heapq.

(** ** [order.py] *)

Inductive Side := BUY | SELL.
Inductive OrderType := LIMIT | MARKET.
Inductive Status := st_open | st_partial | st_filled | st_cancelled.

#[global] Instance Side_eq_dec : EqDecision Side.
Proof. solve_decision. Defined.
#[global] Instance OrderType_eq_dec : EqDecision OrderType.
Proof. solve_decision. Defined.
#[global] Instance Status_eq_dec : EqDecision Status.
Proof. solve_decision. Defined.

Module Order.

Record t : Type := mk {
  id : nat;
  side : Side;
  order_type : OrderType;
  quantity : Q;
  price : option Q;
  timestamp : Q;
  remaining : Q;
  filled : Q;
  trader_id : string;
  status : Status;
}.

(** [Order.__init__]; [_id_counter] is the class counter before the call,
    [now] the reading of the clock. *)
Definition __init__ (_id_counter : nat) (now : Q)
    (side : Side) (order_type : OrderType) (quantity : Q)
    (price : option Q) (trader_id : string) : t * nat :=
  let _id_counter := S _id_counter in
  (mk _id_counter side order_type quantity price now quantity 0%Q
      trader_id st_open,
   _id_counter).

Definition fill (self : t) (quantity : Q) : t * Q :=
  let quantity := Qmin quantity (remaining self) in
  let filled' := (filled self + quantity)%Q in
  let remaining' := (remaining self - quantity)%Q in
  let status' := if Qeq_bool remaining' 0 then st_filled else st_partial in
  (mk (id self) (side self) (order_type self) (Order.quantity self)
      (price self) (timestamp self) remaining' filled' (trader_id self)
      status',
   quantity).

Definition cancel (self : t) : t :=
  mk (id self) (side self) (order_type self) (quantity self)
     (price self) (timestamp self) (remaining self) (filled self)
     (trader_id self) st_cancelled.

Definition set_status (self : t) (s : Status) : t :=
  mk (id self) (side self) (order_type self) (quantity self)
     (price self) (timestamp self) (remaining self) (filled self)
     (trader_id self) s.

Definition fill_pct (self : t) : Q :=
  if Qlt_bool 0 (quantity self)
  then ((filled self / quantity self) * 100)%Q
  else 0%Q.

End Order.

(** ** [orderbook.py] *)

Module Trade.

Record t : Type := mk {
  buy_order_id : nat;
  sell_order_id : nat;
  price : Q;
  quantity : Q;
}.

End Trade.

(** Python's [sum] over a generator of floats: starts from [0] and adds from
    the left. *)
Definition Qsum (l : list Q) : Q := fold_left Qplus l 0%Q.

(** A status that [_fill_from_asks], [_fill_from_bids], [best_bid] and
    [best_ask] treat as stale: [status in ("filled", "cancelled")]. *)
Definition terminal (s : Status) : bool :=
  match s with
  | st_filled | st_cancelled => true
  | st_open | st_partial => false
  end.

(** The objects behind a list of references. *)
Fixpoint deref_all (objs : gmap nat Order.t) (refs : list nat)
  : res (list Order.t) :=
  match refs with
  | [] => Ok []
  | r :: refs' =>
      match objs !! r with
      | Some o => os ← deref_all objs refs'; Ok (o :: os)
      | None => Stuck
      end
  end.

Module PriceLevel.

Record t : Type := mk {
  price : Q;
  orders : list nat;
  total_quantity : Q;
}.

Definition __init__ (price : Q) : t := mk price [] 0%Q.

Definition add_order (self : t) (ref : nat) (order : Order.t) : t :=
  mk (price self) (orders self ++ [ref])
     (total_quantity self + Order.remaining order)%Q.

Definition keeps (o : Order.t) : bool :=
  Qlt_bool 0 (Order.remaining o) && negb (terminal (Order.status o)).

Definition remove_filled (objs : gmap nat Order.t) (self : t) : res t :=
  os ← deref_all objs (orders self);
  let kept := List.filter (λ ro, keeps ro.2) (zip (orders self) os) in
  Ok (mk (price self) (kept.*1) (Qsum (Order.remaining <$> kept.*2))).

Definition is_empty (self : t) : bool :=
  Nat.eqb (length (orders self)) 0 || Qeq_bool (total_quantity self) 0.

End PriceLevel.

(** A Python [dict] keyed by floats: keys are compared with [==], an
    existing key keeps its place when its value is replaced. *)
Section float_dict.
Context {V : Type}.

Fixpoint dict_get (d : list (Q * V)) (k : Q) : option V :=
  match d with
  | [] => None
  | (k', v) :: d' => if Qeq_bool k k' then Some v else dict_get d' k
  end.

Fixpoint dict_set (d : list (Q * V)) (k : Q) (v : V) : list (Q * V) :=
  match d with
  | [] => [(k, v)]
  | (k', v') :: d' =>
      if Qeq_bool k k' then (k', v) :: d' else (k', v') :: dict_set d' k v
  end.
End float_dict.

(** [round(x, 2)] on exact numbers: to the nearest multiple of 1/100, ties
    to the even one. *)
Definition round_half_even (x : Q) : Z :=
  let f := Qfloor x in
  match (x - inject_Z f ?= 1 # 2)%Q with
  | Lt => f
  | Gt => (f + 1)%Z
  | Eq => if Z.even f then f else (f + 1)%Z
  end.

Definition round2 (x : Q) : Q := (inject_Z (round_half_even (x * 100)) / 100)%Q.

(** Truth value of [best_bid()]'s result in [if bid and ask]: [None] and
    [0.0] are false. *)
Definition truthy (x : option Q) : bool :=
  match x with
  | None => false
  | Some v => negb (Qeq_bool v 0)
  end.

Module OrderBook.

Record t : Type := mk {
  symbol : string;
  _bid_heap : list heapq.entry;   (* (-price, timestamp, order) *)
  _ask_heap : list heapq.entry;   (* (price, timestamp, order) *)
  _bid_levels : list (Q * PriceLevel.t);
  _ask_levels : list (Q * PriceLevel.t);
  _orders : gmap nat Order.t;
  trades : list Trade.t;
  total_volume : Q;
  total_trades : nat;
}.

Definition __init__ (symbol : string) : t :=
  mk symbol [] [] [] [] ∅ [] 0%Q 0.

Definition set_bid_heap (self : t) (h : list heapq.entry) : t :=
  mk (symbol self) h (_ask_heap self) (_bid_levels self) (_ask_levels self)
     (_orders self) (trades self) (total_volume self) (total_trades self).

Definition set_ask_heap (self : t) (h : list heapq.entry) : t :=
  mk (symbol self) (_bid_heap self) h (_bid_levels self) (_ask_levels self)
     (_orders self) (trades self) (total_volume self) (total_trades self).

Definition set_bid_levels (self : t) (l : list (Q * PriceLevel.t)) : t :=
  mk (symbol self) (_bid_heap self) (_ask_heap self) l (_ask_levels self)
     (_orders self) (trades self) (total_volume self) (total_trades self).

Definition set_ask_levels (self : t) (l : list (Q * PriceLevel.t)) : t :=
  mk (symbol self) (_bid_heap self) (_ask_heap self) (_bid_levels self) l
     (_orders self) (trades self) (total_volume self) (total_trades self).

(** Writing through a reference to an order object. *)
Definition store (self : t) (ref : nat) (o : Order.t) : t :=
  mk (symbol self) (_bid_heap self) (_ask_heap self) (_bid_levels self)
     (_ask_levels self) (<[ref := o]> (_orders self)) (trades self)
     (total_volume self) (total_trades self).

(** Reading through a reference to an order object. *)
Definition deref (self : t) (ref : nat) : res Order.t :=
  match _orders self !! ref with
  | Some o => Ok o
  | None => Stuck
  end.

(** The price of an order read as a number. *)
Definition number (p : option Q) : res Q :=
  match p with
  | Some x => Ok x
  | None => TypeError
  end.

(** [aggressive_order.order_type == OrderType.LIMIT and
     best_price > aggressive_order.price] *)
Definition ask_too_high (agg : Order.t) (best_price : Q) : res bool :=
  match Order.order_type agg with
  | LIMIT => p ← number (Order.price agg); Ok (Qlt_bool p best_price)
  | MARKET => Ok false
  end.

(** [aggressive_order.order_type == OrderType.LIMIT and
     best_price < aggressive_order.price] *)
Definition bid_too_low (agg : Order.t) (best_price : Q) : res bool :=
  match Order.order_type agg with
  | LIMIT => p ← number (Order.price agg); Ok (Qlt_bool best_price p)
  | MARKET => Ok false
  end.

(** [if best_price in self._ask_levels:
       self._ask_levels[best_price].remove_filled()] *)
Definition purge_ask_level (self : t) (best_price : Q) : res t :=
  match dict_get (_ask_levels self) best_price with
  | Some lvl =>
      lvl' ← PriceLevel.remove_filled (_orders self) lvl;
      Ok (set_ask_levels self (dict_set (_ask_levels self) best_price lvl'))
  | None => Ok self
  end.

Definition purge_bid_level (self : t) (best_price : Q) : res t :=
  match dict_get (_bid_levels self) best_price with
  | Some lvl =>
      lvl' ← PriceLevel.remove_filled (_orders self) lvl;
      Ok (set_bid_levels self (dict_set (_bid_levels self) best_price lvl'))
  | None => Ok self
  end.

(** The [while] loop of [_fill_from_asks]; [trades] is the list built so
    far. *)
Fixpoint _fill_from_asks_loop (fuel : nat) (self : t)
    (aggressive_order : nat) (trades : list Trade.t)
  : res (t * list Trade.t) :=
  match fuel with
  | O => Stuck
  | S fuel' =>
      agg ← deref self aggressive_order;
      match _ask_heap self with
      | [] => Ok (self, trades)
      | (best_price, ts, passive_order) :: _ =>
          if negb (Qlt_bool 0 (Order.remaining agg)) then Ok (self, trades)
          else
            passive ← deref self passive_order;
            if terminal (Order.status passive) then
              heap' ← heapq.heappop (_ask_heap self);
              _fill_from_asks_loop fuel' (set_ask_heap self heap')
                aggressive_order trades
            else
              stop ← ask_too_high agg best_price;
              if (stop : bool) then Ok (self, trades)
              else
                let fill_qty :=
                  Qmin (Order.remaining agg) (Order.remaining passive) in
                let self := store self aggressive_order
                              (Order.fill agg fill_qty).1 in
                passive ← deref self passive_order;
                let self := store self passive_order
                              (Order.fill passive fill_qty).1 in
                agg ← deref self aggressive_order;
                passive ← deref self passive_order;
                let trade := Trade.mk (Order.id agg) (Order.id passive)
                               best_price fill_qty in
                let trades := trades ++ [trade] in
                if Qeq_bool (Order.remaining passive) 0 then
                  heap' ← heapq.heappop (_ask_heap self);
                  self ← purge_ask_level (set_ask_heap self heap') best_price;
                  _fill_from_asks_loop fuel' self aggressive_order trades
                else
                  _fill_from_asks_loop fuel' self aggressive_order trades
      end
  end.

Definition _fill_from_asks (self : t) (aggressive_order : nat)
  : res (t * list Trade.t) :=
  _fill_from_asks_loop (S (S (length (_ask_heap self)))) self
    aggressive_order [].

Fixpoint _fill_from_bids_loop (fuel : nat) (self : t)
    (aggressive_order : nat) (trades : list Trade.t)
  : res (t * list Trade.t) :=
  match fuel with
  | O => Stuck
  | S fuel' =>
      agg ← deref self aggressive_order;
      match _bid_heap self with
      | [] => Ok (self, trades)
      | (neg_price, ts, passive_order) :: _ =>
          if negb (Qlt_bool 0 (Order.remaining agg)) then Ok (self, trades)
          else
            let best_price := (- neg_price)%Q in
            passive ← deref self passive_order;
            if terminal (Order.status passive) then
              heap' ← heapq.heappop (_bid_heap self);
              _fill_from_bids_loop fuel' (set_bid_heap self heap')
                aggressive_order trades
            else
              stop ← bid_too_low agg best_price;
              if (stop : bool) then Ok (self, trades)
              else
                let fill_qty :=
                  Qmin (Order.remaining agg) (Order.remaining passive) in
                let self := store self aggressive_order
                              (Order.fill agg fill_qty).1 in
                passive ← deref self passive_order;
                let self := store self passive_order
                              (Order.fill passive fill_qty).1 in
                agg ← deref self aggressive_order;
                passive ← deref self passive_order;
                let trade := Trade.mk (Order.id passive) (Order.id agg)
                               best_price fill_qty in
                let trades := trades ++ [trade] in
                if Qeq_bool (Order.remaining passive) 0 then
                  heap' ← heapq.heappop (_bid_heap self);
                  self ← purge_bid_level (set_bid_heap self heap') best_price;
                  _fill_from_bids_loop fuel' self aggressive_order trades
                else
                  _fill_from_bids_loop fuel' self aggressive_order trades
      end
  end.

Definition _fill_from_bids (self : t) (aggressive_order : nat)
  : res (t * list Trade.t) :=
  _fill_from_bids_loop (S (S (length (_bid_heap self)))) self
    aggressive_order [].

(** [if price not in levels: levels[price] = PriceLevel(price)]
    followed by [levels[price].add_order(order)]. *)
Definition level_add (levels : list (Q * PriceLevel.t)) (price : Q)
    (ref : nat) (order : Order.t) : list (Q * PriceLevel.t) :=
  let lvl := match dict_get levels price with
             | Some lvl => lvl
             | None => PriceLevel.__init__ price
             end in
  dict_set levels price (PriceLevel.add_order lvl ref order).

Definition _add_to_bids (self : t) (ref : nat) : res t :=
  order ← deref self ref;
  price ← number (Order.price order);
  let self := set_bid_levels self (level_add (_bid_levels self) price ref order) in
  heap' ← heapq.heappush (_bid_heap self)
            ((- price)%Q, Order.timestamp order, ref);
  Ok (set_bid_heap self heap').

(** A limit order without a price is reported here, where its price is
    first read as a number; Python stores the [None] key and fails at the
    next comparison with it. *)
Definition _add_to_asks (self : t) (ref : nat) : res t :=
  order ← deref self ref;
  price ← number (Order.price order);
  let self := set_ask_levels self (level_add (_ask_levels self) price ref order) in
  heap' ← heapq.heappush (_ask_heap self)
            (price, Order.timestamp order, ref);
  Ok (set_ask_heap self heap').

(** The two [while] loops of [_match_market_order]. *)
Fixpoint _match_market_buy_loop (fuel : nat) (self : t) (ref : nat)
    (trades : list Trade.t) : res (t * list Trade.t) :=
  match fuel with
  | O => Stuck
  | S fuel' =>
      order ← deref self ref;
      if Qlt_bool 0 (Order.remaining order)
         && negb (Nat.eqb (length (_ask_heap self)) 0) then
        '(self, new) ← _fill_from_asks self ref;
        let trades := trades ++ new in
        if Nat.eqb (length (_ask_heap self)) 0 then Ok (self, trades)
        else _match_market_buy_loop fuel' self ref trades
      else Ok (self, trades)
  end.

Fixpoint _match_market_sell_loop (fuel : nat) (self : t) (ref : nat)
    (trades : list Trade.t) : res (t * list Trade.t) :=
  match fuel with
  | O => Stuck
  | S fuel' =>
      order ← deref self ref;
      if Qlt_bool 0 (Order.remaining order)
         && negb (Nat.eqb (length (_bid_heap self)) 0) then
        '(self, new) ← _fill_from_bids self ref;
        let trades := trades ++ new in
        if Nat.eqb (length (_bid_heap self)) 0 then Ok (self, trades)
        else _match_market_sell_loop fuel' self ref trades
      else Ok (self, trades)
  end.

Definition _match_market_order (self : t) (ref : nat)
  : res (t * list Trade.t) :=
  order ← deref self ref;
  '(self, trades) ←
    match Order.side order with
    | BUY => _match_market_buy_loop (S (S (length (_ask_heap self)))) self ref []
    | SELL => _match_market_sell_loop (S (S (length (_bid_heap self)))) self ref []
    end;
  order ← deref self ref;
  if Qlt_bool 0 (Order.remaining order)
  then Ok (store self ref (Order.set_status order st_partial), trades)
  else Ok (self, trades).

(** The two [while] loops of [_match_limit_order]. *)
Fixpoint _match_limit_buy_loop (fuel : nat) (self : t) (ref : nat)
    (trades : list Trade.t) : res (t * list Trade.t) :=
  match fuel with
  | O => Stuck
  | S fuel' =>
      order ← deref self ref;
      if negb (Qlt_bool 0 (Order.remaining order)) then Ok (self, trades)
      else
        match _ask_heap self with
        | [] => Ok (self, trades)
        | (key, _, _) :: _ =>
            price ← number (Order.price order);
            if Qle_bool key price then
              '(self, new) ← _fill_from_asks self ref;
              _match_limit_buy_loop fuel' self ref (trades ++ new)
            else Ok (self, trades)
        end
  end.

Fixpoint _match_limit_sell_loop (fuel : nat) (self : t) (ref : nat)
    (trades : list Trade.t) : res (t * list Trade.t) :=
  match fuel with
  | O => Stuck
  | S fuel' =>
      order ← deref self ref;
      if negb (Qlt_bool 0 (Order.remaining order)) then Ok (self, trades)
      else
        match _bid_heap self with
        | [] => Ok (self, trades)
        | (key, _, _) :: _ =>
            price ← number (Order.price order);
            if Qle_bool price (- key) then
              '(self, new) ← _fill_from_bids self ref;
              _match_limit_sell_loop fuel' self ref (trades ++ new)
            else Ok (self, trades)
        end
  end.

Definition _match_limit_order (self : t) (ref : nat)
  : res (t * list Trade.t) :=
  order ← deref self ref;
  match Order.side order with
  | BUY =>
      '(self, trades) ←
        _match_limit_buy_loop (S (S (length (_ask_heap self)))) self ref [];
      order ← deref self ref;
      if Qlt_bool 0 (Order.remaining order)
         && negb (bool_decide (Order.status order = st_filled)) then
        self ← _add_to_bids self ref; Ok (self, trades)
      else Ok (self, trades)
  | SELL =>
      '(self, trades) ←
        _match_limit_sell_loop (S (S (length (_bid_heap self)))) self ref [];
      order ← deref self ref;
      if Qlt_bool 0 (Order.remaining order)
         && negb (bool_decide (Order.status order = st_filled)) then
        self ← _add_to_asks self ref; Ok (self, trades)
      else Ok (self, trades)
  end.

(** The reference to the submitted object is its id. *)
Definition add_order (self : t) (order : Order.t) : res (t * list Trade.t) :=
  let ref := Order.id order in
  let self := store self ref order in
  '(self, new) ←
    match Order.order_type order with
    | MARKET => _match_market_order self ref
    | LIMIT => _match_limit_order self ref
    end;
  Ok (mk (symbol self) (_bid_heap self) (_ask_heap self)
         (_bid_levels self) (_ask_levels self) (_orders self)
         (trades self ++ new)
         (total_volume self + Qsum (Trade.quantity <$> new))%Q
         (total_trades self + length new),
      new).

(** [order.price in levels]: [None] is never a key. *)
Definition cancel_order (self : t) (order_id : nat) : res (t * bool) :=
  match _orders self !! order_id with
  | Some order =>
      let self := store self order_id (Order.cancel order) in
      self ←
        match Order.side order, Order.price order with
        | BUY, Some price => purge_bid_level self price
        | SELL, Some price => purge_ask_level self price
        | _, None => Ok self
        end;
      Ok (self, true)
  | None => Ok (self, false)
  end.

Definition live (o : Order.t) : bool :=
  negb (terminal (Order.status o)) && Qlt_bool 0 (Order.remaining o).

Fixpoint best_bid_loop (fuel : nat) (self : t) : res (t * option Q) :=
  match fuel with
  | O => Stuck
  | S fuel' =>
      match _bid_heap self with
      | [] => Ok (self, None)
      | (neg_price, ts, ref) :: _ =>
          order ← deref self ref;
          if live order then Ok (self, Some (- neg_price)%Q)
          else
            heap' ← heapq.heappop (_bid_heap self);
            best_bid_loop fuel' (set_bid_heap self heap')
      end
  end.

Definition best_bid (self : t) : res (t * option Q) :=
  best_bid_loop (S (length (_bid_heap self))) self.

Fixpoint best_ask_loop (fuel : nat) (self : t) : res (t * option Q) :=
  match fuel with
  | O => Stuck
  | S fuel' =>
      match _ask_heap self with
      | [] => Ok (self, None)
      | (price, ts, ref) :: _ =>
          order ← deref self ref;
          if live order then Ok (self, Some price)
          else
            heap' ← heapq.heappop (_ask_heap self);
            best_ask_loop fuel' (set_ask_heap self heap')
      end
  end.

Definition best_ask (self : t) : res (t * option Q) :=
  best_ask_loop (S (length (_ask_heap self))) self.

Definition spread (self : t) : res (t * option Q) :=
  '(self, bid) ← best_bid self;
  '(self, ask) ← best_ask self;
  match bid, ask with
  | Some b, Some a =>
      if truthy bid && truthy ask then Ok (self, Some (round2 (a - b)))
      else Ok (self, None)
  | _, _ => Ok (self, None)
  end.

Definition mid_price (self : t) : res (t * option Q) :=
  '(self, bid) ← best_bid self;
  '(self, ask) ← best_ask self;
  match bid, ask with
  | Some b, Some a =>
      if truthy bid && truthy ask then Ok (self, Some ((b + a) / 2)%Q)
      else Ok (self, None)
  | _, _ => Ok (self, None)
  end.

(** [d.get(k, 0)] *)
Definition dict_get_or (d : list (Q * Q)) (k : Q) (default : Q) : Q :=
  match dict_get d k with
  | Some v => v
  | None => default
  end.

(** The first loop of [get_depth]: the remaining quantity of the live
    orders of the bid heap, added up per price in heap order. *)
Fixpoint bid_depth_loop (self : t) (heap : list heapq.entry)
    (bid_depth : list (Q * Q)) : res (list (Q * Q)) :=
  match heap with
  | [] => Ok bid_depth
  | (neg_price, ts, ref) :: heap' =>
      order ← deref self ref;
      if live order then
        let price := (- neg_price)%Q in
        bid_depth_loop self heap'
          (dict_set bid_depth price
             (dict_get_or bid_depth price 0 + Order.remaining order)%Q)
      else bid_depth_loop self heap' bid_depth
  end.

Fixpoint ask_depth_loop (self : t) (heap : list heapq.entry)
    (ask_depth : list (Q * Q)) : res (list (Q * Q)) :=
  match heap with
  | [] => Ok ask_depth
  | (price, ts, ref) :: heap' =>
      order ← deref self ref;
      if live order then
        ask_depth_loop self heap'
          (dict_set ask_depth price
             (dict_get_or ask_depth price 0 + Order.remaining order)%Q)
      else ask_depth_loop self heap' ask_depth
  end.

(** [sorted(items, key=...)]: ascending in the key and stable, an item goes
    behind the items placed before it whose key is not greater. *)
Fixpoint sorted_insert (key : Q * Q → Q) (x : Q * Q) (l : list (Q * Q))
  : list (Q * Q) :=
  match l with
  | [] => [x]
  | y :: l' =>
      if Qlt_bool (key x) (key y) then x :: y :: l'
      else y :: sorted_insert key x l'
  end.

Definition sorted (key : Q * Q → Q) (l : list (Q * Q)) : list (Q * Q) :=
  fold_left (λ acc x, sorted_insert key x acc) l [].

(** [l[:n]]: a negative [n] counts from the end. *)
Definition slice_to {A : Type} (l : list A) (n : Z) : list A :=
  if (0 <=? n)%Z then take (Z.to_nat n) l
  else take (length l - Z.to_nat (- n)) l.

(** [l[i:]]: a negative [i] counts from the end. *)
Definition slice_from {A : Type} (l : list A) (i : Z) : list A :=
  if (0 <=? i)%Z then drop (Z.to_nat i) l
  else drop (length l - Z.to_nat (- i)) l.

Definition get_depth (self : t) (levels : Z)
  : res (list (Q * Q) * list (Q * Q)) :=
  bid_depth ← bid_depth_loop self (_bid_heap self) [];
  ask_depth ← ask_depth_loop self (_ask_heap self) [];
  let bids := slice_to (sorted (λ x, (- x.1)%Q) bid_depth) levels in
  let asks := slice_to (sorted (λ x, x.1) ask_depth) levels in
  Ok (bids, asks).

Definition get_trade_history (self : t) (n : Z) : list Trade.t :=
  slice_from (trades self) (- n).

End OrderBook.

(** ** Sessions: a client that creates orders and drives one book *)

Inductive command : Type :=
| Submit (side : Side) (order_type : OrderType) (quantity : Q)
         (price : option Q) (now : Q) (trader_id : string)
| Cancel (order_id : nat)
| BestBid
| BestAsk
| Spread
| MidPrice.

Record session : Type := mk_session {
  id_counter : nat;          (* [Order._id_counter] *)
  book : OrderBook.t;
}.

Definition start : session := mk_session 0 (OrderBook.__init__ "XBTUSD").

(** [order = Order(...); book.add_order(order)] *)
Definition submit (s : session) (side : Side) (order_type : OrderType)
    (quantity : Q) (price : option Q) (now : Q) (trader_id : string)
  : res (session * list Trade.t) :=
  let '(order, c) :=
    Order.__init__ (id_counter s) now side order_type quantity price trader_id in
  '(b, new) ← OrderBook.add_order (book s) order;
  Ok (mk_session c b, new).

Definition step (s : session) (c : command) : res session :=
  match c with
  | Submit side ty q p now tr =>
      '(s', _) ← submit s side ty q p now tr; Ok s'
  | Cancel oid =>
      '(b, _) ← OrderBook.cancel_order (book s) oid;
      Ok (mk_session (id_counter s) b)
  | BestBid =>
      '(b, _) ← OrderBook.best_bid (book s); Ok (mk_session (id_counter s) b)
  | BestAsk =>
      '(b, _) ← OrderBook.best_ask (book s); Ok (mk_session (id_counter s) b)
  | Spread =>
      '(b, _) ← OrderBook.spread (book s); Ok (mk_session (id_counter s) b)
  | MidPrice =>
      '(b, _) ← OrderBook.mid_price (book s); Ok (mk_session (id_counter s) b)
  end.

Fixpoint run (s : session) (cs : list command) : res session :=
  match cs with
  | [] => Ok s
  | c :: cs' => s' ← step s c; run s' cs'
  end.

(** * The same program on binary64 floats

    [Binary64] repeats the embedding above with the numbers the code
    computes with: IEEE 754 double precision ([PrimFloat.float]), each
    operation rounded to nearest, ties to even.  The control flow is that of
    the exact model line by line; [==], [<], [<=] are the IEEE comparisons
    (false on NaN, [0.0 == -0.0]). *)

Module Binary64.

(** [min(a, b)]: the first argument unless the second is smaller. *)
Definition pymin (a b : float) : float := if (b <? a)%float then b else a.

(** The rational value of a finite float, [None] for infinities and NaN. *)
Definition value (x : float) : option Q :=
  match Prim2SF x with
  | S754_zero _ => Some 0%Q
  | S754_finite s m e =>
      let v := (inject_Z (Zpos m) * 2 ^ e)%Q in
      Some (if s then (- v)%Q else v)
  | _ => None
  end.

(** [round(x, 2)] on a float: the decimal with two places nearest to the
    exact value of [x], ties to the even one, read back as the nearest
    float; a zero result keeps the sign of [x], infinities and NaN are
    returned as they are. *)
Definition pyround2 (x : float) : float :=
  match Prim2SF x with
  | S754_finite s m e =>
      match round_half_even (inject_Z (Zpos m) * 2 ^ e * 100)%Q with
      | Zpos n =>
          SF2Prim (SFdiv prec emax (S754_finite s n 0) (S754_finite false 100 0))
      | _ => if s then neg_zero else zero
      end
  | _ => x
  end.

Module heapq.

Abbreviation entry := (float * float * nat)%type.

Definition lt (a b : entry) : res bool :=
  let '(ka, ta, oa) := a in
  let '(kb, tb, ob) := b in
  if negb (ka =? kb)%float then Ok (ka <? kb)%float
  else if negb (ta =? tb)%float then Ok (ta <? tb)%float
  else if Nat.eqb oa ob then Ok false
  else TypeError.

(** [heap[i], heap[j] = heap[j], heap[i]] *)
Definition swap (heap : list entry) (i j : nat) : list entry :=
  match heap !! i, heap !! j with
  | Some x, Some y => <[i := y]> (<[j := x]> heap)
  | _, _ => heap
  end.

(** Move the item at [pos] up while it is less than its parent. *)
Fixpoint _siftdown (fuel : nat) (heap : list entry) (startpos pos : nat)
  : res (list entry) :=
  match fuel with
  | O => Stuck
  | S fuel' =>
      if startpos <? pos then
        let parentpos := (pos - 1) / 2 in
        match heap !! pos, heap !! parentpos with
        | Some newitem, Some parent =>
            b ← lt newitem parent;
            if (b : bool) then _siftdown fuel' (swap heap pos parentpos) startpos parentpos
            else Ok heap
        | _, _ => Stuck
        end
      else Ok heap
  end.

(** Bubble the smaller child up until [pos] is a leaf; returns the heap
    and the leaf reached. *)
Fixpoint _siftup_loop (fuel : nat) (heap : list entry) (pos : nat)
  : res (list entry * nat) :=
  match fuel with
  | O => Stuck
  | S fuel' =>
      let endpos := length heap in
      let childpos := 2 * pos + 1 in
      if childpos <? endpos then
        let rightpos := childpos + 1 in
        c ← (if rightpos <? endpos then
               match heap !! childpos, heap !! rightpos with
               | Some l, Some r =>
                   b ← lt l r;
                   Ok (if (b : bool) then childpos else rightpos)
               | _, _ => Stuck
               end
             else Ok childpos);
        _siftup_loop fuel' (swap heap pos c) c
      else Ok (heap, pos)
  end.

Definition _siftup (heap : list entry) (pos : nat) : res (list entry) :=
  '(heap', leaf) ← _siftup_loop (S (length heap)) heap pos;
  _siftdown (S leaf) heap' pos leaf.

Definition heappush (heap : list entry) (item : entry) : res (list entry) :=
  let heap' := heap ++ [item] in
  _siftdown (length heap') heap' 0 (length heap' - 1).

(** Returns the heap without its smallest item. *)
Definition heappop (heap : list entry) : res (list entry) :=
  match last heap with
  | None => Stuck
  | Some lastelt =>
      let heap' := removelast heap in
      match heap' with
      | [] => Ok []
      | _ :: _ => _siftup (<[0 := lastelt]> heap') 0
      end
  end.

End heapq.

Module Order.

Record t : Type := mk {
  id : nat;
  side : Side;
  order_type : OrderType;
  quantity : float;
  price : option float;
  timestamp : float;
  remaining : float;
  filled : float;
  trader_id : string;
  status : Status;
}.

(** [Order.__init__]; [_id_counter] is the class counter before the call,
    [now] the reading of the clock. *)
Definition __init__ (_id_counter : nat) (now : float)
    (side : Side) (order_type : OrderType) (quantity : float)
    (price : option float) (trader_id : string) : t * nat :=
  let _id_counter := S _id_counter in
  (mk _id_counter side order_type quantity price now quantity 0%float
      trader_id st_open,
   _id_counter).

Definition fill (self : t) (quantity : float) : t * float :=
  let quantity := pymin quantity (remaining self) in
  let filled' := (filled self + quantity)%float in
  let remaining' := (remaining self - quantity)%float in
  let status' := if (remaining' =? 0)%float then st_filled else st_partial in
  (mk (id self) (side self) (order_type self) (Order.quantity self)
      (price self) (timestamp self) remaining' filled' (trader_id self)
      status',
   quantity).

Definition cancel (self : t) : t :=
  mk (id self) (side self) (order_type self) (quantity self)
     (price self) (timestamp self) (remaining self) (filled self)
     (trader_id self) st_cancelled.

Definition set_status (self : t) (s : Status) : t :=
  mk (id self) (side self) (order_type self) (quantity self)
     (price self) (timestamp self) (remaining self) (filled self)
     (trader_id self) s.

Definition fill_pct (self : t) : float :=
  if (0 <? quantity self)%float
  then ((filled self / quantity self) * 100)%float
  else 0%float.

End Order.

Module Trade.

Record t : Type := mk {
  buy_order_id : nat;
  sell_order_id : nat;
  price : float;
  quantity : float;
}.

End Trade.

(** Python's [sum] over a generator of floats: starts from [0] and adds from
    the left, each addition rounded (CPython up to 3.11; later versions
    compensate the rounding inside one [sum]). *)
Definition fsum (l : list float) : float := fold_left PrimFloat.add l 0%float.

(** The objects behind a list of references. *)
Fixpoint deref_all (objs : gmap nat Order.t) (refs : list nat)
  : res (list Order.t) :=
  match refs with
  | [] => Ok []
  | r :: refs' =>
      match objs !! r with
      | Some o => os ← deref_all objs refs'; Ok (o :: os)
      | None => Stuck
      end
  end.

Module PriceLevel.

Record t : Type := mk {
  price : float;
  orders : list nat;
  total_quantity : float;
}.

Definition __init__ (price : float) : t := mk price [] 0%float.

Definition add_order (self : t) (ref : nat) (order : Order.t) : t :=
  mk (price self) (orders self ++ [ref])
     (total_quantity self + Order.remaining order)%float.

Definition keeps (o : Order.t) : bool :=
  (0 <? Order.remaining o)%float && negb (terminal (Order.status o)).

Definition remove_filled (objs : gmap nat Order.t) (self : t) : res t :=
  os ← deref_all objs (orders self);
  let kept := List.filter (λ ro, keeps ro.2) (zip (orders self) os) in
  Ok (mk (price self) (kept.*1) (fsum (Order.remaining <$> kept.*2))).

Definition is_empty (self : t) : bool :=
  Nat.eqb (length (orders self)) 0 || (total_quantity self =? 0)%float.

End PriceLevel.

(** A Python [dict] keyed by floats: keys are compared with [==], so [0.0]
    and [-0.0] are one key; an existing key keeps its place when its value is
    replaced.  A NaN key, which Python finds again only through the identity
    of the object, is never found here. *)
Section float_dict.
Context {V : Type}.

Fixpoint dict_get (d : list (float * V)) (k : float) : option V :=
  match d with
  | [] => None
  | (k', v) :: d' => if (k =? k')%float then Some v else dict_get d' k
  end.

Fixpoint dict_set (d : list (float * V)) (k : float) (v : V) : list (float * V) :=
  match d with
  | [] => [(k, v)]
  | (k', v') :: d' =>
      if (k =? k')%float then (k', v) :: d' else (k', v') :: dict_set d' k v
  end.
End float_dict.

(** Truth value of [best_bid()]'s result in [if bid and ask]: [None],
    [0.0] and [-0.0] are false. *)
Definition truthy (x : option float) : bool :=
  match x with
  | None => false
  | Some v => negb (v =? 0)%float
  end.

Module OrderBook.

Record t : Type := mk {
  symbol : string;
  _bid_heap : list heapq.entry;   (* (-price, timestamp, order) *)
  _ask_heap : list heapq.entry;   (* (price, timestamp, order) *)
  _bid_levels : list (float * PriceLevel.t);
  _ask_levels : list (float * PriceLevel.t);
  _orders : gmap nat Order.t;
  trades : list Trade.t;
  total_volume : float;
  total_trades : nat;
}.

Definition __init__ (symbol : string) : t :=
  mk symbol [] [] [] [] ∅ [] 0%float 0.

Definition set_bid_heap (self : t) (h : list heapq.entry) : t :=
  mk (symbol self) h (_ask_heap self) (_bid_levels self) (_ask_levels self)
     (_orders self) (trades self) (total_volume self) (total_trades self).

Definition set_ask_heap (self : t) (h : list heapq.entry) : t :=
  mk (symbol self) (_bid_heap self) h (_bid_levels self) (_ask_levels self)
     (_orders self) (trades self) (total_volume self) (total_trades self).

Definition set_bid_levels (self : t) (l : list (float * PriceLevel.t)) : t :=
  mk (symbol self) (_bid_heap self) (_ask_heap self) l (_ask_levels self)
     (_orders self) (trades self) (total_volume self) (total_trades self).

Definition set_ask_levels (self : t) (l : list (float * PriceLevel.t)) : t :=
  mk (symbol self) (_bid_heap self) (_ask_heap self) (_bid_levels self) l
     (_orders self) (trades self) (total_volume self) (total_trades self).

(** Writing through a reference to an order object. *)
Definition store (self : t) (ref : nat) (o : Order.t) : t :=
  mk (symbol self) (_bid_heap self) (_ask_heap self) (_bid_levels self)
     (_ask_levels self) (<[ref := o]> (_orders self)) (trades self)
     (total_volume self) (total_trades self).

(** Reading through a reference to an order object. *)
Definition deref (self : t) (ref : nat) : res Order.t :=
  match _orders self !! ref with
  | Some o => Ok o
  | None => Stuck
  end.

(** The price of an order read as a number. *)
Definition number (p : option float) : res float :=
  match p with
  | Some x => Ok x
  | None => TypeError
  end.

(** [aggressive_order.order_type == OrderType.LIMIT and
     best_price > aggressive_order.price] *)
Definition ask_too_high (agg : Order.t) (best_price : float) : res bool :=
  match Order.order_type agg with
  | LIMIT => p ← number (Order.price agg); Ok (p <? best_price)%float
  | MARKET => Ok false
  end.

(** [aggressive_order.order_type == OrderType.LIMIT and
     best_price < aggressive_order.price] *)
Definition bid_too_low (agg : Order.t) (best_price : float) : res bool :=
  match Order.order_type agg with
  | LIMIT => p ← number (Order.price agg); Ok (best_price <? p)%float
  | MARKET => Ok false
  end.

(** [if best_price in self._ask_levels:
       self._ask_levels[best_price].remove_filled()] *)
Definition purge_ask_level (self : t) (best_price : float) : res t :=
  match dict_get (_ask_levels self) best_price with
  | Some lvl =>
      lvl' ← PriceLevel.remove_filled (_orders self) lvl;
      Ok (set_ask_levels self (dict_set (_ask_levels self) best_price lvl'))
  | None => Ok self
  end.

Definition purge_bid_level (self : t) (best_price : float) : res t :=
  match dict_get (_bid_levels self) best_price with
  | Some lvl =>
      lvl' ← PriceLevel.remove_filled (_orders self) lvl;
      Ok (set_bid_levels self (dict_set (_bid_levels self) best_price lvl'))
  | None => Ok self
  end.

(** The [while] loop of [_fill_from_asks]; [trades] is the list built so
    far. *)
Fixpoint _fill_from_asks_loop (fuel : nat) (self : t)
    (aggressive_order : nat) (trades : list Trade.t)
  : res (t * list Trade.t) :=
  match fuel with
  | O => Stuck
  | S fuel' =>
      agg ← deref self aggressive_order;
      match _ask_heap self with
      | [] => Ok (self, trades)
      | (best_price, ts, passive_order) :: _ =>
          if negb ((0 <? Order.remaining agg)%float) then Ok (self, trades)
          else
            passive ← deref self passive_order;
            if terminal (Order.status passive) then
              heap' ← heapq.heappop (_ask_heap self);
              _fill_from_asks_loop fuel' (set_ask_heap self heap')
                aggressive_order trades
            else
              stop ← ask_too_high agg best_price;
              if (stop : bool) then Ok (self, trades)
              else
                let fill_qty :=
                  pymin (Order.remaining agg) (Order.remaining passive) in
                let self := store self aggressive_order
                              (Order.fill agg fill_qty).1 in
                passive ← deref self passive_order;
                let self := store self passive_order
                              (Order.fill passive fill_qty).1 in
                agg ← deref self aggressive_order;
                passive ← deref self passive_order;
                let trade := Trade.mk (Order.id agg) (Order.id passive)
                               best_price fill_qty in
                let trades := trades ++ [trade] in
                if (Order.remaining passive =? 0)%float then
                  heap' ← heapq.heappop (_ask_heap self);
                  self ← purge_ask_level (set_ask_heap self heap') best_price;
                  _fill_from_asks_loop fuel' self aggressive_order trades
                else
                  _fill_from_asks_loop fuel' self aggressive_order trades
      end
  end.

Definition _fill_from_asks (self : t) (aggressive_order : nat)
  : res (t * list Trade.t) :=
  _fill_from_asks_loop (S (S (length (_ask_heap self)))) self
    aggressive_order [].

Fixpoint _fill_from_bids_loop (fuel : nat) (self : t)
    (aggressive_order : nat) (trades : list Trade.t)
  : res (t * list Trade.t) :=
  match fuel with
  | O => Stuck
  | S fuel' =>
      agg ← deref self aggressive_order;
      match _bid_heap self with
      | [] => Ok (self, trades)
      | (neg_price, ts, passive_order) :: _ =>
          if negb ((0 <? Order.remaining agg)%float) then Ok (self, trades)
          else
            let best_price := (- neg_price)%float in
            passive ← deref self passive_order;
            if terminal (Order.status passive) then
              heap' ← heapq.heappop (_bid_heap self);
              _fill_from_bids_loop fuel' (set_bid_heap self heap')
                aggressive_order trades
            else
              stop ← bid_too_low agg best_price;
              if (stop : bool) then Ok (self, trades)
              else
                let fill_qty :=
                  pymin (Order.remaining agg) (Order.remaining passive) in
                let self := store self aggressive_order
                              (Order.fill agg fill_qty).1 in
                passive ← deref self passive_order;
                let self := store self passive_order
                              (Order.fill passive fill_qty).1 in
                agg ← deref self aggressive_order;
                passive ← deref self passive_order;
                let trade := Trade.mk (Order.id passive) (Order.id agg)
                               best_price fill_qty in
                let trades := trades ++ [trade] in
                if (Order.remaining passive =? 0)%float then
                  heap' ← heapq.heappop (_bid_heap self);
                  self ← purge_bid_level (set_bid_heap self heap') best_price;
                  _fill_from_bids_loop fuel' self aggressive_order trades
                else
                  _fill_from_bids_loop fuel' self aggressive_order trades
      end
  end.

Definition _fill_from_bids (self : t) (aggressive_order : nat)
  : res (t * list Trade.t) :=
  _fill_from_bids_loop (S (S (length (_bid_heap self)))) self
    aggressive_order [].

(** [if price not in levels: levels[price] = PriceLevel(price)]
    followed by [levels[price].add_order(order)]. *)
Definition level_add (levels : list (float * PriceLevel.t)) (price : float)
    (ref : nat) (order : Order.t) : list (float * PriceLevel.t) :=
  let lvl := match dict_get levels price with
             | Some lvl => lvl
             | None => PriceLevel.__init__ price
             end in
  dict_set levels price (PriceLevel.add_order lvl ref order).

Definition _add_to_bids (self : t) (ref : nat) : res t :=
  order ← deref self ref;
  price ← number (Order.price order);
  let self := set_bid_levels self (level_add (_bid_levels self) price ref order) in
  heap' ← heapq.heappush (_bid_heap self)
            ((- price)%float, Order.timestamp order, ref);
  Ok (set_bid_heap self heap').

(** A limit order without a price is reported here, where its price is
    first read as a number; Python stores the [None] key and fails at the
    next comparison with it. *)
Definition _add_to_asks (self : t) (ref : nat) : res t :=
  order ← deref self ref;
  price ← number (Order.price order);
  let self := set_ask_levels self (level_add (_ask_levels self) price ref order) in
  heap' ← heapq.heappush (_ask_heap self)
            (price, Order.timestamp order, ref);
  Ok (set_ask_heap self heap').

(** The two [while] loops of [_match_market_order]. *)
Fixpoint _match_market_buy_loop (fuel : nat) (self : t) (ref : nat)
    (trades : list Trade.t) : res (t * list Trade.t) :=
  match fuel with
  | O => Stuck
  | S fuel' =>
      order ← deref self ref;
      if (0 <? Order.remaining order)%float
         && negb (Nat.eqb (length (_ask_heap self)) 0) then
        '(self, new) ← _fill_from_asks self ref;
        let trades := trades ++ new in
        if Nat.eqb (length (_ask_heap self)) 0 then Ok (self, trades)
        else _match_market_buy_loop fuel' self ref trades
      else Ok (self, trades)
  end.

Fixpoint _match_market_sell_loop (fuel : nat) (self : t) (ref : nat)
    (trades : list Trade.t) : res (t * list Trade.t) :=
  match fuel with
  | O => Stuck
  | S fuel' =>
      order ← deref self ref;
      if (0 <? Order.remaining order)%float
         && negb (Nat.eqb (length (_bid_heap self)) 0) then
        '(self, new) ← _fill_from_bids self ref;
        let trades := trades ++ new in
        if Nat.eqb (length (_bid_heap self)) 0 then Ok (self, trades)
        else _match_market_sell_loop fuel' self ref trades
      else Ok (self, trades)
  end.

Definition _match_market_order (self : t) (ref : nat)
  : res (t * list Trade.t) :=
  order ← deref self ref;
  '(self, trades) ←
    match Order.side order with
    | BUY => _match_market_buy_loop (S (S (length (_ask_heap self)))) self ref []
    | SELL => _match_market_sell_loop (S (S (length (_bid_heap self)))) self ref []
    end;
  order ← deref self ref;
  if (0 <? Order.remaining order)%float
  then Ok (store self ref (Order.set_status order st_partial), trades)
  else Ok (self, trades).

(** The two [while] loops of [_match_limit_order]. *)
Fixpoint _match_limit_buy_loop (fuel : nat) (self : t) (ref : nat)
    (trades : list Trade.t) : res (t * list Trade.t) :=
  match fuel with
  | O => Stuck
  | S fuel' =>
      order ← deref self ref;
      if negb ((0 <? Order.remaining order)%float) then Ok (self, trades)
      else
        match _ask_heap self with
        | [] => Ok (self, trades)
        | (key, _, _) :: _ =>
            price ← number (Order.price order);
            if (key <=? price)%float then
              '(self, new) ← _fill_from_asks self ref;
              _match_limit_buy_loop fuel' self ref (trades ++ new)
            else Ok (self, trades)
        end
  end.

Fixpoint _match_limit_sell_loop (fuel : nat) (self : t) (ref : nat)
    (trades : list Trade.t) : res (t * list Trade.t) :=
  match fuel with
  | O => Stuck
  | S fuel' =>
      order ← deref self ref;
      if negb ((0 <? Order.remaining order)%float) then Ok (self, trades)
      else
        match _bid_heap self with
        | [] => Ok (self, trades)
        | (key, _, _) :: _ =>
            price ← number (Order.price order);
            if (price <=? - key)%float then
              '(self, new) ← _fill_from_bids self ref;
              _match_limit_sell_loop fuel' self ref (trades ++ new)
            else Ok (self, trades)
        end
  end.

Definition _match_limit_order (self : t) (ref : nat)
  : res (t * list Trade.t) :=
  order ← deref self ref;
  match Order.side order with
  | BUY =>
      '(self, trades) ←
        _match_limit_buy_loop (S (S (length (_ask_heap self)))) self ref [];
      order ← deref self ref;
      if (0 <? Order.remaining order)%float
         && negb (bool_decide (Order.status order = st_filled)) then
        self ← _add_to_bids self ref; Ok (self, trades)
      else Ok (self, trades)
  | SELL =>
      '(self, trades) ←
        _match_limit_sell_loop (S (S (length (_bid_heap self)))) self ref [];
      order ← deref self ref;
      if (0 <? Order.remaining order)%float
         && negb (bool_decide (Order.status order = st_filled)) then
        self ← _add_to_asks self ref; Ok (self, trades)
      else Ok (self, trades)
  end.

(** The reference to the submitted object is its id. *)
Definition add_order (self : t) (order : Order.t) : res (t * list Trade.t) :=
  let ref := Order.id order in
  let self := store self ref order in
  '(self, new) ←
    match Order.order_type order with
    | MARKET => _match_market_order self ref
    | LIMIT => _match_limit_order self ref
    end;
  Ok (mk (symbol self) (_bid_heap self) (_ask_heap self)
         (_bid_levels self) (_ask_levels self) (_orders self)
         (trades self ++ new)
         (total_volume self + fsum (Trade.quantity <$> new))%float
         (total_trades self + length new),
      new).

(** [order.price in levels]: [None] is never a key. *)
Definition cancel_order (self : t) (order_id : nat) : res (t * bool) :=
  match _orders self !! order_id with
  | Some order =>
      let self := store self order_id (Order.cancel order) in
      self ←
        match Order.side order, Order.price order with
        | BUY, Some price => purge_bid_level self price
        | SELL, Some price => purge_ask_level self price
        | _, None => Ok self
        end;
      Ok (self, true)
  | None => Ok (self, false)
  end.

Definition live (o : Order.t) : bool :=
  negb (terminal (Order.status o)) && (0 <? Order.remaining o)%float.

Fixpoint best_bid_loop (fuel : nat) (self : t) : res (t * option float) :=
  match fuel with
  | O => Stuck
  | S fuel' =>
      match _bid_heap self with
      | [] => Ok (self, None)
      | (neg_price, ts, ref) :: _ =>
          order ← deref self ref;
          if live order then Ok (self, Some (- neg_price)%float)
          else
            heap' ← heapq.heappop (_bid_heap self);
            best_bid_loop fuel' (set_bid_heap self heap')
      end
  end.

Definition best_bid (self : t) : res (t * option float) :=
  best_bid_loop (S (length (_bid_heap self))) self.

Fixpoint best_ask_loop (fuel : nat) (self : t) : res (t * option float) :=
  match fuel with
  | O => Stuck
  | S fuel' =>
      match _ask_heap self with
      | [] => Ok (self, None)
      | (price, ts, ref) :: _ =>
          order ← deref self ref;
          if live order then Ok (self, Some price)
          else
            heap' ← heapq.heappop (_ask_heap self);
            best_ask_loop fuel' (set_ask_heap self heap')
      end
  end.

Definition best_ask (self : t) : res (t * option float) :=
  best_ask_loop (S (length (_ask_heap self))) self.

Definition spread (self : t) : res (t * option float) :=
  '(self, bid) ← best_bid self;
  '(self, ask) ← best_ask self;
  match bid, ask with
  | Some b, Some a =>
      if truthy bid && truthy ask then Ok (self, Some (pyround2 (a - b)))
      else Ok (self, None)
  | _, _ => Ok (self, None)
  end.

Definition mid_price (self : t) : res (t * option float) :=
  '(self, bid) ← best_bid self;
  '(self, ask) ← best_ask self;
  match bid, ask with
  | Some b, Some a =>
      if truthy bid && truthy ask then Ok (self, Some ((b + a) / 2)%float)
      else Ok (self, None)
  | _, _ => Ok (self, None)
  end.

End OrderBook.

(** ** Sessions: a client that creates orders and drives one book *)

Inductive command : Type :=
| Submit (side : Side) (order_type : OrderType) (quantity : float)
         (price : option float) (now : float) (trader_id : string)
| Cancel (order_id : nat)
| BestBid
| BestAsk
| Spread
| MidPrice.

Record session : Type := mk_session {
  id_counter : nat;          (* [Order._id_counter] *)
  book : OrderBook.t;
}.

Definition start : session := mk_session 0 (OrderBook.__init__ "XBTUSD").

(** [order = Order(...); book.add_order(order)] *)
Definition submit (s : session) (side : Side) (order_type : OrderType)
    (quantity : float) (price : option float) (now : float) (trader_id : string)
  : res (session * list Trade.t) :=
  let '(order, c) :=
    Order.__init__ (id_counter s) now side order_type quantity price trader_id in
  '(b, new) ← OrderBook.add_order (book s) order;
  Ok (mk_session c b, new).

Definition step (s : session) (c : command) : res session :=
  match c with
  | Submit side ty q p now tr =>
      '(s', _) ← submit s side ty q p now tr; Ok s'
  | Cancel oid =>
      '(b, _) ← OrderBook.cancel_order (book s) oid;
      Ok (mk_session (id_counter s) b)
  | BestBid =>
      '(b, _) ← OrderBook.best_bid (book s); Ok (mk_session (id_counter s) b)
  | BestAsk =>
      '(b, _) ← OrderBook.best_ask (book s); Ok (mk_session (id_counter s) b)
  | Spread =>
      '(b, _) ← OrderBook.spread (book s); Ok (mk_session (id_counter s) b)
  | MidPrice =>
      '(b, _) ← OrderBook.mid_price (book s); Ok (mk_session (id_counter s) b)
  end.

Fixpoint run (s : session) (cs : list command) : res session :=
  match cs with
  | [] => Ok s
  | c :: cs' => s' ← step s c; run s' cs'
  end.

(** Direct calls on an order object. *)
Inductive order_call : Type :=
| CallFill (quantity : float)
| CallCancel.

Definition apply_call (o : Order.t) (c : order_call) : Order.t :=
  match c with
  | CallFill q => (Order.fill o q).1
  | CallCancel => Order.cancel o
  end.

Definition apply_calls (o : Order.t) (cs : list order_call) : Order.t :=
  fold_left apply_call cs o.

End Binary64.

Import OrderBook.

(* ================================================================= *)
(** * Specification *)

(** ** The heap order
    Entries are ordered by key, then by timestamp; a list is a heap when no
    entry is below its parent. *)

Definition parent (i : nat) : nat := (i - 1) / 2.
Definition key_lt (a b : heapq.entry) : Prop :=
  (a.1.1 < b.1.1)%Q ∨ (a.1.1 == b.1.1 ∧ a.1.2 < b.1.2)%Q.
Definition key_le (a b : heapq.entry) : Prop :=
  (a.1.1 < b.1.1)%Q ∨ (a.1.1 == b.1.1 ∧ a.1.2 <= b.1.2)%Q.
Definition heap_ok (h : list heapq.entry) : Prop :=
  ∀ i x p, 0 < i → h !! i = Some x → h !! parent i = Some p → key_le p x.
Definition edges_above (h : list heapq.entry) (pos : nat) : Prop :=
  ∀ c x g, 0 < pos → 0 < c → parent c = pos →
    h !! c = Some x → h !! parent pos = Some g → key_le g x.
Definition inv_down (h : list heapq.entry) (pos : nat) : Prop :=
  (∀ i x p, 0 < i → i ≠ pos →
     h !! i = Some x → h !! parent i = Some p → key_le p x)
  ∧ edges_above h pos.
Definition inv_up (h : list heapq.entry) (pos : nat) : Prop :=
  (∀ i x p, 0 < i → i ≠ pos → parent i ≠ pos →
     h !! i = Some x → h !! parent i = Some p → key_le p x)
  ∧ edges_above h pos.
Definition tie_free (h : list heapq.entry) : Prop :=
  ∀ a b, a ∈ h → b ∈ h → ∃ c, heapq.lt a b = Ok c.

(** The child that [_siftup] moves up is the smaller one. *)
Definition smaller_child (h : list heapq.entry) (pos c : nat) : Prop :=
  c < length h ∧ (c = 2 * pos + 1 ∨ c = 2 * pos + 2) ∧
  ∀ i x y, 0 < i → parent i = pos → i ≠ c →
    h !! i = Some x → h !! c = Some y → key_le y x.

(** ** Both sides at once
    [_fill_from_asks] and [_fill_from_bids], the two loops of
    [_match_market_order] and of [_match_limit_order], [_add_to_bids] and
    [_add_to_asks], [best_bid] and [best_ask] are mirror images.  The
    definitions below take the side as a parameter; the functions of the
    book are shown equal to them and the properties are proved once. *)

Definition opposite (s : Side) : Side :=
  match s with BUY => SELL | SELL => BUY end.

Definition heap_of (s : Side) (b : OrderBook.t) : list heapq.entry :=
  match s with BUY => _bid_heap b | SELL => _ask_heap b end.

Definition levels_of (s : Side) (b : OrderBook.t) : list (Q * PriceLevel.t) :=
  match s with BUY => _bid_levels b | SELL => _ask_levels b end.

Definition set_heap (s : Side) (b : OrderBook.t) (h : list heapq.entry)
  : OrderBook.t :=
  match s with BUY => set_bid_heap b h | SELL => set_ask_heap b h end.

Definition set_levels (s : Side) (b : OrderBook.t)
    (l : list (Q * PriceLevel.t)) : OrderBook.t :=
  match s with BUY => set_bid_levels b l | SELL => set_ask_levels b l end.

(** The heap key of a resting order and the price read back from a key. *)
Definition key_of (s : Side) (price : Q) : Q :=
  match s with BUY => (- price)%Q | SELL => price end.

Definition price_of_key (s : Side) (key : Q) : Q :=
  match s with BUY => (- key)%Q | SELL => key end.

Definition too_far (s : Side) (agg : Order.t) (best_price : Q) : res bool :=
  match s with
  | BUY => bid_too_low agg best_price
  | SELL => ask_too_high agg best_price
  end.

Definition mk_trade (s : Side) (agg passive : Order.t) (price qty : Q)
  : Trade.t :=
  match s with
  | BUY => Trade.mk (Order.id passive) (Order.id agg) price qty
  | SELL => Trade.mk (Order.id agg) (Order.id passive) price qty
  end.

Definition purge_level (s : Side) (b : OrderBook.t) (price : Q)
  : res OrderBook.t :=
  match s with
  | BUY => purge_bid_level b price
  | SELL => purge_ask_level b price
  end.

(** One turn of the loop of [_fill_from_asks] ([s = SELL]) or
    [_fill_from_bids] ([s = BUY]). *)
Inductive fill_outcome : Type :=
| FillDone
| FillNext (b : OrderBook.t) (t : option Trade.t).

Definition fill_step (s : Side) (self : OrderBook.t) (a : nat)
  : res fill_outcome :=
  agg ← deref self a;
  match heap_of s self with
  | [] => Ok FillDone
  | (key, ts, r) :: _ =>
      if negb (Qlt_bool 0 (Order.remaining agg)) then Ok FillDone
      else
        let best_price := price_of_key s key in
        passive ← deref self r;
        if terminal (Order.status passive) then
          heap' ← heapq.heappop (heap_of s self);
          Ok (FillNext (set_heap s self heap') None)
        else
          stop ← too_far s agg best_price;
          if (stop : bool) then Ok FillDone
          else
            let fill_qty :=
              Qmin (Order.remaining agg) (Order.remaining passive) in
            let self := store self a (Order.fill agg fill_qty).1 in
            passive ← deref self r;
            let self := store self r (Order.fill passive fill_qty).1 in
            agg ← deref self a;
            passive ← deref self r;
            let trade := mk_trade s agg passive best_price fill_qty in
            if Qeq_bool (Order.remaining passive) 0 then
              heap' ← heapq.heappop (heap_of s self);
              self ← purge_level s (set_heap s self heap') best_price;
              Ok (FillNext self (Some trade))
            else Ok (FillNext self (Some trade))
  end.

Definition add_trade (trades : list Trade.t) (t : option Trade.t)
  : list Trade.t :=
  match t with Some x => trades ++ [x] | None => trades end.

Fixpoint fill_loop (s : Side) (fuel : nat) (self : OrderBook.t) (a : nat)
    (trades : list Trade.t) : res (OrderBook.t * list Trade.t) :=
  match fuel with
  | O => Stuck
  | S fuel' =>
      r ← fill_step s self a;
      match r with
      | FillDone => Ok (self, trades)
      | FillNext self' t => fill_loop s fuel' self' a (add_trade trades t)
      end
  end.

Definition fill_from (s : Side) (self : OrderBook.t) (a : nat)
  : res (OrderBook.t * list Trade.t) :=
  fill_loop s (S (S (length (heap_of s self)))) self a [].

Fixpoint market_loop (s : Side) (fuel : nat) (self : OrderBook.t) (ref : nat)
    (trades : list Trade.t) : res (OrderBook.t * list Trade.t) :=
  match fuel with
  | O => Stuck
  | S fuel' =>
      order ← deref self ref;
      if Qlt_bool 0 (Order.remaining order)
         && negb (Nat.eqb (length (heap_of s self)) 0) then
        '(self, new) ← fill_from s self ref;
        let trades := trades ++ new in
        if Nat.eqb (length (heap_of s self)) 0 then Ok (self, trades)
        else market_loop s fuel' self ref trades
      else Ok (self, trades)
  end.

Definition marketable (s : Side) (key price : Q) : bool :=
  match s with
  | BUY => Qle_bool price (- key)
  | SELL => Qle_bool key price
  end.

Fixpoint limit_loop (s : Side) (fuel : nat) (self : OrderBook.t) (ref : nat)
    (trades : list Trade.t) : res (OrderBook.t * list Trade.t) :=
  match fuel with
  | O => Stuck
  | S fuel' =>
      order ← deref self ref;
      if negb (Qlt_bool 0 (Order.remaining order)) then Ok (self, trades)
      else
        match heap_of s self with
        | [] => Ok (self, trades)
        | (key, _, _) :: _ =>
            price ← number (Order.price order);
            if marketable s key price then
              '(self, new) ← fill_from s self ref;
              limit_loop s fuel' self ref (trades ++ new)
            else Ok (self, trades)
        end
  end.

Definition add_to (s : Side) (self : OrderBook.t) (ref : nat)
  : res OrderBook.t :=
  order ← deref self ref;
  price ← number (Order.price order);
  let self := set_levels s self (level_add (levels_of s self) price ref order) in
  heap' ← heapq.heappush (heap_of s self)
            (key_of s price, Order.timestamp order, ref);
  Ok (set_heap s self heap').

(** Matching of a market order against the resting side [s]. *)
Definition market_side (s : Side) (self : OrderBook.t) (ref : nat)
  : res (OrderBook.t * list Trade.t) :=
  '(self, trades) ←
    market_loop s (S (S (length (heap_of s self)))) self ref [];
  order ← deref self ref;
  if Qlt_bool 0 (Order.remaining order)
  then Ok (store self ref (Order.set_status order st_partial), trades)
  else Ok (self, trades).

(** Matching of a limit order against the resting side [s]; the remainder
    rests on the other side. *)
Definition limit_side (s : Side) (self : OrderBook.t) (ref : nat)
  : res (OrderBook.t * list Trade.t) :=
  '(self, trades) ←
    limit_loop s (S (S (length (heap_of s self)))) self ref [];
  order ← deref self ref;
  if Qlt_bool 0 (Order.remaining order)
     && negb (bool_decide (Order.status order = st_filled)) then
    self ← add_to (opposite s) self ref; Ok (self, trades)
  else Ok (self, trades).

Fixpoint best_loop (s : Side) (fuel : nat) (self : OrderBook.t)
  : res (OrderBook.t * option Q) :=
  match fuel with
  | O => Stuck
  | S fuel' =>
      match heap_of s self with
      | [] => Ok (self, None)
      | (key, ts, ref) :: _ =>
          order ← deref self ref;
          if live order then Ok (self, Some (price_of_key s key))
          else
            heap' ← heapq.heappop (heap_of s self);
            best_loop s fuel' (set_heap s self heap')
      end
  end.

Definition best (s : Side) (self : OrderBook.t) : res (OrderBook.t * option Q) :=
  best_loop s (S (length (heap_of s self))) self.

(** ** Well-formed books *)

(** What [Order.fill], [Order.cancel] and the matching engine never change. *)
Definition same_identity (o o' : Order.t) : Prop :=
  Order.id o' = Order.id o ∧ Order.side o' = Order.side o ∧
  Order.order_type o' = Order.order_type o ∧
  Order.quantity o' = Order.quantity o ∧ Order.price o' = Order.price o ∧
  Order.timestamp o' = Order.timestamp o.

Definition conserved (o : Order.t) : Prop :=
  (Order.filled o + Order.remaining o == Order.quantity o)%Q.

Record wf (b : OrderBook.t) : Prop := mk_wf {
  wf_id : ∀ r o, _orders b !! r = Some o → Order.id o = r;
  wf_conserved : ∀ r o, _orders b !! r = Some o → conserved o;
  wf_heap : ∀ s k ts r, (k, ts, r) ∈ heap_of s b →
    ∃ o p, _orders b !! r = Some o ∧ Order.side o = s ∧
           Order.price o = Some p ∧ k = key_of s p ∧ ts = Order.timestamp o;
  wf_nodup : ∀ s, NoDup ((heap_of s b).*2);
  wf_heap_ok : ∀ s, heap_ok (heap_of s b);
  wf_levels : ∀ s p lvl r, (p, lvl) ∈ levels_of s b →
    r ∈ PriceLevel.orders lvl → is_Some (_orders b !! r);
  wf_trades : total_trades b = length (trades b);
  wf_volume : (total_volume b == Qsum (Trade.quantity <$> trades b))%Q;
}.

(** What matching against the resting side [s] leaves in place. *)
Record frame (s : Side) (b b' : OrderBook.t) : Prop := mk_frame {
  fr_store : ∀ r, option_Forall2 same_identity (_orders b !! r) (_orders b' !! r);
  fr_heap : heap_of s b' ⊆+ heap_of s b;
  fr_other_heap : heap_of (opposite s) b' = heap_of (opposite s) b;
  fr_other_levels : levels_of (opposite s) b' = levels_of (opposite s) b;
  fr_trades : trades b' = trades b;
  fr_volume : total_volume b' = total_volume b;
  fr_count : total_trades b' = total_trades b;
}.

(** ** One turn of the matching loop *)

Inductive step_spec (s : Side) (a : nat) (b : OrderBook.t)
  : OrderBook.t → option Trade.t → Prop :=
| step_stale k ts r h agg passive h' :
    _orders b !! a = Some agg → (0 < Order.remaining agg)%Q →
    heap_of s b = (k, ts, r) :: h →
    _orders b !! r = Some passive →
    terminal (Order.status passive) = true →
    heapq.heappop (heap_of s b) = Ok h' →
    step_spec s a b (set_heap s b h') None
| step_match k ts r h agg passive b' :
    _orders b !! a = Some agg → (0 < Order.remaining agg)%Q →
    heap_of s b = (k, ts, r) :: h →
    _orders b !! r = Some passive →
    terminal (Order.status passive) = false →
    too_far s agg (price_of_key s k) = Ok false →
    r ≠ a →
    let q := Qmin (Order.remaining agg) (Order.remaining passive) in
    let agg' := (Order.fill agg q).1 in
    let passive' := (Order.fill passive q).1 in
    let b2 := store (store b a agg') r passive' in
    (if Qeq_bool (Order.remaining passive') 0
     then ∃ h', heapq.heappop (heap_of s b) = Ok h' ∧
                purge_level s (set_heap s b2 h') (price_of_key s k) = Ok b'
     else b' = b2) →
    step_spec s a b b'
      (Some (mk_trade s agg' passive' (price_of_key s k) q)).

(** The closure of the turns of the loop: from a book and the trades so
    far to a later book and its trades. *)
Inductive fills (s : Side) (a : nat)
  : OrderBook.t → list Trade.t → OrderBook.t → list Trade.t → Prop :=
| fills_refl b T : fills s a b T b T
| fills_step b T b1 ot b' T' :
    fill_step s b a = Ok (FillNext b1 ot) →
    fills s a b1 (add_trade T ot) b' T' →
    fills s a b T b' T'.

(** *** The trades of a matching run *)

Definition passive_ref (s : Side) (t : Trade.t) : nat :=
  match s with
  | BUY => Trade.buy_order_id t
  | SELL => Trade.sell_order_id t
  end.

Definition aggressor_ref (s : Side) (t : Trade.t) : nat :=
  match s with
  | BUY => Trade.sell_order_id t
  | SELL => Trade.buy_order_id t
  end.

(** A trade of the aggressor [a] against an order resting on side [s]: it is
    priced at the limit price of the resting order. *)
Definition trade_ok (s : Side) (a : nat) (b : OrderBook.t) (t : Trade.t)
  : Prop :=
  aggressor_ref s t = a ∧ passive_ref s t ≠ a ∧
  ∃ o p, _orders b !! passive_ref s t = Some o ∧ Order.side o = s ∧
         Order.price o = Some p ∧ (Trade.price t == p)%Q.

(** The order objects keep their identity, none appears or disappears. *)
Definition store_ext (b b' : OrderBook.t) : Prop :=
  ∀ r, option_Forall2 same_identity (_orders b !! r) (_orders b' !! r).

Definition same_history (b b' : OrderBook.t) : Prop :=
  trades b' = trades b ∧ total_volume b' = total_volume b ∧
  total_trades b' = total_trades b.

(** ** Sessions *)

Definition session_ok (s : session) : Prop :=
  wf (book s) ∧ ∀ r, is_Some (_orders (book s) !! r) → r ≤ id_counter s.

(** Direct calls on an order object. *)
Inductive order_call : Type :=
| CallFill (quantity : Q)
| CallCancel.

Definition apply_call (o : Order.t) (c : order_call) : Order.t :=
  match c with
  | CallFill q => (Order.fill o q).1
  | CallCancel => Order.cancel o
  end.

Definition apply_calls (o : Order.t) (cs : list order_call) : Order.t :=
  fold_left apply_call cs o.

(** ** No exception without ties *)

Definition priced (b : OrderBook.t) (a : nat) : Prop :=
  ∀ o, _orders b !! a = Some o →
    Order.order_type o = LIMIT → is_Some (Order.price o).

(** *** Heaps under the operations *)

Definition ties_ok (seen : list Q) (b : OrderBook.t) : Prop :=
  (∀ s, tie_free (heap_of s b)) ∧
  (∀ s k ts r, (k, ts, r) ∈ heap_of s b → ts ∈ seen).

Definition heaps_shrink (b b' : OrderBook.t) : Prop :=
  ∀ s, heap_of s b' ⊆+ heap_of s b.

Fixpoint valid_prop (seen : list Q) (cs : list command) : Prop :=
  match cs with
  | [] => True
  | Submit side ty q p now tr :: cs' =>
      (ty = LIMIT → is_Some p) ∧ (∀ t, t ∈ seen → ¬ (t == now)%Q) ∧
      valid_prop (now :: seen) cs'
  | _ :: cs' => valid_prop seen cs'
  end.

(** The clock readings of the orders are pairwise different and every limit
    order has a price; [seen] holds the readings of earlier orders. *)
Fixpoint valid (seen : list Q) (cs : list command) : bool :=
  match cs with
  | [] => true
  | Submit side ty q p now tr :: cs' =>
      match ty, p with LIMIT, None => false | _, _ => true end
      && forallb (λ t, negb (Qeq_bool t now)) seen
      && valid (now :: seen) cs'
  | _ :: cs' => valid seen cs'
  end.

(** The clock readings of a list of commands, latest first. *)
Fixpoint clock (seen : list Q) (cs : list command) : list Q :=
  match cs with
  | [] => seen
  | Submit _ _ _ _ now _ :: cs' => clock (now :: seen) cs'
  | _ :: cs' => clock seen cs'
  end.

(** ** A market order against a side without live orders *)

Definition all_stale_prop (s : Side) (b : OrderBook.t) : Prop :=
  ∀ k ts r, (k, ts, r) ∈ heap_of s b →
    ∃ o, _orders b !! r = Some o ∧ terminal (Order.status o) = true.

(** Every entry of the heap of side [s] refers to a filled or cancelled
    order: the side holds no live liquidity. *)
Definition all_stale (s : Side) (b : OrderBook.t) : bool :=
  forallb (λ e, match _orders b !! e.2 with
                | Some o => terminal (Order.status o)
                | None => false
                end) (heap_of s b).

(** ** Price-time priority *)

Definition live_ref (b : OrderBook.t) (r : nat) : Prop :=
  ∃ o, _orders b !! r = Some o ∧ terminal (Order.status o) = false.

(** The state of a matching run against side [s] that started from [b0]:
    [b] is the book and [T] the trades so far. *)
Record matching (s : Side) (a : nat) (b0 b : OrderBook.t) (T : list Trade.t)
  : Prop := mk_matching {
  m_wf : wf b;
  m_agg : a ∉ (heap_of s b).*2;
  m_sub : heap_of s b ⊆+ heap_of s b0;
  m_nodup : NoDup ((heap_of s b0).*2);
  m_left : ∀ e, e ∈ heap_of s b0 → live_ref b0 e.2 →
    e ∈ heap_of s b ∨ e.2 ∈ passive_ref s <$> T;
  m_untouched : ∀ r, r ≠ a → r ∉ passive_ref s <$> T →
    _orders b !! r = _orders b0 !! r;
  m_passive : ∀ t, t ∈ T → passive_ref s t ∈ (heap_of s b0).*2;
  m_order : ∀ T1 t T2 e et, T = T1 ++ t :: T2 →
    e ∈ heap_of s b0 → live_ref b0 e.2 →
    et ∈ heap_of s b0 → et.2 = passive_ref s t →
    key_lt e et → e.2 ∈ passive_ref s <$> T1;
}.

(** [o1] has priority over [o2] among the orders resting on side [s]: a
    better price (a higher bid, a lower ask), or the same price and an
    earlier timestamp. *)
Definition better (s : Side) (o1 o2 : Order.t) : bool :=
  match Order.price o1, Order.price o2 with
  | Some p1, Some p2 =>
      match s with BUY => Qlt_bool p2 p1 | SELL => Qlt_bool p1 p2 end
      || (Qeq_bool p1 p2
          && Qlt_bool (Order.timestamp o1) (Order.timestamp o2))
  | _, _ => false
  end.

(** ** Best prices *)

Definition best_price (s : Side) : OrderBook.t → res (OrderBook.t * option Q) :=
  match s with BUY => best_bid | SELL => best_ask end.

(** The price reported is the limit price of a live order resting on that
    side. *)
Definition quoted (s : Side) (b : OrderBook.t) (p : Q) : Prop :=
  ∃ k ts r o p', (k, ts, r) ∈ heap_of s b ∧ _orders b !! r = Some o ∧
    Order.side o = s ∧ live o = true ∧ Order.price o = Some p' ∧ (p == p')%Q.

(** ** Orders on binary64 *)

(** [Order(Side.BUY, OrderType.LIMIT, 1.0, 100.0)] on floats. *)
Definition float_order : Binary64.Order.t :=
  (Binary64.Order.__init__ 0 0 BUY LIMIT 1 (Some 100%float) "a").1.

(** C2 as the specification words it: [filled + remaining == quantity]. *)
Definition conserved_as_claimed (o : Binary64.Order.t) : bool :=
  (Binary64.Order.filled o + Binary64.Order.remaining o
   =? Binary64.Order.quantity o)%float.

(** [x + y] and [x - y] are computed without rounding: the operands and the
    result are finite and the result is the exact sum or difference. *)
Definition exact_add (x y : float) : bool :=
  match Binary64.value x, Binary64.value y, Binary64.value (x + y) with
  | Some a, Some b, Some c => Qeq_bool c (a + b)
  | _, _, _ => false
  end.

Definition exact_sub (x y : float) : bool :=
  match Binary64.value x, Binary64.value y, Binary64.value (x - y) with
  | Some a, Some b, Some c => Qeq_bool c (a - b)
  | _, _, _ => false
  end.

(** Every [filled += quantity] and [remaining -= quantity] that the calls
    perform on the order is computed without rounding. *)
Fixpoint exact_calls (o : Binary64.Order.t) (calls : list Binary64.order_call)
  : bool :=
  match calls with
  | [] => true
  | Binary64.CallFill q :: calls' =>
      let q' := Binary64.pymin q (Binary64.Order.remaining o) in
      exact_add (Binary64.Order.filled o) q'
      && exact_sub (Binary64.Order.remaining o) q'
      && exact_calls (Binary64.Order.fill o q).1 calls'
  | Binary64.CallCancel :: calls' =>
      exact_calls (Binary64.Order.cancel o) calls'
  end.

(** The values of [filled] and [remaining] add up to the value of
    [quantity]. *)
Definition conserved_value (o : Binary64.Order.t) : Prop :=
  ∃ f r q,
    Binary64.value (Binary64.Order.filled o) = Some f ∧
    Binary64.value (Binary64.Order.remaining o) = Some r ∧
    Binary64.value (Binary64.Order.quantity o) = Some q ∧
    (f + r == q)%Q.

(** C8 as the specification words it, on floats. *)
Definition float_status_as_claimed (o0 : Binary64.Order.t)
    (calls : list Binary64.order_call) : Prop :=
  let o := Binary64.apply_calls o0 calls in
  ((Binary64.Order.remaining o =? 0)%float = true →
   Binary64.Order.status o = st_filled) ∧
  ((0 <? Binary64.Order.remaining o)%float = true ∧
   (Binary64.Order.remaining o <? Binary64.Order.quantity o)%float = true →
   Binary64.Order.status o = st_partial) ∧
  ((Binary64.Order.remaining o =? Binary64.Order.quantity o)%float = true →
   Binary64.CallCancel ∉ calls →
   Binary64.Order.status o = st_open).

(** ** The trade history and its counters on binary64 *)

(** The trade history of a book with its two counters. *)
Definition history (b : Binary64.OrderBook.t)
  : list Binary64.Trade.t * float * nat :=
  (Binary64.OrderBook.trades b, Binary64.OrderBook.total_volume b,
   Binary64.OrderBook.total_trades b).

(** C10 as the specification words it:
    [total_volume == sum(t.quantity for t in trades)]. *)
Definition volume_as_claimed (b : Binary64.OrderBook.t) : bool :=
  (Binary64.OrderBook.total_volume b
   =? Binary64.fsum (Binary64.Trade.quantity <$> Binary64.OrderBook.trades b))%float.

(** Asks of [0.1], [0.2] and [0.3]; a market buy of [0.1] takes the first,
    a market buy of [0.5] the other two. *)
Definition three_fills : list Binary64.command :=
  [Binary64.Submit SELL LIMIT 0.1 (Some 100%float) 1 "a";
   Binary64.Submit SELL LIMIT 0.2 (Some 101%float) 2 "b";
   Binary64.Submit SELL LIMIT 0.3 (Some 102%float) 3 "c";
   Binary64.Submit BUY MARKET 0.1 None 4 "d";
   Binary64.Submit BUY MARKET 0.5 None 5 "e"].

(** The session that a run of commands leaves, the initial one if it
    raises, and its book. *)
Definition float_session_after (cs : list Binary64.command)
  : Binary64.session :=
  match Binary64.run Binary64.start cs with
  | Ok s => s
  | _ => Binary64.start
  end.

Definition float_book_after (cs : list Binary64.command)
  : Binary64.OrderBook.t :=
  Binary64.book (float_session_after cs).

(** The trades that each [add_order] of a run returns, call by call. *)
Fixpoint batches (s : Binary64.session) (cs : list Binary64.command)
  : list (list Binary64.Trade.t) :=
  match cs with
  | [] => []
  | Binary64.Submit side ty q p now tr :: cs' =>
      match Binary64.submit s side ty q p now tr with
      | Ok (s', new) => new :: batches s' cs'
      | _ => []
      end
  | c :: cs' =>
      match Binary64.step s c with
      | Ok s' => batches s' cs'
      | _ => []
      end
  end.

(** [total_volume += sum(t.quantity for t in trades)], call after call. *)
Definition add_volumes (v : float) (bs : list (list Binary64.Trade.t)) : float :=
  fold_left (λ v new, (v + Binary64.fsum (Binary64.Trade.quantity <$> new))%float)
    bs v.

(** ** Spread and mid price on binary64 *)

(** What [spread] and [mid_price] return for given results of [best_bid]
    and [best_ask]. *)
Definition float_spread_of (bid ask : option float) : option float :=
  match bid, ask with
  | Some x, Some y =>
      if Binary64.truthy bid && Binary64.truthy ask
      then Some (Binary64.pyround2 (y - x)) else None
  | _, _ => None
  end.

Definition float_mid_of (bid ask : option float) : option float :=
  match bid, ask with
  | Some x, Some y =>
      if Binary64.truthy bid && Binary64.truthy ask
      then Some ((x + y) / 2)%float else None
  | _, _ => None
  end.

(** A bid at 100 and an ask at 100.001, on floats. *)
Definition float_narrow_book : list Binary64.command :=
  [Binary64.Submit BUY LIMIT 1 (Some 100%float) 1 "a";
   Binary64.Submit SELL LIMIT 1 (Some 100.001%float) 2 "b"].

(** A bid at 1.0 and an ask at 1.015; a bid at 1e308 and an ask at
    1.5e308. *)
Definition float_cent_book : list Binary64.command :=
  [Binary64.Submit BUY LIMIT 1 (Some 1%float) 1 "a";
   Binary64.Submit SELL LIMIT 1 (Some 1.015%float) 2 "b"].

Definition float_huge_book : list Binary64.command :=
  [Binary64.Submit BUY LIMIT 1 (Some 1e308%float) 1 "a";
   Binary64.Submit SELL LIMIT 1 (Some 1.5e308%float) 2 "b"].

(** A bid at price 0 and an ask at 5, on floats. *)
Definition float_zero_bid_book : list Binary64.command :=
  [Binary64.Submit BUY LIMIT 1 (Some 0%float) 1 "a";
   Binary64.Submit SELL LIMIT 1 (Some 5%float) 2 "b"].

(** The value that a query returns, [None] also when it raises. *)
Definition returned {A B : Type} (r : res (A * option B)) : option B :=
  match r with
  | Ok (_, v) => v
  | _ => None
  end.

(** C7 as the specification words it, on floats: no value exactly when a
    best price is absent, otherwise [ask - bid] and [(bid + ask) / 2]. *)
Definition float_spread_mid_as_claimed (b : Binary64.OrderBook.t) : Prop :=
  ∀ b1 bid b2 ask b3 vs b4 vm,
    Binary64.OrderBook.best_bid b = Ok (b1, bid) →
    Binary64.OrderBook.best_ask b = Ok (b2, ask) →
    Binary64.OrderBook.spread b = Ok (b3, vs) →
    Binary64.OrderBook.mid_price b = Ok (b4, vm) →
    (vs = None ↔ bid = None ∨ ask = None) ∧
    (vm = None ↔ bid = None ∨ ask = None) ∧
    ∀ x y, bid = Some x → ask = Some y →
      (∃ v, vs = Some v ∧ (v =? y - x)%float = true) ∧
      (∃ m, vm = Some m ∧ (m =? (x + y) / 2)%float = true).

(** The two orders of the round trip, before and after the match, the
    trade and the two books. *)
Definition rt_buy (p q t1 : Q) (tr1 : string) : Order.t :=
  Order.mk 1 BUY LIMIT q (Some p) t1 q 0 tr1 st_open.

Definition rt_sell (p q t2 : Q) (tr2 : string) : Order.t :=
  Order.mk 2 SELL LIMIT q (Some p) t2 q 0 tr2 st_open.

Definition rt_buy_filled (p q t1 : Q) (tr1 : string) : Order.t :=
  Order.mk 1 BUY LIMIT q (Some p) t1 (q - q) (0 + q) tr1 st_filled.

Definition rt_sell_filled (p q t2 : Q) (tr2 : string) : Order.t :=
  Order.mk 2 SELL LIMIT q (Some p) t2 (q - q) (0 + q) tr2 st_filled.

Definition rt_trade (p q : Q) : Trade.t := Trade.mk 1 2 (- - p) q.

(** The book after the buy order: it rests alone. *)
Definition rt_book1 (p q t1 : Q) (tr1 : string) : OrderBook.t :=
  mk "XBTUSD" [((- p)%Q, t1, 1)] []
     [(p, PriceLevel.mk p [1] (0 + q)%Q)] [] {[1 := rt_buy p q t1 tr1]} []
     (0 + Qsum [])%Q 0.

(** The book after the sell order: both heaps are empty. *)
Definition rt_book2 (p q t1 t2 : Q) (tr1 tr2 : string) : OrderBook.t :=
  mk "XBTUSD" [] [] [(p, PriceLevel.mk p [] (Qsum []))] []
     (<[1 := rt_buy_filled p q t1 tr1]>
        (<[2 := rt_sell_filled p q t2 tr2]>
           (<[2 := rt_sell p q t2 tr2]> {[1 := rt_buy p q t1 tr1]})))
     ([] ++ [rt_trade p q]) (0 + Qsum [] + Qsum [q])%Q 1.

(** ** Spread and mid price *)

Definition book_after (cs : list command) : OrderBook.t :=
  match run start cs with
  | Ok s => book s
  | _ => book start
  end.

(** A bid at 100 and an ask at 100.001. *)
Definition narrow_book : list command :=
  [Submit BUY LIMIT 1 (Some 100%Q) 1 "a";
   Submit SELL LIMIT 1 (Some (100001 # 1000)%Q) 2 "b"].

(** ** Status of an order *)

(** [Order(Side.BUY, OrderType.LIMIT, 1.0, 100.0)] *)
Definition unit_order : Order.t :=
  (Order.__init__ 0 0 BUY LIMIT 1 (Some 100%Q) "a").1.

(** ** Aggregate quantity of a price level *)

(** The sum of the remaining quantities of the live orders of a level. *)
Definition live_remaining (objs : gmap nat Order.t) (refs : list nat) : Q :=
  Qsum (omap (λ r, match objs !! r with
                   | Some o => if live o then Some (Order.remaining o) else None
                   | None => None
                   end) refs).

(** A resting ask of 1 at 100, then a buy of 0.4 at 100. *)
Definition partial_fill_book : list command :=
  [Submit SELL LIMIT 1 (Some 100%Q) 1 "a";
   Submit BUY LIMIT (2 # 5) (Some 100%Q) 2 "b"].

(** ** Concrete runs *)

Definition session_after (cs : list command) : session :=
  match run start cs with
  | Ok s => s
  | _ => start
  end.

Definition order_of (b : OrderBook.t) (r : nat) : Order.t :=
  match _orders b !! r with
  | Some o => o
  | None => unit_order
  end.

(** One resting ask of 1 at 100. *)
Definition one_ask : list command :=
  [Submit SELL LIMIT 1 (Some 100%Q) 1 "a"].

(** Scenario B: asks of 0.5 at 68010 and 1.0 at 68020. *)
Definition two_asks : list command :=
  [Submit SELL LIMIT (1 # 2) (Some 68010%Q) 1 "a";
   Submit SELL LIMIT 1 (Some 68020%Q) 2 "b"].

(** An ask that was cancelled: its heap entry is stale. *)
Definition stale_ask : list command :=
  [Submit SELL LIMIT 1 (Some 100%Q) 1 "a"; Cancel 1].

(** Scenario D before the cancellation: one resting bid of 1.0 at 68000. *)
Definition one_bid : list command :=
  [Submit BUY LIMIT 1 (Some 68000%Q) 1 "a"].

(** ** A market order on stale entries that tie *)

(** Three asks, the last two at one price and with one timestamp, all
    cancelled: the ask heap holds three stale entries and no live one. *)
Definition stale_tied_asks : list command :=
  [Submit SELL LIMIT 1 (Some 100%Q) 1 "a";
   Submit SELL LIMIT 1 (Some 101%Q) 2 "b";
   Submit SELL LIMIT 1 (Some 101%Q) 2 "c";
   Cancel 1; Cancel 2; Cancel 3].

Definition float_stale_tied_asks : list Binary64.command :=
  [Binary64.Submit SELL LIMIT 1 (Some 100%float) 1 "a";
   Binary64.Submit SELL LIMIT 1 (Some 101%float) 2 "b";
   Binary64.Submit SELL LIMIT 1 (Some 101%float) 2 "c";
   Binary64.Cancel 1; Binary64.Cancel 2; Binary64.Cancel 3].

(** ** What [add_order] does around the matching loop *)

(** The last step of [add_order]: the trades are appended to the history
    and the counters are advanced. *)
Definition with_history (b : OrderBook.t) (new : list Trade.t) : OrderBook.t :=
  mk (symbol b) (_bid_heap b) (_ask_heap b) (_bid_levels b) (_ask_levels b)
     (_orders b) (trades b ++ new)
     (total_volume b + Qsum (Trade.quantity <$> new))%Q
     (total_trades b + length new).

(** What happens to the order [a] of type [ty] once the loop against side
    [s] has ended in book [b1]: a market order with a remainder is marked
    partial, which only happens when side [s] is used up; a limit order with
    a remainder is queued on the other side, which only happens when no
    entry of side [s] is within its limit. *)
Inductive settled (s : Side) (a : nat) (ty : OrderType) (b1 : OrderBook.t)
  : OrderBook.t → Prop :=
| settled_market_filled o :
    ty = MARKET → _orders b1 !! a = Some o →
    ¬ (0 < Order.remaining o)%Q →
    settled s a ty b1 b1
| settled_market_partial o :
    ty = MARKET → _orders b1 !! a = Some o →
    (0 < Order.remaining o)%Q → heap_of s b1 = [] →
    settled s a ty b1 (store b1 a (Order.set_status o st_partial))
| settled_limit_done o :
    ty = LIMIT → _orders b1 !! a = Some o →
    ¬ ((0 < Order.remaining o)%Q ∧ Order.status o ≠ st_filled) →
    settled s a ty b1 b1
| settled_limit_rests o p b2 :
    ty = LIMIT → _orders b1 !! a = Some o →
    (0 < Order.remaining o)%Q → Order.status o ≠ st_filled →
    Order.price o = Some p →
    (∀ e, e ∈ heap_of s b1 → marketable s e.1.1 p = false) →
    add_to (opposite s) b1 a = Ok b2 →
    settled s a ty b1 b2.

(** A live order that rests in a heap has something left to trade. *)
Definition resting_live (b : OrderBook.t) : Prop :=
  ∀ s k ts r o, (k, ts, r) ∈ heap_of s b → _orders b !! r = Some o →
    terminal (Order.status o) = false → (0 < Order.remaining o)%Q.

(** Every bid of the bid heap is below every ask of the ask heap. *)
Definition uncrossed (b : OrderBook.t) : Prop :=
  ∀ eb ea, eb ∈ _bid_heap b → ea ∈ _ask_heap b → (- eb.1.1 < ea.1.1)%Q.

(** ** Books that a session can reach *)

Definition sound (s : session) : Prop :=
  resting_live (book s) ∧ uncrossed (book s).

(** ** The submitted order during matching *)

(** The trade respects the limit of the order that takes liquidity from side
    [s]: a buyer pays at most its limit, a seller receives at least its
    limit. *)
Definition within_limit (s : Side) (order : Order.t) (t : Trade.t) : Prop :=
  Order.order_type order = LIMIT → ∀ L, Order.price order = Some L →
    match s with
    | SELL => (Trade.price t <= L)%Q
    | BUY => (L <= Trade.price t)%Q
    end.

(** The state of [order] while it is matched against side [s]: [b] is the
    book and [T] the trades so far. *)
Record tracked (s : Side) (order : Order.t) (b : OrderBook.t)
    (T : list Trade.t) : Prop := mk_tracked {
  tr_resting : resting_live b;
  tr_order : ∃ o, _orders b !! Order.id order = Some o ∧
    same_identity order o ∧
    (Qsum (Trade.quantity <$> T) + Order.remaining o
     == Order.remaining order)%Q ∧
    ((Order.remaining o = Order.remaining order ∧
      Order.status o = Order.status order ∧ T = []) ∨
     ((0 <= Order.remaining o)%Q ∧ T ≠ [] ∧
      Order.status o = if Qeq_bool (Order.remaining o) 0
                       then st_filled else st_partial));
  tr_trades : Forall (λ t, (0 < Trade.quantity t)%Q ∧ within_limit s order t) T;
}.

(** ** Orders that are done *)

(** The order [oid] is filled or cancelled in [b], with the quantities of
    [o]. *)
Definition frozen (oid : nat) (o : Order.t) (b : OrderBook.t) : Prop :=
  ∃ o', _orders b !! oid = Some o' ∧ terminal (Order.status o') = true ∧
        Order.remaining o' = Order.remaining o ∧
        Order.filled o' = Order.filled o.

(** The trade names the order [oid], as buyer or as seller. *)
Definition names (oid : nat) (t : Trade.t) : Prop :=
  Trade.buy_order_id t = oid ∨ Trade.sell_order_id t = oid.

(** The number of orders that a list of commands creates. *)
Fixpoint submits (cs : list command) : nat :=
  match cs with
  | [] => 0
  | Submit _ _ _ _ _ _ :: cs' => S (submits cs')
  | _ :: cs' => submits cs'
  end.

(** Every order of [b] is in [b'], the same but for what is filled. *)
Definition orders_kept (b b' : OrderBook.t) : Prop :=
  ∀ r o, _orders b !! r = Some o →
    ∃ o', _orders b' !! r = Some o' ∧ same_identity o o'.

(** ** Calls on one order *)

(** No fill quantity of the calls is negative. *)
Definition fills_nonneg (calls : list order_call) : bool :=
  forallb (λ c, match c with
                | CallFill x => Qle_bool 0 x
                | CallCancel => true
                end) calls.

(** ** Price levels *)

(** [remove_filled] keeps the references to the orders that have something
    left and are neither filled nor cancelled. *)
Definition kept_ref (objs : gmap nat Order.t) (r : nat) : bool :=
  match objs !! r with
  | Some o => PriceLevel.keeps o
  | None => false
  end.

(** ** The depth of the book *)

(** The loops of [get_depth] for the heap of side [s]. *)
Fixpoint depth_loop (s : Side) (self : OrderBook.t) (heap : list heapq.entry)
    (d : list (Q * Q)) : res (list (Q * Q)) :=
  match heap with
  | [] => Ok d
  | (key, ts, ref) :: heap' =>
      order ← deref self ref;
      if live order then
        depth_loop s self heap'
          (dict_set d (price_of_key s key)
             (dict_get_or d (price_of_key s key) 0 + Order.remaining order)%Q)
      else depth_loop s self heap' d
  end.

(** The key by which [get_depth] sorts the prices of side [s]: bids
    descending, asks ascending. *)
Definition depth_key (s : Side) (x : Q * Q) : Q :=
  match s with BUY => (- x.1)%Q | SELL => x.1 end.

(** A live order of the heap is priced at [p]. *)
Definition priced_live (s : Side) (objs : gmap nat Order.t)
    (heap : list heapq.entry) (p : Q) : Prop :=
  ∃ e o, e ∈ heap ∧ objs !! e.2 = Some o ∧ live o = true ∧
         (price_of_key s e.1.1 == p)%Q.

(** What the live orders of the heap that are priced at [p] have left, added
    up in heap order. *)
Definition level_sum (s : Side) (objs : gmap nat Order.t)
    (heap : list heapq.entry) (p : Q) : Q :=
  Qsum (omap (λ e, match objs !! e.2 with
                   | Some o =>
                       if live o && Qeq_bool (price_of_key s e.1.1) p
                       then Some (Order.remaining o) else None
                   | None => None
                   end) heap).

(** No two keys of the dictionary are equal. *)
Fixpoint keys_distinct (d : list (Q * Q)) : Prop :=
  match d with
  | [] => True
  | (k, _) :: d' => (∀ kv, kv ∈ d' → ¬ (k == kv.1)%Q) ∧ keys_distinct d'
  end.

(** *** What [get_depth] returns *)

(** One side of the result of [get_depth]: the prices are those of the live
    orders of the heap, each listed once with what its live orders have left
    in all, best price first; the list holds at most [levels] prices, the
    best ones. *)
Record depth_of (s : Side) (b : OrderBook.t) (levels : Z)
    (out : list (Q * Q)) : Prop := mk_depth_of {
  dp_sorted :
    StronglySorted (λ x y, match s with
                           | BUY => (y.1 < x.1)%Q
                           | SELL => (x.1 < y.1)%Q
                           end) out;
  dp_length : (0 <= levels)%Z → length out ≤ Z.to_nat levels;
  dp_sound : ∀ p v, (p, v) ∈ out →
    priced_live s (_orders b) (heap_of s b) p ∧
    (0 < v)%Q ∧ (v == level_sum s (_orders b) (heap_of s b) p)%Q;
  dp_complete : ∀ p, priced_live s (_orders b) (heap_of s b) p →
    (∃ p' v, (p', v) ∈ out ∧ (p' == p)%Q) ∨
    ((0 <= levels)%Z ∧ length out = Z.to_nat levels ∧
     ∀ x, x ∈ out → match s with
                    | BUY => (p < x.1)%Q
                    | SELL => (x.1 < p)%Q
                    end) ∨
    (levels < 0)%Z;
}.

(** The side of the result of [get_depth] that lists side [s]. *)
Definition depth_side_of (s : Side) (d : list (Q * Q) * list (Q * Q))
  : list (Q * Q) :=
  match s with BUY => d.1 | SELL => d.2 end.

(** ** The trade history and the orders *)




(** The trade joins a buy order and a sell order of the book [b], for a
    positive quantity, at a price that neither limit forbids. *)
Definition paired (b : OrderBook.t) (t : Trade.t) : Prop :=
  ∃ buyer seller,
    _orders b !! Trade.buy_order_id t = Some buyer ∧
    _orders b !! Trade.sell_order_id t = Some seller ∧
    Order.side buyer = BUY ∧ Order.side seller = SELL ∧
    (0 < Trade.quantity t)%Q ∧
    (Order.order_type buyer = LIMIT → ∀ L, Order.price buyer = Some L →
       (Trade.price t <= L)%Q) ∧
    (Order.order_type seller = LIMIT → ∀ L, Order.price seller = Some L →
       (L <= Trade.price t)%Q).

Definition history_paired (s : session) : Prop :=
  ∀ t, t ∈ trades (book s) → paired (book s) t.

(** ** The price levels *)

(** What the order [r] has left when it is live, 0 otherwise. *)
Definition live_left (objs : gmap nat Order.t) (r : nat) : Q :=
  match objs !! r with
  | Some o => if live o then Order.remaining o else 0%Q
  | None => 0%Q
  end.

(** The price levels agree with the heaps: a level lists live orders that
    rest on its side at its price, every live order of a heap is listed in
    the level of its price, a level lists its orders by increasing id, and
    its total is not below what its orders have left. *)
Record levels_exact (b : OrderBook.t) : Prop := mk_levels_exact {
  lv_live : ∀ s p lvl r,
    dict_get (levels_of s b) p = Some lvl → r ∈ PriceLevel.orders lvl →
    ∃ k ts o, (k, ts, r) ∈ heap_of s b ∧ _orders b !! r = Some o ∧
      live o = true ∧ (price_of_key s k == p)%Q;
  lv_listed : ∀ s k ts r o,
    (k, ts, r) ∈ heap_of s b → _orders b !! r = Some o → live o = true →
    ∃ lvl, dict_get (levels_of s b) (price_of_key s k) = Some lvl ∧
      r ∈ PriceLevel.orders lvl;
  lv_fifo : ∀ s p lvl,
    dict_get (levels_of s b) p = Some lvl →
    StronglySorted lt (PriceLevel.orders lvl);
  lv_total : ∀ s p lvl,
    dict_get (levels_of s b) p = Some lvl →
    (live_remaining (_orders b) (PriceLevel.orders lvl)
     <= PriceLevel.total_quantity lvl)%Q;
}.

(** ** More concrete runs *)

(** Scenario B followed by a market buy of 0.6. *)
Definition sweep : list command :=
  two_asks ++ [Submit BUY MARKET (6 # 10) None 3 "m"].

(** The level of the ask at 100 as [add_order] left it in
    [partial_fill_book]. *)
Definition stale_level : PriceLevel.t := PriceLevel.mk 100 [1] 1.

Definition level_after (objs : gmap nat Order.t) (lvl : PriceLevel.t)
  : PriceLevel.t :=
  match PriceLevel.remove_filled objs lvl with
  | Ok l => l
  | _ => lvl
  end.

Definition cancelled_book (b : OrderBook.t) (oid : nat) : OrderBook.t :=
  match cancel_order b oid with
  | Ok (b', _) => b'
  | _ => b
  end.

Definition depth_after (cs : list command) (levels : Z)
  : list (Q * Q) * list (Q * Q) :=
  match get_depth (book_after cs) levels with
  | Ok d => d
  | _ => ([], [])
  end.


(* ================================================================= *)
(** * Properties *)

Lemma Qlt_bool_true x y : Qlt_bool x y = true ↔ (x < y)%Q.
Proof.
  unfold Qlt_bool. rewrite negb_true_iff, <- not_true_iff_false, Qle_bool_iff.
  split; [apply Qnot_le_lt | apply Qlt_not_le].
Qed.

Lemma Qlt_bool_false x y : Qlt_bool x y = false ↔ (y <= x)%Q.
Proof. unfold Qlt_bool. rewrite negb_false_iff. apply Qle_bool_iff. Qed.

Lemma Qeq_bool_false x y : Qeq_bool x y = false ↔ ¬ (x == y)%Q.
Proof. rewrite <- not_true_iff_false, Qeq_bool_iff. tauto. Qed.

Lemma res_bind_Ok {A B} (f : A → res B) (m : res A) (b : B) :
  m ≫= f = Ok b ↔ ∃ a, m = Ok a ∧ f a = Ok b.
Proof.
  destruct m; simpl; split; try (intros (? & ? & ?)); try discriminate; eauto.
  congruence.
Qed.

Lemma res_bind_ret {A B} (f : A → res B) (a : A) : Ok a ≫= f = f a.
Proof. reflexivity. Qed.

Lemma parent_lt i : 0 < i → parent i < i.
Proof.
  intros Hi. unfold parent. apply Nat.Div0.div_lt_upper_bound. lia.
Qed.

Lemma parent_child c : 0 < c → c = 2 * parent c + 1 ∨ c = 2 * parent c + 2.
Proof.
  intros Hc. unfold parent.
  pose proof (Nat.div_mod_eq (c - 1) 2) as E.
  assert (Hm : (c - 1) mod 2 < 2) by (apply Nat.mod_upper_bound; lia).
  lia.
Qed.

Lemma parent_left p : parent (2 * p + 1) = p.
Proof.
  unfold parent. replace (2 * p + 1 - 1) with (p * 2) by lia.
  apply Nat.div_mul. lia.
Qed.

Lemma parent_right p : parent (2 * p + 2) = p.
Proof.
  unfold parent. replace (2 * p + 2 - 1) with (1 + p * 2) by lia.
  rewrite Nat.div_add by lia. reflexivity.
Qed.

(** *** The order on heap entries *)

Lemma lt_true a b : heapq.lt a b = Ok true → key_lt a b.
Proof.
  destruct a as [[ka ta] oa], b as [[kb tb] ob]. unfold heapq.lt, key_lt. simpl.
  destruct (Qeq_bool ka kb) eqn:Ek; simpl.
  - apply Qeq_bool_iff in Ek.
    destruct (Qeq_bool ta tb) eqn:Et; simpl.
    + destruct (oa =? ob); discriminate.
    + intros [= Hl]. apply Qlt_bool_true in Hl. right. done.
  - intros [= Hl]. apply Qlt_bool_true in Hl. by left.
Qed.

Lemma lt_false a b : heapq.lt a b = Ok false → key_le b a.
Proof.
  destruct a as [[ka ta] oa], b as [[kb tb] ob]. unfold heapq.lt, key_le. simpl.
  destruct (Qeq_bool ka kb) eqn:Ek; simpl.
  - apply Qeq_bool_iff in Ek.
    destruct (Qeq_bool ta tb) eqn:Et; simpl.
    + apply Qeq_bool_iff in Et. intros _. right. split; [by symmetry|].
      rewrite Et. apply Qle_refl.
    + intros [= Hl]. apply Qlt_bool_false in Hl. right. split; [by symmetry|done].
  - intros [= Hl]. apply Qlt_bool_false in Hl. apply Qeq_bool_false in Ek.
    left. apply Qle_lteq in Hl as [Hl|Hl]; [done|]. destruct Ek. by symmetry.
Qed.

Lemma key_lt_le a b : key_lt a b → key_le a b.
Proof.
  unfold key_lt, key_le. intros [H|[H1 H2]]; [by left|right].
  split; [done|]. by apply Qlt_le_weak.
Qed.

Lemma key_le_refl a : key_le a a.
Proof. right. split; [reflexivity | apply Qle_refl]. Qed.

Lemma key_le_trans a b c : key_le a b → key_le b c → key_le a c.
Proof.
  unfold key_le. intros [H1|[H1 H2]] [H3|[H3 H4]].
  - left. eapply Qlt_trans; eauto.
  - left. by rewrite <- H3.
  - left. by rewrite H1.
  - right. split; [by rewrite H1 | eapply Qle_trans; eauto].
Qed.

(** *** Swapping two slots *)

Lemma swap_length h i j : length (heapq.swap h i j) = length h.
Proof.
  unfold heapq.swap. destruct (h !! i), (h !! j); try done.
  by rewrite !length_insert.
Qed.

Lemma swap_perm h i j : heapq.swap h i j ≡ₚ h.
Proof.
  unfold heapq.swap. destruct (h !! i) eqn:Ei, (h !! j) eqn:Ej; try done.
  by apply Permutation_insert_swap.
Qed.

Lemma swap_lookup h i j x y k :
  h !! i = Some x → h !! j = Some y →
  heapq.swap h i j !! k =
    if decide (k = i) then Some y
    else if decide (k = j) then Some x
    else h !! k.
Proof.
  intros Ei Ej. unfold heapq.swap. rewrite Ei, Ej.
  assert (Hi : i < length h) by (by eapply lookup_lt_Some).
  assert (Hj : j < length h) by (by eapply lookup_lt_Some).
  destruct (decide (k = i)) as [->|Hki].
  - by rewrite list_lookup_insert_eq by (by rewrite length_insert).
  - rewrite list_lookup_insert_ne by done.
    destruct (decide (k = j)) as [->|Hkj].
    + by rewrite list_lookup_insert_eq.
    + by rewrite list_lookup_insert_ne.
Qed.

(** *** [_siftdown] *)

Lemma siftdown_S fuel h pos :
  heapq._siftdown (S fuel) h 0 pos =
    if 0 <? pos then
      match h !! pos, h !! parent pos with
      | Some newitem, Some p =>
          b ← heapq.lt newitem p;
          if (b : bool) then heapq._siftdown fuel (heapq.swap h pos (parent pos)) 0 (parent pos)
          else Ok h
      | _, _ => Stuck
      end
    else Ok h.
Proof. reflexivity. Qed.

Lemma siftdown_perm fuel h pos h' :
  heapq._siftdown fuel h 0 pos = Ok h' → h' ≡ₚ h.
Proof.
  revert h pos. induction fuel as [|fuel IH]; intros h pos; [done|].
  rewrite siftdown_S.
  destruct (0 <? pos); [|by intros [= ->]].
  destruct (h !! pos) as [n|]; [|done].
  destruct (h !! parent pos) as [p|]; [|done].
  intros (b & Hb & H)%res_bind_Ok. destruct b.
  - apply IH in H. by rewrite H, swap_perm.
  - by injection H as ->.
Qed.

Lemma inv_down_swap h pos n p :
  0 < pos → h !! pos = Some n → h !! parent pos = Some p →
  key_lt n p → inv_down h pos →
  inv_down (heapq.swap h pos (parent pos)) (parent pos).
Proof.
  intros Hpos En Ep Hlt [H1 H2].
  pose proof (parent_lt pos Hpos) as Hpp.
  split.
  - intros i x q Hi Hne.
    rewrite !(swap_lookup _ _ _ _ _ _ En Ep).
    destruct (decide (i = pos)) as [->|Hip].
    + rewrite (decide_False (P := parent pos = pos)) by lia.
      rewrite (decide_True (P := parent pos = parent pos)) by done.
      intros [= <-] [= <-]. by apply key_lt_le.
    + rewrite (decide_False (P := i = parent pos)) by done. intros Ex.
      destruct (decide (parent i = pos)) as [Hpi|Hpi]; [|destruct (decide (parent i = parent pos)) as [Hpi'|Hpi']].
      * intros [= <-]. eapply H2; eauto.
      * intros [= <-]. eapply key_le_trans; [by apply key_lt_le|].
        eapply H1; eauto. by rewrite Hpi'.
      * intros Eq. eapply H1; eauto.
  - intros c x g Hpp0 Hc Hpc.
    pose proof (parent_lt _ Hpp0) as Hppp. pose proof (parent_lt _ Hc) as Hpc'.
    rewrite !(swap_lookup _ _ _ _ _ _ En Ep).
    rewrite (decide_False (P := parent (parent pos) = pos)) by lia.
    rewrite (decide_False (P := parent (parent pos) = parent pos)) by lia.
    destruct (decide (c = pos)) as [->|Hcp].
    + intros [= <-] Eg. eapply (H1 (parent pos)); eauto; lia.
    + rewrite (decide_False (P := c = parent pos)) by lia. intros Ex Eg.
      eapply key_le_trans; [eapply (H1 (parent pos)); eauto; lia|].
      eapply (H1 c); eauto. by rewrite Hpc.
Qed.

Lemma siftdown_heap_ok fuel h pos h' :
  inv_down h pos → heapq._siftdown fuel h 0 pos = Ok h' → heap_ok h'.
Proof.
  revert h pos. induction fuel as [|fuel IH]; intros h pos Hinv; [done|].
  rewrite siftdown_S.
  destruct (0 <? pos) eqn:Hpos.
  - apply Nat.ltb_lt in Hpos.
    destruct (h !! pos) as [n|] eqn:En; [|done].
    destruct (h !! parent pos) as [p|] eqn:Ep; [|done].
    intros (b & Hb & H)%res_bind_Ok. destruct b.
    + eapply IH; [|exact H]. eapply inv_down_swap; eauto using lt_true.
    + injection H as <-. intros i x q Hi Ex Eq.
      destruct (decide (i = pos)) as [->|Hne].
      * rewrite En in Ex. rewrite Ep in Eq. simplify_eq. by apply lt_false.
      * destruct Hinv as [H1 _]. eapply H1; eauto.
  - apply Nat.ltb_ge in Hpos. intros [= <-]. destruct Hinv as [H1 _].
    intros i x q Hi Ex Eq. eapply H1; eauto. lia.
Qed.

Lemma siftdown_total fuel h pos :
  pos < fuel → pos < length h → tie_free h →
  ∃ h', heapq._siftdown fuel h 0 pos = Ok h'.
Proof.
  revert h pos. induction fuel as [|fuel IH]; intros h pos Hf Hl Ht; [lia|].
  rewrite siftdown_S. destruct (0 <? pos) eqn:Hpos; [|eauto].
  apply Nat.ltb_lt in Hpos.
  pose proof (parent_lt _ Hpos) as Hpp.
  destruct (lookup_lt_is_Some_2 h pos Hl) as [n En].
  destruct (lookup_lt_is_Some_2 h (parent pos)) as [p Ep]; [lia|].
  rewrite En, Ep.
  destruct (Ht n p) as [b Hb]; [by eapply list_elem_of_lookup_2..|].
  rewrite Hb. simpl. destruct b; [|eauto].
  apply IH; [lia|rewrite swap_length; lia|].
  intros a c Ha Hc. apply Ht; by rewrite <- (swap_perm h pos (parent pos)).
Qed.

(** *** [_siftup] *)

Lemma siftup_loop_S fuel h pos :
  heapq._siftup_loop (S fuel) h pos =
    if 2 * pos + 1 <? length h then
      c ← (if 2 * pos + 1 + 1 <? length h then
             match h !! (2 * pos + 1), h !! (2 * pos + 1 + 1) with
             | Some l, Some r =>
                 b ← heapq.lt l r;
                 Ok (if (b : bool) then 2 * pos + 1 else 2 * pos + 1 + 1)
             | _, _ => Stuck
             end
           else Ok (2 * pos + 1));
      heapq._siftup_loop fuel (heapq.swap h pos c) c
    else Ok (h, pos).
Proof. reflexivity. Qed.

Lemma choose_child h pos c :
  2 * pos + 1 < length h →
  (if 2 * pos + 1 + 1 <? length h then
     match h !! (2 * pos + 1), h !! (2 * pos + 1 + 1) with
     | Some l, Some r =>
         b ← heapq.lt l r;
         Ok (if (b : bool) then 2 * pos + 1 else 2 * pos + 1 + 1)
     | _, _ => Stuck
     end
   else Ok (2 * pos + 1)) = Ok c →
  smaller_child h pos c.
Proof.
  intros Hl. destruct (2 * pos + 1 + 1 <? length h) eqn:Hr.
  - apply Nat.ltb_lt in Hr.
    destruct (h !! (2 * pos + 1)) as [l|] eqn:El; [|done].
    destruct (h !! (2 * pos + 1 + 1)) as [r|] eqn:Er; [|done].
    intros (b & Hb & [= <-])%res_bind_Ok. destruct b.
    + split; [done|]. split; [by left|]. intros i x y Hi Hp Hne Ex Ey.
      destruct (parent_child i Hi) as [E|E]; rewrite Hp in E; [lia|].
      assert (x = r) as -> by (apply (inj Some); rewrite <- Ex, <- Er; f_equal; lia).
      assert (y = l) as -> by (apply (inj Some); rewrite <- Ey, <- El; f_equal; lia).
      by apply key_lt_le, lt_true.
    + split; [done|]. split; [right; lia|]. intros i x y Hi Hp Hne Ex Ey.
      destruct (parent_child i Hi) as [E|E]; rewrite Hp in E; [|lia].
      assert (x = l) as -> by (apply (inj Some); rewrite <- Ex, <- El; f_equal; lia).
      assert (y = r) as -> by (apply (inj Some); rewrite <- Ey, <- Er; f_equal; lia).
      by apply lt_false.
  - apply Nat.ltb_ge in Hr. intros [= <-].
    split; [done|]. split; [by left|]. intros i x y Hi Hp Hne Ex Ey.
    apply lookup_lt_Some in Ex.
    destruct (parent_child i Hi) as [E|E]; rewrite Hp in E; lia.
Qed.

Lemma inv_up_swap h pos c :
  smaller_child h pos c → inv_up h pos → inv_up (heapq.swap h pos c) c.
Proof.
  intros (Hc & Hcp & Hsib) [H1 H2].
  assert (Hpc : parent c = pos)
    by (destruct Hcp as [-> | ->]; [apply parent_left | apply parent_right]).
  destruct (lookup_lt_is_Some_2 h c Hc) as [y Ey].
  destruct (lookup_lt_is_Some_2 h pos) as [n En]; [lia|].
  split.
  - intros i x p Hi Hic Hpic.
    rewrite !(swap_lookup _ _ _ _ _ _ En Ey).
    destruct (decide (i = pos)) as [->|Hip].
    + pose proof (parent_lt _ Hi).
      rewrite (decide_False (P := parent pos = pos)) by lia.
      rewrite (decide_False (P := parent pos = c)) by lia.
      intros [= <-] Ep. eapply (H2 c); eauto. lia.
    + rewrite (decide_False (P := i = c)) by done. intros Ex.
      destruct (decide (parent i = pos)) as [Hpi|Hpi].
      * intros [= <-]. eapply (Hsib i); eauto.
      * rewrite (decide_False (P := parent i = c)) by done. intros Ep.
        eapply (H1 i); eauto.
  - intros d x g Hc0 Hd Hpd.
    pose proof (parent_lt _ Hd).
    rewrite !(swap_lookup _ _ _ _ _ _ En Ey). rewrite Hpc.
    rewrite (decide_True (P := pos = pos)) by done.
    rewrite (decide_False (P := d = pos)) by lia.
    rewrite (decide_False (P := d = c)) by lia.
    intros Ex [= <-]. eapply (H1 d); eauto; try lia. by rewrite Hpd.
Qed.

Lemma siftup_loop_spec fuel h pos h' leaf :
  heapq._siftup_loop fuel h pos = Ok (h', leaf) →
  h' ≡ₚ h ∧ pos ≤ leaf ∧ length h' ≤ 2 * leaf + 1 ∧
  (pos < length h → leaf < length h') ∧
  (inv_up h pos → inv_up h' leaf).
Proof.
  revert h pos. induction fuel as [|fuel IH]; intros h pos; [done|].
  rewrite siftup_loop_S. destruct (2 * pos + 1 <? length h) eqn:Hl.
  - apply Nat.ltb_lt in Hl. intros (c & Hc & H)%res_bind_Ok.
    apply choose_child in Hc; [|done].
    apply IH in H as (Hp & Hle & Hleaf & Hlt & Hinv).
    pose proof Hc as (Hc1 & Hc2 & _).
    split; [by rewrite Hp, swap_perm|]. split; [lia|]. split; [done|].
    split.
    + intros _. apply Hlt. by rewrite swap_length.
    + intros Hi. by apply Hinv, inv_up_swap.
  - apply Nat.ltb_ge in Hl. intros [= <- <-].
    split; [done|]. split; [lia|]. split; [lia|]. split; done.
Qed.

Lemma siftup_loop_total fuel h pos :
  0 < fuel → length h < fuel + pos → tie_free h →
  ∃ r, heapq._siftup_loop fuel h pos = Ok r.
Proof.
  revert h pos. induction fuel as [|fuel IH]; intros h pos Hf0 Hf Ht; [lia|].
  - rewrite siftup_loop_S. destruct (2 * pos + 1 <? length h) eqn:Hl; [|eauto].
    apply Nat.ltb_lt in Hl.
    assert (Hc : ∃ c, (if 2 * pos + 1 + 1 <? length h then
             match h !! (2 * pos + 1), h !! (2 * pos + 1 + 1) with
             | Some l, Some r =>
                 b ← heapq.lt l r;
                 Ok (if (b : bool) then 2 * pos + 1 else 2 * pos + 1 + 1)
             | _, _ => Stuck
             end
           else Ok (2 * pos + 1)) = Ok c ∧ pos < c).
    { destruct (2 * pos + 1 + 1 <? length h) eqn:Hr.
      - apply Nat.ltb_lt in Hr.
        destruct (lookup_lt_is_Some_2 h (2 * pos + 1) Hl) as [l El].
        destruct (lookup_lt_is_Some_2 h (2 * pos + 1 + 1) Hr) as [r Er].
        rewrite El, Er.
        destruct (Ht l r) as [b Hb]; [by eapply list_elem_of_lookup_2..|].
        rewrite Hb. simpl. destruct b; eexists; split; eauto; lia.
      - eexists; split; eauto; lia. }
    destruct Hc as (c & -> & Hpc). simpl.
    apply IH; [lia|rewrite swap_length; lia|].
    intros a b Ha Hb. apply Ht; by rewrite <- (swap_perm h pos c).
Qed.

Lemma inv_up_leaf h leaf :
  length h ≤ 2 * leaf + 1 → inv_up h leaf → inv_down h leaf.
Proof.
  intros Hl [H1 H2]. split; [|done].
  intros i x p Hi Hne Ex Ep. eapply H1; eauto.
  intros Hp. apply lookup_lt_Some in Ex.
  destruct (parent_child i Hi) as [E|E]; rewrite Hp in E; lia.
Qed.

Lemma siftup_perm h h' : heapq._siftup h 0 = Ok h' → h' ≡ₚ h.
Proof.
  unfold heapq._siftup. intros ([h1 leaf] & H1 & H2)%res_bind_Ok.
  apply siftup_loop_spec in H1 as (Hp & _). apply siftdown_perm in H2.
  by rewrite H2.
Qed.

Lemma siftup_heap_ok h h' :
  inv_up h 0 → heapq._siftup h 0 = Ok h' → heap_ok h'.
Proof.
  unfold heapq._siftup. intros Hinv ([h1 leaf] & H1 & H2)%res_bind_Ok.
  apply siftup_loop_spec in H1 as (_ & _ & Hleaf & _ & Hi).
  eapply siftdown_heap_ok; [|exact H2]. by apply inv_up_leaf, Hi.
Qed.

Lemma siftup_total h :
  h ≠ [] → tie_free h → ∃ h', heapq._siftup h 0 = Ok h'.
Proof.
  intros Hne Ht. unfold heapq._siftup.
  destruct (siftup_loop_total (S (length h)) h 0) as [[h1 leaf] H1];
    [lia..|done|].
  rewrite H1, res_bind_ret.
  apply siftup_loop_spec in H1 as (Hp & _ & _ & Hlt & _).
  apply siftdown_total; [lia| |].
  - apply Hlt. destruct h; [done|simpl; lia].
  - intros a b Ha Hb. apply Ht; by rewrite <- Hp.
Qed.

(** *** [heappush] and [heappop] *)

Lemma heappush_perm h e h' : heapq.heappush h e = Ok h' → h' ≡ₚ e :: h.
Proof.
  unfold heapq.heappush. intros H%siftdown_perm.
  by rewrite H, Permutation_app_comm.
Qed.

Lemma heappush_heap_ok h e h' :
  heap_ok h → heapq.heappush h e = Ok h' → heap_ok h'.
Proof.
  unfold heapq.heappush. intros Hok. apply siftdown_heap_ok.
  rewrite length_app. simpl.
  replace (length h + 1 - 1) with (length h) by lia. split.
  - intros i x p Hi Hne Ex Ep.
    assert (i < length h).
    { apply lookup_lt_Some in Ex. rewrite length_app in Ex. simpl in Ex. lia. }
    pose proof (parent_lt _ Hi).
    rewrite lookup_app_l in Ex, Ep by lia. eapply Hok; eauto.
  - intros c x g _ Hc Hp Ex _.
    apply lookup_lt_Some in Ex. rewrite length_app in Ex. simpl in Ex.
    pose proof (parent_lt _ Hc). lia.
Qed.

Lemma heappush_total h e :
  tie_free (e :: h) → ∃ h', heapq.heappush h e = Ok h'.
Proof.
  intros Ht. unfold heapq.heappush. apply siftdown_total.
  - rewrite length_app. simpl. lia.
  - rewrite length_app. simpl. lia.
  - intros a b Ha Hb. apply Ht; by rewrite (Permutation_app_comm [e] h).
Qed.

Lemma heappop_unfold x tl :
  heapq.heappop (x :: tl) =
    match tl with
    | [] => Ok []
    | _ :: _ =>
        match last tl with
        | Some l => heapq._siftup (l :: removelast tl) 0
        | None => Stuck
        end
    end.
Proof.
  unfold heapq.heappop. destruct tl as [|y tl]; [done|].
  rewrite last_cons_cons. destruct (last (y :: tl)) eqn:E; [|done].
  reflexivity.
Qed.

Lemma last_removelast {A} (l : list A) x :
  last l = Some x → l = removelast l ++ [x].
Proof.
  intros H. destruct (decide (l = [])) as [->|Hne]; [done|].
  destruct (exists_last Hne) as (l' & a & ->).
  rewrite last_snoc in H. injection H as ->. by rewrite removelast_last.
Qed.

Lemma heappop_perm h h' :
  heapq.heappop h = Ok h' → ∃ x tl, h = x :: tl ∧ h' ≡ₚ tl.
Proof.
  destruct h as [|x tl]; [done|]. rewrite heappop_unfold.
  intros H. exists x, tl. split; [done|].
  destruct tl as [|y tl]; [by injection H as <-|].
  destruct (last (y :: tl)) as [l|] eqn:El; [|done].
  apply siftup_perm in H. rewrite H.
  rewrite (last_removelast _ _ El) at 2. by rewrite Permutation_app_comm.
Qed.

Lemma heappop_heap_ok h h' :
  heap_ok h → heapq.heappop h = Ok h' → heap_ok h'.
Proof.
  destruct h as [|x tl]; [done|]. rewrite heappop_unfold. intros Hok.
  destruct tl as [|y tl]; [intros [= <-]; by intros i ? ? ? ?|].
  destruct (last (y :: tl)) as [l|] eqn:El; [|done].
  apply siftup_heap_ok. split; [|intros ? ? ? ?; lia].
  intros i z p Hi _ Hp Ez Ep. pose proof (parent_lt _ Hi).
  apply (Hok i z p Hi); rewrite (last_removelast _ _ El).
  - destruct i; [lia|]. simpl in *. by apply lookup_app_l_Some.
  - destruct (parent i); [lia|]. simpl in *. by apply lookup_app_l_Some.
Qed.

Lemma heappop_total h :
  h ≠ [] → tie_free h → ∃ h', heapq.heappop h = Ok h'.
Proof.
  destruct h as [|x tl]; [done|]. intros _ Ht. rewrite heappop_unfold.
  destruct tl as [|y tl]; [eauto|].
  destruct (last (y :: tl)) as [l|] eqn:El;
    [|by apply last_None in El].
  apply siftup_total; [done|].
  intros a b Ha Hb. apply Ht; right.
  - rewrite (last_removelast _ _ El), Permutation_app_comm. done.
  - rewrite (last_removelast _ _ El), Permutation_app_comm. done.
Qed.

Lemma heap_root_min h r :
  heap_ok h → h !! 0 = Some r → ∀ x, x ∈ h → key_le r x.
Proof.
  intros Hok Hr x [i Hi]%list_elem_of_lookup.
  revert x Hi. induction (lt_wf i) as [i _ IH]. intros x Hi.
  destruct (decide (i = 0)) as [->|Hne].
  - rewrite Hr in Hi. injection Hi as <-. apply key_le_refl.
  - assert (H0 : 0 < i) by lia. pose proof (parent_lt _ H0) as Hp.
    destruct (lookup_lt_is_Some_2 h (parent i)) as [p Ep].
    { apply lookup_lt_Some in Hi. lia. }
    eapply key_le_trans; [by apply (IH (parent i))|]. by eapply Hok.
Qed.

Ltac rb := cbn [mbind res_mbind res_bind].

Lemma fill_from_asks_loop_eq fuel self a T :
  _fill_from_asks_loop fuel self a T = fill_loop SELL fuel self a T.
Proof.
  revert self T. induction fuel as [|fuel IH]; intros self T; [done|].
  cbn [_fill_from_asks_loop fill_loop]. unfold fill_step.
  cbn [heap_of price_of_key too_far set_heap purge_level mk_trade].
  destruct (deref self a) as [agg| |]; [|done..]. rb.
  destruct (_ask_heap self) as [|[[key ts] r] h]; [done|].
  destruct (negb _); [done|].
  destruct (deref self r) as [passive| |]; [|done..]. rb.
  destruct (terminal _).
  { destruct (heapq.heappop _); [|done..]. rb. apply IH. }
  destruct (ask_too_high _ _) as [[]| |]; [done| |done..]. rb.
  destruct (deref _ r) as [passive'| |]; [|done..]. rb.
  destruct (deref _ a) as [agg'| |]; [|done..]. rb.
  destruct (deref _ r) as [passive''| |]; [|done..]. rb.
  destruct (Qeq_bool _ _); [|apply IH].
  destruct (heapq.heappop _); [|done..]. rb.
  destruct (purge_ask_level _ _); [|done..]. rb. apply IH.
Qed.

Lemma fill_from_bids_loop_eq fuel self a T :
  _fill_from_bids_loop fuel self a T = fill_loop BUY fuel self a T.
Proof.
  revert self T. induction fuel as [|fuel IH]; intros self T; [done|].
  cbn [_fill_from_bids_loop fill_loop]. unfold fill_step.
  cbn [heap_of price_of_key too_far set_heap purge_level mk_trade].
  destruct (deref self a) as [agg| |]; [|done..]. rb.
  destruct (_bid_heap self) as [|[[key ts] r] h]; [done|].
  destruct (negb _); [done|].
  destruct (deref self r) as [passive| |]; [|done..]. rb.
  destruct (terminal _).
  { destruct (heapq.heappop _); [|done..]. rb. apply IH. }
  destruct (bid_too_low _ _) as [[]| |]; [done| |done..]. rb.
  destruct (deref _ r) as [passive'| |]; [|done..]. rb.
  destruct (deref _ a) as [agg'| |]; [|done..]. rb.
  destruct (deref _ r) as [passive''| |]; [|done..]. rb.
  destruct (Qeq_bool _ _); [|apply IH].
  destruct (heapq.heappop _); [|done..]. rb.
  destruct (purge_bid_level _ _); [|done..]. rb. apply IH.
Qed.

Lemma fill_from_asks_eq self a : _fill_from_asks self a = fill_from SELL self a.
Proof. apply fill_from_asks_loop_eq. Qed.

Lemma fill_from_bids_eq self a : _fill_from_bids self a = fill_from BUY self a.
Proof. apply fill_from_bids_loop_eq. Qed.

Lemma match_market_buy_loop_eq fuel self a T :
  _match_market_buy_loop fuel self a T = market_loop SELL fuel self a T.
Proof.
  revert self T. induction fuel as [|fuel IH]; intros self T; [done|].
  cbn [_match_market_buy_loop market_loop heap_of].
  destruct (deref self a) as [o| |]; [|done..]. rb.
  destruct (_ && _); [|done]. rewrite fill_from_asks_eq.
  destruct (fill_from SELL self a) as [[b new]| |]; [|done..]. rb.
  cbn [heap_of]. destruct (_ =? _); [done|apply IH].
Qed.

Lemma match_market_sell_loop_eq fuel self a T :
  _match_market_sell_loop fuel self a T = market_loop BUY fuel self a T.
Proof.
  revert self T. induction fuel as [|fuel IH]; intros self T; [done|].
  cbn [_match_market_sell_loop market_loop heap_of].
  destruct (deref self a) as [o| |]; [|done..]. rb.
  destruct (_ && _); [|done]. rewrite fill_from_bids_eq.
  destruct (fill_from BUY self a) as [[b new]| |]; [|done..]. rb.
  cbn [heap_of]. destruct (_ =? _); [done|apply IH].
Qed.

Lemma match_limit_buy_loop_eq fuel self a T :
  _match_limit_buy_loop fuel self a T = limit_loop SELL fuel self a T.
Proof.
  revert self T. induction fuel as [|fuel IH]; intros self T; [done|].
  cbn [_match_limit_buy_loop limit_loop heap_of marketable].
  destruct (deref self a) as [o| |]; [|done..]. rb.
  destruct (negb _); [done|].
  destruct (_ask_heap self) as [|[[key ts] r] h]; [done|].
  destruct (number _) as [p| |]; [|done..]. rb.
  destruct (Qle_bool _ _); [|done]. rewrite fill_from_asks_eq.
  destruct (fill_from SELL self a) as [[b new]| |]; [|done..]. rb. apply IH.
Qed.

Lemma match_limit_sell_loop_eq fuel self a T :
  _match_limit_sell_loop fuel self a T = limit_loop BUY fuel self a T.
Proof.
  revert self T. induction fuel as [|fuel IH]; intros self T; [done|].
  cbn [_match_limit_sell_loop limit_loop heap_of marketable].
  destruct (deref self a) as [o| |]; [|done..]. rb.
  destruct (negb _); [done|].
  destruct (_bid_heap self) as [|[[key ts] r] h]; [done|].
  destruct (number _) as [p| |]; [|done..]. rb.
  destruct (Qle_bool _ _); [|done]. rewrite fill_from_bids_eq.
  destruct (fill_from BUY self a) as [[b new]| |]; [|done..]. rb. apply IH.
Qed.

Lemma match_market_order_eq self ref :
  _match_market_order self ref =
    order ← deref self ref; market_side (opposite (Order.side order)) self ref.
Proof.
  unfold _match_market_order, market_side.
  destruct (deref self ref) as [o| |]; [|done..]. rb.
  destruct (Order.side o); cbn [opposite heap_of].
  - by rewrite match_market_buy_loop_eq.
  - by rewrite match_market_sell_loop_eq.
Qed.

Lemma match_limit_order_eq self ref :
  _match_limit_order self ref =
    order ← deref self ref; limit_side (opposite (Order.side order)) self ref.
Proof.
  unfold _match_limit_order, limit_side.
  destruct (deref self ref) as [o| |]; [|done..]. rb.
  destruct (Order.side o); cbn [opposite heap_of].
  - by rewrite match_limit_buy_loop_eq.
  - by rewrite match_limit_sell_loop_eq.
Qed.

Lemma best_bid_eq self : best_bid self = best BUY self.
Proof.
  unfold best_bid, best. cbn [heap_of].
  generalize (S (length (_bid_heap self))). intros fuel. revert self.
  induction fuel as [|fuel IH]; intros self; [done|].
  cbn [best_bid_loop best_loop heap_of price_of_key set_heap].
  destruct (_bid_heap self) as [|[[key ts] r] h]; [done|].
  destruct (deref self r) as [o| |]; [|done..]. rb.
  destruct (live o); [done|].
  destruct (heapq.heappop _); [|done..]. rb. apply IH.
Qed.

Lemma best_ask_eq self : best_ask self = best SELL self.
Proof.
  unfold best_ask, best. cbn [heap_of].
  generalize (S (length (_ask_heap self))). intros fuel. revert self.
  induction fuel as [|fuel IH]; intros self; [done|].
  cbn [best_ask_loop best_loop heap_of price_of_key set_heap].
  destruct (_ask_heap self) as [|[[key ts] r] h]; [done|].
  destruct (deref self r) as [o| |]; [|done..]. rb.
  destruct (live o); [done|].
  destruct (heapq.heappop _); [|done..]. rb. apply IH.
Qed.

Lemma same_identity_refl o : same_identity o o.
Proof. by repeat split. Qed.

Lemma same_identity_trans o1 o2 o3 :
  same_identity o1 o2 → same_identity o2 o3 → same_identity o1 o3.
Proof. unfold same_identity. intuition congruence. Qed.

Lemma fill_identity o q : same_identity o (Order.fill o q).1.
Proof. by repeat split. Qed.

Lemma fill_conserved o q : conserved o → conserved (Order.fill o q).1.
Proof. unfold conserved. simpl. intros H. rewrite <- H. ring. Qed.

Lemma frame_refl s b : frame s b b.
Proof.
  split; try done. intros r. destruct (_orders b !! r); constructor.
  apply same_identity_refl.
Qed.

Lemma frame_trans s b1 b2 b3 : frame s b1 b2 → frame s b2 b3 → frame s b1 b3.
Proof.
  intros [F1 F2 F3 F4 F5 F6 F7] [G1 G2 G3 G4 G5 G6 G7]. split; try congruence.
  - intros r. specialize (F1 r). specialize (G1 r).
    destruct F1; inversion G1; subst; constructor.
    by eapply same_identity_trans.
  - by etrans.
Qed.

(** *** Projections of the updates *)

Lemma heap_of_store s b r o : heap_of s (store b r o) = heap_of s b.
Proof. by destruct s. Qed.

Lemma levels_of_store s b r o : levels_of s (store b r o) = levels_of s b.
Proof. by destruct s. Qed.

Lemma heap_of_set_heap s b h : heap_of s (set_heap s b h) = h.
Proof. by destruct s. Qed.

Lemma heap_of_set_heap_ne s s' b h :
  s' ≠ s → heap_of s' (set_heap s b h) = heap_of s' b.
Proof. by destruct s, s'. Qed.

Lemma levels_of_set_heap s s' b h : levels_of s' (set_heap s b h) = levels_of s' b.
Proof. by destruct s, s'. Qed.

Lemma orders_set_heap s b h : _orders (set_heap s b h) = _orders b.
Proof. by destruct s. Qed.

Lemma heap_of_set_levels s s' b l : heap_of s' (set_levels s b l) = heap_of s' b.
Proof. by destruct s, s'. Qed.

Lemma levels_of_set_levels s b l : levels_of s (set_levels s b l) = l.
Proof. by destruct s. Qed.

Lemma levels_of_set_levels_ne s s' b l :
  s' ≠ s → levels_of s' (set_levels s b l) = levels_of s' b.
Proof. by destruct s, s'. Qed.

Lemma orders_set_levels s b l : _orders (set_levels s b l) = _orders b.
Proof. by destruct s. Qed.

Lemma opposite_ne s : opposite s ≠ s.
Proof. by destruct s. Qed.

(** *** Float-keyed dictionaries *)

Lemma dict_set_elem {V} (d : list (Q * V)) k v k' v' :
  (k', v') ∈ dict_set d k v → (k', v') ∈ d ∨ v' = v.
Proof.
  induction d as [|[k0 v0] d IH]; simpl.
  - intros [= -> ->]%list_elem_of_singleton. by right.
  - destruct (Qeq_bool k k0).
    + intros [[= -> ->]|H]%elem_of_cons; [by right|left; by right].
    + intros [[= -> ->]|H]%elem_of_cons; [left; by left|].
      destruct (IH H); [left; by right|by right].
Qed.

Lemma dict_get_elem {V} (d : list (Q * V)) k v :
  dict_get d k = Some v → ∃ k', (k', v) ∈ d.
Proof.
  induction d as [|[k0 v0] d IH]; simpl; [done|].
  destruct (Qeq_bool k k0).
  - intros [= ->]. eexists. by left.
  - intros [k' H]%IH. eexists. by right.
Qed.

(** *** Price levels *)

Lemma deref_all_Ok objs refs os :
  deref_all objs refs = Ok os → length os = length refs.
Proof.
  revert os. induction refs as [|r refs IH]; intros os; simpl.
  - by intros [= <-].
  - destruct (objs !! r); [|done].
    intros (os' & H & [= <-])%res_bind_Ok. simpl. by rewrite (IH os').
Qed.

Lemma deref_all_total objs refs :
  (∀ r, r ∈ refs → is_Some (objs !! r)) → ∃ os, deref_all objs refs = Ok os.
Proof.
  induction refs as [|r refs IH]; intros H; simpl; [eauto|].
  destruct (H r) as [o ->]; [by left|].
  destruct IH as [os ->]; [intros; apply H; by right|]. simpl. eauto.
Qed.

Lemma filter_zip_fst {A B} (f : A * B → bool) (l : list A) (k : list B) x :
  x ∈ (List.filter f (zip l k)).*1 → x ∈ l.
Proof.
  intros ([a b] & -> & H)%list_elem_of_fmap.
  apply list_elem_of_In, filter_In in H as [H _].
  apply list_elem_of_In in H. simpl. by eapply elem_of_zip_l.
Qed.

Lemma remove_filled_orders objs lvl lvl' r :
  PriceLevel.remove_filled objs lvl = Ok lvl' →
  r ∈ PriceLevel.orders lvl' → r ∈ PriceLevel.orders lvl.
Proof.
  unfold PriceLevel.remove_filled. intros (os & _ & [= <-])%res_bind_Ok.
  simpl. apply filter_zip_fst.
Qed.

Lemma purge_level_inv s b p b' :
  purge_level s b p = Ok b' →
  b' = b ∨ ∃ lvl lvl', dict_get (levels_of s b) p = Some lvl ∧
    PriceLevel.remove_filled (_orders b) lvl = Ok lvl' ∧
    b' = set_levels s b (dict_set (levels_of s b) p lvl').
Proof.
  destruct s; unfold purge_level, purge_bid_level, purge_ask_level; simpl.
  - destruct (dict_get _ _) as [lvl|]; [|intros [= <-]; by left].
    intros (lvl' & H & [= <-])%res_bind_Ok. right. eauto.
  - destruct (dict_get _ _) as [lvl|]; [|intros [= <-]; by left].
    intros (lvl' & H & [= <-])%res_bind_Ok. right. eauto.
Qed.

(** *** Steps that keep a book well formed *)

Lemma wf_store b r o o' :
  wf b → _orders b !! r = Some o → same_identity o o' → conserved o' →
  wf (store b r o').
Proof.
  intros [Wid Wcons Wheap Wnodup Wok Wlev Wtr Wvol] Hr Hid Hc. split; try done.
  - intros r' o''. simpl. destruct (decide (r = r')) as [->|Hne].
    + rewrite lookup_insert_eq. intros [= <-].
      destruct Hid as (-> & _). eauto.
    + rewrite lookup_insert_ne by done. eauto.
  - intros r' o''. simpl. destruct (decide (r = r')) as [->|Hne].
    + rewrite lookup_insert_eq. by intros [= <-].
    + rewrite lookup_insert_ne by done. eauto.
  - intros s k ts r'. rewrite heap_of_store. intros H.
    destruct (Wheap _ _ _ _ H) as (o1 & p & H1 & H2 & H3 & H4 & H5).
    simpl. destruct (decide (r = r')) as [->|Hne].
    + rewrite lookup_insert_eq. exists o', p.
      rewrite Hr in H1. injection H1 as <-.
      destruct Hid as (_ & -> & _ & _ & -> & ->). done.
    + rewrite lookup_insert_ne by done. eauto 10.
  - intros s p lvl r'. rewrite levels_of_store. intros H1 H2. simpl.
    destruct (decide (r = r')) as [->|Hne].
    + rewrite lookup_insert_eq. eauto.
    + rewrite lookup_insert_ne by done. eauto.
Qed.

Lemma wf_pop s b h' :
  wf b → heapq.heappop (heap_of s b) = Ok h' → wf (set_heap s b h').
Proof.
  intros [Wid Wcons Wheap Wnodup Wok Wlev Wtr Wvol] Hpop.
  pose proof (heappop_heap_ok _ _ (Wok s) Hpop) as Hok.
  apply heappop_perm in Hpop as (x & tl & Hh & Hp).
  split; try (by destruct s).
  - intros s' k ts r. rewrite orders_set_heap.
    destruct (decide (s' = s)) as [->|Hne].
    + rewrite heap_of_set_heap. intros H. apply Wheap.
      rewrite Hh. right. by rewrite <- Hp.
    + rewrite heap_of_set_heap_ne by done. apply Wheap.
  - intros s'. destruct (decide (s' = s)) as [->|Hne].
    + rewrite heap_of_set_heap. specialize (Wnodup s).
      rewrite Hh in Wnodup. rewrite Hp.
      by apply NoDup_cons in Wnodup as [_ ?].
    + by rewrite heap_of_set_heap_ne.
  - intros s'. destruct (decide (s' = s)) as [->|Hne].
    + by rewrite heap_of_set_heap.
    + by rewrite heap_of_set_heap_ne.
Qed.

Lemma wf_purge s b p b' : wf b → purge_level s b p = Ok b' → wf b'.
Proof.
  intros Hwf [->|(lvl & lvl' & Hg & Hr & ->)]%purge_level_inv; [done|].
  destruct Hwf as [Wid Wcons Wheap Wnodup Wok Wlev Wtr Wvol].
  split; try (by destruct s).
  - intros s' q l r. rewrite orders_set_levels.
    destruct (decide (s' = s)) as [->|Hne].
    + rewrite levels_of_set_levels.
      intros [H| ->]%dict_set_elem Hin; [eauto|].
      apply dict_get_elem in Hg as [k' Hg].
      eapply Wlev; [exact Hg|]. by eapply remove_filled_orders.
    + rewrite levels_of_set_levels_ne by done. eauto.
Qed.

Lemma frame_store s b r o o' :
  _orders b !! r = Some o → same_identity o o' → frame s b (store b r o').
Proof.
  intros Hr Hid. split; try done; try (by destruct s).
  - intros r'. simpl. destruct (decide (r = r')) as [->|Hne].
    + rewrite lookup_insert_eq, Hr. by constructor.
    + rewrite lookup_insert_ne by done.
      destruct (_orders b !! r'); constructor. apply same_identity_refl.
Qed.

Lemma frame_pop s b h' :
  heapq.heappop (heap_of s b) = Ok h' → frame s b (set_heap s b h').
Proof.
  intros (x & tl & Hh & Hp)%heappop_perm. split; try (by destruct s).
  - intros r. rewrite orders_set_heap.
    destruct (_orders b !! r); constructor. apply same_identity_refl.
  - rewrite heap_of_set_heap, Hh, Hp. by apply submseteq_cons.
Qed.

Lemma frame_purge s b p b' : purge_level s b p = Ok b' → frame s b b'.
Proof.
  intros [->|(lvl & lvl' & Hg & Hr & ->)]%purge_level_inv;
    [apply frame_refl|].
  split; try (by destruct s).
  intros r. rewrite orders_set_levels.
  destruct (_orders b !! r); constructor. apply same_identity_refl.
Qed.

Lemma deref_Ok b r o : deref b r = Ok o ↔ _orders b !! r = Some o.
Proof.
  unfold deref. destruct (_orders b !! r); split; congruence.
Qed.

Lemma orders_store b r o : _orders (store b r o) = <[r := o]> (_orders b).
Proof. reflexivity. Qed.

Lemma fill_step_spec s b a b' ot :
  a ∉ (heap_of s b).*2 →
  fill_step s b a = Ok (FillNext b' ot) → step_spec s a b b' ot.
Proof.
  intros Ha. unfold fill_step.
  intros (agg & Hagg%deref_Ok & H)%res_bind_Ok.
  destruct (heap_of s b) as [|[[k ts] r] h] eqn:Hh; [done|].
  destruct (negb _) eqn:Hrem; [done|].
  apply negb_false_iff, Qlt_bool_true in Hrem.
  apply res_bind_Ok in H as (passive & Hp%deref_Ok & H).
  assert (Hra : r ≠ a).
  { intros ->. apply Ha. simpl. by left. }
  destruct (terminal (Order.status passive)) eqn:Hterm.
  { apply res_bind_Ok in H as (h' & Hpop & [= <- <-]).
    rewrite <- Hh in Hpop. eapply step_stale; eauto. }
  apply res_bind_Ok in H as (stop & Hstop & H).
  destruct stop; [done|].
  set (q := Qmin (Order.remaining agg) (Order.remaining passive)) in *.
  apply res_bind_Ok in H as (passive1 & Hp1%deref_Ok & H).
  rewrite orders_store, lookup_insert_ne in Hp1 by done.
  assert (passive1 = passive) as -> by congruence.
  apply res_bind_Ok in H as (agg2 & Ha2%deref_Ok & H).
  rewrite !orders_store, lookup_insert_ne, lookup_insert_eq in Ha2 by done.
  assert (agg2 = (Order.fill agg q).1) as -> by congruence.
  apply res_bind_Ok in H as (passive2 & Hp2%deref_Ok & H).
  rewrite !orders_store, lookup_insert_eq in Hp2.
  assert (passive2 = (Order.fill passive q).1) as -> by congruence.
  destruct (Qeq_bool (Order.remaining (Order.fill passive q).1) 0) eqn:Hz.
  - apply res_bind_Ok in H as (h' & Hpop & H).
    apply res_bind_Ok in H as (b3 & Hpurge & [= <- <-]).
    rewrite !heap_of_store, Hh in Hpop. rewrite <- Hh in Hpop.
    eapply step_match; eauto. fold q. rewrite Hz. eauto.
  - injection H as <- <-. eapply step_match; eauto. fold q. by rewrite Hz.
Qed.

Lemma fills_trans s a b1 T1 b2 T2 b3 T3 :
  fills s a b1 T1 b2 T2 → fills s a b2 T2 b3 T3 → fills s a b1 T1 b3 T3.
Proof.
  induction 1; [done|]. intros H2. eapply fills_step; eauto.
Qed.

Lemma fill_loop_fills s fuel b a T b' T' :
  fill_loop s fuel b a T = Ok (b', T') → fills s a b T b' T'.
Proof.
  revert b T. induction fuel as [|fuel IH]; intros b T; [done|].
  cbn [fill_loop]. intros (r & Hstep & H)%res_bind_Ok.
  destruct r as [|b1 ot].
  - injection H as <- <-. apply fills_refl.
  - eapply fills_step; eauto.
Qed.

Lemma add_trade_app T1 T2 ot : add_trade (T1 ++ T2) ot = T1 ++ add_trade T2 ot.
Proof. destruct ot; simpl; [by rewrite app_assoc|done]. Qed.

Lemma fills_app s a b T b' T' T0 :
  fills s a b T b' T' → fills s a b (T0 ++ T) b' (T0 ++ T').
Proof.
  induction 1; [apply fills_refl|].
  eapply fills_step; [done|]. by rewrite add_trade_app.
Qed.

Lemma fill_from_fills s b a T b' new :
  fill_from s b a = Ok (b', new) → fills s a b T b' (T ++ new).
Proof.
  intros H%fill_loop_fills. apply (fills_app _ _ _ _ _ _ T) in H.
  by rewrite app_nil_r in H.
Qed.

Lemma market_loop_fills s fuel b a T b' T' :
  market_loop s fuel b a T = Ok (b', T') → fills s a b T b' T'.
Proof.
  revert b T. induction fuel as [|fuel IH]; intros b T; [done|].
  cbn [market_loop]. intros (o & Ho & H)%res_bind_Ok.
  destruct (_ && _); [|injection H as <- <-; apply fills_refl].
  apply res_bind_Ok in H as ([b1 new] & Hf & H).
  apply (fill_from_fills _ _ _ T) in Hf.
  destruct (_ =? _).
  - by injection H as <- <-.
  - eapply fills_trans; eauto.
Qed.

Lemma limit_loop_fills s fuel b a T b' T' :
  limit_loop s fuel b a T = Ok (b', T') → fills s a b T b' T'.
Proof.
  revert b T. induction fuel as [|fuel IH]; intros b T; [done|].
  cbn [limit_loop]. intros (o & Ho & H)%res_bind_Ok.
  destruct (negb _); [injection H as <- <-; apply fills_refl|].
  destruct (heap_of s b) as [|[[k ts] r] h];
    [injection H as <- <-; apply fills_refl|].
  apply res_bind_Ok in H as (p & Hp & H).
  destruct (marketable _ _ _); [|injection H as <- <-; apply fills_refl].
  apply res_bind_Ok in H as ([b1 new] & Hf & H).
  apply (fill_from_fills _ _ _ T) in Hf.
  eapply fills_trans; eauto.
Qed.

Lemma step_spec_wf s a b b' ot :
  wf b → step_spec s a b b' ot → wf b' ∧ frame s b b'.
Proof.
  intros Hwf [k ts r h agg passive h' Ha Hrem Hh Hp Hterm Hpop
             |k ts r h agg passive b'' Ha Hrem Hh Hp Hterm Hfar Hra q agg' passive' b2 Hb'].
  - split; [by eapply wf_pop|by apply frame_pop].
  - assert (Hwf1 : wf (store b a agg')).
    { eapply wf_store; eauto using fill_identity.
      eapply fill_conserved, wf_conserved; eauto. }
    assert (Hp1 : _orders (store b a agg') !! r = Some passive).
    { by rewrite orders_store, lookup_insert_ne. }
    assert (Hwf2 : wf b2).
    { eapply wf_store; eauto using fill_identity.
      eapply fill_conserved, wf_conserved; eauto. }
    assert (Hfr2 : frame s b b2).
    { apply (frame_trans _ _ (store b a agg')).
      - apply (frame_store _ _ _ agg); [done|apply fill_identity].
      - apply (frame_store _ _ _ passive); [done|apply fill_identity]. }
    destruct (Qeq_bool (Order.remaining passive') 0).
    + destruct Hb' as (h' & Hpop & Hpurge).
      assert (Hpop2 : heapq.heappop (heap_of s b2) = Ok h')
        by (by unfold b2; rewrite !heap_of_store).
      split.
      * eapply wf_purge; [|exact Hpurge]. by apply wf_pop.
      * eapply frame_trans; [exact Hfr2|].
        eapply frame_trans; [by apply frame_pop|by eapply frame_purge].
    + by subst b''.
Qed.

Lemma frame_not_in s b b' a :
  frame s b b' → a ∉ (heap_of s b).*2 → a ∉ (heap_of s b').*2.
Proof.
  intros Hfr Ha Hin. apply Ha.
  apply list_elem_of_fmap in Hin as (e & -> & He).
  apply list_elem_of_fmap. exists e. split; [done|].
  eapply elem_of_submseteq; [exact He|]. by destruct Hfr.
Qed.

Lemma fills_wf s a b T b' T' :
  wf b → a ∉ (heap_of s b).*2 → fills s a b T b' T' →
  wf b' ∧ frame s b b' ∧ a ∉ (heap_of s b').*2.
Proof.
  intros Hwf Ha H. revert Hwf Ha.
  induction H as [|b T b1 ot b' T' Hstep _ IH]; intros Hwf Ha.
  - split; [done|]. split; [apply frame_refl|done].
  - apply fill_step_spec in Hstep; [|done].
    destruct (step_spec_wf _ _ _ _ _ Hwf Hstep) as [Hwf1 Hfr1].
    destruct IH as (Hwf' & Hfr' & Ha'); [done|by eapply frame_not_in|].
    split; [done|]. split; [by eapply frame_trans|done].
Qed.

Lemma price_of_key_of s p : (price_of_key s (key_of s p) == p)%Q.
Proof. destruct s; simpl; [apply Qopp_involutive|reflexivity]. Qed.

Lemma trade_ok_frame s a b b' t :
  frame s b b' → trade_ok s a b t → trade_ok s a b' t.
Proof.
  intros Hfr (Hagg & Hne & o & p & Ho & Hs & Hp & Hpr).
  split; [done|]. split; [done|].
  pose proof (fr_store _ _ _ Hfr (passive_ref s t)) as Hst. rewrite Ho in Hst.
  inversion Hst as [? o' Hid|]; subst.
  destruct Hid as (_ & Hs' & _ & _ & Hp' & _).
  exists o', p. repeat split; congruence.
Qed.

Lemma step_spec_trade s a b b' t :
  wf b → step_spec s a b b' (Some t) → trade_ok s a b' t.
Proof.
  intros Hwf Hstep. pose proof (step_spec_wf _ _ _ _ _ Hwf Hstep) as [_ Hfr].
  eapply trade_ok_frame; [exact Hfr|].
  inversion Hstep as [|k ts r h agg passive b'' Ha Hrem Hh Hp Hterm Hfar Hra q agg' passive' b2 Hb']; subst.
  destruct (wf_heap _ Hwf s k ts r) as (o & p & Ho & Hs & Hpr & -> & ->);
    [rewrite Hh; by left|].
  assert (o = passive) as -> by congruence.
  pose proof (wf_id _ Hwf _ _ Ha) as Hida.
  pose proof (wf_id _ Hwf _ _ Hp) as Hidp.
  assert (Hagg : aggressor_ref s (mk_trade s agg' passive' (price_of_key s (key_of s p)) q) = a)
    by (by destruct s).
  assert (Hpas : passive_ref s (mk_trade s agg' passive' (price_of_key s (key_of s p)) q) = r)
    by (by destruct s).
  split; [done|]. rewrite Hpas. split; [done|].
  exists passive, p. repeat split; try done.
  destruct s; simpl; [apply Qopp_involutive|reflexivity].
Qed.

Lemma fills_trades s a b T b' T' :
  wf b → a ∉ (heap_of s b).*2 → Forall (trade_ok s a b) T →
  fills s a b T b' T' → Forall (trade_ok s a b') T'.
Proof.
  intros Hwf Ha HT H. revert Hwf Ha HT.
  induction H as [|b T b1 ot b' T' Hstep _ IH]; intros Hwf Ha HT; [done|].
  apply fill_step_spec in Hstep; [|done].
  destruct (step_spec_wf _ _ _ _ _ Hwf Hstep) as [Hwf1 Hfr1].
  apply IH; [done|by eapply frame_not_in|].
  assert (HT1 : Forall (trade_ok s a b1) T).
  { eapply Forall_impl; [exact HT|]. intros t. by apply trade_ok_frame. }
  destruct ot as [t|]; simpl; [|done].
  apply Forall_app. split; [done|]. constructor; [|done].
  by apply (step_spec_trade _ _ b).
Qed.

(** ** The operations of the book keep it well formed *)

Lemma Qsum_acc l a : (fold_left Qplus l a == a + Qsum l)%Q.
Proof.
  unfold Qsum. revert a. induction l as [|x l IH]; intros a; simpl.
  - ring.
  - rewrite IH, (IH (0 + x)%Q). ring.
Qed.

Lemma Qsum_app l1 l2 : (Qsum (l1 ++ l2) == Qsum l1 + Qsum l2)%Q.
Proof. unfold Qsum at 1. rewrite fold_left_app. fold (Qsum l1). apply Qsum_acc. Qed.

Lemma wf_store_fresh b r o :
  wf b → _orders b !! r = None → Order.id o = r → conserved o →
  wf (store b r o).
Proof.
  intros [Wid Wcons Wheap Wnodup Wok Wlev Wtr Wvol] Hr Hid Hc. split; try done.
  - intros r' o'. rewrite orders_store. destruct (decide (r = r')) as [->|Hne].
    + rewrite lookup_insert_eq. by intros [= <-].
    + rewrite lookup_insert_ne by done. eauto.
  - intros r' o'. rewrite orders_store. destruct (decide (r = r')) as [->|Hne].
    + rewrite lookup_insert_eq. by intros [= <-].
    + rewrite lookup_insert_ne by done. eauto.
  - intros s k ts r'. rewrite heap_of_store. intros H.
    destruct (Wheap _ _ _ _ H) as (o1 & p & H1 & H2).
    rewrite orders_store, lookup_insert_ne by congruence. eauto.
  - intros s p lvl r'. rewrite levels_of_store. intros H1 H2.
    rewrite orders_store. destruct (decide (r = r')) as [->|Hne].
    + rewrite lookup_insert_eq. eauto.
    + rewrite lookup_insert_ne by done. eauto.
Qed.

Lemma wf_not_resting b r s :
  wf b → _orders b !! r = None → r ∉ (heap_of s b).*2.
Proof.
  intros Hwf Hr ([[k ts] r'] & -> & Hin)%list_elem_of_fmap.
  destruct (wf_heap _ Hwf _ _ _ _ Hin) as (o & p & Ho & _). simpl in Hr.
  congruence.
Qed.

Lemma level_add_elem levels price ref order p lvl r :
  (p, lvl) ∈ level_add levels price ref order → r ∈ PriceLevel.orders lvl →
  r = ref ∨ ∃ p' lvl', (p', lvl') ∈ levels ∧ r ∈ PriceLevel.orders lvl'.
Proof.
  unfold level_add. intros [H| ->]%dict_set_elem Hr; [eauto|].
  simpl in Hr. apply elem_of_app in Hr as [Hr|Hr%list_elem_of_singleton];
    [|by left].
  destruct (dict_get levels price) as [l|] eqn:Hg.
  - apply dict_get_elem in Hg as [p' Hg]. eauto.
  - simpl in Hr. by apply elem_of_nil in Hr.
Qed.

Lemma add_to_spec s b ref b' :
  wf b → ref ∉ (heap_of s b).*2 →
  (∀ o, _orders b !! ref = Some o → Order.side o = s) →
  add_to s b ref = Ok b' →
  wf b' ∧ _orders b' = _orders b ∧
  heap_of (opposite s) b' = heap_of (opposite s) b ∧
  (∃ o p, _orders b !! ref = Some o ∧ Order.price o = Some p ∧
     heap_of s b' ≡ₚ (key_of s p, Order.timestamp o, ref) :: heap_of s b) ∧
  trades b' = trades b ∧ total_volume b' = total_volume b ∧
  total_trades b' = total_trades b.
Proof.
  intros Hwf Hfresh Hside. unfold add_to.
  intros (o & Ho%deref_Ok & H)%res_bind_Ok.
  apply res_bind_Ok in H as (p & Hp & H).
  apply res_bind_Ok in H as (h' & Hpush & [= <-]).
  destruct (Order.price o) as [p'|] eqn:Hprice; [|done].
  injection Hp as ->.
  rewrite heap_of_set_levels in Hpush.
  pose proof (heappush_heap_ok _ _ _ (wf_heap_ok _ Hwf s) Hpush) as Hok.
  apply heappush_perm in Hpush.
  split; [|split; [|split; [|split]]].
  - destruct Hwf as [Wid Wcons Wheap Wnodup Wok Wlev Wtr Wvol].
    split; try (by destruct s).
    + intros s' k ts r. rewrite orders_set_heap, orders_set_levels.
      destruct (decide (s' = s)) as [->|Hne].
      * rewrite heap_of_set_heap, Hpush.
        intros [[= -> -> ->]|Hin]%elem_of_cons; [|eauto].
        exists o, p. repeat split; eauto.
      * rewrite heap_of_set_heap_ne, heap_of_set_levels by done. eauto.
    + intros s'. destruct (decide (s' = s)) as [->|Hne].
      * rewrite heap_of_set_heap, Hpush. simpl. apply NoDup_cons. eauto.
      * rewrite heap_of_set_heap_ne, heap_of_set_levels by done. eauto.
    + intros s'. destruct (decide (s' = s)) as [->|Hne].
      * by rewrite heap_of_set_heap.
      * rewrite heap_of_set_heap_ne, heap_of_set_levels by done. eauto.
    + intros s' q lvl r. rewrite orders_set_heap, orders_set_levels.
      rewrite levels_of_set_heap.
      destruct (decide (s' = s)) as [->|Hne].
      * rewrite levels_of_set_levels. intros Hin Hr.
        destruct (level_add_elem _ _ _ _ _ _ _ Hin Hr)
          as [->|(p' & lvl' & H1 & H2)]; eauto.
      * rewrite levels_of_set_levels_ne by done. eauto.
  - by destruct s.
  - by destruct s.
  - exists o, p. by rewrite heap_of_set_heap.
  - by destruct s.
Qed.

Lemma store_ext_refl b : store_ext b b.
Proof.
  intros r. destruct (_orders b !! r); constructor. apply same_identity_refl.
Qed.

Lemma store_ext_trans b1 b2 b3 :
  store_ext b1 b2 → store_ext b2 b3 → store_ext b1 b3.
Proof.
  intros H1 H2 r. specialize (H1 r). specialize (H2 r).
  destruct H1; inversion H2; subst; constructor.
  by eapply same_identity_trans.
Qed.

Lemma frame_store_ext s b b' : frame s b b' → store_ext b b'.
Proof. by intros []. Qed.

Lemma frame_history s b b' : frame s b b' → same_history b b'.
Proof. by intros []. Qed.

Lemma store_ext_store b r o o' :
  _orders b !! r = Some o → same_identity o o' → store_ext b (store b r o').
Proof. intros H1 H2. eapply (frame_store_ext BUY), frame_store; eauto. Qed.

Lemma trade_ok_store_ext s a b b' t :
  store_ext b b' → trade_ok s a b t → trade_ok s a b' t.
Proof.
  intros Hst (Hagg & Hne & o & p & Ho & Hs & Hp & Hpr).
  split; [done|]. split; [done|].
  specialize (Hst (passive_ref s t)). rewrite Ho in Hst.
  inversion Hst as [? o' Hid|]; subst.
  destruct Hid as (_ & Hs' & _ & _ & Hp' & _).
  exists o', p. repeat split; congruence.
Qed.

Lemma limit_side_spec s b ref b' T :
  wf b → ref ∉ (heap_of s b).*2 → ref ∉ (heap_of (opposite s) b).*2 →
  (∀ o, _orders b !! ref = Some o → Order.side o = opposite s) →
  limit_side s b ref = Ok (b', T) →
  wf b' ∧ store_ext b b' ∧ same_history b b' ∧ Forall (trade_ok s ref b') T.
Proof.
  intros Hwf Hs Ho Hside. unfold limit_side.
  intros ([b1 T1] & Hloop%limit_loop_fills & H)%res_bind_Ok.
  apply res_bind_Ok in H as (o & Hd%deref_Ok & H).
  destruct (fills_wf _ _ _ _ _ _ Hwf Hs Hloop) as (Hwf1 & Hfr1 & Hs1).
  pose proof (fills_trades _ _ _ _ _ _ Hwf Hs (Forall_nil_2 _) Hloop) as HT1.
  destruct (_ && _).
  - apply res_bind_Ok in H as (b2 & Hadd & [= <- <-]).
    apply add_to_spec in Hadd as (Hwf2 & Hst & Hh & _ & Htr & Hvol & Hcnt);
      [|done|..].
    + split; [done|]. split; [|split].
      * intros r. rewrite Hst. by apply (fr_store _ _ _ Hfr1).
      * destruct Hfr1. repeat split; congruence.
      * eapply Forall_impl; [exact HT1|]. intros t.
        apply trade_ok_store_ext. intros r. rewrite Hst.
        destruct (_orders b1 !! r); constructor. apply same_identity_refl.
    + by rewrite (fr_other_heap _ _ _ Hfr1).
    + intros o' Ho'. pose proof (fr_store _ _ _ Hfr1 ref) as Hst.
      rewrite Ho' in Hst. inversion Hst as [o0 ? Hid Ho0|]; subst.
      destruct Hid as (_ & -> & _). symmetry in Ho0. eauto.
  - injection H as <- <-. split; [done|]. split; [|split; [|done]].
    + by eapply frame_store_ext.
    + by eapply frame_history.
Qed.

Lemma set_status_identity o st : same_identity o (Order.set_status o st).
Proof. by repeat split. Qed.

Lemma market_side_spec s b ref b' T :
  wf b → ref ∉ (heap_of s b).*2 →
  market_side s b ref = Ok (b', T) →
  wf b' ∧ store_ext b b' ∧ same_history b b' ∧ Forall (trade_ok s ref b') T ∧
  heap_of (opposite s) b' = heap_of (opposite s) b ∧
  levels_of (opposite s) b' = levels_of (opposite s) b.
Proof.
  intros Hwf Hs. unfold market_side.
  intros ([b1 T1] & Hloop%market_loop_fills & H)%res_bind_Ok.
  apply res_bind_Ok in H as (o & Hd%deref_Ok & H).
  destruct (fills_wf _ _ _ _ _ _ Hwf Hs Hloop) as (Hwf1 & Hfr1 & Hs1).
  pose proof (fills_trades _ _ _ _ _ _ Hwf Hs (Forall_nil_2 _) Hloop) as HT1.
  destruct (Qlt_bool _ _).
  - injection H as <- <-.
    pose proof (store_ext_store _ _ _ _ Hd (set_status_identity o st_partial))
      as Hst.
    split; [|split; [|split; [|split; [|split]]]].
    + eapply wf_store; eauto using set_status_identity.
      exact (wf_conserved _ Hwf1 ref o Hd).
    + eapply store_ext_trans; [by eapply frame_store_ext|done].
    + by destruct Hfr1.
    + eapply Forall_impl; [exact HT1|]. intros t. by apply trade_ok_store_ext.
    + rewrite heap_of_store. by destruct Hfr1.
    + rewrite levels_of_store. by destruct Hfr1.
  - injection H as <- <-. split; [done|].
    split; [|split; [|split; [done|]]].
    + by eapply frame_store_ext.
    + by eapply frame_history.
    + by destruct Hfr1.
Qed.

Lemma add_order_spec b order b' new :
  wf b → _orders b !! Order.id order = None → conserved order →
  add_order b order = Ok (b', new) →
  wf b' ∧
  (∀ r, r ≠ Order.id order →
     option_Forall2 same_identity (_orders b !! r) (_orders b' !! r)) ∧
  (∃ o', _orders b' !! Order.id order = Some o' ∧ same_identity order o') ∧
  Forall (trade_ok (opposite (Order.side order)) (Order.id order) b') new ∧
  trades b' = trades b ++ new.
Proof.
  intros Hwf Hfresh Hc. unfold add_order.
  set (ref := Order.id order). set (b0 := store b ref order).
  intros ([b1 new'] & Hm & [= <- <-])%res_bind_Ok.
  assert (Hwf0 : wf b0) by (by apply wf_store_fresh).
  assert (Hd0 : deref b0 ref = Ok order).
  { apply deref_Ok. unfold b0. by rewrite orders_store, lookup_insert_eq. }
  assert (Hnr : ∀ s, ref ∉ (heap_of s b0).*2).
  { intros s. unfold b0. rewrite heap_of_store. by apply wf_not_resting. }
  assert (H1 : wf b1 ∧ store_ext b0 b1 ∧ same_history b0 b1 ∧
               Forall (trade_ok (opposite (Order.side order)) ref b1) new').
  { destruct (Order.order_type order).
    - rewrite match_limit_order_eq, Hd0, res_bind_ret in Hm.
      apply limit_side_spec in Hm; [done|done|apply Hnr|apply Hnr|].
      intros o Ho. apply deref_Ok in Hd0.
      assert (o = order) as -> by congruence. by destruct (Order.side order).
    - rewrite match_market_order_eq, Hd0, res_bind_ret in Hm.
      apply market_side_spec in Hm; [|done|apply Hnr]. tauto. }
  destruct H1 as (Hwf1 & Hst & (Htr & Hvol & Hcnt) & HT).
  split; [|split; [|split; [|split]]].
  - destruct Hwf1 as [Wid Wcons Wheap Wnodup Wok Wlev Wtr Wvol].
    split; try done.
    + cbn [total_trades trades]. rewrite length_app. congruence.
    + cbn [total_volume trades]. rewrite fmap_app, Qsum_app, Wvol. reflexivity.
  - intros r Hne. cbn [_orders]. specialize (Hst r).
    unfold b0 in Hst. by rewrite orders_store, lookup_insert_ne in Hst.
  - cbn [_orders]. specialize (Hst ref). apply deref_Ok in Hd0.
    rewrite Hd0 in Hst. inversion Hst; subst. eauto.
  - exact HT.
  - cbn [trades]. by rewrite Htr.
Qed.

Lemma cancel_identity o : same_identity o (Order.cancel o).
Proof. by repeat split. Qed.

Lemma purge_level_frame s b p b' :
  purge_level s b p = Ok b' →
  _orders b' = _orders b ∧ same_history b b' ∧
  ∀ s', heap_of s' b' = heap_of s' b.
Proof.
  intros [->|(lvl & lvl' & _ & _ & ->)]%purge_level_inv; [done|].
  split; [by destruct s|]. split; [by destruct s|]. intros s'.
  apply heap_of_set_levels.
Qed.

Lemma cancel_order_spec b oid b' r :
  wf b → cancel_order b oid = Ok (b', r) →
  wf b' ∧ store_ext b b' ∧ same_history b b' ∧
  (∀ s, heap_of s b' = heap_of s b).
Proof.
  intros Hwf. unfold cancel_order.
  destruct (_orders b !! oid) as [o|] eqn:Ho.
  - intros (b1 & Hp & [= <- <-])%res_bind_Ok.
    assert (Hwf0 : wf (store b oid (Order.cancel o))).
    { eapply wf_store; eauto using cancel_identity.
      exact (wf_conserved _ Hwf oid o Ho). }
    assert (Hst0 : store_ext b (store b oid (Order.cancel o)))
      by (eapply store_ext_store; eauto using cancel_identity).
    assert (Hcase : b1 = store b oid (Order.cancel o) ∨
                    ∃ s p, purge_level s (store b oid (Order.cancel o)) p = Ok b1).
    { destruct (Order.side o), (Order.price o) as [p|];
        try (injection Hp as <-; by left); right.
      - by exists BUY, p.
      - by exists SELL, p. }
    destruct Hcase as [->|(s & p & Hpurge)].
    + split; [done|]. split; [done|]. split; [done|].
      intros s. apply heap_of_store.
    + pose proof (wf_purge _ _ _ _ Hwf0 Hpurge) as Hwf1.
      apply purge_level_frame in Hpurge as (Hst & Hh & Hheap).
      split; [done|]. split; [|split].
      * intros r'. rewrite Hst. apply Hst0.
      * destruct Hh as (Ht & Hv & Hc). by repeat split.
      * intros s'. rewrite Hheap. apply heap_of_store.
  - intros [= <- <-]. split; [done|]. split; [apply store_ext_refl|done].
Qed.

Lemma best_loop_spec s fuel b b' v :
  wf b → best_loop s fuel b = Ok (b', v) →
  wf b' ∧ frame s b b'.
Proof.
  revert b. induction fuel as [|fuel IH]; intros b Hwf; [done|].
  cbn [best_loop]. destruct (heap_of s b) as [|[[k ts] r] h] eqn:Hh.
  { intros [= <- <-]. split; [done|apply frame_refl]. }
  intros (o & Ho & H)%res_bind_Ok. destruct (live o).
  { injection H as <- <-. split; [done|apply frame_refl]. }
  apply res_bind_Ok in H as (h' & Hpop & H). rewrite <- Hh in Hpop.
  apply IH in H as [Hwf' Hfr']; [|by eapply wf_pop].
  split; [done|]. eapply frame_trans; [by apply frame_pop|done].
Qed.

Lemma best_spec s b b' v :
  wf b → best s b = Ok (b', v) → wf b' ∧ frame s b b'.
Proof. apply best_loop_spec. Qed.

Lemma spread_spec b b' v :
  wf b → spread b = Ok (b', v) →
  wf b' ∧ store_ext b b' ∧ same_history b b'.
Proof.
  intros Hwf. unfold spread. rewrite best_bid_eq.
  intros ([b1 bid] & H1 & H)%res_bind_Ok.
  rewrite best_ask_eq in H.
  apply res_bind_Ok in H as ([b2 ask] & H2 & H).
  apply best_spec in H1 as [Hwf1 Hfr1]; [|done].
  apply best_spec in H2 as [Hwf2 Hfr2]; [|done].
  assert (b' = b2) as ->.
  { destruct bid, ask; try destruct (_ && _); congruence. }
  split; [done|]. split.
  - eapply store_ext_trans; by eapply frame_store_ext.
  - destruct Hfr1, Hfr2. repeat split; congruence.
Qed.

Lemma mid_price_spec b b' v :
  wf b → mid_price b = Ok (b', v) →
  wf b' ∧ store_ext b b' ∧ same_history b b'.
Proof.
  intros Hwf. unfold mid_price. rewrite best_bid_eq.
  intros ([b1 bid] & H1 & H)%res_bind_Ok.
  rewrite best_ask_eq in H.
  apply res_bind_Ok in H as ([b2 ask] & H2 & H).
  apply best_spec in H1 as [Hwf1 Hfr1]; [|done].
  apply best_spec in H2 as [Hwf2 Hfr2]; [|done].
  assert (b' = b2) as ->.
  { destruct bid, ask; try destruct (_ && _); congruence. }
  split; [done|]. split.
  - eapply store_ext_trans; by eapply frame_store_ext.
  - destruct Hfr1, Hfr2. repeat split; congruence.
Qed.

Lemma heap_ok_nil : heap_ok [].
Proof. by intros i x p _ H. Qed.

Lemma wf_init sym : wf (OrderBook.__init__ sym).
Proof.
  split; try done.
  - intros s k ts r. destruct s; simpl; by intros ?%elem_of_nil.
  - intros s. destruct s; simpl; apply NoDup_nil_2.
  - intros s. destruct s; simpl; apply heap_ok_nil.
  - intros s p lvl r. destruct s; simpl; by intros ?%elem_of_nil.
Qed.

Lemma session_ok_start : session_ok start.
Proof. split; [apply wf_init|]. intros r [o Ho]. done. Qed.

Lemma init_conserved c now side ty q p tr :
  conserved (Order.__init__ c now side ty q p tr).1.
Proof. unfold conserved. simpl. ring. Qed.

Lemma store_ext_dom b b' r :
  store_ext b b' → is_Some (_orders b' !! r) → is_Some (_orders b !! r).
Proof. intros H [o Ho]. specialize (H r). rewrite Ho in H. inversion H. eauto. Qed.

Lemma submit_spec s side ty q p now tr s' new :
  session_ok s → submit s side ty q p now tr = Ok (s', new) →
  session_ok s' ∧ id_counter s' = S (id_counter s) ∧
  Forall (trade_ok (opposite side) (S (id_counter s)) (book s')) new ∧
  trades (book s') = trades (book s) ++ new ∧
  (∀ r, r ≠ S (id_counter s) →
     option_Forall2 same_identity (_orders (book s) !! r) (_orders (book s') !! r)) ∧
  ∃ o', _orders (book s') !! S (id_counter s) = Some o' ∧
        same_identity (Order.__init__ (id_counter s) now side ty q p tr).1 o'.
Proof.
  intros [Hwf Hdom]. unfold submit.
  set (order := (Order.__init__ (id_counter s) now side ty q p tr).1).
  change (Order.__init__ (id_counter s) now side ty q p tr)
    with (order, S (id_counter s)). cbn beta iota.
  intros ([b' new'] & Hadd & [= <- <-])%res_bind_Ok.
  apply add_order_spec in Hadd as (Hwf' & Hst & Hnew & HT & Htr);
    [|done| |apply init_conserved].
  - split; [|done]. split; [done|]. intros r Hr. simpl.
    destruct (decide (r = S (id_counter s))) as [->|Hne]; [done|].
    specialize (Hst r Hne). destruct Hr as [o Ho]. simpl in Ho.
    rewrite Ho in Hst. inversion Hst as [o0 ? _ Ho0|]; subst.
    assert (r ≤ id_counter s) by (apply Hdom; eauto). lia.
  - destruct (_orders (book s) !! Order.id order) eqn:E; [|done].
    assert (Order.id order ≤ id_counter s) by (apply Hdom; eauto).
    simpl in *. lia.
Qed.

Lemma step_ok s c s' : session_ok s → step s c = Ok s' → session_ok s'.
Proof.
  intros Hok. pose proof Hok as [Hwf Hdom]. destruct c; simpl.
  - intros ([s1 new] & H & [= <-])%res_bind_Ok.
    by apply submit_spec in H as [? _].
  - intros ([b r] & H & [= <-])%res_bind_Ok.
    apply cancel_order_spec in H as (Hwf' & Hst & _); [|done].
    split; [done|]. intros r' Hr. apply Hdom. by eapply store_ext_dom.
  - rewrite best_bid_eq. intros ([b r] & H & [= <-])%res_bind_Ok.
    apply best_spec in H as (Hwf' & Hfr); [|done].
    split; [done|]. intros r' Hr. apply Hdom.
    eapply store_ext_dom; [by eapply frame_store_ext|done].
  - rewrite best_ask_eq. intros ([b r] & H & [= <-])%res_bind_Ok.
    apply best_spec in H as (Hwf' & Hfr); [|done].
    split; [done|]. intros r' Hr. apply Hdom.
    eapply store_ext_dom; [by eapply frame_store_ext|done].
  - intros ([b r] & H & [= <-])%res_bind_Ok.
    apply spread_spec in H as (Hwf' & Hst & _); [|done].
    split; [done|]. intros r' Hr. apply Hdom. by eapply store_ext_dom.
  - intros ([b r] & H & [= <-])%res_bind_Ok.
    apply mid_price_spec in H as (Hwf' & Hst & _); [|done].
    split; [done|]. intros r' Hr. apply Hdom. by eapply store_ext_dom.
Qed.

Lemma run_ok s cs s' : session_ok s → run s cs = Ok s' → session_ok s'.
Proof.
  revert s. induction cs as [|c cs IH]; intros s Hok; simpl.
  - by intros [= <-].
  - intros (s1 & H1 & H)%res_bind_Ok. eapply IH; [|exact H].
    by eapply step_ok.
Qed.

Lemma apply_calls_conserved o cs : conserved o → conserved (apply_calls o cs).
Proof.
  unfold apply_calls. revert o. induction cs as [|c cs IH]; intros o Ho; [done|].
  simpl. apply IH. destruct c; simpl; [by apply fill_conserved|done].
Qed.

Lemma tie_free_sub h h' : h' ⊆+ h → tie_free h → tie_free h'.
Proof.
  intros Hsub Ht x y Hx Hy. apply Ht; by eapply elem_of_submseteq.
Qed.

Lemma purge_level_total s b p :
  wf b → ∃ b', purge_level s b p = Ok b'.
Proof.
  intros Hwf.
  assert (H : ∀ lvl, dict_get (levels_of s b) p = Some lvl →
            ∃ lvl', PriceLevel.remove_filled (_orders b) lvl = Ok lvl').
  { intros lvl [k Hk]%dict_get_elem. unfold PriceLevel.remove_filled.
    destruct (deref_all_total (_orders b) (PriceLevel.orders lvl)) as [os ->].
    - intros r Hr. eapply wf_levels; eauto.
    - rewrite res_bind_ret. eauto. }
  destruct s; unfold purge_level, purge_bid_level, purge_ask_level;
    simpl in H |- *.
  - destruct (dict_get _ _) as [lvl|]; [|eauto].
    destruct (H lvl eq_refl) as [lvl' ->]. rewrite res_bind_ret. eauto.
  - destruct (dict_get _ _) as [lvl|]; [|eauto].
    destruct (H lvl eq_refl) as [lvl' ->]. rewrite res_bind_ret. eauto.
Qed.

Lemma too_far_total s agg best :
  (Order.order_type agg = LIMIT → is_Some (Order.price agg)) →
  ∃ c, too_far s agg best = Ok c.
Proof.
  intros Hp. destruct s; unfold too_far, bid_too_low, ask_too_high;
    destruct (Order.order_type agg); eauto;
    destruct Hp as [p ->]; eauto.
Qed.

Lemma fill_step_total s b a :
  wf b → tie_free (heap_of s b) → is_Some (_orders b !! a) →
  a ∉ (heap_of s b).*2 → priced b a →
  ∃ r, fill_step s b a = Ok r.
Proof.
  intros Hwf Ht [agg Ha] Hne Hpr. unfold fill_step.
  rewrite (proj2 (deref_Ok _ _ _) Ha), res_bind_ret.
  destruct (heap_of s b) as [|[[k ts] r] h] eqn:Hh; [eauto|].
  destruct (negb _); [eauto|].
  destruct (wf_heap _ Hwf s k ts r) as (passive & p & Hp & _);
    [rewrite Hh; by left|].
  assert (Hra : r ≠ a) by (intros ->; apply Hne; simpl; by left).
  rewrite (proj2 (deref_Ok _ _ _) Hp), res_bind_ret.
  destruct (heappop_total ((k, ts, r) :: h)) as [h' Hpop]; [done..|].
  destruct (terminal _).
  { rewrite Hpop, res_bind_ret. eauto. }
  destruct (too_far_total s agg (price_of_key s k)) as [c ->]; [eauto|].
  rewrite res_bind_ret. destruct c; [eauto|].
  set (q := Qmin _ _).
  set (b1 := store b a (Order.fill agg q).1).
  assert (Hp1 : deref b1 r = Ok passive).
  { apply deref_Ok. unfold b1. by rewrite orders_store, lookup_insert_ne. }
  rewrite Hp1, res_bind_ret.
  set (b2 := store b1 r (Order.fill passive q).1).
  assert (Ha2 : deref b2 a = Ok (Order.fill agg q).1).
  { apply deref_Ok. unfold b2, b1.
    by rewrite !orders_store, lookup_insert_ne, lookup_insert_eq. }
  assert (Hp2 : deref b2 r = Ok (Order.fill passive q).1).
  { apply deref_Ok. unfold b2. by rewrite orders_store, lookup_insert_eq. }
  rewrite Ha2, res_bind_ret, Hp2, res_bind_ret.
  destruct (Qeq_bool _ _); [|eauto].
  assert (Hh2 : heap_of s b2 = (k, ts, r) :: h)
    by (unfold b2, b1; by rewrite !heap_of_store).
  rewrite Hh2, Hpop, res_bind_ret.
  assert (Hwf2 : wf b2).
  { unfold b2, b1. eapply wf_store; [eapply wf_store| | |];
      eauto using fill_identity.
    - eapply fill_conserved, wf_conserved; eauto.
    - by rewrite orders_store, lookup_insert_ne.
    - eapply fill_conserved, wf_conserved; eauto. }
  destruct (purge_level_total s (set_heap s b2 h') (price_of_key s k))
    as [b3 ->].
  { apply wf_pop; [done|]. by rewrite Hh2. }
  rewrite res_bind_ret. eauto.
Qed.

Lemma fill_min_exhausts agg passive :
  let q := Qmin (Order.remaining agg) (Order.remaining passive) in
  Qeq_bool (Order.remaining (Order.fill passive q).1) 0 = false →
  (Order.remaining (Order.fill agg q).1 == 0)%Q.
Proof.
  intros q Hz. apply Qeq_bool_false in Hz. simpl in *.
  destruct (Q.min_spec (Order.remaining agg) (Order.remaining passive))
    as [[H1 H2]|[H1 H2]]; fold q in H2.
  - destruct (Q.min_spec q (Order.remaining agg)) as [[H3 H4]|[H3 H4]];
      rewrite H4; lra.
  - destruct Hz.
    destruct (Q.min_spec q (Order.remaining passive)) as [[H3 H4]|[H3 H4]];
      rewrite H4; lra.
Qed.

Lemma step_progress s a b b' ot :
  step_spec s a b b' ot →
  length (heap_of s b') < length (heap_of s b) ∨
  (heap_of s b' = heap_of s b ∧
   ∃ agg', _orders b' !! a = Some agg' ∧ ¬ (0 < Order.remaining agg')%Q).
Proof.
  intros [k ts r h agg passive h' Ha Hrem Hh Hp Hterm Hpop
         |k ts r h agg passive b'' Ha Hrem Hh Hp Hterm Hfar Hra q agg' passive' b2 Hb'].
  - left. rewrite heap_of_set_heap.
    apply heappop_perm in Hpop as (x & tl & -> & ->). simpl. lia.
  - destruct (Qeq_bool (Order.remaining passive') 0) eqn:Hz.
    + left. destruct Hb' as (h' & Hpop & Hpurge).
      apply purge_level_frame in Hpurge as (_ & _ & ->).
      rewrite heap_of_set_heap.
      apply heappop_perm in Hpop as (x & tl & -> & ->). simpl. lia.
    + right. subst b''. split; [unfold b2; by rewrite !heap_of_store|].
      exists agg'. split.
      * unfold b2. by rewrite !orders_store, lookup_insert_ne, lookup_insert_eq.
      * pose proof (fill_min_exhausts agg passive Hz) as H0.
        fold q in H0. fold agg' in H0. rewrite H0. apply Qlt_irrefl.
Qed.

Lemma fill_step_next_rem s b a b1 ot agg :
  fill_step s b a = Ok (FillNext b1 ot) → _orders b !! a = Some agg →
  (0 < Order.remaining agg)%Q.
Proof.
  unfold fill_step. intros (agg' & Hagg%deref_Ok & H)%res_bind_Ok Ha.
  assert (agg' = agg) as -> by congruence.
  destruct (heap_of s b) as [|[[k ts] r] h]; [done|].
  destruct (negb _) eqn:Hrem; [done|].
  by apply negb_false_iff, Qlt_bool_true in Hrem.
Qed.

Lemma priced_ext b b' a : store_ext b b' → priced b a → priced b' a.
Proof.
  intros Hst Hp o Ho. specialize (Hst a). rewrite Ho in Hst.
  inversion Hst as [o0 ? Hid Ho0|]; subst.
  destruct Hid as (_ & _ & -> & _ & -> & _). symmetry in Ho0. eauto.
Qed.

Lemma store_ext_dom' b b' r :
  store_ext b b' → is_Some (_orders b !! r) → is_Some (_orders b' !! r).
Proof. intros H [o Ho]. specialize (H r). rewrite Ho in H. inversion H. eauto. Qed.

Lemma fill_loop_total s fuel b a T :
  wf b → tie_free (heap_of s b) → is_Some (_orders b !! a) →
  a ∉ (heap_of s b).*2 → priced b a →
  length (heap_of s b) + 2 ≤ fuel ∨
    (0 < fuel ∧ ∃ agg, _orders b !! a = Some agg ∧ ¬ (0 < Order.remaining agg)%Q) →
  ∃ r, fill_loop s fuel b a T = Ok r.
Proof.
  revert b T. induction fuel as [|fuel IH]; intros b T Hwf Ht Ha Hne Hpr Hf;
    [lia|].
  cbn [fill_loop].
  destruct (fill_step_total s b a) as [r Hstep]; [done..|].
  rewrite Hstep, res_bind_ret. destruct r as [|b1 ot]; [eauto|].
  pose proof (fill_step_spec _ _ _ _ _ Hne Hstep) as Hspec.
  destruct (step_spec_wf _ _ _ _ _ Hwf Hspec) as [Hwf1 Hfr1].
  apply IH; try done.
  - eapply tie_free_sub; [|exact Ht]. by destruct Hfr1.
  - eapply store_ext_dom'; [by eapply frame_store_ext|done].
  - by eapply frame_not_in.
  - eapply priced_ext; [by eapply frame_store_ext|done].
  - destruct Hf as [Hf|(_ & agg & Hagg & Hrem)].
    + destruct (step_progress _ _ _ _ _ Hspec) as [Hlt|[Heq Hrem]].
      * left. lia.
      * right. split; [lia|done].
    + destruct Hrem. by eapply fill_step_next_rem.
Qed.

Lemma fill_loop_done s fuel b a T b' T' :
  fill_loop s fuel b a T = Ok (b', T') → fill_step s b' a = Ok FillDone.
Proof.
  revert b T. induction fuel as [|fuel IH]; intros b T; [done|].
  cbn [fill_loop]. intros (r & Hstep & H)%res_bind_Ok.
  destruct r as [|b1 ot]; [by injection H as <- <-|eauto].
Qed.

Lemma fill_step_done s b a :
  fill_step s b a = Ok FillDone →
  ∃ agg, _orders b !! a = Some agg ∧
    (heap_of s b = [] ∨ ¬ (0 < Order.remaining agg)%Q ∨
     ∃ k ts r h, heap_of s b = (k, ts, r) :: h ∧
                 too_far s agg (price_of_key s k) = Ok true).
Proof.
  unfold fill_step. intros (agg & Hagg%deref_Ok & H)%res_bind_Ok.
  exists agg. split; [done|].
  destruct (heap_of s b) as [|[[k ts] r] h]; [by left|].
  destruct (negb _) eqn:Hrem.
  { right; left. apply negb_true_iff, Qlt_bool_false in Hrem.
    by apply Qle_not_lt. }
  apply res_bind_Ok in H as (passive & Hp & H).
  destruct (terminal _).
  { by apply res_bind_Ok in H as (h' & _ & [=]). }
  apply res_bind_Ok in H as (stop & Hstop & H).
  destruct stop; [right; right; eauto 10|].
  apply res_bind_Ok in H as (p1 & _ & H).
  apply res_bind_Ok in H as (a2 & _ & H).
  apply res_bind_Ok in H as (p2 & _ & H).
  destruct (Qeq_bool _ _); [|done].
  apply res_bind_Ok in H as (h' & _ & H).
  by apply res_bind_Ok in H as (b3 & _ & [=]).
Qed.

Lemma too_far_market s agg best :
  Order.order_type agg = MARKET → too_far s agg best = Ok false.
Proof.
  intros H. destruct s; unfold too_far, bid_too_low, ask_too_high; by rewrite H.
Qed.

Lemma too_far_marketable s agg k p :
  Order.price agg = Some p → marketable s k p = true →
  too_far s agg (price_of_key s k) ≠ Ok true.
Proof.
  intros Hp Hm. destruct s; unfold too_far, bid_too_low, ask_too_high;
    destruct (Order.order_type agg); try done; rewrite Hp; simpl;
    intros [= H]; apply Qlt_bool_true in H;
    simpl in Hm; apply Qle_bool_iff in Hm; lra.
Qed.

Lemma fills_le s a b T b' T' :
  wf b → a ∉ (heap_of s b).*2 → fills s a b T b' T' →
  length (heap_of s b') ≤ length (heap_of s b).
Proof.
  intros Hwf Ha H. destruct (fills_wf _ _ _ _ _ _ Hwf Ha H) as (_ & Hfr & _).
  apply submseteq_length. by destruct Hfr.
Qed.

Lemma fills_exhausted s a b T b' T' agg :
  fills s a b T b' T' → _orders b !! a = Some agg →
  ¬ (0 < Order.remaining agg)%Q → b' = b.
Proof.
  intros [|? ? b1 ot ? ? Hstep _] Ha Hrem; [done|].
  destruct Hrem. by eapply fill_step_next_rem.
Qed.

Lemma fill_loop_S s fuel b a T :
  fill_loop s (S fuel) b a T =
    r ← fill_step s b a;
    match r with
    | FillDone => Ok (b, T)
    | FillNext b1 t => fill_loop s fuel b1 a (add_trade T t)
    end.
Proof. reflexivity. Qed.

(** After a first turn, the resting heap is shorter or the aggressor is
    exhausted. *)
Lemma fill_from_progress s b a b' new :
  wf b → a ∉ (heap_of s b).*2 →
  fill_from s b a = Ok (b', new) → fill_step s b a ≠ Ok FillDone →
  length (heap_of s b') < length (heap_of s b) ∨
  (length (heap_of s b') ≤ length (heap_of s b) ∧
   ∃ agg', _orders b' !! a = Some agg' ∧ ¬ (0 < Order.remaining agg')%Q).
Proof.
  intros Hwf Ha. unfold fill_from. rewrite fill_loop_S.
  intros (r & Hstep & H)%res_bind_Ok Hnd. destruct r as [|b1 ot]; [done|].
  apply fill_loop_fills in H.
  pose proof (fill_step_spec _ _ _ _ _ Ha Hstep) as Hspec.
  destruct (step_spec_wf _ _ _ _ _ Hwf Hspec) as [Hwf1 Hfr1].
  assert (Ha1 : a ∉ (heap_of s b1).*2) by (by eapply frame_not_in).
  pose proof (fills_le _ _ _ _ _ _ Hwf1 Ha1 H) as Hle.
  destruct (step_progress _ _ _ _ _ Hspec) as [Hlt|[Heq (agg' & Hagg & Hrem)]].
  - left. lia.
  - right. rewrite (fills_exhausted _ _ _ _ _ _ _ H Hagg Hrem).
    rewrite Heq. eauto.
Qed.

Lemma fill_from_total s b a :
  wf b → tie_free (heap_of s b) → is_Some (_orders b !! a) →
  a ∉ (heap_of s b).*2 → priced b a →
  ∃ r, fill_from s b a = Ok r.
Proof. intros. apply fill_loop_total; try done. left. lia. Qed.

Lemma market_loop_total s fuel b a T o :
  wf b → tie_free (heap_of s b) → _orders b !! a = Some o →
  Order.order_type o = MARKET → a ∉ (heap_of s b).*2 →
  2 ≤ fuel ∨ (0 < fuel ∧ ¬ (0 < Order.remaining o)%Q) →
  ∃ r, market_loop s fuel b a T = Ok r.
Proof.
  revert b T o. induction fuel as [|fuel IH];
    intros b T o Hwf Ht Ho Hty Hne Hf; [lia|].
  cbn [market_loop]. rewrite (proj2 (deref_Ok _ _ _) Ho), res_bind_ret.
  destruct (Qlt_bool 0 (Order.remaining o)) eqn:Hrem; [|eauto].
  cbn [andb]. destruct (negb _); [|eauto].
  apply Qlt_bool_true in Hrem. destruct Hf as [Hf|[_ Hf]]; [|done].
  assert (Hpr : priced b a).
  { intros o' Ho'. assert (o' = o) as -> by congruence. by rewrite Hty. }
  destruct (fill_from_total s b a) as [[b1 new] Hf1]; eauto.
  rewrite Hf1, res_bind_ret.
  destruct (_ =? _) eqn:Hempty; [eauto|].
  pose proof (fill_loop_fills _ _ _ _ _ _ _ Hf1) as Hfills.
  destruct (fills_wf _ _ _ _ _ _ Hwf Hne Hfills) as (Hwf1 & Hfr1 & Hne1).
  pose proof (fr_store _ _ _ Hfr1 a) as Hst. rewrite Ho in Hst.
  inversion Hst as [? o1 Hid Ho0 Ho1|]; subst. symmetry in Ho1.
  apply (IH _ _ o1); try done.
  - eapply tie_free_sub; [|exact Ht]. by destruct Hfr1.
  - destruct Hid as (_ & _ & -> & _). done.
  - right. split; [lia|].
    apply fill_loop_done, fill_step_done in Hf1 as (agg & Hagg & Hcase).
    assert (agg = o1) as -> by congruence.
    destruct Hcase as [Hnil|[Hr|(k & ts & r & h & _ & Hfar)]]; [|done|].
    + rewrite Hnil in Hempty. done.
    + rewrite too_far_market in Hfar; [done|].
      destruct Hid as (_ & _ & -> & _). done.
Qed.

Lemma limit_loop_total s fuel b a T o p :
  wf b → tie_free (heap_of s b) → _orders b !! a = Some o →
  Order.price o = Some p → a ∉ (heap_of s b).*2 →
  length (heap_of s b) + 2 ≤ fuel ∨ (0 < fuel ∧ ¬ (0 < Order.remaining o)%Q) →
  ∃ r, limit_loop s fuel b a T = Ok r.
Proof.
  revert b T o. induction fuel as [|fuel IH];
    intros b T o Hwf Ht Ho Hp Hne Hf; [lia|].
  cbn [limit_loop]. rewrite (proj2 (deref_Ok _ _ _) Ho), res_bind_ret.
  destruct (Qlt_bool 0 (Order.remaining o)) eqn:Hrem; [|eauto].
  cbn [negb]. apply Qlt_bool_true in Hrem.
  destruct (heap_of s b) as [|[[k ts] r] h] eqn:Hh; [eauto|].
  rewrite Hp. cbn [number]. rewrite res_bind_ret.
  destruct (marketable s k p) eqn:Hm; [|eauto].
  assert (Hpr : priced b a).
  { intros o' Ho'. assert (o' = o) as -> by congruence. by rewrite Hp. }
  rewrite <- Hh in Ht, Hne.
  destruct (fill_from_total s b a) as [[b1 new] Hf1]; eauto.
  rewrite Hf1, res_bind_ret.
  pose proof (fill_loop_fills _ _ _ _ _ _ _ Hf1) as Hfills.
  destruct (fills_wf _ _ _ _ _ _ Hwf Hne Hfills) as (Hwf1 & Hfr1 & Hne1).
  pose proof (fr_store _ _ _ Hfr1 a) as Hst. rewrite Ho in Hst.
  inversion Hst as [? o1 Hid Ho0 Ho1|]; subst. symmetry in Ho1.
  apply (IH _ _ o1); try done.
  - eapply tie_free_sub; [|exact Ht]. by destruct Hfr1.
  - destruct Hid as (_ & _ & _ & _ & -> & _). done.
  - apply fill_from_progress in Hf1; [|done|done|].
    + destruct Hf as [Hf|[_ Hf]]; [|done]. rewrite Hh in Hf1. simpl in *.
      destruct Hf1 as [Hlt|[Hle (agg' & Hagg & Hr)]]; [left; lia|].
      right. split; [lia|]. assert (agg' = o1) as -> by congruence. done.
    + intros (agg & Hagg & Hcase)%fill_step_done.
      assert (agg = o) as -> by congruence.
      destruct Hcase as [Hnil|[Hr|(k' & ts' & r' & h' & Hh' & Hfar)]];
        [congruence|done|].
      rewrite Hh in Hh'. injection Hh' as <- <- <- <-.
      by eapply too_far_marketable.
Qed.

Lemma lt_refl_ok a : heapq.lt a a = Ok false.
Proof.
  destruct a as [[k ts] r]. unfold heapq.lt.
  rewrite !Qeq_bool_refl. simpl. by rewrite Nat.eqb_refl.
Qed.

Lemma lt_distinct_ok a b :
  ¬ (a.1.2 == b.1.2)%Q → ∃ c, heapq.lt a b = Ok c.
Proof.
  destruct a as [[ka ta] ra], b as [[kb tb] rb]. simpl. intros Hne.
  unfold heapq.lt. destruct (Qeq_bool ka kb); simpl; [|eauto].
  apply Qeq_bool_false in Hne. rewrite Hne. simpl. eauto.
Qed.

Lemma tie_free_cons e h :
  tie_free h → (∀ e', e' ∈ h → ¬ (e.1.2 == e'.1.2)%Q) → tie_free (e :: h).
Proof.
  intros Ht Hne x y [->|Hx]%elem_of_cons [->|Hy]%elem_of_cons.
  - rewrite lt_refl_ok. eauto.
  - by apply lt_distinct_ok, Hne.
  - apply lt_distinct_ok. intros H. by apply (Hne x Hx).
  - by apply Ht.
Qed.

Lemma tie_free_perm h h' : h ≡ₚ h' → tie_free h → tie_free h'.
Proof. intros Hp Ht x y Hx Hy. apply Ht; by rewrite Hp. Qed.

Lemma add_to_total s b ref o p :
  _orders b !! ref = Some o → Order.price o = Some p →
  tie_free ((key_of s p, Order.timestamp o, ref) :: heap_of s b) →
  ∃ b', add_to s b ref = Ok b'.
Proof.
  intros Ho Hp Ht. unfold add_to.
  rewrite (proj2 (deref_Ok _ _ _) Ho), res_bind_ret, Hp.
  cbn [number]. rewrite res_bind_ret, heap_of_set_levels.
  destruct (heappush_total _ _ Ht) as [h' ->]. rewrite res_bind_ret. eauto.
Qed.

Lemma best_loop_total s fuel b :
  wf b → tie_free (heap_of s b) → length (heap_of s b) < fuel →
  ∃ r, best_loop s fuel b = Ok r.
Proof.
  revert b. induction fuel as [|fuel IH]; intros b Hwf Ht Hf; [lia|].
  cbn [best_loop]. destruct (heap_of s b) as [|[[k ts] r] h] eqn:Hh; [eauto|].
  destruct (wf_heap _ Hwf s k ts r) as (o & p & Ho & _);
    [rewrite Hh; by left|].
  rewrite (proj2 (deref_Ok _ _ _) Ho), res_bind_ret.
  destruct (live o); [eauto|].
  destruct (heappop_total ((k, ts, r) :: h)) as [h' Hpop]; [done..|].
  rewrite Hpop, res_bind_ret. rewrite <- Hh in Hpop. apply IH.
  - by apply wf_pop.
  - rewrite heap_of_set_heap. eapply tie_free_sub; [|exact Ht].
    apply heappop_perm in Hpop as (x & tl & Heq & ->).
    rewrite Hh in Heq. injection Heq as <- <-. by apply submseteq_cons.
  - rewrite heap_of_set_heap.
    apply heappop_perm in Hpop as (x & tl & Heq & ->).
    rewrite Hh in Heq. injection Heq as <- <-. simpl in Hf. lia.
Qed.

Lemma best_total s b :
  wf b → tie_free (heap_of s b) → ∃ r, best s b = Ok r.
Proof. intros. apply best_loop_total; try done. lia. Qed.

Lemma cancel_order_total b oid :
  wf b → ∃ r, cancel_order b oid = Ok r.
Proof.
  intros Hwf. unfold cancel_order.
  destruct (_orders b !! oid) as [o|] eqn:Ho; [|eauto].
  assert (Hwf0 : wf (store b oid (Order.cancel o))).
  { eapply wf_store; eauto using cancel_identity.
    exact (wf_conserved _ Hwf oid o Ho). }
  destruct (Order.side o), (Order.price o) as [p|];
    try (rewrite res_bind_ret; eauto).
  - destruct (purge_level_total BUY _ p Hwf0) as [b' Hb].
    unfold purge_level in Hb. rewrite Hb, res_bind_ret. eauto.
  - destruct (purge_level_total SELL _ p Hwf0) as [b' Hb].
    unfold purge_level in Hb. rewrite Hb, res_bind_ret. eauto.
Qed.

Lemma frame_shrink s b b' : frame s b b' → heaps_shrink b b'.
Proof.
  intros Hfr s'. destruct (decide (s' = s)) as [->|Hne].
  - by destruct Hfr.
  - assert (s' = opposite s) as -> by (by destruct s, s').
    by rewrite (fr_other_heap _ _ _ Hfr).
Qed.

Lemma heaps_shrink_trans b1 b2 b3 :
  heaps_shrink b1 b2 → heaps_shrink b2 b3 → heaps_shrink b1 b3.
Proof. intros H1 H2 s. etrans; [apply H2|apply H1]. Qed.

Lemma ties_ok_shrink seen b b' :
  heaps_shrink b b' → ties_ok seen b → ties_ok seen b'.
Proof.
  intros Hs [H1 H2]. split.
  - intros s. eapply tie_free_sub; eauto.
  - intros s k ts r Hin. eapply H2. eapply elem_of_submseteq; eauto.
Qed.

Lemma ties_ok_weaken seen t b : ties_ok seen b → ties_ok (t :: seen) b.
Proof. intros [H1 H2]. split; [done|]. intros. right. eauto. Qed.

Lemma best_total_ties s seen b :
  wf b → ties_ok seen b →
  ∃ b' v, best s b = Ok (b', v) ∧ wf b' ∧ ties_ok seen b' ∧ store_ext b b' ∧
          heaps_shrink b b'.
Proof.
  intros Hwf Ht. destruct (best_total s b) as [[b' v] H]; [done|apply Ht|].
  exists b', v. split; [done|].
  apply best_spec in H as [Hwf' Hfr]; [|done].
  split; [done|]. split; [|split].
  - eapply ties_ok_shrink; [by eapply frame_shrink|done].
  - by eapply frame_store_ext.
  - by eapply frame_shrink.
Qed.

Lemma opposite_involutive s : opposite (opposite s) = s.
Proof. by destruct s. Qed.

Lemma limit_side_total s seen b ref o p :
  wf b → ties_ok seen b → _orders b !! ref = Some o →
  Order.price o = Some p → Order.side o = opposite s →
  ref ∉ (heap_of s b).*2 → ref ∉ (heap_of (opposite s) b).*2 →
  (∀ t, t ∈ seen → ¬ (t == Order.timestamp o)%Q) →
  ∃ b' T, limit_side s b ref = Ok (b', T) ∧
          ties_ok (Order.timestamp o :: seen) b'.
Proof.
  intros Hwf [Ht Hseen] Ho Hp Hside Hs Hos Hnew. unfold limit_side.
  destruct (limit_loop_total s (S (S (length (heap_of s b)))) b ref [] o p)
    as [[b1 T1] Hloop]; try done. { left. lia. }
  rewrite Hloop, res_bind_ret.
  apply limit_loop_fills in Hloop.
  destruct (fills_wf _ _ _ _ _ _ Hwf Hs Hloop) as (Hwf1 & Hfr1 & Hs1).
  pose proof (fr_store _ _ _ Hfr1 ref) as Hst. rewrite Ho in Hst.
  inversion Hst as [? o1 Hid Ho0 Ho1|]; subst. symmetry in Ho1.
  destruct Hid as (_ & Hside1 & _ & _ & Hp1 & Hts1).
  rewrite (proj2 (deref_Ok _ _ _) Ho1), res_bind_ret.
  assert (Hties1 : ties_ok seen b1).
  { eapply ties_ok_shrink; [by eapply frame_shrink|done]. }
  destruct (_ && _).
  - destruct (add_to_total (opposite s) b1 ref o1 p) as [b2 Hadd];
      [done|congruence|..].
    { rewrite (fr_other_heap _ _ _ Hfr1). apply tie_free_cons; [apply Ht|].
      intros [[k' ts'] r'] Hin. simpl. rewrite Hts1. intros Heq.
      apply (Hnew ts'); [by eapply Hseen|by symmetry]. }
    rewrite Hadd, res_bind_ret. exists b2, T1. split; [done|].
    apply add_to_spec in Hadd
      as (_ & _ & Hh & (o2 & p2 & Ho2 & Hp2 & Hperm) & _); [|done|..].
    + assert (o2 = o1) as -> by congruence. rewrite opposite_involutive in Hh.
      destruct Hties1 as [Ht1 Hseen1]. split.
      * intros s'. destruct (decide (s' = s)) as [->|Hne].
        -- rewrite Hh. apply Ht1.
        -- assert (s' = opposite s) as -> by (by destruct s, s').
           eapply tie_free_perm; [symmetry; exact Hperm|].
           apply tie_free_cons; [apply Ht1|].
           intros [[k' ts'] r'] Hin. simpl. rewrite Hts1. intros Heq.
           apply (Hnew ts'); [by eapply Hseen1|by symmetry].
      * intros s' k ts r. destruct (decide (s' = s)) as [->|Hne].
        -- rewrite Hh. intros Hin. right. by eapply Hseen1.
        -- assert (s' = opposite s) as -> by (by destruct s, s').
           rewrite Hperm. intros [[= -> -> ->]|Hin]%elem_of_cons.
           ++ rewrite Hts1. by left.
           ++ right. by eapply Hseen1.
    + by rewrite (fr_other_heap _ _ _ Hfr1).
    + intros o' Ho'. assert (o' = o1) as -> by congruence.
      by rewrite Hside1, Hside.
  - exists b1, T1. split; [done|]. by apply ties_ok_weaken.
Qed.

Lemma market_side_total s seen b ref o :
  wf b → ties_ok seen b → _orders b !! ref = Some o →
  Order.order_type o = MARKET → ref ∉ (heap_of s b).*2 →
  ∃ b' T, market_side s b ref = Ok (b', T) ∧ ties_ok seen b'.
Proof.
  intros Hwf Hties Ho Hty Hs. pose proof Hties as [Ht Hseen].
  unfold market_side.
  destruct (market_loop_total s (S (S (length (heap_of s b)))) b ref [] o)
    as [[b1 T1] Hloop]; try done. { left. lia. }
  rewrite Hloop, res_bind_ret.
  apply market_loop_fills in Hloop.
  destruct (fills_wf _ _ _ _ _ _ Hwf Hs Hloop) as (Hwf1 & Hfr1 & Hs1).
  pose proof (fr_store _ _ _ Hfr1 ref) as Hst. rewrite Ho in Hst.
  inversion Hst as [? o1 Hid Ho0 Ho1|]; subst. symmetry in Ho1.
  rewrite (proj2 (deref_Ok _ _ _) Ho1), res_bind_ret.
  assert (Hties1 : ties_ok seen b1).
  { eapply ties_ok_shrink; [by eapply frame_shrink|done]. }
  destruct (Qlt_bool _ _); eexists _, _; (split; [done|]); [|done].
  eapply ties_ok_shrink; [|exact Hties1]. intros s'. by rewrite heap_of_store.
Qed.

Lemma valid_spec seen cs : valid seen cs = true → valid_prop seen cs.
Proof.
  revert seen. induction cs as [|c cs IH]; intros seen; [done|].
  destruct c as [side ty q p now tr| | | | |]; simpl; try apply IH.
  intros [[H1 H2]%andb_true_iff H3]%andb_true_iff.
  split; [|split; [|by apply IH]].
  - intros ->. destruct p; [eauto|done].
  - intros t Ht%list_elem_of_In. rewrite forallb_forall in H2.
    apply H2 in Ht. by apply negb_true_iff, Qeq_bool_false in Ht.
Qed.

Lemma submit_total s seen side ty q p now tr :
  session_ok s → ties_ok seen (book s) →
  (ty = LIMIT → is_Some p) → (∀ t, t ∈ seen → ¬ (t == now)%Q) →
  ∃ s' new, submit s side ty q p now tr = Ok (s', new) ∧
            ties_ok (now :: seen) (book s').
Proof.
  intros [Hwf Hdom] Hties Hp Hnow. unfold submit.
  set (order := (Order.__init__ (id_counter s) now side ty q p tr).1).
  change (Order.__init__ (id_counter s) now side ty q p tr)
    with (order, S (id_counter s)). cbn beta iota.
  unfold add_order. set (ref := Order.id order).
  set (b0 := store (book s) ref order).
  assert (Hfresh : _orders (book s) !! ref = None).
  { destruct (_orders (book s) !! ref) eqn:E; [|done].
    assert (ref ≤ id_counter s) by (apply Hdom; eauto).
    unfold ref in *. simpl in *. lia. }
  assert (Hwf0 : wf b0).
  { apply wf_store_fresh; [done..|apply init_conserved]. }
  assert (Ho0 : _orders b0 !! ref = Some order).
  { unfold b0. by rewrite orders_store, lookup_insert_eq. }
  assert (Hnr : ∀ s', ref ∉ (heap_of s' b0).*2).
  { intros s'. unfold b0. rewrite heap_of_store. by apply wf_not_resting. }
  assert (Hties0 : ties_ok seen b0).
  { eapply ties_ok_shrink; [|exact Hties]. intros s'. unfold b0.
    by rewrite heap_of_store. }
  assert (Hm : ∃ b1 new,
    match Order.order_type order with
    | LIMIT => _match_limit_order b0 ref
    | MARKET => _match_market_order b0 ref
    end = Ok (b1, new) ∧ ties_ok (now :: seen) b1).
  { change (Order.order_type order) with ty. destruct ty.
    - destruct (Hp eq_refl) as [p' ->].
      rewrite match_limit_order_eq, (proj2 (deref_Ok _ _ _) Ho0), res_bind_ret.
      apply (limit_side_total _ seen b0 ref order p'); try done.
      by rewrite opposite_involutive.
    - rewrite match_market_order_eq, (proj2 (deref_Ok _ _ _) Ho0), res_bind_ret.
      destruct (market_side_total (opposite (Order.side order)) seen b0 ref order)
        as (b1 & new & H1 & H2); try done.
      exists b1, new. split; [done|]. by apply ties_ok_weaken. }
  destruct Hm as (b1 & new & -> & Hties1). rewrite res_bind_ret.
  cbn beta iota. rewrite res_bind_ret. eexists _, _. split; [done|].
  eapply ties_ok_shrink; [|exact Hties1]. intros s'. by destruct s'.
Qed.

Lemma step_total s seen c :
  session_ok s → ties_ok seen (book s) → valid_prop seen [c] →
  ∃ s', step s c = Ok s' ∧ ties_ok (clock seen [c]) (book s').
Proof.
  intros Hok Hties Hv. pose proof Hok as [Hwf Hdom].
  destruct c as [side ty q p now tr|oid| | | |]; simpl in *.
  - destruct Hv as (Hp & Hnow & _).
    destruct (submit_total s seen side ty q p now tr)
      as (s' & new & -> & Hties'); try done.
    rewrite res_bind_ret. eauto.
  - destruct (cancel_order_total (book s) oid Hwf) as [[b r] H].
    rewrite H, res_bind_ret. eexists. split; [done|].
    apply cancel_order_spec in H as (_ & _ & _ & Hh); [|done].
    eapply ties_ok_shrink; [|exact Hties]. intros s'. simpl. by rewrite Hh.
  - rewrite best_bid_eq.
    destruct (best_total_ties BUY seen _ Hwf Hties) as (b & v & -> & _ & Ht & _).
    rewrite res_bind_ret. eauto.
  - rewrite best_ask_eq.
    destruct (best_total_ties SELL seen _ Hwf Hties) as (b & v & -> & _ & Ht & _).
    rewrite res_bind_ret. eauto.
  - unfold spread. rewrite best_bid_eq.
    destruct (best_total_ties BUY seen _ Hwf Hties)
      as (b1 & v1 & -> & Hwf1 & Ht1 & _).
    rewrite res_bind_ret. cbn beta iota. rewrite best_ask_eq.
    destruct (best_total_ties SELL seen _ Hwf1 Ht1)
      as (b2 & v2 & -> & Hwf2 & Ht2 & _).
    rewrite res_bind_ret. cbn beta iota.
    destruct v1, v2; try destruct (_ && _); rewrite res_bind_ret; eauto.
  - unfold mid_price. rewrite best_bid_eq.
    destruct (best_total_ties BUY seen _ Hwf Hties)
      as (b1 & v1 & -> & Hwf1 & Ht1 & _).
    rewrite res_bind_ret. cbn beta iota. rewrite best_ask_eq.
    destruct (best_total_ties SELL seen _ Hwf1 Ht1)
      as (b2 & v2 & -> & Hwf2 & Ht2 & _).
    rewrite res_bind_ret. cbn beta iota.
    destruct v1, v2; try destruct (_ && _); rewrite res_bind_ret; eauto.
Qed.

Lemma valid_cons seen c cs :
  valid_prop seen (c :: cs) ↔ valid_prop seen [c] ∧ valid_prop (clock seen [c]) cs.
Proof. destruct c; simpl; tauto. Qed.

Lemma clock_cons seen c cs : clock seen (c :: cs) = clock (clock seen [c]) cs.
Proof. by destruct c. Qed.

Lemma run_total s seen cs :
  session_ok s → ties_ok seen (book s) → valid_prop seen cs →
  ∃ s', run s cs = Ok s' ∧ session_ok s' ∧ ties_ok (clock seen cs) (book s').
Proof.
  revert s seen. induction cs as [|c cs IH]; intros s seen Hok Hties Hv.
  - exists s. done.
  - apply valid_cons in Hv as [Hv1 Hv2].
    destruct (step_total s seen c Hok Hties Hv1) as (s1 & Hs1 & Hties1).
    destruct (IH s1 (clock seen [c])) as (s' & Hrun & Hok' & Hties');
      [by eapply step_ok|done..|].
    exists s'. cbn [run]. rewrite Hs1, res_bind_ret, clock_cons. done.
Qed.

Lemma ties_ok_start : ties_ok [] (book start).
Proof.
  split.
  - intros s x y Hx. destruct s; by apply elem_of_nil in Hx.
  - intros s k ts r Hx. destruct s; by apply elem_of_nil in Hx.
Qed.

(** Two orders resting at the same price with the same timestamp make
    [heapq] compare the order objects themselves, which Python refuses. *)
Lemma equal_timestamps_raise :
  run start [Submit SELL LIMIT 1 (Some 100%Q) 1 "a";
             Submit SELL LIMIT 1 (Some 100%Q) 1 "b"] = TypeError.
Proof. vm_compute. reflexivity. Qed.

Lemma all_stale_spec s b : all_stale s b = true → all_stale_prop s b.
Proof.
  unfold all_stale. rewrite forallb_forall. intros H k ts r Hin%list_elem_of_In.
  apply H in Hin. simpl in Hin. destruct (_orders b !! r) as [o|]; [eauto|done].
Qed.

Lemma set_heap_id s b : heap_of s b = [] → set_heap s b [] = b.
Proof. destruct s, b; simpl; by intros ->. Qed.

Lemma set_heap_set_heap s b h h' : set_heap s (set_heap s b h) h' = set_heap s b h'.
Proof. by destruct s. Qed.

Lemma fill_loop_stale s fuel b a T agg :
  tie_free (heap_of s b) → _orders b !! a = Some agg →
  (0 < Order.remaining agg)%Q → all_stale_prop s b →
  length (heap_of s b) < fuel →
  fill_loop s fuel b a T = Ok (set_heap s b [], T).
Proof.
  revert b. induction fuel as [|fuel IH]; intros b Ht Ha Hrem Hst Hf; [lia|].
  rewrite fill_loop_S. unfold fill_step.
  rewrite (proj2 (deref_Ok _ _ _) Ha), res_bind_ret.
  destruct (heap_of s b) as [|[[k ts] r] h] eqn:Hh.
  { rewrite res_bind_ret. by rewrite set_heap_id. }
  apply Qlt_bool_true in Hrem. rewrite Hrem. cbn [negb].
  destruct (Hst k ts r) as (o & Ho & Hterm); [rewrite Hh; by left|].
  rewrite (proj2 (deref_Ok _ _ _) Ho), res_bind_ret, Hterm.
  destruct (heappop_total ((k, ts, r) :: h)) as [h' Hpop]; [done..|].
  rewrite Hpop, !res_bind_ret. cbn [add_trade].
  apply heappop_perm in Hpop as (x & tl & [= <- <-] & Hperm).
  rewrite IH; [by rewrite set_heap_set_heap|..].
  - rewrite heap_of_set_heap. eapply tie_free_sub; [|exact Ht].
    rewrite Hperm. by apply submseteq_cons.
  - by rewrite orders_set_heap.
  - by apply Qlt_bool_true.
  - intros k' ts' r'. rewrite heap_of_set_heap, orders_set_heap, Hperm.
    intros Hin. apply (Hst k' ts' r'). rewrite Hh. by right.
  - rewrite heap_of_set_heap, Hperm. simpl in Hf. lia.
Qed.

Lemma market_side_stale s b ref o :
  tie_free (heap_of s b) → _orders b !! ref = Some o →
  (0 < Order.remaining o)%Q → all_stale_prop s b →
  market_side s b ref =
    Ok (store (set_heap s b []) ref (Order.set_status o st_partial), []).
Proof.
  intros Ht Ho Hrem Hst. unfold market_side.
  assert (Hloop : market_loop s (S (S (length (heap_of s b)))) b ref [] =
                  Ok (set_heap s b [], [])).
  { cbn [market_loop]. rewrite (proj2 (deref_Ok _ _ _) Ho), res_bind_ret.
    pose proof Hrem as Hrem'. apply Qlt_bool_true in Hrem'. rewrite Hrem'.
    cbn [andb]. destruct (length (heap_of s b) =? 0) eqn:Hlen.
    - cbn [negb]. apply Nat.eqb_eq, length_zero_iff_nil in Hlen.
      by rewrite set_heap_id.
    - cbn [negb]. unfold fill_from.
      rewrite (fill_loop_stale s _ b ref [] o); try done; [|lia].
      rewrite res_bind_ret. cbn beta iota. by rewrite heap_of_set_heap. }
  rewrite Hloop, res_bind_ret. cbn beta iota.
  assert (Ho' : deref (set_heap s b []) ref = Ok o).
  { apply deref_Ok. by rewrite orders_set_heap. }
  rewrite Ho', res_bind_ret. apply Qlt_bool_true in Hrem. by rewrite Hrem.
Qed.

Lemma key_lt_not_le e e' : key_lt e e' → key_le e' e → False.
Proof.
  unfold key_lt, key_le. intros [H1|[H1 H2]] [H3|[H3 H4]]; lra.
Qed.

Lemma snoc_split {A} (T : list A) t T1 t' T2 :
  T ++ [t] = T1 ++ t' :: T2 →
  (T2 = [] ∧ T1 = T ∧ t' = t) ∨ ∃ T2', T2 = T2' ++ [t] ∧ T = T1 ++ t' :: T2'.
Proof.
  destruct T2 as [|x T2 _] using rev_ind.
  - intros [-> ->]%app_inj_tail. by left.
  - rewrite app_comm_cons, app_assoc. intros [-> ->]%app_inj_tail.
    right. eauto.
Qed.

Lemma nodup_ref_eq (h : list heapq.entry) e e' :
  NoDup (h.*2) → e ∈ h → e' ∈ h → e.2 = e'.2 → e = e'.
Proof.
  intros Hnd [i Hi]%list_elem_of_lookup [j Hj]%list_elem_of_lookup Heq.
  assert (i = j) as ->.
  { eapply NoDup_lookup; [exact Hnd| |]; rewrite list_lookup_fmap.
    - by rewrite Hi.
    - rewrite Hj. simpl. by rewrite Heq. }
  congruence.
Qed.

Lemma matching_start s a b : wf b → a ∉ (heap_of s b).*2 → matching s a b b [].
Proof.
  intros Hwf Ha. split; try done.
  - apply wf_nodup. done.
  - intros e He _. by left.
  - intros t Ht. by apply elem_of_nil in Ht.
  - intros T1 t T2 e et HT. by destruct T1.
Qed.

Lemma mk_trade_passive s agg passive p q :
  passive_ref s (mk_trade s agg passive p q) = Order.id passive.
Proof. by destruct s. Qed.

Lemma matching_step s a b0 b T b1 ot :
  matching s a b0 b T → step_spec s a b b1 ot →
  matching s a b0 b1 (add_trade T ot).
Proof.
  intros [Hwf Ha Hsub Hnd Hleft Hunt Hpas Hord] Hstep.
  destruct (step_spec_wf _ _ _ _ _ Hwf Hstep) as [Hwf1 Hfr1].
  assert (Hsub1 : heap_of s b1 ⊆+ heap_of s b0).
  { etrans; [|exact Hsub]. by destruct Hfr1. }
  pose proof (λ r, heap_root_min _ r (wf_heap_ok _ Hwf s)) as Hmin.
  destruct Hstep as [k ts r h agg passive h' Hagg Hrem Hh Hp Hterm Hpop
    |k ts r h agg passive b'' Hagg Hrem Hh Hp Hterm Hfar Hra q agg' passive' b2 Hb'].
  - (* a stale head is dropped *)
    apply heappop_perm in Hpop as (x & tl & Heq & Hperm).
    rewrite Hh in Heq. injection Heq as <- <-.
    split; try done.
    + by eapply frame_not_in.
    + intros e He Hlive. rewrite heap_of_set_heap, Hperm.
      destruct (Hleft e He Hlive) as [Hin|Hin]; [|by right].
      rewrite Hh in Hin. apply elem_of_cons in Hin as [->|Hin]; [|by left].
      right. simpl. destruct (decide (r ∈ passive_ref s <$> T)); [done|].
      exfalso. destruct Hlive as (o & Ho & Hl). simpl in Ho.
      rewrite <- Hunt in Ho; [congruence| |done].
      intros ->. apply Ha. rewrite Hh. simpl. by left.
    + intros r' Hne Hni. rewrite orders_set_heap. by apply Hunt.
  - (* the head is matched *)
    pose proof (wf_id _ Hwf _ _ Hp) as Hidp.
    assert (Hpr : passive_ref s (mk_trade s agg' passive' (price_of_key s k) q) = r)
      by (by rewrite mk_trade_passive).
    assert (Hst1 : _orders b'' = _orders b2).
    { destruct (Qeq_bool _ _); [|by subst].
      destruct Hb' as (h' & _ & (-> & _)%purge_level_frame).
      apply orders_set_heap. }
    assert (Hhead : (k, ts, r) ∈ heap_of s b0).
    { eapply elem_of_submseteq; [|exact Hsub]. rewrite Hh. by left. }
    assert (Hrest : ∀ e, e ∈ heap_of s b → e ∈ heap_of s b'' ∨ e.2 = r).
    { intros e He. destruct (Qeq_bool _ _).
      - destruct Hb' as (h' & Hpop & (_ & _ & ->)%purge_level_frame).
        rewrite heap_of_set_heap.
        apply heappop_perm in Hpop as (x & tl & Heq & Hperm).
        rewrite Hh in Heq. injection Heq as <- <-.
        rewrite Hh in He. apply elem_of_cons in He as [->|He]; [by right|].
        left. by rewrite Hperm.
      - subst b''. left. unfold b2. by rewrite !heap_of_store. }
    split; try done; cbn [add_trade].
    + by eapply frame_not_in.
    + intros e He Hlive. rewrite fmap_app, elem_of_app. simpl. rewrite Hpr.
      destruct (Hleft e He Hlive) as [Hin|Hin]; [|by right; left].
      destruct (Hrest e Hin) as [?| ->]; [by left|].
      right; right. by left.
    + intros r' Hne Hni. rewrite Hst1. unfold b2.
      rewrite fmap_app, elem_of_app in Hni. simpl in Hni. rewrite Hpr in Hni.
      rewrite !orders_store, !lookup_insert_ne.
      * apply Hunt; [done|]. intros ?. apply Hni. by left.
      * done.
      * intros ->. apply Hni. right. by left.
    + intros t [Ht|Ht%list_elem_of_singleton]%elem_of_app; [by apply Hpas|].
      subst t. rewrite Hpr.
      apply list_elem_of_fmap. by exists (k, ts, r).
    + intros T1 t T2 e et HT He Hlive Het Hetr Hlt.
      apply snoc_split in HT as [(-> & -> & ->)|(T2' & -> & ->)].
      * rewrite Hpr in Hetr.
        assert (et = (k, ts, r)) as ->
          by (by apply (nodup_ref_eq (heap_of s b0))).
        destruct (Hleft e He Hlive) as [Hin|Hin]; [|done].
        exfalso. apply (key_lt_not_le _ _ Hlt). apply Hmin; [|done].
        by rewrite Hh.
      * by eapply Hord.
Qed.

Lemma matching_fills s a b0 b T b' T' :
  matching s a b0 b T → fills s a b T b' T' → matching s a b0 b' T'.
Proof.
  intros Hm H. revert Hm.
  induction H as [|b T b1 ot b' T' Hstep _ IH]; intros Hm; [done|].
  apply IH. eapply matching_step; [exact Hm|].
  apply fill_step_spec; [|done]. by destruct Hm.
Qed.

Lemma add_order_fills b order b' new :
  add_order b order = Ok (b', new) →
  ∃ b1, fills (opposite (Order.side order)) (Order.id order)
          (store b (Order.id order) order) [] b1 new.
Proof.
  unfold add_order. set (ref := Order.id order). set (b0 := store b ref order).
  intros ([b1 new'] & Hm & [= <- <-])%res_bind_Ok.
  assert (Hd0 : deref b0 ref = Ok order).
  { apply deref_Ok. unfold b0. by rewrite orders_store, lookup_insert_eq. }
  destruct (Order.order_type order).
  - rewrite match_limit_order_eq, Hd0, res_bind_ret in Hm.
    unfold limit_side in Hm.
    apply res_bind_Ok in Hm as ([b2 T] & Hloop%limit_loop_fills & H).
    apply res_bind_Ok in H as (o & _ & H). exists b2.
    destruct (_ && _); [|by injection H as <- <-].
    by apply res_bind_Ok in H as (b3 & _ & [= <- <-]).
  - rewrite match_market_order_eq, Hd0, res_bind_ret in Hm.
    unfold market_side in Hm.
    apply res_bind_Ok in Hm as ([b2 T] & Hloop%market_loop_fills & H).
    apply res_bind_Ok in H as (o & _ & H). exists b2.
    destruct (Qlt_bool _ _); by injection H as <- <-.
Qed.

Lemma better_key_lt s o1 o2 p1 p2 r1 r2 :
  Order.price o1 = Some p1 → Order.price o2 = Some p2 →
  better s o1 o2 = true →
  key_lt (key_of s p1, Order.timestamp o1, r1)
         (key_of s p2, Order.timestamp o2, r2).
Proof.
  intros H1 H2. unfold better. rewrite H1, H2.
  unfold key_lt. simpl.
  intros [H|[H3%Qeq_bool_iff H4%Qlt_bool_true]%andb_true_iff]%orb_true_iff.
  - left. destruct s; apply Qlt_bool_true in H; simpl; lra.
  - right. split; [|done]. destruct s; simpl; lra.
Qed.

Lemma best_price_eq s b : best_price s b = best s b.
Proof. destruct s; [apply best_bid_eq|apply best_ask_eq]. Qed.

Lemma best_loop_S s fuel b :
  best_loop s (S fuel) b =
    match heap_of s b with
    | [] => Ok (b, None)
    | (key, ts, ref) :: _ =>
        order ← deref b ref;
        if live order then Ok (b, Some (price_of_key s key))
        else
          heap' ← heapq.heappop (heap_of s b);
          best_loop s fuel (set_heap s b heap')
    end.
Proof. reflexivity. Qed.



Lemma best_loop_quoted s fuel b b1 p :
  wf b → best_loop s fuel b = Ok (b1, Some p) → quoted s b p.
Proof.
  revert b. induction fuel as [|fuel IH]; intros b Hwf; [done|].
  rewrite best_loop_S.
  destruct (heap_of s b) as [|[[k ts] r] h] eqn:Hh; [done|].
  intros (o & Ho%deref_Ok & H)%res_bind_Ok. destruct (live o) eqn:Hl.
  - injection H as <- <-.
    destruct (wf_heap _ Hwf s k ts r) as (o' & p' & Ho' & Hs & Hp & -> & _);
      [rewrite Hh; by left|].
    assert (o' = o) as -> by congruence.
    exists (key_of s p'), ts, r, o, p'. rewrite Hh.
    repeat split; try done; [by left|apply price_of_key_of].
  - apply res_bind_Ok in H as (h' & Hpop & H). rewrite <- Hh in Hpop.
    apply IH in H as (k' & ts' & r' & o' & p' & Hin & Hrest);
      [|by apply wf_pop].
    rewrite heap_of_set_heap, orders_set_heap in *.
    apply heappop_perm in Hpop as (x & tl & Heq & Hperm).
    exists k', ts', r', o', p'. split; [|done].
    rewrite Heq. right. by rewrite <- Hperm.
Qed.


(** ** Conservation of the quantity of an order *)

Lemma float_calls_quantity o calls :
  Binary64.Order.quantity (Binary64.apply_calls o calls)
  = Binary64.Order.quantity o.
Proof.
  unfold Binary64.apply_calls. revert o.
  induction calls as [|c calls IH]; intros o; [done|].
  cbn [fold_left]. rewrite IH. by destruct c.
Qed.

Lemma exact_add_spec x y :
  exact_add x y = true →
  ∃ a b c, Binary64.value x = Some a ∧ Binary64.value y = Some b ∧
           Binary64.value (x + y) = Some c ∧ (c == a + b)%Q.
Proof.
  unfold exact_add. intros H.
  destruct (Binary64.value x) as [a|]; [|done].
  destruct (Binary64.value y) as [b|]; [|done].
  destruct (Binary64.value (x + y)) as [c|]; [|done].
  apply Qeq_bool_iff in H. eauto 10.
Qed.

Lemma exact_sub_spec x y :
  exact_sub x y = true →
  ∃ a b c, Binary64.value x = Some a ∧ Binary64.value y = Some b ∧
           Binary64.value (x - y) = Some c ∧ (c == a - b)%Q.
Proof.
  unfold exact_sub. intros H.
  destruct (Binary64.value x) as [a|]; [|done].
  destruct (Binary64.value y) as [b|]; [|done].
  destruct (Binary64.value (x - y)) as [c|]; [|done].
  apply Qeq_bool_iff in H. eauto 10.
Qed.

Lemma exact_calls_conserved o calls :
  conserved_value o → exact_calls o calls = true →
  conserved_value (Binary64.apply_calls o calls).
Proof.
  unfold Binary64.apply_calls. revert o.
  induction calls as [|c calls IH]; intros o Ho Hex; [done|].
  cbn [fold_left]. destruct c as [x|]; cbn [exact_calls] in Hex.
  - apply andb_prop in Hex as [Hex Hrest]. apply andb_prop in Hex as [Ha Hs].
    apply IH; [|done]. clear IH Hrest.
    destruct Ho as (f & r & q & Hf & Hr & Hq & E).
    apply exact_add_spec in Ha as (a & b & c & Ha & Hb & Hc & Ec).
    apply exact_sub_spec in Hs as (a' & b' & c' & Ha' & Hb' & Hc' & Ec').
    exists c, c', q. cbn. rewrite Hc, Hc', Hq. repeat split.
    assert (a = f) as -> by congruence.
    assert (a' = r) as -> by congruence.
    assert (b' = b) as -> by congruence.
    rewrite Ec, Ec'. lra.
  - apply IH; [|done]. done.
Qed.

(** C2 fails on the code: an order of quantity [1.0] filled by [0.3] and
    then by [0.4] has filled [0.7] and remaining [0.29999999999999993],
    which add up to [0.9999999999999999]. *)
Lemma fill_conservation_counterexample :
  let o := Binary64.apply_calls float_order
             [Binary64.CallFill 0.3; Binary64.CallFill 0.4] in
  Binary64.Order.quantity o = 1%float ∧
  Binary64.Order.filled o = 0.7%float ∧
  Binary64.Order.remaining o = 0.29999999999999993%float ∧
  (Binary64.Order.filled o + Binary64.Order.remaining o)%float
  = 0.9999999999999999%float ∧
  conserved_as_claimed o = false.
Proof. vm_compute. repeat split. Qed.

(** C2, amended: [fill] and [cancel] never change the quantity of an order,
    and filled plus remaining equals it whenever the additions to [filled]
    and the subtractions from [remaining] that the calls perform are
    computed without rounding. *)
Theorem fill_conservation_when_exact c now side ty q p tr calls :
  is_Some (Binary64.value q) →
  exact_calls (Binary64.Order.__init__ c now side ty q p tr).1 calls = true →
  let o := Binary64.apply_calls
             (Binary64.Order.__init__ c now side ty q p tr).1 calls in
  Binary64.Order.quantity o = q ∧
  ∃ f r v,
    Binary64.value (Binary64.Order.filled o) = Some f ∧
    Binary64.value (Binary64.Order.remaining o) = Some r ∧
    Binary64.value q = Some v ∧
    (f + r == v)%Q.
Proof.
  intros [v Hv] Hex o. unfold o. split; [by rewrite float_calls_quantity|].
  assert (H0 : conserved_value (Binary64.Order.__init__ c now side ty q p tr).1).
  { exists 0%Q, v, v. cbn. repeat split; [done|done|lra]. }
  destruct (exact_calls_conserved _ calls H0 Hex)
    as (f & r & v' & Hf & Hr & Hq & E).
  rewrite float_calls_quantity in Hq. cbn in Hq.
  exists f, r, v. repeat split; try done.
  assert (v' = v) as <- by congruence. done.
Qed.

(** Quantities that are multiples of a power of two are added and
    subtracted without rounding. *)
Lemma fill_conservation_when_exact_witness :
  is_Some (Binary64.value 1) ∧
  exact_calls float_order
    [Binary64.CallFill 0.25; Binary64.CallCancel; Binary64.CallFill 0.5]
  = true ∧
  let o := Binary64.apply_calls float_order
             [Binary64.CallFill 0.25; Binary64.CallCancel;
              Binary64.CallFill 0.5] in
  Binary64.Order.quantity o = 1%float ∧
  ∃ f r v,
    Binary64.value (Binary64.Order.filled o) = Some f ∧
    Binary64.value (Binary64.Order.remaining o) = Some r ∧
    Binary64.value 1 = Some v ∧
    (f + r == v)%Q.
Proof.
  assert (H1 : is_Some (Binary64.value 1)) by (vm_compute; eauto).
  assert (H2 : exact_calls float_order
                 [Binary64.CallFill 0.25; Binary64.CallCancel;
                  Binary64.CallFill 0.5] = true) by (vm_compute; reflexivity).
  split; [exact H1|]. split; [exact H2|].
  exact (fill_conservation_when_exact 0 0 BUY LIMIT 1 (Some 100%float) "a"
           [Binary64.CallFill 0.25; Binary64.CallCancel; Binary64.CallFill 0.5]
           H1 H2).
Defined.

(** ** Status of an order *)

Lemma float_calls_snoc o calls c :
  Binary64.apply_calls o (calls ++ [c])
  = Binary64.apply_call (Binary64.apply_calls o calls) c.
Proof. unfold Binary64.apply_calls. by rewrite fold_left_app. Qed.

(** A float that is greater than zero is not equal to zero. *)
Lemma float_positive_nonzero x : (0 <? x)%float = true → (x =? 0)%float = false.
Proof.
  rewrite FloatAxioms.ltb_spec, FloatAxioms.eqb_spec.
  change (Prim2SF 0) with (S754_zero false).
  by destruct (Prim2SF x) as [[]|[]| |[] m e].
Qed.

(** C8 fails on the code.  A fill too small to change the remaining
    quantity leaves all of it and sets the status to partial; [cancel]
    after a complete fill replaces filled by cancelled. *)
Lemma status_counterexample :
  (Binary64.Order.remaining
     (Binary64.apply_calls float_order [Binary64.CallFill 1e-20])
   = Binary64.Order.quantity float_order ∧
   Binary64.Order.status
     (Binary64.apply_calls float_order [Binary64.CallFill 1e-20])
   = st_partial) ∧
  ¬ float_status_as_claimed float_order [Binary64.CallFill 1e-20] ∧
  ¬ float_status_as_claimed float_order
      [Binary64.CallFill 1; Binary64.CallCancel].
Proof.
  split; [by vm_compute|].
  split; intros (H1 & H2 & H3).
  - assert (H : Binary64.Order.status
                  (Binary64.apply_calls float_order [Binary64.CallFill 1e-20])
                = st_open).
    { apply H3; [by vm_compute|].
      intros [?|?%elem_of_nil]%elem_of_cons; done. }
    vm_compute in H. discriminate.
  - assert (H : Binary64.Order.status
                  (Binary64.apply_calls float_order
                     [Binary64.CallFill 1; Binary64.CallCancel])
                = st_filled) by (apply H1; by vm_compute).
    vm_compute in H. discriminate.
Qed.

(** C8, amended: the status of an order is determined by the last call on
    it and by its remaining quantity.  After [cancel] it is cancelled.
    After [fill] it is filled when [remaining == 0] and partial otherwise,
    so partial whenever [0 < remaining].  An order on which neither has been
    called is open, with its whole quantity remaining. *)
Theorem status_after_last_call c now side ty q p tr calls :
  let o := Binary64.apply_calls
             (Binary64.Order.__init__ c now side ty q p tr).1 calls in
  match last calls with
  | None =>
      Binary64.Order.status o = st_open ∧ Binary64.Order.remaining o = q
  | Some Binary64.CallCancel => Binary64.Order.status o = st_cancelled
  | Some (Binary64.CallFill _) =>
      ((Binary64.Order.remaining o =? 0)%float = true →
       Binary64.Order.status o = st_filled) ∧
      ((Binary64.Order.remaining o =? 0)%float = false →
       Binary64.Order.status o = st_partial) ∧
      ((0 <? Binary64.Order.remaining o)%float = true →
       Binary64.Order.status o = st_partial)
  end.
Proof.
  intros o. unfold o. clear o.
  destruct calls as [|c0 calls _] using rev_ind; [done|].
  rewrite float_calls_snoc, last_snoc.
  set (o1 := Binary64.apply_calls _ calls).
  destruct c0 as [x|]; [|done].
  cbn [Binary64.apply_call Binary64.Order.fill fst
       Binary64.Order.remaining Binary64.Order.status].
  split; [by intros ->|]. split; [by intros ->|].
  by intros ->%float_positive_nonzero.
Qed.

Lemma history_purge_ask_level b p b' :
  Binary64.OrderBook.purge_ask_level b p = Ok b' → history b' = history b.
Proof.
  unfold Binary64.OrderBook.purge_ask_level.
  destruct (Binary64.dict_get _ p); [|by intros [= <-]].
  destruct (Binary64.PriceLevel.remove_filled _ _); [|done..].
  by intros [= <-].
Qed.

Lemma history_purge_bid_level b p b' :
  Binary64.OrderBook.purge_bid_level b p = Ok b' → history b' = history b.
Proof.
  unfold Binary64.OrderBook.purge_bid_level.
  destruct (Binary64.dict_get _ p); [|by intros [= <-]].
  destruct (Binary64.PriceLevel.remove_filled _ _); [|done..].
  by intros [= <-].
Qed.

Ltac bind_ok H :=
  match type of H with
  | mbind _ ?m = Ok _ =>
      let E := fresh "E" in
      destruct m eqn:E; [|discriminate H..];
      cbn [mbind res_mbind res_bind] in H
  end.

Lemma history_fill_from_asks_loop fuel b a T b' T' :
  Binary64.OrderBook._fill_from_asks_loop fuel b a T = Ok (b', T') →
  history b' = history b.
Proof.
  revert b T. induction fuel as [|fuel IH]; intros b T H; [done|].
  cbn [Binary64.OrderBook._fill_from_asks_loop] in H.
  bind_ok H.
  destruct (Binary64.OrderBook._ask_heap b) as [|[[bp ts] po] hp] eqn:Eh;
    [by injection H as <- _|].
  destruct (negb _); [by injection H as <- _|].
  bind_ok H.
  destruct (terminal _).
  { bind_ok H. by apply IH in H. }
  bind_ok H. destruct a2; [by injection H as <- _|].
  cbv zeta in H. do 3 bind_ok H.
  destruct (_ =? _)%float.
  - do 2 bind_ok H. apply IH in H. rewrite H.
    by apply history_purge_ask_level in E6.
  - by apply IH in H.
Qed.

Lemma history_fill_from_bids_loop fuel b a T b' T' :
  Binary64.OrderBook._fill_from_bids_loop fuel b a T = Ok (b', T') →
  history b' = history b.
Proof.
  revert b T. induction fuel as [|fuel IH]; intros b T H; [done|].
  cbn [Binary64.OrderBook._fill_from_bids_loop] in H.
  bind_ok H.
  destruct (Binary64.OrderBook._bid_heap b) as [|[[bp ts] po] hp] eqn:Eh;
    [by injection H as <- _|].
  destruct (negb _); [by injection H as <- _|].
  cbv zeta in H. bind_ok H.
  destruct (terminal _).
  { bind_ok H. by apply IH in H. }
  bind_ok H. destruct a2; [by injection H as <- _|].
  do 3 bind_ok H.
  destruct (_ =? _)%float.
  - do 2 bind_ok H. apply IH in H. rewrite H.
    by apply history_purge_bid_level in E6.
  - by apply IH in H.
Qed.

Lemma history_fill_from_asks b a b' T :
  Binary64.OrderBook._fill_from_asks b a = Ok (b', T) → history b' = history b.
Proof. apply history_fill_from_asks_loop. Qed.

Lemma history_fill_from_bids b a b' T :
  Binary64.OrderBook._fill_from_bids b a = Ok (b', T) → history b' = history b.
Proof. apply history_fill_from_bids_loop. Qed.

Lemma history_match_market_buy_loop fuel b r T b' T' :
  Binary64.OrderBook._match_market_buy_loop fuel b r T = Ok (b', T') →
  history b' = history b.
Proof.
  revert b T. induction fuel as [|fuel IH]; intros b T H; [done|].
  cbn [Binary64.OrderBook._match_market_buy_loop] in H.
  bind_ok H.
  destruct (_ && _); [|by injection H as <- _].
  bind_ok H. destruct a0 as [b1 new]. apply history_fill_from_asks in E0.
  destruct (Nat.eqb _ _); [by injection H as <- _|].
  apply IH in H. by rewrite H.
Qed.

Lemma history_match_market_sell_loop fuel b r T b' T' :
  Binary64.OrderBook._match_market_sell_loop fuel b r T = Ok (b', T') →
  history b' = history b.
Proof.
  revert b T. induction fuel as [|fuel IH]; intros b T H; [done|].
  cbn [Binary64.OrderBook._match_market_sell_loop] in H.
  bind_ok H.
  destruct (_ && _); [|by injection H as <- _].
  bind_ok H. destruct a0 as [b1 new]. apply history_fill_from_bids in E0.
  destruct (Nat.eqb _ _); [by injection H as <- _|].
  apply IH in H. by rewrite H.
Qed.

Lemma history_match_market_order b r b' T :
  Binary64.OrderBook._match_market_order b r = Ok (b', T) →
  history b' = history b.
Proof.
  unfold Binary64.OrderBook._match_market_order. intros H.
  bind_ok H. bind_ok H. destruct a0 as [b1 T1].
  assert (H1 : history b1 = history b).
  { destruct (Binary64.Order.side a).
    - by apply history_match_market_buy_loop in E0.
    - by apply history_match_market_sell_loop in E0. }
  bind_ok H.
  destruct (_ <? _)%float; injection H as <- _; by rewrite <- H1.
Qed.

Lemma history_match_limit_buy_loop fuel b r T b' T' :
  Binary64.OrderBook._match_limit_buy_loop fuel b r T = Ok (b', T') →
  history b' = history b.
Proof.
  revert b T. induction fuel as [|fuel IH]; intros b T H; [done|].
  cbn [Binary64.OrderBook._match_limit_buy_loop] in H.
  bind_ok H.
  destruct (negb _); [by injection H as <- _|].
  destruct (Binary64.OrderBook._ask_heap b) as [|[[k ts] po] hp];
    [by injection H as <- _|].
  bind_ok H.
  destruct (_ <=? _)%float; [|by injection H as <- _].
  bind_ok H. destruct a1 as [b1 new]. apply history_fill_from_asks in E1.
  apply IH in H. by rewrite H.
Qed.

Lemma history_match_limit_sell_loop fuel b r T b' T' :
  Binary64.OrderBook._match_limit_sell_loop fuel b r T = Ok (b', T') →
  history b' = history b.
Proof.
  revert b T. induction fuel as [|fuel IH]; intros b T H; [done|].
  cbn [Binary64.OrderBook._match_limit_sell_loop] in H.
  bind_ok H.
  destruct (negb _); [by injection H as <- _|].
  destruct (Binary64.OrderBook._bid_heap b) as [|[[k ts] po] hp];
    [by injection H as <- _|].
  bind_ok H.
  destruct (_ <=? _)%float; [|by injection H as <- _].
  bind_ok H. destruct a1 as [b1 new]. apply history_fill_from_bids in E1.
  apply IH in H. by rewrite H.
Qed.

Lemma history_add_to_bids b r b' :
  Binary64.OrderBook._add_to_bids b r = Ok b' → history b' = history b.
Proof.
  unfold Binary64.OrderBook._add_to_bids. intros H.
  do 3 bind_ok H. by injection H as <-.
Qed.

Lemma history_add_to_asks b r b' :
  Binary64.OrderBook._add_to_asks b r = Ok b' → history b' = history b.
Proof.
  unfold Binary64.OrderBook._add_to_asks. intros H.
  do 3 bind_ok H. by injection H as <-.
Qed.

Lemma history_match_limit_order b r b' T :
  Binary64.OrderBook._match_limit_order b r = Ok (b', T) →
  history b' = history b.
Proof.
  unfold Binary64.OrderBook._match_limit_order. intros H.
  bind_ok H. destruct (Binary64.Order.side a).
  - bind_ok H. destruct a0 as [b1 T1].
    apply history_match_limit_buy_loop in E0. bind_ok H.
    destruct (_ && _); [|by injection H as <- _].
    bind_ok H. apply history_add_to_bids in E2. injection H as <- _.
    by rewrite E2.
  - bind_ok H. destruct a0 as [b1 T1].
    apply history_match_limit_sell_loop in E0. bind_ok H.
    destruct (_ && _); [|by injection H as <- _].
    bind_ok H. apply history_add_to_asks in E2. injection H as <- _.
    by rewrite E2.
Qed.

(** [add_order] appends the trades it returns to the history, adds their
    number to [total_trades] and the sum of their quantities to
    [total_volume]. *)
Lemma history_add_order b o b' new :
  Binary64.OrderBook.add_order b o = Ok (b', new) →
  Binary64.OrderBook.trades b' = Binary64.OrderBook.trades b ++ new ∧
  Binary64.OrderBook.total_trades b'
  = Binary64.OrderBook.total_trades b + length new ∧
  Binary64.OrderBook.total_volume b'
  = (Binary64.OrderBook.total_volume b
     + Binary64.fsum (Binary64.Trade.quantity <$> new))%float.
Proof.
  unfold Binary64.OrderBook.add_order. intros H. cbv zeta in H.
  bind_ok H. destruct a as [b1 T1]. injection H as <- <-.
  assert (H1 : history b1 = history b).
  { destruct (Binary64.Order.order_type o).
    - by apply history_match_limit_order in E.
    - by apply history_match_market_order in E. }
  injection H1 as -> -> ->. done.
Qed.

Lemma history_cancel_order b oid b' r :
  Binary64.OrderBook.cancel_order b oid = Ok (b', r) → history b' = history b.
Proof.
  unfold Binary64.OrderBook.cancel_order.
  destruct (_ !! oid) as [o|]; [|by intros [= <- _]].
  intros H. bind_ok H. injection H as <- _.
  destruct (Binary64.Order.side o), (Binary64.Order.price o) as [p|].
  - by apply history_purge_bid_level in E.
  - by injection E as <-.
  - by apply history_purge_ask_level in E.
  - by injection E as <-.
Qed.

(** [best_bid] changes nothing but the bid heap. *)
Lemma best_bid_loop_heap fuel b b' v :
  Binary64.OrderBook.best_bid_loop fuel b = Ok (b', v) →
  ∃ h, b' = Binary64.OrderBook.set_bid_heap b h.
Proof.
  revert b. induction fuel as [|fuel IH]; intros b H; [done|].
  cbn [Binary64.OrderBook.best_bid_loop] in H.
  destruct (Binary64.OrderBook._bid_heap b) as [|[[k ts] r] hp] eqn:Eh.
  { injection H as <- _. exists []. destruct b. cbn in Eh. by subst. }
  bind_ok H. destruct (Binary64.OrderBook.live a).
  { injection H as <- _. exists ((k, ts, r) :: hp). destruct b. cbn in Eh.
    by subst. }
  bind_ok H. apply IH in H as [h ->]. by exists h.
Qed.

Lemma best_ask_loop_heap fuel b b' v :
  Binary64.OrderBook.best_ask_loop fuel b = Ok (b', v) →
  ∃ h, b' = Binary64.OrderBook.set_ask_heap b h.
Proof.
  revert b. induction fuel as [|fuel IH]; intros b H; [done|].
  cbn [Binary64.OrderBook.best_ask_loop] in H.
  destruct (Binary64.OrderBook._ask_heap b) as [|[[k ts] r] hp] eqn:Eh.
  { injection H as <- _. exists []. destruct b. cbn in Eh. by subst. }
  bind_ok H. destruct (Binary64.OrderBook.live a).
  { injection H as <- _. exists ((k, ts, r) :: hp). destruct b. cbn in Eh.
    by subst. }
  bind_ok H. apply IH in H as [h ->]. by exists h.
Qed.

Lemma history_best_bid b b' v :
  Binary64.OrderBook.best_bid b = Ok (b', v) → history b' = history b.
Proof. by intros [h ->]%best_bid_loop_heap. Qed.

Lemma history_best_ask b b' v :
  Binary64.OrderBook.best_ask b = Ok (b', v) → history b' = history b.
Proof. by intros [h ->]%best_ask_loop_heap. Qed.

Lemma history_spread b b' v :
  Binary64.OrderBook.spread b = Ok (b', v) → history b' = history b.
Proof.
  unfold Binary64.OrderBook.spread. intros H.
  bind_ok H. destruct a as [b1 bid]. apply history_best_bid in E.
  bind_ok H. destruct a as [b2 ask]. apply history_best_ask in E0.
  rewrite <- E, <- E0.
  destruct bid, ask; try destruct (_ && _); by injection H as <- _.
Qed.

Lemma history_mid_price b b' v :
  Binary64.OrderBook.mid_price b = Ok (b', v) → history b' = history b.
Proof.
  unfold Binary64.OrderBook.mid_price. intros H.
  bind_ok H. destruct a as [b1 bid]. apply history_best_bid in E.
  bind_ok H. destruct a as [b2 ask]. apply history_best_ask in E0.
  rewrite <- E, <- E0.
  destruct bid, ask; try destruct (_ && _); by injection H as <- _.
Qed.

Lemma float_submit_history s side ty q p now tr s' new :
  Binary64.submit s side ty q p now tr = Ok (s', new) →
  Binary64.OrderBook.trades (Binary64.book s')
  = Binary64.OrderBook.trades (Binary64.book s) ++ new ∧
  Binary64.OrderBook.total_trades (Binary64.book s')
  = Binary64.OrderBook.total_trades (Binary64.book s) + length new ∧
  Binary64.OrderBook.total_volume (Binary64.book s')
  = (Binary64.OrderBook.total_volume (Binary64.book s)
     + Binary64.fsum (Binary64.Trade.quantity <$> new))%float.
Proof.
  unfold Binary64.submit, Binary64.Order.__init__. cbv beta match zeta.
  intros H. bind_ok H. destruct a as [b1 T1].
  injection H as <- <-. by apply history_add_order in E.
Qed.

Lemma float_step_history s c s' :
  Binary64.step s c = Ok s' →
  match c with
  | Binary64.Submit _ _ _ _ _ _ => True
  | _ => history (Binary64.book s') = history (Binary64.book s)
  end.
Proof.
  intros H. destruct c; [done|..]; cbn [Binary64.step] in H; bind_ok H;
    destruct a as [b1 r]; injection H as <-; cbn [Binary64.book].
  - by apply history_cancel_order in E.
  - by apply history_best_bid in E.
  - by apply history_best_ask in E.
  - by apply history_spread in E.
  - by apply history_mid_price in E.
Qed.

Lemma float_run_history cs s s' :
  Binary64.run s cs = Ok s' →
  Binary64.OrderBook.trades (Binary64.book s')
  = Binary64.OrderBook.trades (Binary64.book s) ++ concat (batches s cs) ∧
  Binary64.OrderBook.total_trades (Binary64.book s')
  = Binary64.OrderBook.total_trades (Binary64.book s)
    + length (concat (batches s cs)) ∧
  Binary64.OrderBook.total_volume (Binary64.book s')
  = add_volumes (Binary64.OrderBook.total_volume (Binary64.book s))
      (batches s cs).
Proof.
  revert s. induction cs as [|c cs IH]; intros s H.
  - injection H as <-. cbn. by rewrite app_nil_r, Nat.add_0_r.
  - cbn [Binary64.run] in H. bind_ok H.
    destruct (IH _ H) as (IH1 & IH2 & IH3). rewrite IH1, IH2, IH3. clear IH.
    destruct c as [side ty q p now tr| | | | |].
    { cbn [Binary64.step] in E. bind_ok E. destruct a0 as [s1 new].
      injection E as ->. cbn [batches]. rewrite E0.
      apply float_submit_history in E0 as (-> & -> & ->).
      cbn [concat add_volumes fold_left]. rewrite length_app.
      by rewrite <- !assoc_L by apply _. }
    all: apply float_step_history in E as Hh; cbn [batches]; rewrite E;
      by injection Hh as -> -> ->.
Qed.

(** C10 fails on the code: [total_volume] adds up the sums of the calls,
    [0.1 + (0.2 + 0.3) = 0.6], while the quantities of the history add up
    to [0.1 + 0.2 + 0.3 = 0.6000000000000001]. *)
Lemma counters_counterexample :
  Binary64.Trade.quantity
    <$> Binary64.OrderBook.trades (float_book_after three_fills)
  = [0.1; 0.2; 0.3]%float ∧
  Binary64.OrderBook.total_volume (float_book_after three_fills) = 0.6%float ∧
  Binary64.fsum
    (Binary64.Trade.quantity
       <$> Binary64.OrderBook.trades (float_book_after three_fills))
  = 0.6000000000000001%float ∧
  volume_as_claimed (float_book_after three_fills) = false.
Proof. vm_compute. repeat split. Qed.

(** C10, amended: after every sequence of calls that returns,
    [total_trades] is the length of the trade history, the history lists
    the trades that the [add_order] calls returned, call after call, and
    [total_volume] is what adding, call after call, the sum of the
    quantities of the trades of the call gives; [cancel_order] changes
    neither counter nor the history. *)
Theorem counters_follow_history cs s :
  Binary64.run Binary64.start cs = Ok s →
  Binary64.OrderBook.total_trades (Binary64.book s)
  = length (Binary64.OrderBook.trades (Binary64.book s)) ∧
  Binary64.OrderBook.trades (Binary64.book s)
  = concat (batches Binary64.start cs) ∧
  Binary64.OrderBook.total_volume (Binary64.book s)
  = add_volumes 0 (batches Binary64.start cs) ∧
  ∀ oid b' r,
    Binary64.OrderBook.cancel_order (Binary64.book s) oid = Ok (b', r) →
    Binary64.OrderBook.trades b' = Binary64.OrderBook.trades (Binary64.book s) ∧
    Binary64.OrderBook.total_trades b'
    = Binary64.OrderBook.total_trades (Binary64.book s) ∧
    Binary64.OrderBook.total_volume b'
    = Binary64.OrderBook.total_volume (Binary64.book s).
Proof.
  intros (H1 & H2 & H3)%float_run_history. cbn in H1, H2.
  split; [by rewrite H1, H2|]. split; [done|]. split; [done|].
  intros oid b' r H%history_cancel_order. by injection H as -> -> ->.
Qed.

Lemma counters_follow_history_witness :
  Binary64.run Binary64.start three_fills
  = Ok (float_session_after three_fills) ∧
  Binary64.OrderBook.total_trades (float_book_after three_fills)
  = length (Binary64.OrderBook.trades (float_book_after three_fills)) ∧
  Binary64.OrderBook.total_volume (float_book_after three_fills)
  = add_volumes 0 (batches Binary64.start three_fills).
Proof.
  assert (H1 : Binary64.run Binary64.start three_fills
               = Ok (float_session_after three_fills))
    by (vm_compute; reflexivity).
  split; [exact H1|].
  destruct (counters_follow_history three_fills _ H1) as (H2 & _ & H3 & _).
  split; [exact H2|exact H3].
Defined.

(** [best_ask] neither reads nor writes the bid heap. *)
Lemma best_ask_loop_bid_heap fuel b h b2 ask :
  Binary64.OrderBook.best_ask_loop fuel b = Ok (b2, ask) →
  Binary64.OrderBook.best_ask_loop fuel (Binary64.OrderBook.set_bid_heap b h)
  = Ok (Binary64.OrderBook.set_bid_heap b2 h, ask).
Proof.
  revert b. induction fuel as [|fuel IH]; intros b H; [done|].
  cbn [Binary64.OrderBook.best_ask_loop] in H |- *.
  change (Binary64.OrderBook._ask_heap (Binary64.OrderBook.set_bid_heap b h))
    with (Binary64.OrderBook._ask_heap b).
  destruct (Binary64.OrderBook._ask_heap b) as [|[[k ts] r] hp] eqn:Eh.
  { by injection H as <- <-. }
  change (Binary64.OrderBook.deref (Binary64.OrderBook.set_bid_heap b h) r)
    with (Binary64.OrderBook.deref b r).
  bind_ok H. cbn [mbind res_mbind res_bind].
  destruct (Binary64.OrderBook.live a).
  { by injection H as <- <-. }
  bind_ok H. cbn [mbind res_mbind res_bind].
  by apply IH in H.
Qed.

Lemma float_spread_mid_price b b1 bid b2 ask :
  Binary64.OrderBook.best_bid b = Ok (b1, bid) →
  Binary64.OrderBook.best_ask b = Ok (b2, ask) →
  let b3 := Binary64.OrderBook.set_bid_heap b2
              (Binary64.OrderBook._bid_heap b1) in
  Binary64.OrderBook.spread b = Ok (b3, float_spread_of bid ask) ∧
  Binary64.OrderBook.mid_price b = Ok (b3, float_mid_of bid ask).
Proof.
  intros Hbid Hask b3.
  assert (Hask1 : Binary64.OrderBook.best_ask b1 = Ok (b3, ask)).
  { apply best_bid_loop_heap in Hbid as Hb. destruct Hb as [h ->].
    by apply best_ask_loop_bid_heap. }
  unfold Binary64.OrderBook.spread, Binary64.OrderBook.mid_price.
  rewrite Hbid. cbn [mbind res_mbind res_bind]. rewrite Hask1.
  cbn [mbind res_mbind res_bind].
  by destruct bid, ask; cbn; try destruct (negb _ && negb _).
Qed.

(** What the float model returns on the books above: the spread of 1.0 and
    1.015, whose difference is just below 0.015, is 0.01; the mid price of
    1e308 and 1.5e308 overflows. *)
Lemma float_spread_examples :
  returned (Binary64.OrderBook.spread (float_book_after float_cent_book))
  = Some 0.01%float ∧
  returned (Binary64.OrderBook.mid_price (float_book_after float_huge_book))
  = Some infinity ∧
  returned (Binary64.OrderBook.spread (float_book_after float_narrow_book))
  = Some 0%float ∧
  returned (Binary64.OrderBook.spread (float_book_after float_zero_bid_book))
  = None.
Proof. vm_compute. repeat split. Qed.

(** C7 fails on the code: with best prices 100 and 100.001 the spread is
    reported as 0.0, and with a best bid of 0 no spread and no mid price are
    reported although both sides hold an order. *)
Lemma spread_mid_counterexample :
  ¬ float_spread_mid_as_claimed (float_book_after float_narrow_book) ∧
  ¬ float_spread_mid_as_claimed (float_book_after float_zero_bid_book).
Proof.
  split; intros H.
  - destruct (Binary64.OrderBook.best_bid (float_book_after float_narrow_book))
      as [[b1 bid]| |] eqn:E1; [|vm_compute in E1; discriminate..].
    destruct (Binary64.OrderBook.best_ask (float_book_after float_narrow_book))
      as [[b2 ask]| |] eqn:E2; [|vm_compute in E2; discriminate..].
    destruct (Binary64.OrderBook.spread (float_book_after float_narrow_book))
      as [[b3 vs]| |] eqn:E3; [|vm_compute in E3; discriminate..].
    destruct (Binary64.OrderBook.mid_price (float_book_after float_narrow_book))
      as [[b4 vm]| |] eqn:E4; [|vm_compute in E4; discriminate..].
    destruct (H _ _ _ _ _ _ _ _ eq_refl eq_refl eq_refl eq_refl)
      as (_ & _ & H3).
    vm_compute in E1, E2, E3.
    injection E1 as _ <-. injection E2 as _ <-. injection E3 as _ <-.
    destruct (H3 _ _ eq_refl eq_refl) as [(v & [= <-] & Hv) _].
    vm_compute in Hv. discriminate.
  - destruct (Binary64.OrderBook.best_bid (float_book_after float_zero_bid_book))
      as [[b1 bid]| |] eqn:E1; [|vm_compute in E1; discriminate..].
    destruct (Binary64.OrderBook.best_ask (float_book_after float_zero_bid_book))
      as [[b2 ask]| |] eqn:E2; [|vm_compute in E2; discriminate..].
    destruct (Binary64.OrderBook.spread (float_book_after float_zero_bid_book))
      as [[b3 vs]| |] eqn:E3; [|vm_compute in E3; discriminate..].
    destruct (Binary64.OrderBook.mid_price (float_book_after float_zero_bid_book))
      as [[b4 vm]| |] eqn:E4; [|vm_compute in E4; discriminate..].
    destruct (H _ _ _ _ _ _ _ _ eq_refl eq_refl eq_refl eq_refl)
      as ([H1 _] & _).
    vm_compute in E1, E2, E3.
    injection E1 as _ <-. injection E2 as _ <-. injection E3 as _ <-.
    destruct (H1 eq_refl); discriminate.
Qed.

Lemma run_start_ok cs s : run start cs = Ok s → session_ok s.
Proof. apply run_ok, session_ok_start. Qed.

Lemma run_valid cs s :
  valid [] cs = true → run start cs = Ok s → ties_ok (clock [] cs) (book s).
Proof.
  intros Hv%valid_spec Hrun.
  destruct (run_total start [] cs session_ok_start ties_ok_start Hv)
    as (s' & Hrun' & _ & Ht).
  congruence.
Qed.

(** C1: every trade returned by [add_order] is priced at the limit price
    of the resting order it matched, whatever the commands before. The
    trade names the submitted order as aggressor and an order that was
    already in the book as the passive side. *)
Theorem trade_price_is_resting_price cs s side ty q p now tr s' new t :
  run start cs = Ok s →
  submit s side ty q p now tr = Ok (s', new) →
  t ∈ new →
  aggressor_ref (opposite side) t = S (id_counter s) ∧
  is_Some (_orders (book s) !! passive_ref (opposite side) t) ∧
  ∃ o limit,
    _orders (book s') !! passive_ref (opposite side) t = Some o ∧
    Order.side o = opposite side ∧ Order.price o = Some limit ∧
    (Trade.price t == limit)%Q.
Proof.
  intros Hrun Hsub Ht. apply run_start_ok in Hrun.
  apply submit_spec in Hsub as (_ & _ & HT & _ & Hst & _); [|done].
  rewrite Forall_forall in HT.
  destruct (HT t Ht) as (Hagg & Hne & o & limit & Ho & Hs & Hp & Hpr).
  split; [done|]. split; [|eauto 10].
  specialize (Hst _ Hne). rewrite Ho in Hst. inversion Hst. eauto.
Qed.

Lemma add_order_market b order :
  Order.order_type order = MARKET →
  add_order b order =
    '(b1, new) ← market_side (opposite (Order.side order))
                   (store b (Order.id order) order) (Order.id order);
    Ok (mk (symbol b1) (_bid_heap b1) (_ask_heap b1) (_bid_levels b1)
           (_ask_levels b1) (_orders b1) (trades b1 ++ new)
           (total_volume b1 + Qsum (Trade.quantity <$> new))%Q
           (total_trades b1 + length new), new).
Proof.
  intros Hty. unfold add_order. rewrite Hty, match_market_order_eq.
  unfold deref at 1. by rewrite orders_store, lookup_insert_eq, res_bind_ret.
Qed.

(** X25: on a book built from orders with pairwise different timestamps, a
    market order submitted while every entry of the opposing heap is stale
    returns no trade, keeps its whole quantity, ends partial and rests
    nowhere; the stale entries are dropped. *)
Theorem market_order_without_liquidity cs s side q now tr :
  valid [] cs = true → run start cs = Ok s → (0 < q)%Q →
  all_stale (opposite side) (book s) = true →
  ∃ s' o,
    submit s side MARKET q None now tr = Ok (s', []) ∧
    _orders (book s') !! S (id_counter s) = Some o ∧
    Order.remaining o = q ∧ Order.quantity o = q ∧
    Order.status o = st_partial ∧
    heap_of (opposite side) (book s') = [] ∧
    heap_of side (book s') = heap_of side (book s) ∧
    (S (id_counter s) ∉ (heap_of side (book s')).*2) ∧
    (∀ s0, levels_of s0 (book s') = levels_of s0 (book s)) ∧
    trades (book s') = trades (book s).
Proof.
  intros Hv Hrun Hq Hstale%all_stale_spec.
  pose proof (run_valid _ _ Hv Hrun) as [Hties _].
  apply run_start_ok in Hrun as [Hwf Hdom].
  set (order := Order.mk (S (id_counter s)) side MARKET q None now q 0 tr st_open).
  set (ref := S (id_counter s)).
  set (b0 := store (book s) ref order).
  assert (Hfresh : _orders (book s) !! ref = None).
  { destruct (_orders (book s) !! ref) eqn:E; [|done].
    assert (ref ≤ id_counter s) by (apply Hdom; eauto). unfold ref in *. lia. }
  assert (Ho0 : _orders b0 !! ref = Some order).
  { unfold b0. by rewrite orders_store, lookup_insert_eq. }
  assert (Hm : market_side (opposite side) b0 ref =
    Ok (store (set_heap (opposite side) b0 []) ref
          (Order.set_status order st_partial), [])).
  { apply market_side_stale; try done.
    - unfold b0. rewrite heap_of_store. apply Hties.
    - intros k ts r. unfold b0. rewrite heap_of_store, orders_store.
      intros Hin. destruct (Hstale _ _ _ Hin) as (o & Ho & Hterm).
      exists o. split; [|done]. rewrite lookup_insert_ne; [done|congruence]. }
  eexists _, (Order.set_status order st_partial). split.
  { change (submit s side MARKET q None now tr)
      with ('(b, new) ← add_order (book s) order;
            Ok (mk_session (S (id_counter s)) b, new)).
    rewrite add_order_market by done.
    change (Order.id order) with ref. change (Order.side order) with side.
    fold b0. rewrite Hm, !res_bind_ret. reflexivity. }
  cbn [book].
  assert (Hnr : ref ∉ (heap_of side (book s)).*2) by (by apply wf_not_resting).
  split; [by destruct side; cbn; rewrite lookup_insert_eq|].
  split; [done|]. split; [done|]. split; [done|].
  split; [by destruct side|]. split; [by destruct side|].
  split; [by destruct side|]. split; [by intros [] ; destruct side|].
  destruct side; cbn; by rewrite app_nil_r.
Qed.

(** C4: in the trades of one [add_order], a live resting order with a
    better price, or with the same price and an earlier timestamp, is
    matched before the order with the lower priority. *)
Theorem price_time_priority cs s side ty q p now tr s' T1 t T2 r1 o1 o2 :
  run start cs = Ok s →
  submit s side ty q p now tr = Ok (s', T1 ++ t :: T2) →
  r1 ∈ (heap_of (opposite side) (book s)).*2 →
  _orders (book s) !! r1 = Some o1 →
  terminal (Order.status o1) = false →
  _orders (book s) !! passive_ref (opposite side) t = Some o2 →
  better (opposite side) o1 o2 = true →
  ∃ t1, t1 ∈ T1 ∧ passive_ref (opposite side) t1 = r1.
Proof.
  intros Hrun Hsub Hr1 Ho1 Hlive Ho2 Hbetter.
  apply run_start_ok in Hrun as [Hwf Hdom].
  set (order := Order.mk (S (id_counter s)) side ty q p now q 0 tr st_open).
  set (ref := S (id_counter s)). set (rs := opposite side) in *.
  change (submit s side ty q p now tr)
    with ('(b, new) ← add_order (book s) order;
          Ok (mk_session (S (id_counter s)) b, new)) in Hsub.
  apply res_bind_Ok in Hsub as ([b' new] & Hadd & [= <- ->]).
  apply add_order_fills in Hadd as [b1 Hfills].
  change (Order.side order) with side in Hfills.
  change (Order.id order) with ref in Hfills. fold rs in Hfills.
  set (b0 := store (book s) ref order) in *.
  assert (Hfresh : _orders (book s) !! ref = None).
  { destruct (_orders (book s) !! ref) eqn:E; [|done].
    assert (ref ≤ id_counter s) by (apply Hdom; eauto). unfold ref in *. lia. }
  assert (Hwf0 : wf b0) by (apply wf_store_fresh; [done..|apply init_conserved]).
  assert (Hh0 : heap_of rs b0 = heap_of rs (book s)) by apply heap_of_store.
  assert (Hst0 : ∀ r, r ≠ ref → _orders b0 !! r = _orders (book s) !! r).
  { intros r Hne. unfold b0. by rewrite orders_store, lookup_insert_ne. }
  assert (Hm : matching rs ref b0 b1 (T1 ++ t :: T2)).
  { eapply matching_fills; [|exact Hfills]. apply matching_start; [done|].
    rewrite Hh0. by apply wf_not_resting. }
  apply list_elem_of_fmap in Hr1 as ([[k1 ts1] r1'] & -> & He1).
  pose proof (m_passive _ _ _ _ _ Hm t) as Hpas.
  rewrite Hh0 in Hpas.
  apply list_elem_of_fmap in Hpas as ([[k2 ts2] r2] & Hr2 & He2);
    [|apply elem_of_app; right; by left].
  simpl in Hr2, Ho1.
  destruct (wf_heap _ Hwf _ _ _ _ He1) as (o1' & p1 & Ho1' & _ & Hp1 & -> & ->).
  destruct (wf_heap _ Hwf _ _ _ _ He2) as (o2' & p2 & Ho2' & _ & Hp2 & -> & ->).
  assert (o1' = o1) as -> by congruence.
  assert (o2' = o2) as -> by congruence.
  pose proof (m_order _ _ _ _ _ Hm T1 t T2
    (key_of rs p1, Order.timestamp o1, r1')
    (key_of rs p2, Order.timestamp o2, r2) eq_refl) as Hord.
  rewrite Hh0 in Hord.
  apply list_elem_of_fmap in Hord as (t1 & Ht1 & Hin); [eauto|done| |done..|].
  - exists o1. split; [|done]. simpl. rewrite Hst0; [done|congruence].
  - by apply better_key_lt.
Qed.


(** ** A buy and a sell that match exactly *)

Lemma add_order_limit b order :
  Order.order_type order = LIMIT →
  add_order b order =
    '(b1, new) ← limit_side (opposite (Order.side order))
                   (store b (Order.id order) order) (Order.id order);
    Ok (mk (symbol b1) (_bid_heap b1) (_ask_heap b1) (_bid_levels b1)
           (_ask_levels b1) (_orders b1) (trades b1 ++ new)
           (total_volume b1 + Qsum (Trade.quantity <$> new))%Q
           (total_trades b1 + length new), new).
Proof.
  intros Hty. unfold add_order. rewrite Hty, match_limit_order_eq.
  unfold deref at 1. by rewrite orders_store, lookup_insert_eq, res_bind_ret.
Qed.

Lemma Qmin_same q : Qmin q q = q.
Proof. unfold Qmin, GenericMinMax.gmin. by destruct (q ?= q)%Q. Qed.

Lemma Qeq_bool_sub_same q : Qeq_bool (q - q) 0 = true.
Proof. apply Qeq_bool_iff. ring. Qed.

Lemma Qlt_bool_sub_same q : Qlt_bool 0 (q - q) = false.
Proof. apply Qlt_bool_false. lra. Qed.

Lemma limit_loop_S s fuel b a T :
  limit_loop s (S fuel) b a T =
    order ← deref b a;
    if negb (Qlt_bool 0 (Order.remaining order)) then Ok (b, T)
    else
      match heap_of s b with
      | [] => Ok (b, T)
      | (key, _, _) :: _ =>
          price ← number (Order.price order);
          if marketable s key price then
            '(b1, new) ← fill_from s b a;
            limit_loop s fuel b1 a (T ++ new)
          else Ok (b, T)
      end.
Proof. reflexivity. Qed.

Lemma first_submit p q t1 tr1 :
  (0 < q)%Q →
  submit start BUY LIMIT q (Some p) t1 tr1 =
    Ok (mk_session 1 (rt_book1 p q t1 tr1), []).
Proof.
  intros Hq. pose (buy := rt_buy p q t1 tr1).
  change (submit start BUY LIMIT q (Some p) t1 tr1)
    with ('(b, new) ← add_order (book start) buy;
          Ok (mk_session 1 b, new)).
  rewrite add_order_limit by done. unfold limit_side.
  change (Order.id buy) with 1. change (opposite (Order.side buy)) with SELL.
  set (b0 := store (book start) 1 buy).
  assert (Hd : deref b0 1 = Ok buy).
  { apply deref_Ok. unfold b0. by rewrite orders_store, lookup_insert_eq. }
  change (heap_of SELL b0) with (@nil (Q * Q * nat)). cbn [length].
  rewrite limit_loop_S, Hd, res_bind_ret.
  change (Order.remaining buy) with q.
  rewrite (proj2 (Qlt_bool_true 0 q) Hq). cbn [negb].
  change (heap_of SELL b0) with (@nil (Q * Q * nat)). cbn iota.
  rewrite res_bind_ret. cbn beta iota. rewrite Hd, res_bind_ret.
  change (Order.remaining buy) with q.
  rewrite (proj2 (Qlt_bool_true 0 q) Hq). cbn [andb negb bool_decide].
  change (opposite SELL) with BUY. unfold add_to.
  rewrite Hd, res_bind_ret. change (Order.price buy) with (Some p).
  cbn [number]. rewrite res_bind_ret.
  reflexivity.
Qed.

Lemma fill_same q o :
  Order.remaining o = q →
  (Order.fill o q).1 =
    Order.mk (Order.id o) (Order.side o) (Order.order_type o)
      (Order.quantity o) (Order.price o) (Order.timestamp o) (q - q)
      (Order.filled o + q) (Order.trader_id o) st_filled.
Proof.
  intros Hr. unfold Order.fill. cbn [fst]. rewrite Hr, Qmin_same.
  by rewrite Qeq_bool_sub_same.
Qed.

Lemma second_submit p q t1 t2 tr1 tr2 :
  (0 < q)%Q →
  submit (mk_session 1 (rt_book1 p q t1 tr1)) SELL LIMIT q (Some p) t2 tr2 =
    Ok (mk_session 2 (rt_book2 p q t1 t2 tr1 tr2), [rt_trade p q]).
Proof.
  intros Hq.
  pose (buy := rt_buy p q t1 tr1). pose (sell := rt_sell p q t2 tr2).
  pose (buy' := rt_buy_filled p q t1 tr1).
  pose (sell' := rt_sell_filled p q t2 tr2).
  pose (trade := rt_trade p q). pose (book1 := rt_book1 p q t1 tr1).
  pose proof (proj2 (Qlt_bool_true 0 q) Hq) as Hq'.
  assert (Hle : Qle_bool p (- - p) = true).
  { apply Qle_bool_iff. rewrite Qopp_involutive. apply Qle_refl. }
  assert (Hlt : Qlt_bool (- - p) p = false).
  { apply Qlt_bool_false. rewrite Qopp_involutive. apply Qle_refl. }
  assert (Heq : Qeq_bool (- - p) p = true).
  { apply Qeq_bool_iff, Qopp_involutive. }
  change (submit (mk_session 1 (rt_book1 p q t1 tr1)) SELL LIMIT q (Some p) t2 tr2)
    with ('(b, new) ← add_order book1 sell; Ok (mk_session 2 b, new)).
  rewrite add_order_limit by done. unfold limit_side.
  change (Order.id sell) with 2. change (opposite (Order.side sell)) with BUY.
  set (b0 := store book1 2 sell).
  assert (Hs0 : deref b0 2 = Ok sell).
  { apply deref_Ok. unfold b0. by rewrite orders_store, lookup_insert_eq. }
  assert (Hb0 : deref b0 1 = Ok buy).
  { apply deref_Ok. unfold b0. by rewrite orders_store, lookup_insert_ne. }
  change (heap_of BUY b0) with [((- p)%Q, t1, 1)]. cbn [length].
  rewrite limit_loop_S, Hs0, res_bind_ret.
  change (Order.remaining sell) with q. rewrite Hq'. cbn [negb].
  change (heap_of BUY b0) with [((- p)%Q, t1, 1)]. cbn iota.
  change (Order.price sell) with (Some p). cbn [number].
  rewrite res_bind_ret. cbn [marketable]. rewrite Hle.
  (* the only turn of the fill loop that trades *)
  unfold fill_from. change (heap_of BUY b0) with [((- p)%Q, t1, 1)].
  cbn [length]. rewrite fill_loop_S. unfold fill_step at 1.
  rewrite Hs0, res_bind_ret.
  change (heap_of BUY b0) with [((- p)%Q, t1, 1)]. cbn iota.
  change (Order.remaining sell) with q. rewrite Hq'. cbn [negb].
  rewrite Hb0, res_bind_ret. change (Order.status buy) with st_open.
  cbn [terminal]. cbn [too_far price_of_key]. unfold bid_too_low.
  change (Order.order_type sell) with LIMIT. cbn iota.
  change (Order.price sell) with (Some p). cbn [number].
  rewrite !res_bind_ret, Hlt.
  change (Order.remaining buy) with q. rewrite Qmin_same.
  rewrite (fill_same q sell eq_refl).
  change (Order.mk (Order.id sell) (Order.side sell) (Order.order_type sell)
            (Order.quantity sell) (Order.price sell) (Order.timestamp sell)
            (q - q) (Order.filled sell + q) (Order.trader_id sell) st_filled)
    with sell'.
  set (b1 := store b0 2 sell').
  assert (D1 : deref b1 1 = Ok buy).
  { apply deref_Ok. unfold b1, b0.
    by rewrite !orders_store, !lookup_insert_ne. }
  rewrite D1, res_bind_ret, (fill_same q buy eq_refl).
  change (Order.mk (Order.id buy) (Order.side buy) (Order.order_type buy)
            (Order.quantity buy) (Order.price buy) (Order.timestamp buy)
            (q - q) (Order.filled buy + q) (Order.trader_id buy) st_filled)
    with buy'.
  set (b2 := store b1 1 buy').
  assert (D2 : deref b2 2 = Ok sell').
  { apply deref_Ok. unfold b2, b1.
    by rewrite !orders_store, lookup_insert_ne, lookup_insert_eq. }
  assert (D3 : deref b2 1 = Ok buy').
  { apply deref_Ok. unfold b2. by rewrite orders_store, lookup_insert_eq. }
  rewrite D2, res_bind_ret, D3, res_bind_ret.
  change (Order.remaining buy') with (q - q)%Q. rewrite Qeq_bool_sub_same.
  change (heap_of BUY b2) with [((- p)%Q, t1, 1)].
  change (heapq.heappop [((- p)%Q, t1, 1)]) with (@Ok (list (Q * Q * nat)) []).
  rewrite res_bind_ret.
  (* the exhausted level is purged *)
  set (b3 := set_heap BUY b2 []).
  assert (Hpurge : purge_level BUY b3 (- - p) =
    Ok (set_bid_levels b3 [(p, PriceLevel.mk p [] (Qsum []))])).
  { unfold purge_level, purge_bid_level.
    change (_bid_levels b3) with [(p, PriceLevel.mk p [1] (0 + q)%Q)].
    cbn [dict_get dict_set]. rewrite Heq.
    unfold PriceLevel.remove_filled. cbn [PriceLevel.orders deref_all].
    change (_orders b3) with (_orders b2).
    apply deref_Ok in D3. rewrite D3, !res_bind_ret.
    cbn [zip zip_with List.filter snd PriceLevel.keeps].
    unfold PriceLevel.keeps. change (Order.remaining buy') with (q - q)%Q.
    by rewrite Qlt_bool_sub_same. }
  rewrite Hpurge, !res_bind_ret.
  set (b4 := set_bid_levels b3 [(p, PriceLevel.mk p [] (Qsum []))]).
  assert (D4 : deref b4 2 = Ok sell') by exact D2.
  (* the loops stop: the seller is exhausted and the bid heap is empty *)
  cbn [add_trade mk_trade]. change (Order.id buy') with 1.
  change (Order.id sell') with 2. fold trade.
  rewrite fill_loop_S. unfold fill_step. rewrite D4, res_bind_ret.
  change (heap_of BUY b4) with (@nil (Q * Q * nat)). cbn iota.
  rewrite !res_bind_ret. cbn beta iota.
  rewrite limit_loop_S, D4, res_bind_ret.
  change (Order.remaining sell') with (q - q)%Q.
  rewrite Qlt_bool_sub_same. cbn [negb]. rewrite res_bind_ret.
  cbn beta iota. rewrite D4, res_bind_ret.
  change (Order.remaining sell') with (q - q)%Q.
  rewrite Qlt_bool_sub_same. cbn [andb]. rewrite res_bind_ret.
  reflexivity.
Qed.

(** C6: on an empty book, a limit buy followed by a limit sell at the same
    price and for the same quantity gives exactly one trade at that price
    for that quantity, both orders end filled, the trade counter is 1 and
    both heaps are empty, so that [best_bid] and [best_ask] report
    absence. *)
Theorem exact_match_round_trip p q t1 t2 tr1 tr2 :
  (0 < q)%Q →
  ∃ s1 s2 t o1 o2,
    submit start BUY LIMIT q (Some p) t1 tr1 = Ok (s1, []) ∧
    submit s1 SELL LIMIT q (Some p) t2 tr2 = Ok (s2, [t]) ∧
    Trade.buy_order_id t = 1 ∧ Trade.sell_order_id t = 2 ∧
    (Trade.price t == p)%Q ∧ (Trade.quantity t == q)%Q ∧
    _orders (book s2) !! 1 = Some o1 ∧ Order.status o1 = st_filled ∧
    _orders (book s2) !! 2 = Some o2 ∧ Order.status o2 = st_filled ∧
    trades (book s2) = [t] ∧ total_trades (book s2) = 1 ∧
    _bid_heap (book s2) = [] ∧ _ask_heap (book s2) = [] ∧
    best_bid (book s2) = Ok (book s2, None) ∧
    best_ask (book s2) = Ok (book s2, None).
Proof.
  intros Hq.
  pose proof (first_submit p q t1 tr1 Hq) as H1.
  pose proof (second_submit p q t1 t2 tr1 tr2 Hq) as H2.
  eexists _, _, _, _, _. split; [exact H1|]. split; [exact H2|].
  unfold rt_book2, rt_trade.
  cbn [book Trade.buy_order_id Trade.sell_order_id Trade.price Trade.quantity
       _orders trades total_trades _bid_heap _ask_heap].
  split; [done|]. split; [done|]. split; [apply Qopp_involutive|].
  split; [reflexivity|].
  split; [by rewrite lookup_insert_eq|]. split; [done|].
  split; [by rewrite lookup_insert_ne, lookup_insert_eq|]. split; [done|].
  done.
Qed.

Lemma best_loop_orders s fuel b b1 v :
  best_loop s fuel b = Ok (b1, v) → _orders b1 = _orders b.
Proof.
  revert b. induction fuel as [|fuel IH]; intros b; [done|].
  rewrite best_loop_S. destruct (heap_of s b) as [|[[k ts] r] h].
  { by intros [= <- <-]. }
  intros (o & Ho & H)%res_bind_Ok. destruct (live o).
  { by injection H as <- <-. }
  apply res_bind_Ok in H as (h' & _ & H). apply IH in H.
  by rewrite H, orders_set_heap.
Qed.

Lemma best_loop_indep s fuel b b' b1 v :
  heap_of s b' = heap_of s b → _orders b' = _orders b →
  best_loop s fuel b = Ok (b1, v) → ∃ b1', best_loop s fuel b' = Ok (b1', v).
Proof.
  revert b b'. induction fuel as [|fuel IH]; intros b b' Hh Ho; [done|].
  rewrite !best_loop_S, Hh. destruct (heap_of s b) as [|[[k ts] r] h].
  { intros [= <- <-]. eauto. }
  unfold deref. rewrite Ho. destruct (_orders b !! r) as [o|]; [|done].
  rewrite !res_bind_ret. destruct (live o).
  { intros [= <- <-]. eauto. }
  destruct (heapq.heappop _) as [h'| |]; [|done..].
  rewrite !res_bind_ret. apply IH.
  - by rewrite !heap_of_set_heap.
  - by rewrite !orders_set_heap.
Qed.

Lemma best_indep s b b' b1 v :
  heap_of s b' = heap_of s b → _orders b' = _orders b →
  best s b = Ok (b1, v) → ∃ b1', best s b' = Ok (b1', v).
Proof.
  intros Hh Ho. unfold best. rewrite Hh. by apply best_loop_indep.
Qed.

(** On a book built from orders with pairwise different timestamps,
    [spread] and [mid_price] raise nothing; they return no value when a best
    price is absent and a value when both best prices are present and not
    zero. *)
Lemma spread_mid_price_return cs s :
  valid [] cs = true → run start cs = Ok s →
  ∃ b1 bid b2 ask b3 vs vm,
    best_bid (book s) = Ok (b1, bid) ∧ best_ask (book s) = Ok (b2, ask) ∧
    spread (book s) = Ok (b3, vs) ∧ mid_price (book s) = Ok (b3, vm) ∧
    (bid = None ∨ ask = None → vs = None ∧ vm = None) ∧
    ∀ x y, bid = Some x → ask = Some y → ¬ (x == 0)%Q → ¬ (y == 0)%Q →
      is_Some vs ∧ is_Some vm.
Proof.
  intros Hv Hrun. pose proof (run_valid _ _ Hv Hrun) as Hties.
  apply run_start_ok in Hrun as [Hwf _].
  destruct (best_total_ties BUY _ _ Hwf Hties)
    as (b1 & bid & Hbid & Hwf1 & Hties1 & _).
  destruct (best_total_ties SELL _ _ Hwf1 Hties1)
    as (b3 & ask & Hask & _).
  assert (Hask0 : ∃ b2, best SELL (book s) = Ok (b2, ask)).
  { apply best_spec in Hbid as Hfr; [|done]. destruct Hfr as [_ Hfr].
    eapply (best_indep SELL b1); [| |exact Hask].
    - symmetry. apply (fr_other_heap _ _ _ Hfr).
    - symmetry. by eapply best_loop_orders. }
  destruct Hask0 as [b2 Hask0].
  exists b1, bid, b2, ask, b3.
  exists (match bid, ask with
          | Some x, Some y =>
              if truthy bid && truthy ask then Some (round2 (y - x)) else None
          | _, _ => None
          end),
         (match bid, ask with
          | Some x, Some y =>
              if truthy bid && truthy ask then Some ((x + y) / 2)%Q else None
          | _, _ => None
          end).
  rewrite best_bid_eq, best_ask_eq. split; [done|]. split; [done|].
  unfold spread, mid_price. rewrite best_bid_eq, Hbid, !res_bind_ret.
  cbn beta iota. rewrite best_ask_eq, Hask, !res_bind_ret. cbn beta iota.
  split; [by destruct bid, ask; try destruct (_ && _)|].
  split; [by destruct bid, ask; try destruct (_ && _)|].
  split.
  - intros [-> | ->]; [done|]. by destruct bid.
  - intros x y -> -> Hx Hy. unfold truthy.
    apply Qeq_bool_false in Hx, Hy. rewrite Hx, Hy. by split.
Qed.

(** C7, amended.  On a book built from orders with pairwise different
    timestamps, [spread] and [mid_price] raise nothing; they return no value
    when a best price is absent and a value when both best prices are
    present and not zero.  The value is the one that double precision
    gives: on every book on which [best_bid] and [best_ask] return,
    [spread] returns [round(ask - bid, 2)] and [mid_price] returns
    [(bid + ask) / 2], the difference, the rounding to two decimals, the sum
    and the division each computed on floats. *)
Theorem spread_mid_price_binary64 :
  (∀ cs s, valid [] cs = true → run start cs = Ok s →
     ∃ b1 bid b2 ask b3 vs vm,
       best_bid (book s) = Ok (b1, bid) ∧ best_ask (book s) = Ok (b2, ask) ∧
       spread (book s) = Ok (b3, vs) ∧ mid_price (book s) = Ok (b3, vm) ∧
       (bid = None ∨ ask = None → vs = None ∧ vm = None) ∧
       ∀ x y, bid = Some x → ask = Some y → ¬ (x == 0)%Q → ¬ (y == 0)%Q →
         is_Some vs ∧ is_Some vm) ∧
  (∀ b b1 bid b2 ask,
     Binary64.OrderBook.best_bid b = Ok (b1, bid) →
     Binary64.OrderBook.best_ask b = Ok (b2, ask) →
     ∃ b3 vs vm,
       Binary64.OrderBook.spread b = Ok (b3, vs) ∧
       Binary64.OrderBook.mid_price b = Ok (b3, vm) ∧
       (bid = None ∨ ask = None → vs = None ∧ vm = None) ∧
       ∀ x y, bid = Some x → ask = Some y →
         (x =? 0)%float = false → (y =? 0)%float = false →
         vs = Some (Binary64.pyround2 (y - x)) ∧
         vm = Some ((x + y) / 2)%float).
Proof.
  split; [apply spread_mid_price_return|].
  intros b b1 bid b2 ask Hbid Hask.
  destruct (float_spread_mid_price _ _ _ _ _ Hbid Hask) as [Hs Hm].
  eexists _, _, _. split; [exact Hs|]. split; [exact Hm|]. split.
  - intros [-> | ->]; [done|]. by destruct bid.
  - intros x y -> -> Hx Hy. unfold float_spread_of, float_mid_of.
    cbn [Binary64.truthy]. by rewrite Hx, Hy.
Qed.

Lemma apply_calls_snoc o calls c :
  apply_calls o (calls ++ [c]) = apply_call (apply_calls o calls) c.
Proof. unfold apply_calls. by rewrite fold_left_app. Qed.

(** C9 on the code: after an aggressor has filled part of a resting order,
    the level still reports the quantity of before the fill, 1, while the
    live order of the level has 0.6 left. *)
Lemma level_total_after_partial_fill :
  ∃ lvl,
    dict_get (_ask_levels (book_after partial_fill_book)) 100 = Some lvl ∧
    PriceLevel.orders lvl = [1] ∧
    (PriceLevel.total_quantity lvl == 1)%Q ∧
    (live_remaining (_orders (book_after partial_fill_book))
       (PriceLevel.orders lvl) == 3 # 5)%Q ∧
    ¬ (PriceLevel.total_quantity lvl ==
       live_remaining (_orders (book_after partial_fill_book))
         (PriceLevel.orders lvl))%Q.
Proof.
  eexists. split; [vm_compute; reflexivity|].
  split; [reflexivity|]. split; [reflexivity|]. split; [reflexivity|].
  vm_compute. discriminate.
Qed.

Lemma trade_price_is_resting_price_witness :
  run start one_ask = Ok (session_after one_ask) ∧
  submit (session_after one_ask) BUY LIMIT 1 (Some 105%Q) 2 "b" =
    Ok (session_after (one_ask ++ [Submit BUY LIMIT 1 (Some 105%Q) 2 "b"]),
        [Trade.mk 2 1 100 1]) ∧
  ∃ o limit,
    _orders (book (session_after
      (one_ask ++ [Submit BUY LIMIT 1 (Some 105%Q) 2 "b"]))) !! 1 = Some o ∧
    Order.side o = SELL ∧ Order.price o = Some limit ∧ (100 == limit)%Q.
Proof.
  assert (H1 : run start one_ask = Ok (session_after one_ask))
    by (vm_compute; reflexivity).
  assert (H2 : submit (session_after one_ask) BUY LIMIT 1 (Some 105%Q) 2 "b" =
    Ok (session_after (one_ask ++ [Submit BUY LIMIT 1 (Some 105%Q) 2 "b"]),
        [Trade.mk 2 1 100 1])) by (vm_compute; reflexivity).
  split; [exact H1|]. split; [exact H2|].
  exact (proj2 (proj2 (trade_price_is_resting_price one_ask _ BUY LIMIT 1
    (Some 105%Q) 2 "b" _ _ (Trade.mk 2 1 100 1) H1 H2
    (list_elem_of_here _ _)))).
Defined.

Lemma market_order_without_liquidity_witness :
  valid [] stale_ask = true ∧
  run start stale_ask = Ok (session_after stale_ask) ∧
  (0 < 6 # 10)%Q ∧
  all_stale (opposite BUY) (book (session_after stale_ask)) = true ∧
  ∃ s' o,
    submit (session_after stale_ask) BUY MARKET (6 # 10) None 3 "m" =
      Ok (s', []) ∧
    _orders (book s') !! 2 = Some o ∧ Order.remaining o = (6 # 10)%Q ∧
    Order.status o = st_partial ∧ _ask_heap (book s') = [].
Proof.
  assert (H1 : run start stale_ask = Ok (session_after stale_ask))
    by (vm_compute; reflexivity).
  split; [reflexivity|]. split; [exact H1|]. split; [reflexivity|].
  split; [reflexivity|].
  destruct (market_order_without_liquidity stale_ask _ BUY (6 # 10) 3 "m"
              eq_refl H1 eq_refl eq_refl)
    as (s' & o & Hs & Ho & Hr & _ & Hst & Hh & _).
  exists s', o. repeat split; assumption.
Defined.

Lemma price_time_priority_witness :
  run start two_asks = Ok (session_after two_asks) ∧
  submit (session_after two_asks) BUY MARKET (6 # 10) None 3 "m" =
    Ok (session_after (two_asks ++ [Submit BUY MARKET (6 # 10) None 3 "m"]),
        [Trade.mk 3 1 68010 (1 # 2)] ++ Trade.mk 3 2 68020 (2 # 20) :: []) ∧
  better SELL (order_of (book_after two_asks) 1)
              (order_of (book_after two_asks) 2) = true ∧
  ∃ t1, t1 ∈ [Trade.mk 3 1 68010 (1 # 2)] ∧ passive_ref SELL t1 = 1.
Proof.
  assert (H1 : run start two_asks = Ok (session_after two_asks))
    by (vm_compute; reflexivity).
  assert (H2 : submit (session_after two_asks) BUY MARKET (6 # 10) None 3 "m" =
    Ok (session_after (two_asks ++ [Submit BUY MARKET (6 # 10) None 3 "m"]),
        [Trade.mk 3 1 68010 (1 # 2)] ++ Trade.mk 3 2 68020 (2 # 20) :: []))
    by (vm_compute; reflexivity).
  split; [exact H1|]. split; [exact H2|]. split; [reflexivity|].
  apply (price_time_priority two_asks _ BUY MARKET (6 # 10) None 3 "m" _
           [Trade.mk 3 1 68010 (1 # 2)] (Trade.mk 3 2 68020 (2 # 20)) [] 1
           (order_of (book_after two_asks) 1) (order_of (book_after two_asks) 2)
           H1 H2).
  - vm_compute. apply list_elem_of_here.
  - vm_compute. reflexivity.
  - reflexivity.
  - vm_compute. reflexivity.
  - reflexivity.
Defined.


Lemma exact_match_round_trip_witness :
  (0 < 1 # 2)%Q ∧
  ∃ s1 s2 t,
    submit start BUY LIMIT (1 # 2) (Some 68000%Q) 1 "a" = Ok (s1, []) ∧
    submit s1 SELL LIMIT (1 # 2) (Some 68000%Q) 2 "b" = Ok (s2, [t]) ∧
    (Trade.price t == 68000)%Q ∧ (Trade.quantity t == 1 # 2)%Q ∧
    total_trades (book s2) = 1.
Proof.
  split; [reflexivity|].
  destruct (exact_match_round_trip 68000 (1 # 2) 1 2 "a" "b" eq_refl)
    as (s1 & s2 & t & o1 & o2 & H1 & H2 & _ & _ & Hp & Hq & _ & _ & _ & _ & _
        & Hn & _).
  exists s1, s2, t. repeat split; assumption.
Defined.

Lemma spread_mid_price_binary64_witness :
  valid [] narrow_book = true ∧
  run start narrow_book = Ok (session_after narrow_book) ∧
  Binary64.OrderBook.best_bid (float_book_after float_narrow_book)
  = Ok (float_book_after float_narrow_book, Some 100%float) ∧
  Binary64.OrderBook.best_ask (float_book_after float_narrow_book)
  = Ok (float_book_after float_narrow_book, Some 100.001%float) ∧
  (∃ b3 vs vm,
     spread (book (session_after narrow_book)) = Ok (b3, vs) ∧
     mid_price (book (session_after narrow_book)) = Ok (b3, vm)) ∧
  ∃ b3,
    Binary64.OrderBook.spread (float_book_after float_narrow_book)
    = Ok (b3, Some (Binary64.pyround2 (100.001 - 100))) ∧
    Binary64.OrderBook.mid_price (float_book_after float_narrow_book)
    = Ok (b3, Some ((100 + 100.001) / 2)%float).
Proof.
  assert (H1 : run start narrow_book = Ok (session_after narrow_book))
    by (vm_compute; reflexivity).
  assert (H2 : Binary64.OrderBook.best_bid (float_book_after float_narrow_book)
               = Ok (float_book_after float_narrow_book, Some 100%float))
    by (vm_compute; reflexivity).
  assert (H3 : Binary64.OrderBook.best_ask (float_book_after float_narrow_book)
               = Ok (float_book_after float_narrow_book, Some 100.001%float))
    by (vm_compute; reflexivity).
  split; [reflexivity|]. split; [exact H1|]. split; [exact H2|].
  split; [exact H3|]. split.
  - destruct (proj1 spread_mid_price_binary64 narrow_book _ eq_refl H1)
      as (b1 & bid & b2 & ask & b3 & vs & vm & _ & _ & Hs & Hm & _).
    exists b3, vs, vm. split; assumption.
  - destruct (proj2 spread_mid_price_binary64 _ _ _ _ _ H2 H3)
      as (b3 & vs & vm & Hs & Hm & _ & Hv).
    destruct (Hv _ _ eq_refl eq_refl eq_refl eq_refl) as [-> ->].
    exists b3. split; assumption.
Defined.

(** C3 on the code: with three cancelled asks on the heap, two of them at
    the same price and with the same timestamp, the opposing side holds no
    live order, and a market buy raises [TypeError]: dropping the first
    stale entry makes [heapq.heappop] order the two entries that tie, and
    with them the order objects.  Both embeddings agree. *)
Theorem market_order_on_stale_ties_raises :
  run start stale_tied_asks = Ok (session_after stale_tied_asks) ∧
  all_stale SELL (book (session_after stale_tied_asks)) = true ∧
  submit (session_after stale_tied_asks) BUY MARKET 1 None 3 "m" = TypeError ∧
  Binary64.run Binary64.start float_stale_tied_asks
  = Ok (float_session_after float_stale_tied_asks) ∧
  Binary64.submit (float_session_after float_stale_tied_asks)
    BUY MARKET 1 None 3 "m" = TypeError.
Proof. vm_compute. repeat split. Qed.

Lemma fills_inv (P : OrderBook.t → list Trade.t → Prop) s a :
  (∀ b T b' ot, wf b → a ∉ (heap_of s b).*2 → P b T →
     step_spec s a b b' ot → P b' (add_trade T ot)) →
  ∀ b T b' T', wf b → a ∉ (heap_of s b).*2 → P b T →
    fills s a b T b' T' → P b' T'.
Proof.
  intros Hstep b T b' T' Hwf Ha HP Hf. revert Hwf Ha HP.
  induction Hf as [b T|b T b1 ot b' T' Hs Hf IH]; intros Hwf Ha HP; [done|].
  pose proof (fill_step_spec _ _ _ _ _ Ha Hs) as Hsp.
  destruct (step_spec_wf _ _ _ _ _ Hwf Hsp) as [Hwf1 Hfr1].
  apply IH; [done|by eapply frame_not_in|exact (Hstep _ _ _ _ Hwf Ha HP Hsp)].
Qed.

Lemma run_inv (P : session → Prop) :
  P start →
  (∀ s c s', session_ok s → P s → step s c = Ok s' → P s') →
  ∀ cs s, run start cs = Ok s → P s.
Proof.
  intros H0 Hstep cs.
  assert (H : ∀ s0 s, session_ok s0 → P s0 → run s0 cs = Ok s → P s).
  { induction cs as [|c cs IH]; intros s0 s Hok HP; simpl.
    - by intros [= <-].
    - intros (s1 & H1 & H)%res_bind_Ok.
      eapply (IH s1); [by eapply step_ok|by eapply Hstep|done]. }
  intros s. apply H; [apply session_ok_start|done].
Qed.

(** *** The end of the loops *)

Lemma market_loop_exit s fuel b a T b' T' :
  market_loop s fuel b a T = Ok (b', T') →
  ∃ o, _orders b' !! a = Some o ∧
       (¬ (0 < Order.remaining o)%Q ∨ heap_of s b' = []).
Proof.
  revert b T. induction fuel as [|fuel IH]; intros b T; [done|].
  cbn [market_loop]. intros (o & Ho%deref_Ok & H)%res_bind_Ok.
  destruct (Qlt_bool 0 (Order.remaining o)) eqn:Hrem; cbn [andb] in H.
  - destruct (length (heap_of s b) =? 0) eqn:Hlen; cbn [negb] in H.
    + injection H as <- <-. exists o. split; [done|]. right.
      apply Nat.eqb_eq in Hlen. by destruct (heap_of s b).
    + apply res_bind_Ok in H as ([b1 new] & Hf & H).
      destruct (length (heap_of s b1) =? 0) eqn:Hlen1.
      * injection H as <- <-. unfold fill_from in Hf.
        apply fill_loop_done, fill_step_done in Hf as (agg & Hagg & _).
        exists agg. split; [done|]. right.
        apply Nat.eqb_eq in Hlen1. by destruct (heap_of s b1).
      * by apply IH in H.
  - injection H as <- <-. exists o. split; [done|]. left.
    apply Qlt_bool_false in Hrem. by apply Qle_not_lt.
Qed.

Lemma limit_loop_exit s fuel b a T b' T' :
  limit_loop s fuel b a T = Ok (b', T') →
  ∃ o, _orders b' !! a = Some o ∧
       (¬ (0 < Order.remaining o)%Q ∨ heap_of s b' = [] ∨
        ∃ k ts r h p, heap_of s b' = (k, ts, r) :: h ∧
          Order.price o = Some p ∧ marketable s k p = false).
Proof.
  revert b T. induction fuel as [|fuel IH]; intros b T; [done|].
  rewrite limit_loop_S. intros (o & Ho%deref_Ok & H)%res_bind_Ok.
  destruct (negb _) eqn:Hrem.
  { injection H as <- <-. exists o. split; [done|]. left.
    apply negb_true_iff, Qlt_bool_false in Hrem. by apply Qle_not_lt. }
  destruct (heap_of s b) as [|[[k ts] r] h] eqn:Hh.
  { injection H as <- <-. exists o. split; [done|]. by right; left. }
  apply res_bind_Ok in H as (p & Hp & H).
  destruct (marketable s k p) eqn:Hm.
  - apply res_bind_Ok in H as ([b1 new] & Hf & H). by apply IH in H.
  - injection H as <- <-. exists o. split; [done|]. right; right.
    exists k, ts, r, h, p. split; [done|]. split; [|done].
    destruct (Order.price o) as [p'|]; [|done]. simpl in Hp. congruence.
Qed.

Lemma marketable_root s h k ts r p :
  heap_ok ((k, ts, r) :: h) → marketable s k p = false →
  ∀ e, e ∈ (k, ts, r) :: h → marketable s e.1.1 p = false.
Proof.
  intros Hok Hm e He.
  pose proof (heap_root_min _ (k, ts, r) Hok eq_refl e He) as Hle.
  assert (Hk : (k <= e.1.1)%Q).
  { destruct Hle as [Hlt|[Heq _]]; simpl in *; lra. }
  destruct s; simpl in *.
  - destruct (Qle_bool p (- e.1.1)) eqn:E; [|done].
    apply Qle_bool_iff in E.
    assert (Hc : (p <= - k)%Q) by lra.
    apply Qle_bool_iff in Hc. congruence.
  - destruct (Qle_bool e.1.1 p) eqn:E; [|done].
    apply Qle_bool_iff in E.
    assert (Hc : (k <= p)%Q) by lra.
    apply Qle_bool_iff in Hc. congruence.
Qed.

Lemma add_order_cases b order b' new :
  wf b → _orders b !! Order.id order = None → conserved order →
  add_order b order = Ok (b', new) →
  ∃ b1 b2,
    fills (opposite (Order.side order)) (Order.id order)
      (store b (Order.id order) order) [] b1 new ∧
    settled (opposite (Order.side order)) (Order.id order)
      (Order.order_type order) b1 b2 ∧
    b' = with_history b2 new.
Proof.
  intros Hwf Hfresh Hc. unfold add_order.
  set (ref := Order.id order). set (b0 := store b ref order).
  set (s := opposite (Order.side order)).
  intros ([b2 new'] & Hm & [= <- <-])%res_bind_Ok.
  assert (Hwf0 : wf b0) by (by apply wf_store_fresh).
  assert (Hd0 : deref b0 ref = Ok order).
  { apply deref_Ok. unfold b0. by rewrite orders_store, lookup_insert_eq. }
  assert (Hnr : ref ∉ (heap_of s b0).*2).
  { unfold b0. rewrite heap_of_store. by apply wf_not_resting. }
  destruct (Order.order_type order) eqn:Hty.
  - rewrite match_limit_order_eq, Hd0, res_bind_ret in Hm. fold s in Hm.
    unfold limit_side in Hm.
    apply res_bind_Ok in Hm as ([b1 T] & Hloop & H).
    pose proof (limit_loop_exit _ _ _ _ _ _ _ Hloop) as (o & Ho & Hexit).
    apply limit_loop_fills in Hloop.
    destruct (fills_wf _ _ _ _ _ _ Hwf0 Hnr Hloop) as (Hwf1 & Hfr1 & Hnr1).
    rewrite (proj2 (deref_Ok _ _ _) Ho), res_bind_ret in H.
    destruct (Qlt_bool 0 (Order.remaining o)) eqn:Hrem; cbn [andb] in H.
    + destruct (bool_decide (Order.status o = st_filled)) eqn:Hst;
        cbn [negb] in H.
      * injection H as <- <-. exists b1, b1. split; [done|]. split; [|done].
        eapply settled_limit_done; [done..|].
        apply bool_decide_eq_true in Hst. tauto.
      * apply res_bind_Ok in H as (b3 & Hadd & [= <- <-]).
        exists b1, b3. split; [done|]. split; [|done].
        apply Qlt_bool_true in Hrem. apply bool_decide_eq_false in Hst.
        unfold add_to in Hadd.
        rewrite (proj2 (deref_Ok _ _ _) Ho), res_bind_ret in Hadd.
        destruct (Order.price o) as [p|] eqn:Hp; [|done].
        eapply (settled_limit_rests _ _ _ _ o p); try done.
        -- destruct Hexit as [Hn|[He|(k & ts & r & h & p' & Hh & Hp' & Hmk)]].
           ++ done.
           ++ rewrite He. by intros e ?%elem_of_nil.
           ++ injection Hp' as <-. rewrite Hh.
              eapply marketable_root; [|done]. rewrite <- Hh.
              apply (wf_heap_ok _ Hwf1).
        -- unfold add_to.
           by rewrite (proj2 (deref_Ok _ _ _) Ho), res_bind_ret, Hp.
    + injection H as <- <-. exists b1, b1. split; [done|]. split; [|done].
      eapply settled_limit_done; [done..|].
      apply Qlt_bool_false in Hrem. intros [Hlt _]. lra.
  - rewrite match_market_order_eq, Hd0, res_bind_ret in Hm. fold s in Hm.
    unfold market_side in Hm.
    apply res_bind_Ok in Hm as ([b1 T] & Hloop & H).
    pose proof (market_loop_exit _ _ _ _ _ _ _ Hloop) as (o & Ho & Hexit).
    apply market_loop_fills in Hloop.
    rewrite (proj2 (deref_Ok _ _ _) Ho), res_bind_ret in H.
    destruct (Qlt_bool 0 (Order.remaining o)) eqn:Hrem.
    + injection H as <- <-. exists b1, (store b1 ref (Order.set_status o st_partial)).
      split; [done|]. split; [|done].
      apply Qlt_bool_true in Hrem.
      eapply settled_market_partial; try done. by destruct Hexit.
    + injection H as <- <-. exists b1, b1. split; [done|]. split; [|done].
      eapply settled_market_filled; [done..|].
      apply Qlt_bool_false in Hrem. by apply Qle_not_lt.
Qed.

Lemma fill_live o q :
  terminal (Order.status (Order.fill o q).1) = false →
  (0 < Order.remaining (Order.fill o q).1)%Q.
Proof.
  cbn [Order.fill fst Order.status Order.remaining].
  destruct (Qeq_bool _ 0) eqn:E; [done|]. intros _.
  apply Qeq_bool_false in E.
  pose proof (Q.le_min_r q (Order.remaining o)).
  destruct (Qlt_le_dec 0 (Order.remaining o - Qmin q (Order.remaining o)))
    as [|Hle]; [done|].
  exfalso. apply E. lra.
Qed.

Lemma heap_of_with_history s b new : heap_of s (with_history b new) = heap_of s b.
Proof. by destruct s. Qed.

Lemma levels_of_with_history s b new :
  levels_of s (with_history b new) = levels_of s b.
Proof. by destruct s. Qed.

Lemma resting_live_shrink b b' :
  _orders b' = _orders b → heaps_shrink b b' →
  resting_live b → resting_live b'.
Proof.
  intros Ho Hsh Hr s k ts r o Hin Hl. rewrite Ho in Hl.
  apply (Hr s k ts r o); [|done].
  eapply elem_of_submseteq; [exact Hin|apply Hsh].
Qed.

Lemma resting_live_store b r o :
  resting_live b →
  (terminal (Order.status o) = false → (0 < Order.remaining o)%Q) →
  resting_live (store b r o).
Proof.
  intros Hr Ho s k ts r0 o0. rewrite heap_of_store, orders_store.
  intros Hin. destruct (decide (r0 = r)) as [->|Hne].
  - rewrite lookup_insert_eq. by intros [= <-].
  - rewrite lookup_insert_ne by done. by apply (Hr s k ts).
Qed.

Lemma uncrossed_shrink b b' : heaps_shrink b b' → uncrossed b → uncrossed b'.
Proof.
  intros Hsh Hu eb ea Hb Ha. apply Hu.
  - eapply elem_of_submseteq; [exact Hb|apply (Hsh BUY)].
  - eapply elem_of_submseteq; [exact Ha|apply (Hsh SELL)].
Qed.

Lemma heaps_shrink_refl b : heaps_shrink b b.
Proof. by intros s. Qed.

Lemma step_spec_orders s a b b' ot :
  step_spec s a b b' ot →
  match ot with
  | None => _orders b' = _orders b
  | Some t =>
      ∃ k ts r h agg passive, r ≠ a ∧ heap_of s b = (k, ts, r) :: h ∧
        _orders b !! a = Some agg ∧ _orders b !! r = Some passive ∧
        terminal (Order.status passive) = false ∧
        (0 < Order.remaining agg)%Q ∧
        too_far s agg (price_of_key s k) = Ok false ∧
        let q := Qmin (Order.remaining agg) (Order.remaining passive) in
        t = mk_trade s (Order.fill agg q).1 (Order.fill passive q).1
              (price_of_key s k) q ∧
        _orders b' = <[r := (Order.fill passive q).1]>
                       (<[a := (Order.fill agg q).1]> (_orders b))
  end.
Proof.
  intros [k ts r h agg passive h' Ha Hrem Hh Hp Hterm Hpop
         |k ts r h agg passive bn Ha Hrem Hh Hp Hterm Hfar Hne q agg' passive' b2 Hb'].
  - apply orders_set_heap.
  - exists k, ts, r, h, agg, passive.
    split; [done|]. split; [done|]. split; [done|]. split; [done|].
    split; [done|]. split; [done|]. split; [done|]. split; [done|].
    fold q. fold agg'. fold passive'.
    assert (Hb2 : _orders b2 = <[r := passive']> (<[a := agg']> (_orders b))).
    { unfold b2. by rewrite !orders_store. }
    destruct (Qeq_bool _ _).
    + destruct Hb' as (h' & _ & Hpurge).
      apply purge_level_frame in Hpurge as (-> & _).
      by rewrite orders_set_heap.
    + by subst bn.
Qed.

Lemma step_spec_resting s a b b' ot :
  wf b → resting_live b → step_spec s a b b' ot → resting_live b'.
Proof.
  intros Hwf Hr Hs.
  destruct (step_spec_wf _ _ _ _ _ Hwf Hs) as [_ Hfr].
  apply frame_shrink in Hfr.
  apply step_spec_orders in Hs. destruct ot as [t|].
  - destruct Hs as (k & ts & r & h & agg & passive & _ & _ & _ & _ & _ & _ & _
                    & _ & Ho).
    intros s0 k0 ts0 r0 o0 Hin. rewrite Ho.
    destruct (decide (r0 = r)) as [->|Hne].
    { rewrite lookup_insert_eq. intros [= <-]. apply fill_live. }
    rewrite lookup_insert_ne by done.
    destruct (decide (r0 = a)) as [->|Hne'].
    { rewrite lookup_insert_eq. intros [= <-]. apply fill_live. }
    rewrite lookup_insert_ne by done.
    apply (Hr s0 k0 ts0).
    eapply elem_of_submseteq; [exact Hin|apply Hfr].
  - by eapply resting_live_shrink.
Qed.

Lemma fills_resting s a b T b' T' :
  wf b → a ∉ (heap_of s b).*2 → resting_live b →
  fills s a b T b' T' → resting_live b'.
Proof.
  intros Hwf Ha Hr.
  apply (fills_inv (λ b _, resting_live b)); try done.
  intros b0 T0 b1 ot Hwf0 _ Hr0. by apply step_spec_resting.
Qed.

Lemma add_to_heaps s b ref b' :
  add_to s b ref = Ok b' →
  _orders b' = _orders b ∧
  heap_of (opposite s) b' = heap_of (opposite s) b ∧
  ∃ o p, _orders b !! ref = Some o ∧ Order.price o = Some p ∧
    heap_of s b' ≡ₚ (key_of s p, Order.timestamp o, ref) :: heap_of s b.
Proof.
  unfold add_to. intros (o & Ho%deref_Ok & H)%res_bind_Ok.
  apply res_bind_Ok in H as (p & Hp & H).
  apply res_bind_Ok in H as (h' & Hpush & [= <-]).
  rewrite heap_of_set_levels in Hpush. apply heappush_perm in Hpush.
  split; [by rewrite orders_set_heap, orders_set_levels|].
  split.
  { rewrite heap_of_set_heap_ne by (by destruct s).
    by rewrite heap_of_set_levels. }
  exists o, p. split; [done|]. split.
  { destruct (Order.price o); simpl in Hp; congruence. }
  by rewrite heap_of_set_heap.
Qed.

Lemma settled_resting s a ty b1 b2 :
  resting_live b1 → settled s a ty b1 b2 → resting_live b2.
Proof.
  intros Hr [o Hty Ho Hrem|o Hty Ho Hrem Hh|o Hty Ho Hn
            |o p b3 Hty Ho Hrem Hst Hp Hm Hadd]; try done.
  - by apply resting_live_store.
  - apply add_to_heaps in Hadd as (Hor & Hh & o' & p' & Ho' & Hp' & Hperm).
    assert (o' = o) as -> by congruence.
    intros s0 k ts r o0 Hin. rewrite Hor.
    destruct (decide (s0 = s)) as [->|Hne].
    + rewrite <- (opposite_involutive s), Hh, opposite_involutive in Hin.
      by apply (Hr s k ts).
    + assert (s0 = opposite s) as -> by (by destruct s, s0).
      rewrite Hperm in Hin. apply elem_of_cons in Hin as [[= -> -> ->]|Hin].
      * intros Ho0. by assert (o0 = o) as -> by congruence.
      * by apply (Hr (opposite s) k ts).
Qed.

Lemma settled_uncrossed s a ty b1 b2 :
  uncrossed b1 → settled s a ty b1 b2 → uncrossed b2.
Proof.
  intros Hu [o Hty Ho Hrem|o Hty Ho Hrem Hh|o Hty Ho Hn
            |o p b3 Hty Ho Hrem Hst Hp Hm Hadd]; try done.
  apply add_to_heaps in Hadd as (Hor & Hh & o' & p' & Ho' & Hp' & Hperm).
  assert (p' = p) as -> by congruence. rewrite opposite_involutive in Hh.
  intros eb ea Hb Ha. destruct s; simpl in *.
  - (* the bids were matched, the order rests among the asks *)
    rewrite Hh in Hb. rewrite Hperm in Ha.
    apply elem_of_cons in Ha as [->|Ha]; [|by apply Hu].
    simpl. specialize (Hm _ Hb). simpl in Hm.
    destruct (Qle_bool p (- eb.1.1)) eqn:E; [done|].
    destruct (Qlt_le_dec (- eb.1.1) p) as [|Hle]; [done|].
    apply Qle_bool_iff in Hle. congruence.
  - rewrite Hh in Ha. rewrite Hperm in Hb.
    apply elem_of_cons in Hb as [->|Hb]; [|by apply Hu].
    simpl. specialize (Hm _ Ha). simpl in Hm.
    destruct (Qle_bool ea.1.1 p) eqn:E; [done|].
    destruct (Qlt_le_dec p ea.1.1) as [Hlt|Hle].
    + rewrite Qopp_involutive. exact Hlt.
    + apply Qle_bool_iff in Hle. congruence.
Qed.

Lemma add_order_sound b order b' new :
  wf b → _orders b !! Order.id order = None → conserved order →
  resting_live b → uncrossed b →
  add_order b order = Ok (b', new) →
  resting_live b' ∧ uncrossed b'.
Proof.
  intros Hwf Hfresh Hc Hr Hu Hadd.
  apply add_order_cases in Hadd as (b1 & b2 & Hf & Hs & ->); [|done..].
  set (a := Order.id order) in *. set (s := opposite (Order.side order)) in *.
  assert (Hwf0 : wf (store b a order)) by (by apply wf_store_fresh).
  assert (Hnr : a ∉ (heap_of s (store b a order)).*2).
  { rewrite heap_of_store. by apply wf_not_resting. }
  assert (Hr0 : resting_live (store b a order)).
  { intros s0 k ts r o. rewrite heap_of_store, orders_store. intros Hin.
    destruct (decide (r = a)) as [->|Hne].
    - exfalso. eapply (wf_not_resting b a s0); [done..|].
      apply list_elem_of_fmap. by exists (k, ts, a).
    - rewrite lookup_insert_ne by done. by apply (Hr s0 k ts). }
  pose proof (fills_resting _ _ _ _ _ _ Hwf0 Hnr Hr0 Hf) as Hr1.
  destruct (fills_wf _ _ _ _ _ _ Hwf0 Hnr Hf) as (Hwf1 & Hfr1 & _).
  assert (Hu1 : uncrossed b1).
  { eapply uncrossed_shrink; [by eapply frame_shrink|]. exact Hu. }
  split.
  - eapply resting_live_shrink; [..|by eapply settled_resting]; [done|].
    intros s0. by rewrite heap_of_with_history.
  - eapply uncrossed_shrink; [|by eapply settled_uncrossed].
    intros s0. by rewrite heap_of_with_history.
Qed.

Lemma cancel_order_cases b oid b' r :
  cancel_order b oid = Ok (b', r) →
  (_orders b !! oid = None ∧ b' = b ∧ r = false) ∨
  ∃ o, _orders b !! oid = Some o ∧ r = true ∧
       _orders b' = <[oid := Order.cancel o]> (_orders b) ∧
       ∀ s, heap_of s b' = heap_of s b.
Proof.
  unfold cancel_order. destruct (_orders b !! oid) as [o|] eqn:Ho.
  - intros (b1 & Hp & [= <- <-])%res_bind_Ok. right. exists o.
    split; [done|]. split; [done|].
    destruct (Order.side o), (Order.price o) as [p|];
      try (injection Hp as <-; split; [apply orders_store|];
           intros s; apply heap_of_store).
    + apply (purge_level_frame BUY) in Hp as (-> & _ & Hh).
      split; [apply orders_store|]. intros s. rewrite Hh. apply heap_of_store.
    + apply (purge_level_frame SELL) in Hp as (-> & _ & Hh).
      split; [apply orders_store|]. intros s. rewrite Hh. apply heap_of_store.
  - intros [= <- <-]. by left.
Qed.

Lemma best_frame s b b' v :
  wf b → best s b = Ok (b', v) →
  _orders b' = _orders b ∧ heaps_shrink b b'.
Proof.
  intros Hwf H. split.
  - unfold best in H. by eapply best_loop_orders.
  - apply best_spec in H as [_ Hfr]; [|done]. by eapply frame_shrink.
Qed.

Lemma spread_frame b b' v :
  wf b → spread b = Ok (b', v) →
  _orders b' = _orders b ∧ heaps_shrink b b'.
Proof.
  intros Hwf. unfold spread. rewrite best_bid_eq.
  intros ([b1 bid] & H1 & H)%res_bind_Ok. rewrite best_ask_eq in H.
  apply res_bind_Ok in H as ([b2 ask] & H2 & H).
  pose proof (best_spec _ _ _ _ Hwf H1) as [Hwf1 _].
  apply best_frame in H1 as [Ho1 Hs1]; [|done].
  apply best_frame in H2 as [Ho2 Hs2]; [|done].
  assert (b' = b2) as ->.
  { destruct bid, ask; try destruct (_ && _); congruence. }
  split; [congruence|]. by eapply heaps_shrink_trans.
Qed.

Lemma mid_price_frame b b' v :
  wf b → mid_price b = Ok (b', v) →
  _orders b' = _orders b ∧ heaps_shrink b b'.
Proof.
  intros Hwf. unfold mid_price. rewrite best_bid_eq.
  intros ([b1 bid] & H1 & H)%res_bind_Ok. rewrite best_ask_eq in H.
  apply res_bind_Ok in H as ([b2 ask] & H2 & H).
  pose proof (best_spec _ _ _ _ Hwf H1) as [Hwf1 _].
  apply best_frame in H1 as [Ho1 Hs1]; [|done].
  apply best_frame in H2 as [Ho2 Hs2]; [|done].
  assert (b' = b2) as ->.
  { destruct bid, ask; try destruct (_ && _); congruence. }
  split; [congruence|]. by eapply heaps_shrink_trans.
Qed.

Lemma sound_start : sound start.
Proof.
  split.
  - intros s k ts r o Hin. destruct s; by apply elem_of_nil in Hin.
  - intros eb ea Hb. by apply elem_of_nil in Hb.
Qed.

Lemma step_sound s c s' : session_ok s → sound s → step s c = Ok s' → sound s'.
Proof.
  intros [Hwf Hdom] [Hr Hu]. destruct c; simpl.
  - intros ([s1 new] & H & [= <-])%res_bind_Ok. unfold submit in H.
    set (order := (Order.__init__ (id_counter s) now side order_type quantity
                     price trader_id).1) in *.
    change (Order.__init__ (id_counter s) now side order_type quantity
              price trader_id) with (order, S (id_counter s)) in H.
    cbn beta iota in H.
    apply res_bind_Ok in H as ([b' new'] & Hadd & [= <- <-]).
    apply add_order_sound in Hadd; [done|done| |apply init_conserved|done..].
    destruct (_orders (book s) !! Order.id order) eqn:E; [|done].
    assert (Order.id order ≤ id_counter s) by (apply Hdom; eauto).
    simpl in *. lia.
  - intros ([b r] & H & [= <-])%res_bind_Ok.
    apply cancel_order_cases in H as [(_ & -> & _)|(o & Ho & _ & Hor & Hh)];
      [done|].
    split; simpl.
    + intros s0 k ts r0 o0. rewrite Hh, Hor. intros Hin.
      destruct (decide (r0 = order_id)) as [->|Hne].
      * rewrite lookup_insert_eq. by intros [= <-].
      * rewrite lookup_insert_ne by done. by apply (Hr s0 k ts).
    + eapply uncrossed_shrink; [|exact Hu]. intros s0. by rewrite Hh.
  - rewrite best_bid_eq. intros ([b r] & H & [= <-])%res_bind_Ok.
    apply best_frame in H as [Ho Hs]; [|done].
    split; simpl; [by eapply resting_live_shrink|by eapply uncrossed_shrink].
  - rewrite best_ask_eq. intros ([b r] & H & [= <-])%res_bind_Ok.
    apply best_frame in H as [Ho Hs]; [|done].
    split; simpl; [by eapply resting_live_shrink|by eapply uncrossed_shrink].
  - intros ([b r] & H & [= <-])%res_bind_Ok.
    apply spread_frame in H as [Ho Hs]; [|done].
    split; simpl; [by eapply resting_live_shrink|by eapply uncrossed_shrink].
  - intros ([b r] & H & [= <-])%res_bind_Ok.
    apply mid_price_frame in H as [Ho Hs]; [|done].
    split; simpl; [by eapply resting_live_shrink|by eapply uncrossed_shrink].
Qed.

Lemma run_sound cs s : run start cs = Ok s → sound s.
Proof. apply (run_inv sound); [apply sound_start|apply step_sound]. Qed.

(** ** The best prices *)

Lemma best_loop_in_heap s fuel b b' p :
  best_loop s fuel b = Ok (b', Some p) →
  ∃ k ts r, (k, ts, r) ∈ heap_of s b ∧ p = price_of_key s k.
Proof.
  revert b. induction fuel as [|fuel IH]; intros b; [done|].
  rewrite best_loop_S.
  destruct (heap_of s b) as [|[[k ts] r] h] eqn:Hh; [done|].
  intros (o & Ho%deref_Ok & H)%res_bind_Ok. destruct (live o) eqn:Hl.
  - injection H as <- <-. exists k, ts, r. split; [by left|done].
  - apply res_bind_Ok in H as (h' & Hpop & H).
    apply IH in H as (k' & ts' & r' & Hin & ->).
    rewrite heap_of_set_heap in Hin.
    apply heappop_perm in Hpop as (x & tl & [= <- <-] & Hperm).
    exists k', ts', r'. split; [|done]. right. by rewrite <- Hperm.
Qed.

(** The loop of [best_bid] and [best_ask] stops at the first live entry,
    and that entry has the least key among the live entries. *)
Lemma best_loop_extreme s fuel b b' v :
  heap_ok (heap_of s b) → NoDup (heap_of s b).*2 →
  best_loop s fuel b = Ok (b', v) →
  ∀ k ts r o, (k, ts, r) ∈ heap_of s b → _orders b !! r = Some o →
    live o = true →
    ∃ k0, v = Some (price_of_key s k0) ∧ (k0 <= k)%Q.
Proof.
  revert b. induction fuel as [|fuel IH]; intros b Hok Hnd; [done|].
  rewrite best_loop_S.
  destruct (heap_of s b) as [|[[k0 ts0] r0] h] eqn:Hh.
  { intros _ k ts r o Hin. by apply elem_of_nil in Hin. }
  intros (o0 & Ho0%deref_Ok & H)%res_bind_Ok k ts r o Hin Ho Hl.
  destruct (live o0) eqn:Hl0.
  - injection H as <- <-. exists k0. split; [done|].
    pose proof (heap_root_min _ (k0, ts0, r0) Hok eq_refl _ Hin) as Hle.
    destruct Hle as [Hlt|[Heq _]]; simpl in *; lra.
  - apply res_bind_Ok in H as (h' & Hpop & H).
    pose proof (heappop_heap_ok _ _ Hok Hpop) as Hok'.
    apply heappop_perm in Hpop as (x & tl & [= <- <-] & Hperm).
    assert (Hin' : (k, ts, r) ∈ h').
    { rewrite Hperm. apply elem_of_cons in Hin as [[= -> -> ->]|Hin]; [|done].
      congruence. }
    apply (IH (set_heap s b h')) with (k := k) (ts := ts) (r := r) (o := o);
      [by rewrite heap_of_set_heap| |done|by rewrite heap_of_set_heap
      |by rewrite orders_set_heap|done].
    rewrite heap_of_set_heap, Hperm. simpl in Hnd.
    by apply NoDup_cons_1_2 in Hnd.
Qed.

Lemma round2_nonneg x : (0 <= x)%Q → (0 <= round2 x)%Q.
Proof.
  intros Hx. unfold round2, round_half_even.
  assert (H0 : (0 <= Qfloor (x * 100))%Z).
  { change 0%Z with (Qfloor 0). apply Qfloor_resp_le. lra. }
  set (f := Qfloor (x * 100)) in *.
  assert (Hr : (0 <= match (x * 100 - inject_Z f ?= 1 # 2)%Q with
                     | Eq => if Z.even f then f else (f + 1)%Z
                     | Lt => f
                     | Gt => (f + 1)%Z
                     end)%Z).
  { destruct (_ ?= _)%Q; [destruct (Z.even f)|..]; lia. }
  rewrite Zle_Qle in Hr. unfold Qdiv.
  apply Qmult_le_0_compat; [exact Hr|]. by compute.
Qed.

Lemma run_best_below cs s b1 b2 x y :
  run start cs = Ok s →
  best BUY (book s) = Ok (b1, Some x) → best SELL (book s) = Ok (b2, Some y) →
  (x < y)%Q.
Proof.
  intros Hrun Hb Ha. apply run_sound in Hrun as [_ Hu].
  apply best_loop_in_heap in Hb as (kb & tb & rb & Hinb & ->).
  apply best_loop_in_heap in Ha as (ka & ta & ra & Hina & ->).
  exact (Hu _ _ Hinb Hina).
Qed.

(** X1: the book is never crossed. Whenever [best_bid] and [best_ask] both
    report a price after a run, the best bid is strictly below the best
    ask. *)
Theorem best_bid_below_best_ask cs s b1 b2 x y :
  run start cs = Ok s →
  best_bid (book s) = Ok (b1, Some x) → best_ask (book s) = Ok (b2, Some y) →
  (x < y)%Q.
Proof. rewrite best_bid_eq, best_ask_eq. apply run_best_below. Qed.

(** X2: after a run, a spread that [spread] reports is never negative. *)
Theorem spread_is_never_negative cs s b' v :
  run start cs = Ok s →
  spread (book s) = Ok (b', Some v) → (0 <= v)%Q.
Proof.
  intros Hrun. pose proof (run_start_ok _ _ Hrun) as [Hwf _].
  unfold spread. rewrite best_bid_eq.
  intros ([b1 bid] & H1 & H)%res_bind_Ok. rewrite best_ask_eq in H.
  apply res_bind_Ok in H as ([b2 ask] & H2 & H).
  assert (H2' : ∃ b2', best SELL (book s) = Ok (b2', ask)).
  { pose proof (best_spec _ _ _ _ Hwf H1) as [_ Hfr].
    eapply (best_indep SELL b1); [| |exact H2].
    - symmetry. apply (fr_other_heap _ _ _ Hfr).
    - symmetry. by eapply best_loop_orders. }
  destruct H2' as [b2' H2'].
  destruct bid as [x|], ask as [y|]; try done.
  destruct (_ && _); [|done]. injection H as _ <-.
  apply round2_nonneg.
  pose proof (run_best_below _ _ _ _ _ _ Hrun H1 H2'). lra.
Qed.

(** X3: [best_bid] reports the highest limit price among the live orders of
    the bid heap and [best_ask] the lowest among those of the ask heap; in
    particular they report a price whenever the side holds a live order. *)
Theorem best_price_is_extreme cs s side b1 v :
  run start cs = Ok s →
  best_price side (book s) = Ok (b1, v) →
  ∀ k ts r o q, (k, ts, r) ∈ heap_of side (book s) →
    _orders (book s) !! r = Some o → live o = true →
    Order.price o = Some q →
    ∃ p, v = Some p ∧
         match side with BUY => (q <= p)%Q | SELL => (p <= q)%Q end.
Proof.
  intros Hrun Hbest k ts r o q Hin Ho Hl Hq.
  apply run_start_ok in Hrun as [Hwf _]. rewrite best_price_eq in Hbest.
  destruct (best_loop_extreme side _ _ _ _ (wf_heap_ok _ Hwf side)
              (wf_nodup _ Hwf side) Hbest k ts r o Hin Ho Hl)
    as (k0 & -> & Hle).
  destruct (wf_heap _ Hwf _ _ _ _ Hin) as (o' & p' & Ho' & _ & Hp' & -> & _).
  assert (p' = q) as -> by congruence.
  exists (price_of_key side k0). split; [done|].
  destruct side; simpl in *; lra.
Qed.

Lemma mk_trade_price s agg passive p q :
  Trade.price (mk_trade s agg passive p q) = p.
Proof. by destruct s. Qed.

Lemma mk_trade_quantity s agg passive p q :
  Trade.quantity (mk_trade s agg passive p q) = q.
Proof. by destruct s. Qed.

Lemma mk_trade_aggressor s agg passive p q :
  aggressor_ref s (mk_trade s agg passive p q) = Order.id agg.
Proof. by destruct s. Qed.

Lemma too_far_within s agg order p t :
  same_identity order agg → too_far s agg p = Ok false →
  Trade.price t = p → within_limit s order t.
Proof.
  intros (_ & _ & Hty & _ & Hpr & _) Hfar Hp Hlim L HL.
  rewrite Hp. rewrite <- Hty in Hlim. rewrite <- Hpr in HL.
  destruct s; simpl in Hfar.
  - unfold bid_too_low in Hfar. rewrite Hlim, HL in Hfar. simpl in Hfar.
    injection Hfar as Hfar. by apply Qlt_bool_false in Hfar.
  - unfold ask_too_high in Hfar. rewrite Hlim, HL in Hfar. simpl in Hfar.
    injection Hfar as Hfar. by apply Qlt_bool_false in Hfar.
Qed.

Lemma tracked_step s order b T b' ot :
  wf b → tracked s order b T → step_spec s (Order.id order) b b' ot →
  tracked s order b' (add_trade T ot).
Proof.
  intros Hwf [Hres (o & Ho & Hid & Hsum & Hst) HT] Hs.
  pose proof (step_spec_resting _ _ _ _ _ Hwf Hres Hs) as Hres'.
  apply step_spec_orders in Hs. destruct ot as [t|]; simpl.
  2:{ split; [done| |done]. exists o. by rewrite Hs. }
  destruct Hs as (k & ts & r & h & agg & passive & Hne & Hh & Ha & Hp & Hterm
                  & Hrem & Hfar & Ht & Hor).
  cbn zeta in Ht, Hor.
  set (q := Qmin (Order.remaining agg) (Order.remaining passive)) in *.
  assert (agg = o) as -> by congruence.
  assert (Hremp : (0 < Order.remaining passive)%Q).
  { apply (Hres s k ts r); [rewrite Hh; by left|done..]. }
  assert (Hq : (0 < q)%Q) by (by apply Q.min_glb_lt).
  assert (Hqle : (q <= Order.remaining o)%Q) by apply Q.le_min_l.
  assert (Hmin : (Qmin q (Order.remaining o) == q)%Q) by (by apply Q.min_l).
  split; [done|..].
  - exists (Order.fill o q).1. split.
    { rewrite Hor, lookup_insert_ne, lookup_insert_eq; done. }
    split.
    { eapply same_identity_trans; [exact Hid|apply fill_identity]. }
    split.
    { rewrite fmap_app, Qsum_app, Ht, <- Hsum. cbn [fmap list_fmap].
      rewrite mk_trade_quantity. unfold Qsum at 2.
      cbn [fold_left Order.fill fst Order.remaining]. rewrite Hmin. ring. }
    right. split.
    { cbn [Order.fill fst Order.remaining]. rewrite Hmin. lra. }
    split; [by destruct T|]. reflexivity.
  - apply Forall_app. split; [done|]. apply Forall_singleton. rewrite Ht.
    split; [by rewrite mk_trade_quantity|].
    eapply too_far_within; [exact Hid|exact Hfar|apply mk_trade_price].
Qed.

Lemma tracked_fills s order b T b' T' :
  wf b → Order.id order ∉ (heap_of s b).*2 → tracked s order b T →
  fills s (Order.id order) b T b' T' → tracked s order b' T'.
Proof.
  intros Hwf Ha Htr.
  apply (fills_inv (tracked s order)); try done.
  intros b0 T0 b1 ot Hwf0 _ Ht0. by apply tracked_step.
Qed.

Lemma resting_live_store_fresh b a order :
  wf b → _orders b !! a = None → resting_live b →
  resting_live (store b a order).
Proof.
  intros Hwf Hfresh Hr s0 k ts r o. rewrite heap_of_store, orders_store.
  intros Hin. destruct (decide (r = a)) as [->|Hne].
  - exfalso. eapply (wf_not_resting b a s0); [done..|].
    apply list_elem_of_fmap. by exists (k, ts, a).
  - rewrite lookup_insert_ne by done. by apply (Hr s0 k ts).
Qed.


(** [add_order] on a book of a session, step by step. *)
Lemma submit_cases s side ty q p now tr s' new :
  session_ok s → sound s → submit s side ty q p now tr = Ok (s', new) →
  let order := (Order.__init__ (id_counter s) now side ty q p tr).1 in
  let b0 := store (book s) (S (id_counter s)) order in
  ∃ b1 b2,
    wf b0 ∧ (S (id_counter s) ∉ (heap_of (opposite side) b0).*2) ∧
    fills (opposite side) (S (id_counter s)) b0 [] b1 new ∧
    tracked (opposite side) order b1 new ∧
    settled (opposite side) (S (id_counter s)) ty b1 b2 ∧
    book s' = with_history b2 new ∧ id_counter s' = S (id_counter s).
Proof.
  intros [Hwf Hdom] [Hr Hu]. unfold submit.
  set (order := (Order.__init__ (id_counter s) now side ty q p tr).1).
  change (Order.__init__ (id_counter s) now side ty q p tr)
    with (order, S (id_counter s)). cbn beta iota zeta.
  intros ([b' new'] & Hadd & [= <- ->])%res_bind_Ok.
  assert (Hfresh : _orders (book s) !! Order.id order = None).
  { destruct (_orders (book s) !! Order.id order) eqn:E; [|done].
    assert (Order.id order ≤ id_counter s) by (apply Hdom; eauto).
    simpl in *. lia. }
  apply add_order_cases in Hadd as (b1 & b2 & Hf & Hs & ->);
    [|done|done|apply init_conserved].
  change (Order.id order) with (S (id_counter s)) in *.
  change (Order.side order) with side in *.
  change (Order.order_type order) with ty in *.
  set (b0 := store (book s) (S (id_counter s)) order) in *.
  assert (Hwf0 : wf b0).
  { apply wf_store_fresh; [done..|apply init_conserved]. }
  assert (Hnr : S (id_counter s) ∉ (heap_of (opposite side) b0).*2).
  { unfold b0. rewrite heap_of_store. by apply wf_not_resting. }
  exists b1, b2. split; [done|]. split; [done|]. split; [done|].
  split; [|done].
  apply (tracked_fills _ order b0 [] b1 new); try done.
  split.
  - by apply resting_live_store_fresh.
  - exists order. split.
    { unfold b0. by rewrite orders_store, lookup_insert_eq. }
    split; [apply same_identity_refl|]. split; [|by left].
    cbn. unfold Qsum. cbn. ring.
  - constructor.
Qed.

(** X4: a limit order never trades beyond its limit. Every trade made for a
    limit buy is priced at or below its limit, every trade made for a limit
    sell at or above. *)
Theorem limit_order_trades_within_limit cs s side q L now tr s' new t :
  run start cs = Ok s →
  submit s side LIMIT q (Some L) now tr = Ok (s', new) → t ∈ new →
  match side with
  | BUY => (Trade.price t <= L)%Q
  | SELL => (L <= Trade.price t)%Q
  end.
Proof.
  intros Hrun Hsub Ht.
  apply submit_cases in Hsub
    as (b1 & b2 & _ & _ & _ & [_ _ HT] & _); [|by eapply run_start_ok|by eapply run_sound].
  rewrite Forall_forall in HT. destruct (HT t Ht) as [_ Hlim].
  specialize (Hlim eq_refl L eq_refl). by destruct side.
Qed.


(** ** The outcome of a submitted order *)

Lemma dict_get_set_same {V} (d : list (Q * V)) k v :
  dict_get (dict_set d k v) k = Some v.
Proof.
  induction d as [|[k' v'] d IH]; simpl.
  - by rewrite Qeq_bool_refl.
  - destruct (Qeq_bool k k') eqn:E; simpl; by rewrite E.
Qed.

Lemma add_to_level s b ref b' :
  add_to s b ref = Ok b' →
  ∃ o p lvl, _orders b !! ref = Some o ∧ Order.price o = Some p ∧
    dict_get (levels_of s b') p = Some lvl ∧
    PriceLevel.orders lvl =
      match dict_get (levels_of s b) p with
      | Some l => PriceLevel.orders l
      | None => []
      end ++ [ref] ∧
    levels_of (opposite s) b' = levels_of (opposite s) b.
Proof.
  unfold add_to. intros (o & Ho%deref_Ok & H)%res_bind_Ok.
  apply res_bind_Ok in H as (p & Hp & H).
  apply res_bind_Ok in H as (h' & Hpush & [= <-]).
  assert (Hpo : Order.price o = Some p).
  { destruct (Order.price o); simpl in Hp; congruence. }
  eexists o, p, _. split; [done|]. split; [done|].
  rewrite !levels_of_set_heap, levels_of_set_levels.
  rewrite levels_of_set_levels_ne by (by destruct s).
  unfold level_add. rewrite dict_get_set_same.
  split; [done|]. split; [|done]. by destruct (dict_get (levels_of s b) p).
Qed.

Lemma tracked_final s order b T o :
  (0 < Order.remaining order)%Q → Order.status order = st_open →
  tracked s order b T → _orders b !! Order.id order = Some o →
  ((0 < Order.remaining o)%Q ∧ Order.status o ≠ st_filled) ∨
  ((Order.remaining o == 0)%Q ∧ Order.status o = st_filled).
Proof.
  intros Hq Hst [_ (o' & Ho' & _ & _ & Hcase) _] Ho.
  assert (o' = o) as -> by congruence.
  destruct Hcase as [(-> & -> & _)|(H0 & _ & ->)].
  - left. by rewrite Hst.
  - destruct (Qeq_bool (Order.remaining o) 0) eqn:E.
    + right. by apply Qeq_bool_iff in E.
    + left. split; [|done]. apply Qeq_bool_false in E.
      destruct (Qlt_le_dec 0 (Order.remaining o)) as [|Hle]; [done|].
      exfalso. apply E. lra.
Qed.

(** X6: a market order is never queued. A market order of positive quantity
    ends filled with nothing left, or partial with a remainder, and the
    latter only when the opposing heap has been emptied; in both cases its
    own side of the book is as before. *)
Theorem market_order_outcome cs s side q p now tr s' new :
  run start cs = Ok s → (0 < q)%Q →
  submit s side MARKET q p now tr = Ok (s', new) →
  ∃ o, _orders (book s') !! S (id_counter s) = Some o ∧
    ((Order.status o = st_filled ∧ (Order.remaining o == 0)%Q) ∨
     (Order.status o = st_partial ∧ (0 < Order.remaining o)%Q ∧
      heap_of (opposite side) (book s') = [])) ∧
    heap_of side (book s') = heap_of side (book s) ∧
    levels_of side (book s') = levels_of side (book s) ∧
    (S (id_counter s) ∉ (heap_of (opposite side) (book s')).*2).
Proof.
  intros Hrun Hq Hsub.
  apply submit_cases in Hsub
    as (b1 & b2 & Hwf0 & Hnr & Hf & Htr & Hs & Hb & _);
    [|by eapply run_start_ok|by eapply run_sound].
  destruct (fills_wf _ _ _ _ _ _ Hwf0 Hnr Hf) as (Hwf1 & Hfr & Hnr1).
  pose proof (fr_other_heap _ _ _ Hfr) as Hh.
  pose proof (fr_other_levels _ _ _ Hfr) as Hl.
  rewrite opposite_involutive, heap_of_store in Hh.
  rewrite opposite_involutive, levels_of_store in Hl.
  rewrite Hb, !heap_of_with_history, levels_of_with_history.
  cbn [with_history _orders].
  destruct Hs as [o Hty Ho Hrem|o Hty Ho Hrem Hhe|o Hty Ho Hn
                 |o p1 b3 Hty Ho Hrem Hst Hp Hm Hadd]; try done.
  - exists o. split; [done|]. split; [|done]. left.
    pose proof (λ H1 H2, tracked_final _ _ _ _ o H1 H2 Htr Ho) as Hfin.
    destruct (Hfin Hq eq_refl) as [[? _]|[? ?]]; [done|by split].
  - exists (Order.set_status o st_partial).
    rewrite orders_store, lookup_insert_eq, !heap_of_store, levels_of_store.
    split; [done|]. split; [|done]. right. by split.
Qed.

(** X7: the remainder of a limit order is queued on its own side, and only
    when nothing within its limit is left. A limit order of positive
    quantity ends filled, with its side of the book unchanged, or with a
    remainder: then it has joined the heap of its side with its price and
    timestamp, it is the last order of the price level of its price, and
    every entry left on the opposing heap is beyond its limit. *)
Theorem limit_order_outcome cs s side q L now tr s' new :
  run start cs = Ok s → (0 < q)%Q →
  submit s side LIMIT q (Some L) now tr = Ok (s', new) →
  ∃ o, _orders (book s') !! S (id_counter s) = Some o ∧
    ((Order.status o = st_filled ∧ (Order.remaining o == 0)%Q ∧
      heap_of side (book s') = heap_of side (book s) ∧
      levels_of side (book s') = levels_of side (book s)) ∨
     (Order.status o ≠ st_filled ∧ (0 < Order.remaining o)%Q ∧
      heap_of side (book s') ≡ₚ
        (key_of side L, now, S (id_counter s)) :: heap_of side (book s) ∧
      (∃ lvl, dict_get (levels_of side (book s')) L = Some lvl ∧
              last (PriceLevel.orders lvl) = Some (S (id_counter s))) ∧
      ∀ e, e ∈ heap_of (opposite side) (book s') →
        match side with
        | BUY => (L < price_of_key SELL e.1.1)%Q
        | SELL => (price_of_key BUY e.1.1 < L)%Q
        end)).
Proof.
  intros Hrun Hq Hsub.
  apply submit_cases in Hsub
    as (b1 & b2 & Hwf0 & Hnr & Hf & Htr & Hs & Hb & _);
    [|by eapply run_start_ok|by eapply run_sound].
  destruct (fills_wf _ _ _ _ _ _ Hwf0 Hnr Hf) as (Hwf1 & Hfr & Hnr1).
  pose proof (fr_other_heap _ _ _ Hfr) as Hh.
  pose proof (fr_other_levels _ _ _ Hfr) as Hl.
  rewrite opposite_involutive, heap_of_store in Hh.
  rewrite opposite_involutive, levels_of_store in Hl.
  rewrite Hb, !heap_of_with_history, levels_of_with_history.
  cbn [with_history _orders].
  pose proof Htr as [_ (o1 & Ho1 & Hid & _) _]. simpl in Ho1.
  destruct Hs as [o Hty Ho Hrem|o Hty Ho Hrem Hhe|o Hty Ho Hn
                 |o p1 b3 Hty Ho Hrem Hst Hp Hm Hadd]; try done.
  - exists o. split; [done|]. left.
    pose proof (λ H1 H2, tracked_final _ _ _ _ o H1 H2 Htr Ho) as Hfin.
    destruct (Hfin Hq eq_refl) as [?|[? ?]]; [done|by repeat split].
  - exists o. pose proof Hadd as Hadd'.
    apply add_to_heaps in Hadd as (Hor & Hho & o' & p' & Ho' & Hp' & Hperm).
    apply add_to_level in Hadd'
      as (o2 & p2 & lvl & Ho2 & Hp2 & Hget & Hlast & _).
    rewrite opposite_involutive in *.
    assert (o' = o) as -> by congruence. assert (o2 = o) as -> by congruence.
    assert (o1 = o) as -> by congruence.
    destruct Hid as (_ & _ & _ & _ & Hpr & Hts). simpl in Hpr, Hts.
    assert (p' = L) as -> by congruence. assert (p2 = L) as -> by congruence.
    assert (p1 = L) as -> by congruence.
    rewrite Hor. split; [done|]. right.
    split; [done|]. split; [done|]. split.
    { by rewrite Hperm, Hts, Hh. }
    split.
    { exists lvl. split; [done|]. rewrite Hlast. apply last_snoc. }
    intros e He. rewrite Hho in He. specialize (Hm e He).
    destruct side; simpl in *.
    + destruct (Qlt_le_dec L e.1.1) as [|Hle]; [done|].
      apply Qle_bool_iff in Hle. congruence.
    + destruct (Qlt_le_dec (- e.1.1) L) as [|Hle]; [done|].
      apply Qle_bool_iff in Hle. congruence.
Qed.

Lemma frozen_step s a oid o b T b' ot :
  wf b → a ≠ oid →
  frozen oid o b ∧ Forall (λ t, ¬ names oid t) T →
  step_spec s a b b' ot →
  frozen oid o b' ∧ Forall (λ t, ¬ names oid t) (add_trade T ot).
Proof.
  intros Hwf Ha [(o' & Ho' & Hterm' & Hrem' & Hfil') HT] Hs.
  apply step_spec_orders in Hs. destruct ot as [t|]; simpl.
  2:{ split; [|done]. exists o'. by rewrite Hs. }
  destruct Hs as (k & ts & r & h & agg & passive & Hne & Hh & Hagg & Hp & Hterm
                  & Hrem & Hfar & Ht & Hor).
  cbn zeta in Ht, Hor.
  assert (Hr : r ≠ oid) by (intros ->; congruence).
  split.
  - exists o'. by rewrite Hor, !lookup_insert_ne.
  - apply Forall_app. split; [done|]. apply Forall_singleton.
    pose proof (wf_id _ Hwf _ _ Hagg) as Hida.
    pose proof (wf_id _ Hwf _ _ Hp) as Hidp.
    rewrite Ht. intros [H|H]; destruct s; simpl in H; congruence.
Qed.

Lemma frozen_fills s a oid o b T b' T' :
  wf b → a ∉ (heap_of s b).*2 → a ≠ oid →
  frozen oid o b → Forall (λ t, ¬ names oid t) T →
  fills s a b T b' T' →
  frozen oid o b' ∧ Forall (λ t, ¬ names oid t) T'.
Proof.
  intros Hwf Ha Hne Hfz HT.
  apply (fills_inv (λ b T, frozen oid o b ∧ Forall (λ t, ¬ names oid t) T));
    try done.
  intros b0 T0 b1 ot Hwf0 _ H0. by apply frozen_step.
Qed.

Lemma step_frozen s c s' oid o :
  session_ok s → sound s → frozen oid o (book s) → step s c = Ok s' →
  frozen oid o (book s') ∧
  ∃ T, trades (book s') = trades (book s) ++ T ∧
       Forall (λ t, ¬ names oid t) T.
Proof.
  intros Hok Hsd Hfz. pose proof Hok as [Hwf Hdom].
  assert (Hkeep : ∀ b, _orders b = _orders (book s) →
                       trades b = trades (book s) →
    frozen oid o b ∧
    ∃ T, trades b = trades (book s) ++ T ∧ Forall (λ t, ¬ names oid t) T).
  { intros b Ho Ht. split.
    - destruct Hfz as (o' & Ho' & ?). exists o'. by rewrite Ho.
    - exists []. by rewrite app_nil_r. }
  destruct c; simpl.
  - intros ([s1 new] & H & [= <-])%res_bind_Ok.
    pose proof H as Hsub.
    apply submit_cases in H as (b1 & b2 & Hwf0 & Hnr & Hf & _ & Hs & Hb & _);
      [|done..].
    cbn zeta in *.
    set (order := (Order.__init__ (id_counter s) now side order_type quantity
                     price trader_id).1) in *.
    set (a := S (id_counter s)) in *.
    assert (Hne : a ≠ oid).
    { destruct Hfz as (o' & Ho' & _).
      assert (oid ≤ id_counter s) by (apply Hdom; eauto). unfold a. lia. }
    assert (Hfz0 : frozen oid o (store (book s) a order)).
    { destruct Hfz as (o' & Ho' & ?). exists o'.
      by rewrite orders_store, lookup_insert_ne. }
    destruct (frozen_fills _ _ _ _ _ _ _ _ Hwf0 Hnr Hne Hfz0 (Forall_nil_2 _) Hf)
      as [(o1 & Ho1 & Hfz1) HT].
    apply submit_spec in Hsub as (_ & _ & _ & Htr & _); [|done].
    rewrite Hb in *. cbn [with_history _orders]. split; [|eauto].
    exists o1. split; [|done]. cbn [with_history _orders].
    destruct Hs as [o2 Hty Ho2 Hrem|o2 Hty Ho2 Hrem Hhe|o2 Hty Ho2 Hn
                   |o2 p1 b3 Hty Ho2 Hrem Hst Hp Hm Hadd]; try done.
    + by rewrite orders_store, lookup_insert_ne.
    + apply add_to_heaps in Hadd as (-> & _). done.
  - intros ([b r] & H & [= <-])%res_bind_Ok. simpl.
    pose proof (cancel_order_spec _ _ _ _ Hwf H) as (_ & _ & (Ht & _) & _).
    apply cancel_order_cases in H as [(_ & -> & _)|(o0 & Ho0 & _ & Hor & _)].
    { by apply Hkeep. }
    split; [|exists []; by rewrite app_nil_r].
    destruct Hfz as (o' & Ho' & Hterm & Hrem & Hfil).
    destruct (decide (order_id = oid)) as [->|Hne].
    + exists (Order.cancel o0). rewrite Hor, lookup_insert_eq.
      assert (o0 = o') as -> by congruence. done.
    + exists o'. by rewrite Hor, lookup_insert_ne.
  - rewrite best_bid_eq. intros ([b r] & H & [= <-])%res_bind_Ok. simpl.
    pose proof (best_spec _ _ _ _ Hwf H) as [_ Hfr].
    apply best_frame in H as [Ho _]; [|done].
    apply Hkeep; [done|apply (fr_trades _ _ _ Hfr)].
  - rewrite best_ask_eq. intros ([b r] & H & [= <-])%res_bind_Ok. simpl.
    pose proof (best_spec _ _ _ _ Hwf H) as [_ Hfr].
    apply best_frame in H as [Ho _]; [|done].
    apply Hkeep; [done|apply (fr_trades _ _ _ Hfr)].
  - intros ([b r] & H & [= <-])%res_bind_Ok. simpl.
    pose proof (spread_spec _ _ _ Hwf H) as (_ & _ & Ht & _).
    apply spread_frame in H as [Ho _]; [|done]. by apply Hkeep.
  - intros ([b r] & H & [= <-])%res_bind_Ok. simpl.
    pose proof (mid_price_spec _ _ _ Hwf H) as (_ & _ & Ht & _).
    apply mid_price_frame in H as [Ho _]; [|done]. by apply Hkeep.
Qed.

Lemma run_frozen cs' s s' oid o :
  session_ok s → sound s → frozen oid o (book s) → run s cs' = Ok s' →
  frozen oid o (book s') ∧
  ∃ T, trades (book s') = trades (book s) ++ T ∧
       Forall (λ t, ¬ names oid t) T.
Proof.
  revert s. induction cs' as [|c cs' IH]; intros s Hok Hsd Hfz; simpl.
  - intros [= <-]. split; [done|]. exists []. by rewrite app_nil_r.
  - intros (s1 & H1 & H)%res_bind_Ok.
    destruct (step_frozen _ _ _ _ _ Hok Hsd Hfz H1) as (Hfz1 & T1 & Ht1 & HT1).
    apply IH in H as (Hfz' & T2 & Ht2 & HT2);
      [|by eapply step_ok|by eapply step_sound|done].
    split; [done|]. exists (T1 ++ T2). split.
    + by rewrite Ht2, Ht1, app_assoc.
    + by apply Forall_app.
Qed.

(** X8: an order that is filled or cancelled never trades again. Whatever
    commands follow, the order stays filled or cancelled, its remaining and
    filled quantities stay as they are, and no trade that is added to the
    history names it. *)
Theorem terminal_orders_never_trade cs s oid o cs' s' :
  run start cs = Ok s →
  _orders (book s) !! oid = Some o → terminal (Order.status o) = true →
  run s cs' = Ok s' →
  (∃ o', _orders (book s') !! oid = Some o' ∧
         terminal (Order.status o') = true ∧
         Order.remaining o' = Order.remaining o ∧
         Order.filled o' = Order.filled o) ∧
  ∃ T, trades (book s') = trades (book s) ++ T ∧
       ∀ t, t ∈ T → Trade.buy_order_id t ≠ oid ∧ Trade.sell_order_id t ≠ oid.
Proof.
  intros Hrun Ho Hterm Hrun'.
  destruct (run_frozen cs' s s' oid o) as (Hfz & T & Ht & HT);
    [by eapply run_start_ok|by eapply run_sound|by exists o|done|].
  split; [done|]. exists T. split; [done|].
  intros t Hin. rewrite Forall_forall in HT. specialize (HT t Hin).
  unfold names in HT. tauto.
Qed.

(** ** The index of the orders *)

Lemma orders_kept_refl b : orders_kept b b.
Proof. intros r o Ho. exists o. split; [done|apply same_identity_refl]. Qed.

Lemma orders_kept_trans b1 b2 b3 :
  orders_kept b1 b2 → orders_kept b2 b3 → orders_kept b1 b3.
Proof.
  intros H1 H2 r o Ho. destruct (H1 r o Ho) as (o' & Ho' & Hid').
  destruct (H2 r o' Ho') as (o'' & Ho'' & Hid''). exists o''.
  split; [done|]. by eapply same_identity_trans.
Qed.

Lemma store_ext_kept b b' : store_ext b b' → orders_kept b b'.
Proof.
  intros Hst r o Ho. specialize (Hst r). rewrite Ho in Hst.
  inversion Hst; subst. eauto.
Qed.

Lemma step_kept s c s' :
  session_ok s → step s c = Ok s' →
  orders_kept (book s) (book s') ∧
  id_counter s' = id_counter s + submits [c].
Proof.
  intros Hok. pose proof Hok as [Hwf Hdom]. destruct c; simpl.
  - intros ([s1 new] & H & [= <-])%res_bind_Ok.
    apply submit_spec in H as (_ & -> & _ & _ & Hst & _); [|done].
    split; [|lia]. intros r o Ho.
    assert (r ≤ id_counter s) by (apply Hdom; eauto).
    specialize (Hst r). rewrite Ho in Hst.
    assert (Hne : r ≠ S (id_counter s)) by lia.
    specialize (Hst Hne). inversion Hst; subst. eauto.
  - intros ([b r] & H & [= <-])%res_bind_Ok.
    apply cancel_order_spec in H as (_ & Hst & _); [|done].
    split; [by apply store_ext_kept|simpl; lia].
  - rewrite best_bid_eq. intros ([b r] & H & [= <-])%res_bind_Ok.
    apply best_spec in H as (_ & Hfr); [|done].
    split; [by eapply store_ext_kept, frame_store_ext|simpl; lia].
  - rewrite best_ask_eq. intros ([b r] & H & [= <-])%res_bind_Ok.
    apply best_spec in H as (_ & Hfr); [|done].
    split; [by eapply store_ext_kept, frame_store_ext|simpl; lia].
  - intros ([b r] & H & [= <-])%res_bind_Ok.
    apply spread_spec in H as (_ & Hst & _); [|done].
    split; [by apply store_ext_kept|simpl; lia].
  - intros ([b r] & H & [= <-])%res_bind_Ok.
    apply mid_price_spec in H as (_ & Hst & _); [|done].
    split; [by apply store_ext_kept|simpl; lia].
Qed.

Lemma run_kept cs s s' :
  session_ok s → run s cs = Ok s' →
  orders_kept (book s) (book s') ∧
  id_counter s' = id_counter s + submits cs.
Proof.
  revert s. induction cs as [|c cs IH]; intros s Hok; simpl.
  - intros [= <-]. split; [apply orders_kept_refl|lia].
  - intros (s1 & H1 & H)%res_bind_Ok.
    destruct (step_kept _ _ _ Hok H1) as [Hk1 Hc1].
    apply IH in H as [Hk Hc]; [|by eapply step_ok].
    split; [by eapply orders_kept_trans|].
    rewrite Hc, Hc1. destruct c; simpl; lia.
Qed.

(** X9: the index never loses an order. The n-th order that is submitted gets
    the id n, and after any further commands the book still holds under that
    id an order with that id and with the side, type, quantity, price and
    timestamp it was submitted with. *)
Theorem orders_stay_indexed cs1 s1 side ty q p now tr s2 new cs2 s3 :
  run start cs1 = Ok s1 →
  submit s1 side ty q p now tr = Ok (s2, new) →
  run s2 cs2 = Ok s3 →
  id_counter s1 = submits cs1 ∧
  ∃ o, _orders (book s3) !! S (submits cs1) = Some o ∧
    Order.id o = S (submits cs1) ∧ Order.side o = side ∧
    Order.order_type o = ty ∧ Order.quantity o = q ∧ Order.price o = p ∧
    Order.timestamp o = now.
Proof.
  intros H1 Hsub H2. pose proof (run_start_ok _ _ H1) as Hok1.
  destruct (run_kept _ _ _ session_ok_start H1) as [_ Hc]. simpl in Hc.
  split; [done|]. rewrite <- Hc.
  apply submit_spec in Hsub as (Hok2 & _ & _ & _ & _ & o' & Ho' & Hid');
    [|done].
  destruct (run_kept _ _ _ Hok2 H2) as [Hk _].
  destruct (Hk _ _ Ho') as (o & Ho & Hid). exists o. split; [done|].
  pose proof (same_identity_trans _ _ _ Hid' Hid)
    as (? & ? & ? & ? & ? & ?).
  by repeat split.
Qed.

(** ** No exception *)

(** X10: operations on orders with pairwise different timestamps never raise.
    When every limit order has a price and no two orders carry the same
    timestamp, every sequence of [add_order], [cancel_order], [best_bid],
    [best_ask], [spread] and [mid_price] calls returns, and every loop of
    the engine ends. *)
Theorem distinct_timestamps_never_raise cs :
  valid [] cs = true → ∃ s, run start cs = Ok s.
Proof.
  intros Hv%valid_spec.
  destruct (run_total start [] cs session_ok_start ties_ok_start Hv)
    as (s & Hrun & _).
  by exists s.
Qed.

Lemma fills_nonneg_spec calls :
  fills_nonneg calls = true → ∀ x, CallFill x ∈ calls → (0 <= x)%Q.
Proof.
  unfold fills_nonneg. rewrite forallb_forall.
  intros H x Hx%list_elem_of_In. apply H in Hx. by apply Qle_bool_iff.
Qed.

Lemma apply_calls_bounds o0 calls :
  (0 <= Order.remaining o0)%Q → (0 <= Order.filled o0)%Q → conserved o0 →
  (∀ x, CallFill x ∈ calls → (0 <= x)%Q) →
  let o := apply_calls o0 calls in
  Order.quantity o = Order.quantity o0 ∧
  (0 <= Order.remaining o)%Q ∧ (0 <= Order.filled o)%Q ∧ conserved o.
Proof.
  intros Hr Hf Hc. induction calls as [|c calls IH] using rev_ind; intros Hpos.
  - done.
  - intros o. unfold o. rewrite apply_calls_snoc.
    destruct IH as (IHq & IHr & IHf & IHc).
    { intros x Hx. apply Hpos, elem_of_app. by left. }
    set (o1 := apply_calls o0 calls) in *.
    destruct c as [x|]; [|done].
    assert (Hx : (0 <= x)%Q).
    { apply Hpos, elem_of_app. right. by left. }
    split; [done|]. unfold conserved in *. simpl.
    destruct (Q.min_spec x (Order.remaining o1)) as [[H1 H2]|[H1 H2]];
      rewrite H2; repeat split; lra.
Qed.

(** X11: a fill never takes more than what remains. For an order created
    with a quantity that is not negative, after any calls of [fill] with
    quantities that are not negative and of [cancel], the quantity is
    unchanged, the remaining quantity lies between 0 and the quantity of
    the order, and the filled quantity is not negative. *)
Theorem remaining_stays_within_quantity c now side ty q p tr calls :
  (0 <= q)%Q → fills_nonneg calls = true →
  let o := apply_calls (Order.__init__ c now side ty q p tr).1 calls in
  Order.quantity o = q ∧
  (0 <= Order.remaining o)%Q ∧ (Order.remaining o <= q)%Q ∧
  (0 <= Order.filled o)%Q.
Proof.
  intros Hq Hpos o.
  assert (Hq0 : (0 <= q)%Q) by lra.
  destruct (apply_calls_bounds (Order.__init__ c now side ty q p tr).1 calls
              Hq0 (Qle_refl 0) (init_conserved _ _ _ _ _ _ _)
              (fills_nonneg_spec _ Hpos))
    as (Hqty & Hr & Hf & Hc).
  fold o in Hqty, Hr, Hf, Hc. unfold conserved in Hc.
  rewrite Hqty in Hc. simpl in Hqty, Hc.
  repeat split; try done; lra.
Qed.

Lemma keeps_live o : PriceLevel.keeps o = live o.
Proof. unfold PriceLevel.keeps, live. apply andb_comm. Qed.

Lemma deref_all_filter objs refs os :
  deref_all objs refs = Ok os →
  let kept := List.filter (λ ro, PriceLevel.keeps ro.2) (zip refs os) in
  kept.*1 = List.filter (kept_ref objs) refs ∧
  deref_all objs kept.*1 = Ok kept.*2 ∧
  Forall (λ ro, PriceLevel.keeps ro.2 = true) kept ∧
  Order.remaining <$> kept.*2 =
    omap (λ r, match objs !! r with
               | Some o => if live o then Some (Order.remaining o) else None
               | None => None
               end) kept.*1.
Proof.
  revert os. induction refs as [|r refs IH]; intros os.
  { intros [= <-]. by repeat split. }
  cbn [deref_all]. destruct (objs !! r) as [o|] eqn:Ho; [|done].
  intros (os' & Hos & [= <-])%res_bind_Ok.
  destruct (IH _ Hos) as (IH1 & IH2 & IH3 & IH4). cbn zeta in *.
  set (kept' := List.filter (λ ro, PriceLevel.keeps ro.2) (zip refs os')) in *.
  assert (Hf : List.filter (λ ro, PriceLevel.keeps ro.2)
                 (zip (r :: refs) (o :: os'))
               = if PriceLevel.keeps o then (r, o) :: kept' else kept')
    by reflexivity.
  assert (Hg : List.filter (kept_ref objs) (r :: refs)
               = if PriceLevel.keeps o then r :: List.filter (kept_ref objs) refs
                 else List.filter (kept_ref objs) refs).
  { cbn [List.filter]. unfold kept_ref at 1. by rewrite Ho. }
  rewrite Hf, Hg. destruct (PriceLevel.keeps o) eqn:Hk; [|done].
  rewrite !fmap_cons. cbn [fst snd deref_all omap list_omap].
  rewrite Ho, IH2, res_bind_ret, <- keeps_live, Hk.
  split; [by rewrite IH1|]. split; [done|].
  split; [by constructor|]. by rewrite IH4.
Qed.

Lemma filter_all {A} (f : A → bool) l :
  Forall (λ x, f x = true) l → List.filter f l = l.
Proof.
  induction 1 as [|x l Hx _ IH]; simpl; [done|]. by rewrite Hx, IH.
Qed.

Lemma zip_fst_snd {A B} (l : list (A * B)) : zip l.*1 l.*2 = l.
Proof.
  induction l as [|[a b] l IH]; [done|].
  rewrite !fmap_cons. cbn [fst snd zip_with]. by rewrite IH.
Qed.

Lemma Qsum_pos l :
  l ≠ [] → Forall (λ x, (0 < x)%Q) l → (0 < Qsum l)%Q.
Proof.
  intros Hne Hall. induction l as [|x l IH] using rev_ind; [done|].
  apply Forall_app in Hall as [Hl Hx]. rewrite Forall_singleton in Hx.
  rewrite Qsum_app. unfold Qsum at 2. cbn [fold_left].
  destruct l as [|y l'].
  - unfold Qsum. cbn [fold_left]. lra.
  - assert (0 < Qsum (y :: l'))%Q by (by apply IH). lra.
Qed.

Lemma remove_filled_spec objs lvl lvl' :
  PriceLevel.remove_filled objs lvl = Ok lvl' →
  PriceLevel.price lvl' = PriceLevel.price lvl ∧
  PriceLevel.orders lvl' =
    List.filter (kept_ref objs) (PriceLevel.orders lvl) ∧
  PriceLevel.total_quantity lvl' =
    live_remaining objs (PriceLevel.orders lvl') ∧
  (PriceLevel.is_empty lvl' = true ↔ PriceLevel.orders lvl' = []) ∧
  PriceLevel.remove_filled objs lvl' = Ok lvl'.
Proof.
  unfold PriceLevel.remove_filled.
  intros (os & Hos & [= <-])%res_bind_Ok.
  destruct (deref_all_filter _ _ _ Hos) as (H1 & H2 & H3 & H4).
  cbn zeta in *.
  set (kept := List.filter (λ ro, PriceLevel.keeps ro.2)
                 (zip (PriceLevel.orders lvl) os)) in *.
  cbn [PriceLevel.price PriceLevel.orders PriceLevel.total_quantity].
  split; [done|]. split; [done|]. split.
  { unfold live_remaining. by rewrite H4. }
  split.
  - unfold PriceLevel.is_empty.
    cbn [PriceLevel.orders PriceLevel.total_quantity].
    destruct kept as [|[r o] kept'] eqn:Hk; [done|].
    split; [|done]. simpl. intros E.
    assert (Hpos : (0 < Qsum (Order.remaining <$> (kept.*2)))%Q).
    { apply Qsum_pos; [by rewrite Hk|]. rewrite Hk.
      apply Forall_fmap, Forall_fmap. eapply Forall_impl; [exact H3|].
      intros [r' o'] Hkeep. simpl in *.
      apply andb_true_iff in Hkeep as [Hlt _]. by apply Qlt_bool_true. }
    rewrite Hk in Hpos. simpl in Hpos.
    apply Qeq_bool_iff in E. lra.
  - rewrite H2, res_bind_ret, zip_fst_snd, (filter_all _ _ H3). done.
Qed.

(** X14: [remove_filled] leaves a level in order. The level keeps, in their
    order, exactly the orders that have something left and are neither
    filled nor cancelled; its total quantity becomes the sum of what they
    have left; it is then empty exactly when it keeps no order; and a second
    [remove_filled] changes nothing. *)
Theorem remove_filled_cleans_level objs lvl lvl' :
  PriceLevel.remove_filled objs lvl = Ok lvl' →
  PriceLevel.price lvl' = PriceLevel.price lvl ∧
  PriceLevel.orders lvl' =
    List.filter (kept_ref objs) (PriceLevel.orders lvl) ∧
  PriceLevel.total_quantity lvl' =
    live_remaining objs (PriceLevel.orders lvl') ∧
  (PriceLevel.is_empty lvl' = true ↔ PriceLevel.orders lvl' = []) ∧
  PriceLevel.remove_filled objs lvl' = Ok lvl'.
Proof. apply remove_filled_spec. Qed.

(** ** Cancelling *)

Lemma dict_set_set_same {V} (d : list (Q * V)) k v v' :
  dict_set (dict_set d k v) k v' = dict_set d k v'.
Proof.
  induction d as [|[k0 v0] d IH]; simpl.
  - by rewrite Qeq_bool_refl.
  - destruct (Qeq_bool k k0) eqn:E; simpl; rewrite E; [done|]. by rewrite IH.
Qed.

Lemma store_same b r o : _orders b !! r = Some o → store b r o = b.
Proof.
  intros Ho. destruct b. unfold store. simpl in *. f_equal.
  by apply insert_id.
Qed.

Lemma set_levels_set_levels s b l l' :
  set_levels s (set_levels s b l) l' = set_levels s b l'.
Proof. by destruct s. Qed.

Lemma purge_level_twice s b p b' :
  purge_level s b p = Ok b' → purge_level s b' p = Ok b'.
Proof.
  intros H. pose proof H as H'.
  apply purge_level_inv in H' as [->|(lvl & lvl' & Hget & Hrm & ->)]; [done|].
  assert (Hp : purge_level s (set_levels s b (dict_set (levels_of s b) p lvl')) p
    = lvl2 ← PriceLevel.remove_filled (_orders b) lvl';
      Ok (set_levels s b (dict_set (levels_of s b) p lvl2))).
  { destruct s; unfold purge_level, purge_ask_level, purge_bid_level;
      cbn [_ask_levels _bid_levels set_levels set_ask_levels set_bid_levels
           _orders levels_of];
      rewrite dict_get_set_same; cbn [_orders];
      destruct (PriceLevel.remove_filled _ lvl'); try done;
      rewrite !res_bind_ret; by rewrite dict_set_set_same. }
  rewrite Hp.
  apply remove_filled_spec in Hrm as (_ & _ & _ & _ & ->).
  by rewrite res_bind_ret.
Qed.

Lemma cancel_order_purge b oid o :
  _orders b !! oid = Some o →
  cancel_order b oid =
    b1 ← match Order.price o with
         | Some p => purge_level (Order.side o)
                       (store b oid (Order.cancel o)) p
         | None => Ok (store b oid (Order.cancel o))
         end;
    Ok (b1, true).
Proof.
  intros Ho. unfold cancel_order. rewrite Ho.
  by destruct (Order.side o), (Order.price o).
Qed.

(** X15: cancelling is idempotent. A second [cancel_order] of the same id
    returns what the first returned and leaves the book as the first left
    it; for an id that the book does not know, [cancel_order] returns
    [False] and changes nothing. *)
Theorem cancel_order_twice b oid b1 r :
  cancel_order b oid = Ok (b1, r) →
  cancel_order b1 oid = Ok (b1, r) ∧
  (_orders b !! oid = None → b1 = b ∧ r = false).
Proof.
  intros H. destruct (_orders b !! oid) as [o|] eqn:Ho.
  2:{ unfold cancel_order in H. rewrite Ho in H. injection H as <- <-.
      split; [|done]. unfold cancel_order. by rewrite Ho. }
  split; [|done]. rewrite (cancel_order_purge _ _ _ Ho) in H.
  apply res_bind_Ok in H as (b2 & Hp & [= <- <-]).
  assert (Ho2 : _orders b2 !! oid = Some (Order.cancel o)).
  { destruct (Order.price o) as [p|].
    - apply purge_level_frame in Hp as (-> & _).
      by rewrite orders_store, lookup_insert_eq.
    - injection Hp as <-. by rewrite orders_store, lookup_insert_eq. }
  rewrite (cancel_order_purge _ _ _ Ho2).
  change (Order.cancel (Order.cancel o)) with (Order.cancel o).
  change (Order.price (Order.cancel o)) with (Order.price o).
  change (Order.side (Order.cancel o)) with (Order.side o).
  rewrite (store_same _ _ _ Ho2).
  destruct (Order.price o) as [p|]; [|done].
  by rewrite (purge_level_twice _ _ _ _ Hp).
Qed.

Lemma purge_level_cases s b p b' :
  purge_level s b p = Ok b' →
  (dict_get (levels_of s b) p = None ∧ b' = b) ∨
  ∃ lvl lvl', dict_get (levels_of s b) p = Some lvl ∧
    PriceLevel.remove_filled (_orders b) lvl = Ok lvl' ∧
    b' = set_levels s b (dict_set (levels_of s b) p lvl').
Proof.
  destruct s; unfold purge_level, purge_bid_level, purge_ask_level;
    cbn [levels_of set_levels].
  - destruct (dict_get (_bid_levels b) p) as [lvl|]; [|intros [= <-]; by left].
    intros (lvl' & Hrm & [= <-])%res_bind_Ok. right. eauto.
  - destruct (dict_get (_ask_levels b) p) as [lvl|]; [|intros [= <-]; by left].
    intros (lvl' & Hrm & [= <-])%res_bind_Ok. right. eauto.
Qed.

(** X16: [cancel_order] takes the order out of its price level. After a
    successful cancellation the order is cancelled with its quantities
    untouched, the level of its price no longer lists it, and the total
    quantity of that level is the sum of what its live orders have left. *)
Theorem cancel_order_cleans_level b oid o p b' :
  _orders b !! oid = Some o → Order.price o = Some p →
  cancel_order b oid = Ok (b', true) →
  _orders b' !! oid = Some (Order.cancel o) ∧
  ∀ lvl, dict_get (levels_of (Order.side o) b') p = Some lvl →
    (oid ∉ PriceLevel.orders lvl) ∧
    PriceLevel.total_quantity lvl =
      live_remaining (_orders b') (PriceLevel.orders lvl).
Proof.
  intros Ho Hp H. rewrite (cancel_order_purge _ _ _ Ho), Hp in H.
  apply res_bind_Ok in H as (b2 & Hpurge & [= <-]).
  pose proof (purge_level_frame _ _ _ _ Hpurge) as (Hor & _).
  rewrite Hor, orders_store. split; [by rewrite lookup_insert_eq|].
  intros lvl Hget.
  apply purge_level_cases in Hpurge as [[Hnone ->]|(l0 & l1 & Hget0 & Hrm & ->)].
  - congruence.
  - rewrite levels_of_set_levels, dict_get_set_same in Hget.
    injection Hget as <-. rewrite orders_store in Hrm.
    apply remove_filled_spec in Hrm as (_ & Hl & Ht & _).
    split; [|done]. rewrite Hl. intros Hin%list_elem_of_In.
    apply filter_In in Hin as [_ Hk]. unfold kept_ref in Hk.
    rewrite lookup_insert_eq in Hk. unfold PriceLevel.keeps in Hk. simpl in Hk.
    by rewrite andb_false_r in Hk.
Qed.

(** ** The trade history *)

(** X17: [get_trade_history(n)] returns the latest trades. For a positive [n]
    it returns the last [n] trades of the history in their order, all of
    them when there are fewer; for [n = 0] it returns the whole history, not
    an empty list. *)
Theorem trade_history_returns_latest b :
  get_trade_history b 0 = trades b ∧
  ∀ n, (0 < n)%Z →
    ∃ older, trades b = older ++ get_trade_history b n ∧
      length (get_trade_history b n) = Z.to_nat n `min` length (trades b).
Proof.
  split; [done|]. intros n Hn. unfold get_trade_history, slice_from.
  destruct (0 <=? - n)%Z eqn:E; [apply Z.leb_le in E; lia|].
  rewrite Z.opp_involutive.
  exists (take (length (trades b) - Z.to_nat n) (trades b)).
  split; [by rewrite take_drop|]. rewrite length_drop. lia.
Qed.

Ltac qeq_solve :=
  repeat match goal with
  | H : Qeq_bool _ _ = true |- _ => apply Qeq_bool_iff in H
  | H : Qeq_bool _ _ = false |- _ => apply Qeq_bool_false in H
  end;
  try done;
  try (exfalso; match goal with H : ¬ (_ == _)%Q |- _ => apply H; lra end).

Lemma bid_depth_loop_eq self heap d :
  bid_depth_loop self heap d = depth_loop BUY self heap d.
Proof.
  revert d. induction heap as [|[[k ts] r] heap IH]; intros d; [done|].
  cbn [bid_depth_loop depth_loop]. destruct (deref self r) as [o| |]; [|done..].
  rewrite !res_bind_ret. destruct (live o); apply IH.
Qed.

Lemma ask_depth_loop_eq self heap d :
  ask_depth_loop self heap d = depth_loop SELL self heap d.
Proof.
  revert d. induction heap as [|[[k ts] r] heap IH]; intros d; [done|].
  cbn [ask_depth_loop depth_loop]. destruct (deref self r) as [o| |]; [|done..].
  rewrite !res_bind_ret. destruct (live o); apply IH.
Qed.

Lemma get_depth_eq self levels :
  get_depth self levels =
    bid_depth ← depth_loop BUY self (_bid_heap self) [];
    ask_depth ← depth_loop SELL self (_ask_heap self) [];
    Ok (slice_to (sorted (depth_key BUY) bid_depth) levels,
        slice_to (sorted (depth_key SELL) ask_depth) levels).
Proof. unfold get_depth. by rewrite bid_depth_loop_eq, ask_depth_loop_eq. Qed.

(** *** Dictionaries keyed by prices *)

Lemma dict_get_proper {V} (d : list (Q * V)) p p' :
  (p == p')%Q → dict_get d p = dict_get d p'.
Proof.
  intros E. induction d as [|[k v] d IH]; [done|]. cbn [dict_get].
  rewrite IH.
  destruct (Qeq_bool p k) eqn:E1, (Qeq_bool p' k) eqn:E2; try done; qeq_solve.
Qed.

Lemma dict_get_set {V} (d : list (Q * V)) k v p :
  dict_get (dict_set d k v) p =
    if Qeq_bool p k then Some v else dict_get d p.
Proof.
  induction d as [|[k0 v0] d IH]; [done|]. cbn [dict_set dict_get].
  destruct (Qeq_bool k k0) eqn:E; cbn [dict_get].
  - destruct (Qeq_bool p k0) eqn:E1, (Qeq_bool p k) eqn:E2; try done; qeq_solve.
  - rewrite IH.
    destruct (Qeq_bool p k0) eqn:E1, (Qeq_bool p k) eqn:E2; try done; qeq_solve.
Qed.

Lemma dict_get_None {V} (d : list (Q * V)) p :
  dict_get d p = None ↔ ∀ kv, kv ∈ d → ¬ (p == kv.1)%Q.
Proof.
  induction d as [|[k v] d IH]; cbn [dict_get].
  - split; [|done]. intros _ kv Hin. by apply elem_of_nil in Hin.
  - destruct (Qeq_bool p k) eqn:E.
    + split; [done|]. intros H. exfalso. apply (H (k, v)); [by left|].
      by apply Qeq_bool_iff in E.
    + rewrite IH. split.
      * intros H kv [->|Hin]%elem_of_cons; [by apply Qeq_bool_false in E|].
        by apply H.
      * intros H kv Hin. apply H. by right.
Qed.

Lemma dict_get_Some {V} (d : list (Q * V)) p v :
  dict_get d p = Some v → ∃ k, (k, v) ∈ d ∧ (p == k)%Q.
Proof.
  induction d as [|[k0 v0] d IH]; cbn [dict_get]; [done|].
  destruct (Qeq_bool p k0) eqn:E.
  - intros [= <-]. exists k0. split; [by left|]. by apply Qeq_bool_iff in E.
  - intros (k & Hin & Hk)%IH. exists k. split; [by right|done].
Qed.

Lemma dict_set_keys {V} (d : list (Q * V)) k v kv :
  kv ∈ dict_set d k v →
  (kv.1 == k)%Q ∨ kv ∈ d.
Proof.
  induction d as [|[k0 v0] d IH]; cbn [dict_set].
  - intros ->%list_elem_of_singleton. by left.
  - destruct (Qeq_bool k k0) eqn:E.
    + intros [->|Hin]%elem_of_cons; [|right; by right].
      left. simpl. apply Qeq_bool_iff in E. lra.
    + intros [->|Hin]%elem_of_cons; [right; by left|].
      destruct (IH Hin); [by left|right; by right].
Qed.

Lemma dict_set_distinct (d : list (Q * Q)) k v :
  keys_distinct d → keys_distinct (dict_set d k v).
Proof.
  induction d as [|[k0 v0] d IH]; cbn [dict_set keys_distinct].
  - intros _. split; [|done]. intros kv Hin. by apply elem_of_nil in Hin.
  - intros [Hk Hd]. destruct (Qeq_bool k k0) eqn:E; cbn [keys_distinct].
    + done.
    + split; [|by apply IH]. intros kv [Heq|Hin]%dict_set_keys.
      * apply Qeq_bool_false in E. intros E'. apply E. lra.
      * by apply Hk.
Qed.

Lemma dict_get_elem_distinct (d : list (Q * Q)) k v :
  keys_distinct d → (k, v) ∈ d → dict_get d k = Some v.
Proof.
  induction d as [|[k0 v0] d IH]; cbn [keys_distinct dict_get].
  - intros _ Hin. by apply elem_of_nil in Hin.
  - intros [Hk Hd] [[= -> ->]|Hin]%elem_of_cons.
    + by rewrite Qeq_bool_refl.
    + destruct (Qeq_bool k k0) eqn:E; [|by apply IH].
      exfalso. apply (Hk _ Hin). simpl. apply Qeq_bool_iff in E. lra.
Qed.

Lemma dict_set_length {V} (d : list (Q * V)) k v :
  length (dict_set d k v) ≤ S (length d).
Proof.
  induction d as [|[k0 v0] d IH]; cbn [dict_set]; [simpl; lia|].
  destruct (Qeq_bool k k0); simpl in *; lia.
Qed.

(** *** The loop *)

Lemma Qsum_cons x l : (Qsum (x :: l) == x + Qsum l)%Q.
Proof. unfold Qsum. cbn [fold_left]. rewrite Qsum_acc. unfold Qsum. ring. Qed.

Lemma level_sum_cons s objs e heap p :
  (level_sum s objs (e :: heap) p ==
   match objs !! e.2 with
   | Some o => if live o && Qeq_bool (price_of_key s e.1.1) p
               then Order.remaining o else 0
   | None => 0
   end + level_sum s objs heap p)%Q.
Proof.
  unfold level_sum. cbn [omap list_omap].
  destruct (objs !! e.2) as [o|]; [|lra].
  destruct (live o && _); [apply Qsum_cons|lra].
Qed.

Lemma priced_live_cons s objs e heap p :
  priced_live s objs (e :: heap) p ↔
  (∃ o, objs !! e.2 = Some o ∧ live o = true ∧ (price_of_key s e.1.1 == p)%Q)
  ∨ priced_live s objs heap p.
Proof.
  split.
  - intros (e' & o & [->|Hin]%elem_of_cons & Ho & Hl & Hp).
    + left. eauto.
    + right. exists e', o. eauto.
  - intros [(o & Ho & Hl & Hp)|(e' & o & Hin & Ho & Hl & Hp)].
    + exists e, o. split; [by left|done].
    + exists e', o. split; [by right|done].
Qed.

Lemma depth_loop_spec s b heap d d' :
  depth_loop s b heap d = Ok d' →
  (keys_distinct d → keys_distinct d') ∧
  length d' ≤ length d + length heap ∧
  ∀ p, match dict_get d' p with
       | Some v =>
           (v == dict_get_or d p 0 + level_sum s (_orders b) heap p)%Q ∧
           (is_Some (dict_get d p) ∨ priced_live s (_orders b) heap p)
       | None =>
           dict_get d p = None ∧ ¬ priced_live s (_orders b) heap p
       end.
Proof.
  revert d. induction heap as [|[[k ts] r] heap IH]; intros d.
  { intros [= <-]. split; [done|]. split; [simpl; lia|]. intros p.
    unfold dict_get_or. destruct (dict_get d p) as [v|] eqn:E.
    - split; [unfold level_sum, Qsum; simpl; ring|]. left. eauto.
    - split; [done|]. intros (e & o & Hin & _). by apply elem_of_nil in Hin. }
  cbn [depth_loop]. intros (o & Ho%deref_Ok & H)%res_bind_Ok.
  set (pk := price_of_key s k) in *.
  destruct (live o) eqn:Hl.
  - apply IH in H as (Hd & Hlen & H).
    split; [intros Hk; by apply Hd, dict_set_distinct|].
    split.
    { pose proof (dict_set_length d pk
        (dict_get_or d pk 0 + Order.remaining o)%Q). simpl. lia. }
    intros p. specialize (H p). rewrite dict_get_set in H.
    unfold dict_get_or in H at 1. rewrite dict_get_set in H.
    pose proof (level_sum_cons s (_orders b) (k, ts, r) heap p) as Hls.
    cbn [fst snd] in Hls. rewrite Ho, Hl in Hls. cbn [andb] in Hls.
    fold pk in Hls.
    destruct (Qeq_bool p pk) eqn:E.
    + assert (E' : Qeq_bool pk p = true).
      { apply Qeq_bool_iff. apply Qeq_bool_iff in E. lra. }
      rewrite E' in Hls.
      destruct (dict_get d' p) as [v|]; [|by destruct H].
      destruct H as [Hv _]. split.
      * unfold dict_get_or in *.
        rewrite (dict_get_proper d p pk) by (by apply Qeq_bool_iff in E).
        lra.
      * right. apply priced_live_cons. left. exists o.
        split; [done|]. split; [done|].
        apply Qeq_bool_iff in E. simpl. fold pk. lra.
    + assert (E' : Qeq_bool pk p = false).
      { apply Qeq_bool_false. apply Qeq_bool_false in E. intros ?. apply E. lra. }
      rewrite E' in Hls. destruct (dict_get d' p) as [v|].
      * destruct H as [Hv Hs]. split; [unfold dict_get_or in *; lra|].
        destruct Hs; [by left|right; apply priced_live_cons; by right].
      * destruct H as [Hn Hnp]. split; [done|].
        intros [(o' & Ho' & _ & Hp)|?]%priced_live_cons; [|done].
        apply Qeq_bool_false in E'. by apply E'.
  - apply IH in H as (Hd & Hlen & H). split; [done|]. split; [simpl; lia|].
    intros p. specialize (H p).
    pose proof (level_sum_cons s (_orders b) (k, ts, r) heap p) as Hls.
    cbn [fst snd] in Hls. rewrite Ho, Hl in Hls. cbn [andb] in Hls.
    destruct (dict_get d' p) as [v|].
    + destruct H as [Hv Hs]. split; [lra|].
      destruct Hs; [by left|right; apply priced_live_cons; by right].
    + destruct H as [Hn Hnp]. split; [done|].
      intros [(o' & Ho' & Hl' & _)|?]%priced_live_cons; [|done].
      simpl in Ho'. congruence.
Qed.

Lemma depth_loop_total s b heap d :
  (∀ e, e ∈ heap → is_Some (_orders b !! e.2)) →
  ∃ d', depth_loop s b heap d = Ok d'.
Proof.
  revert d. induction heap as [|[[k ts] r] heap IH]; intros d Hall; [by eexists|].
  cbn [depth_loop]. destruct (Hall (k, ts, r)) as [o Ho]; [by left|].
  simpl in Ho. rewrite (proj2 (deref_Ok _ _ _) Ho), res_bind_ret.
  destruct (live o); apply IH; intros e He; apply Hall; by right.
Qed.

(** *** Sorting and slicing *)

Lemma sorted_insert_perm key x l : sorted_insert key x l ≡ₚ x :: l.
Proof.
  induction l as [|y l IH]; cbn [sorted_insert]; [done|].
  destruct (Qlt_bool (key x) (key y)); [done|].
  rewrite IH. apply Permutation_swap.
Qed.

Lemma sorted_fold_perm key l acc :
  fold_left (λ acc x, sorted_insert key x acc) l acc ≡ₚ l ++ acc.
Proof.
  revert acc. induction l as [|x l IH]; intros acc; cbn [fold_left]; [done|].
  rewrite IH, sorted_insert_perm. symmetry. apply Permutation_middle.
Qed.

Lemma sorted_perm key l : sorted key l ≡ₚ l.
Proof. unfold sorted. by rewrite sorted_fold_perm, app_nil_r. Qed.

Lemma sorted_insert_strict key x l :
  StronglySorted (λ a b, (key a < key b)%Q) l →
  (∀ y, y ∈ l → ¬ (key x == key y)%Q) →
  StronglySorted (λ a b, (key a < key b)%Q) (sorted_insert key x l).
Proof.
  induction l as [|y l IH]; cbn [sorted_insert]; intros Hs Hne.
  { constructor; [constructor|constructor]. }
  apply StronglySorted_inv in Hs as [Hs Hy].
  destruct (Qlt_bool (key x) (key y)) eqn:E.
  - apply Qlt_bool_true in E. constructor; [by constructor|].
    constructor; [done|]. eapply Forall_impl; [exact Hy|].
    intros z Hz. simpl in *. lra.
  - apply Qlt_bool_false in E.
    assert (Hlt : (key y < key x)%Q).
    { destruct (Qlt_le_dec (key y) (key x)) as [|Hle]; [done|].
      exfalso. apply (Hne y); [by left|]. lra. }
    constructor.
    + apply IH; [done|]. intros z Hz. apply Hne. by right.
    + rewrite sorted_insert_perm. by constructor.
Qed.

Lemma depth_key_eq s x y :
  (depth_key s x == depth_key s y)%Q ↔ (x.1 == y.1)%Q.
Proof. destruct s; simpl; split; intros; lra. Qed.

Lemma sorted_fold_strict s l acc :
  StronglySorted (λ a b, (depth_key s a < depth_key s b)%Q) acc →
  keys_distinct l →
  (∀ x y, x ∈ l → y ∈ acc → ¬ (x.1 == y.1)%Q) →
  StronglySorted (λ a b, (depth_key s a < depth_key s b)%Q)
    (fold_left (λ acc x, sorted_insert (depth_key s) x acc) l acc).
Proof.
  revert acc. induction l as [|[k v] l IH]; intros acc Hs Hd Hne;
    cbn [fold_left]; [done|].
  destruct Hd as [Hk Hd]. apply IH; [|done|].
  - apply sorted_insert_strict; [done|]. intros y Hy.
    rewrite depth_key_eq. apply Hne; [by left|done].
  - intros x y Hx Hy. rewrite sorted_insert_perm in Hy.
    apply elem_of_cons in Hy as [->|Hy].
    + intros E. apply (Hk x Hx). simpl in *. lra.
    + apply Hne; [by right|done].
Qed.

Lemma sorted_strict s d :
  keys_distinct d →
  StronglySorted (λ a b, (depth_key s a < depth_key s b)%Q)
    (sorted (depth_key s) d).
Proof.
  intros Hd. apply sorted_fold_strict; [constructor|done|].
  intros x y _ Hy. by apply elem_of_nil in Hy.
Qed.

Lemma slice_to_prefix {A} (l : list A) n : ∃ rest, l = slice_to l n ++ rest.
Proof.
  unfold slice_to. destruct (0 <=? n)%Z; eexists; symmetry; apply take_drop.
Qed.

Lemma slice_to_length {A} (l : list A) n :
  (0 <= n)%Z → length (slice_to l n) = Z.to_nat n `min` length l.
Proof.
  intros Hn. unfold slice_to.
  destruct (0 <=? n)%Z eqn:E; [|apply Z.leb_gt in E; lia].
  apply length_take.
Qed.

Lemma StronglySorted_prefix {A} (R : A → A → Prop) l1 l2 :
  StronglySorted R (l1 ++ l2) → StronglySorted R l1.
Proof.
  induction l1 as [|x l1 IH]; simpl; [constructor|].
  intros [Hs Hx]%StronglySorted_inv.
  constructor; [by apply IH|]. by apply Forall_app in Hx as [? _].
Qed.

Lemma StronglySorted_across {A} (R : A → A → Prop) l1 l2 x y :
  StronglySorted R (l1 ++ l2) → x ∈ l1 → y ∈ l2 → R x y.
Proof.
  induction l1 as [|z l1 IH]; simpl.
  { intros _ Hx. by apply elem_of_nil in Hx. }
  intros [Hs Hz]%StronglySorted_inv [->|Hx]%elem_of_cons Hy.
  - rewrite Forall_forall in Hz. apply Hz, elem_of_app. by right.
  - by apply IH.
Qed.

Lemma level_sum_pos s objs heap p :
  (∀ e o, e ∈ heap → objs !! e.2 = Some o → live o = true →
          (0 < Order.remaining o)%Q) →
  priced_live s objs heap p → (0 < level_sum s objs heap p)%Q.
Proof.
  intros Hpos. induction heap as [|e heap IH].
  { intros (e & o & Hin & _). by apply elem_of_nil in Hin. }
  intros Hp. rewrite level_sum_cons.
  assert (Hrest : (0 <= level_sum s objs heap p)%Q).
  { clear IH Hp. induction heap as [|e' heap IH'].
    - unfold level_sum, Qsum. simpl. lra.
    - rewrite level_sum_cons.
      assert (0 <= level_sum s objs heap p)%Q.
      { apply IH'. intros e0 o0 Hin. apply Hpos.
        apply elem_of_cons in Hin as [->|Hin]; [by left|]. right. by right. }
      destruct (objs !! e'.2) as [o|] eqn:Ho; [|lra].
      destruct (live o) eqn:Hl; cbn [andb]; [|lra].
      destruct (Qeq_bool _ _); [|lra].
      assert (0 < Order.remaining o)%Q; [|lra].
      apply (Hpos e' o); [right; by left|done..]. }
  apply priced_live_cons in Hp as [(o & Ho & Hl & Hpe)|Hp].
  - rewrite Ho, Hl. cbn [andb].
    rewrite (proj2 (Qeq_bool_iff _ _) Hpe).
    assert (0 < Order.remaining o)%Q; [|lra].
    apply (Hpos e o); [by left|done..].
  - assert (0 < level_sum s objs heap p)%Q.
    { apply IH; [|done]. intros e0 o0 Hin. apply Hpos. by right. }
    destruct (objs !! e.2) as [o|] eqn:Ho; [|lra].
    destruct (live o) eqn:Hl; cbn [andb]; [|lra].
    destruct (Qeq_bool _ _); [|lra].
    assert (0 < Order.remaining o)%Q; [|lra].
    apply (Hpos e o); [by left|done..].
Qed.

Lemma live_remaining_pos o : live o = true → (0 < Order.remaining o)%Q.
Proof.
  unfold live. intros [_ H]%andb_true_iff. by apply Qlt_bool_true.
Qed.

Lemma depth_side s b levels d :
  depth_loop s b (heap_of s b) [] = Ok d →
  depth_of s b levels (slice_to (sorted (depth_key s) d) levels).
Proof.
  intros Hloop.
  apply depth_loop_spec in Hloop as (Hdist & _ & Hspec).
  specialize (Hdist I).
  pose proof (sorted_strict s d Hdist) as Hsorted.
  pose proof (sorted_perm (depth_key s) d) as Hperm.
  destruct (slice_to_prefix (sorted (depth_key s) d) levels) as [rest Hpre].
  set (out := slice_to (sorted (depth_key s) d) levels) in *.
  assert (Hin : ∀ x, x ∈ out → x ∈ d).
  { intros x Hx. rewrite <- Hperm, Hpre. apply elem_of_app. by left. }
  assert (Hget : ∀ p v, (p, v) ∈ d →
    priced_live s (_orders b) (heap_of s b) p ∧
    (v == level_sum s (_orders b) (heap_of s b) p)%Q).
  { intros p v Hpv. pose proof (Hspec p) as Hp.
    rewrite (dict_get_elem_distinct d p v Hdist Hpv) in Hp.
    destruct Hp as [Hv [[? [=]]|Hlive]]. split; [done|].
    unfold dict_get_or in Hv. simpl in Hv. lra. }
  split.
  - rewrite Hpre in Hsorted. apply StronglySorted_prefix in Hsorted.
    eapply StronglySorted_ind with (P := λ l, StronglySorted _ l);
      [constructor| |exact Hsorted].
    intros x l _ IH Hx. constructor; [done|].
    eapply Forall_impl; [exact Hx|]. intros y. destruct s; simpl; lra.
  - intros Hn. unfold out. rewrite slice_to_length by done. lia.
  - intros p v Hpv. destruct (Hget p v (Hin _ Hpv)) as [Hlive Hv].
    split; [done|]. split; [|done]. rewrite Hv.
    apply level_sum_pos; [|done]. intros e o _ _. apply live_remaining_pos.
  - intros p Hlive. pose proof (Hspec p) as Hp.
    destruct (dict_get d p) as [v|] eqn:Hd; [|by destruct Hp].
    apply dict_get_Some in Hd as (k & Hk & Hpk).
    assert (Hks : (k, v) ∈ out ++ rest) by (by rewrite <- Hpre, Hperm).
    apply elem_of_app in Hks as [Hks|Hks].
    { left. exists k, v. split; [done|]. lra. }
    destruct (Z_lt_le_dec levels 0) as [|Hn]; [by right; right|].
    right; left. split; [done|].
    assert (Hlen : length out = Z.to_nat levels).
    { unfold out. rewrite slice_to_length by done.
      assert (length rest ≠ 0) by (destruct rest; [by apply elem_of_nil in Hks|done]).
      assert (length (sorted (depth_key s) d) = length out + length rest).
      { rewrite Hpre at 1. apply length_app. }
      unfold out in *. rewrite slice_to_length in * by done. lia. }
    split; [done|]. intros x Hx. rewrite Hpre in Hsorted.
    pose proof (StronglySorted_across _ _ _ _ _ Hsorted Hx Hks) as Hlt.
    destruct s; simpl in *; lra.
Qed.

Lemma get_depth_sides b levels d :
  get_depth b levels = Ok d →
  ∀ s, depth_of s b levels (depth_side_of s d).
Proof.
  rewrite get_depth_eq.
  intros (bd & Hb & H)%res_bind_Ok.
  apply res_bind_Ok in H as (ad & Ha & [= <-]).
  intros []; simpl.
  - by apply (depth_side BUY).
  - by apply (depth_side SELL).
Qed.

Lemma get_depth_total b levels :
  wf b → ∃ d, get_depth b levels = Ok d.
Proof.
  intros Hwf. rewrite get_depth_eq.
  destruct (depth_loop_total BUY b (_bid_heap b) []) as [bd Hb].
  { intros [[k ts] r] He.
    destruct (wf_heap _ Hwf BUY k ts r He) as (o & p & Ho & _). by exists o. }
  destruct (depth_loop_total SELL b (_ask_heap b) []) as [ad Ha].
  { intros [[k ts] r] He.
    destruct (wf_heap _ Hwf SELL k ts r He) as (o & p & Ho & _). by exists o. }
  rewrite Hb, Ha, !res_bind_ret. by eexists.
Qed.

(** X18: [get_depth] lists the live prices of each side, best first. After any
    run [get_depth] returns, and each of the two lists it returns holds
    prices of live orders of that side's heap, every price once, bids in
    descending and asks in ascending order; beside each price stands the
    sum, positive, of what the live orders at that price have left; for a
    [levels] that is not negative a list has at most [levels] entries, and
    a live price that is missing is worse than all the listed ones. *)
Theorem get_depth_lists_live_prices cs s levels :
  run start cs = Ok s →
  ∃ bids asks, get_depth (book s) levels = Ok (bids, asks) ∧
    depth_of BUY (book s) levels bids ∧ depth_of SELL (book s) levels asks.
Proof.
  intros Hrun. apply run_start_ok in Hrun as [Hwf _].
  destruct (get_depth_total (book s) levels Hwf) as [[bids asks] Hd].
  exists bids, asks. split; [done|].
  pose proof (get_depth_sides _ _ _ Hd) as Hs.
  split; [apply (Hs BUY)|apply (Hs SELL)].
Qed.

Lemma best_extreme_priced s b b' v x :
  wf b → best s b = Ok (b', v) →
  priced_live s (_orders b) (heap_of s b) x →
  ∃ p, v = Some p ∧
       match s with BUY => (x <= p)%Q | SELL => (p <= x)%Q end.
Proof.
  intros Hwf Hbest ([[k ts] r] & o & Hin & Ho & Hl & Hx).
  destruct (best_loop_extreme s _ _ _ _ (wf_heap_ok _ Hwf s)
              (wf_nodup _ Hwf s) Hbest k ts r o Hin Ho Hl)
    as (k0 & -> & Hle).
  exists (price_of_key s k0). split; [done|].
  destruct s; simpl in *; lra.
Qed.

Lemma best_priced_live s b b' p :
  wf b → best s b = Ok (b', Some p) →
  priced_live s (_orders b) (heap_of s b) p.
Proof.
  intros Hwf Hbest.
  apply best_loop_quoted in Hbest
    as (k & ts & r & o & p' & Hin & Ho & _ & Hl & Hp & Heq); [|done].
  exists (k, ts, r), o. split; [done|]. split; [done|]. split; [done|].
  destruct (wf_heap _ Hwf _ _ _ _ Hin) as (o' & p'' & Ho' & _ & Hp' & -> & _).
  assert (o' = o) as -> by congruence. assert (p'' = p') as -> by congruence.
  simpl. rewrite price_of_key_of. lra.
Qed.

(** X19: the depth starts at the best price. After any run, for a positive
    [levels], the first entry of the bids that [get_depth] returns carries
    the price that [best_bid] reports and the first entry of the asks the
    price that [best_ask] reports; a side is listed empty exactly when its
    best price is absent. *)
Theorem depth_starts_at_best_price cs s side levels d b1 v :
  run start cs = Ok s → (0 < levels)%Z →
  get_depth (book s) levels = Ok d →
  best_price side (book s) = Ok (b1, v) →
  match v with
  | None => depth_side_of side d = []
  | Some p => ∃ p' q rest,
      depth_side_of side d = (p', q) :: rest ∧ (p' == p)%Q
  end.
Proof.
  intros Hrun Hlev Hd Hbest. apply run_start_ok in Hrun as [Hwf _].
  rewrite best_price_eq in Hbest.
  pose proof (get_depth_sides _ _ _ Hd side) as [Hsorted Hlen Hsound Hcompl].
  set (out := depth_side_of side d) in *.
  assert (Hbound : ∀ x, x ∈ out → ∃ p, v = Some p ∧
            match side with BUY => (x.1 <= p)%Q | SELL => (p <= x.1)%Q end).
  { intros [xp xq] Hx. destruct (Hsound _ _ Hx) as (Hlive & _).
    by apply (best_extreme_priced side (book s) b1). }
  destruct v as [p|].
  2:{ destruct out as [|x out']; [done|].
      destruct (Hbound x) as (p & [=] & _). by left. }
  pose proof (best_priced_live _ _ _ _ Hwf Hbest) as Hlive.
  destruct (Hcompl p Hlive) as [(p' & q & Hin & Hp)|[(_ & Hfull & Hworse)|?]];
    [| |lia].
  - destruct out as [|[hp hq] rest] eqn:Hout; [by apply elem_of_nil in Hin|].
    exists hp, hq, rest. split; [done|].
    apply elem_of_cons in Hin as [[= -> ->]|Hin]; [done|].
    apply StronglySorted_inv in Hsorted as [_ Hhd].
    rewrite Forall_forall in Hhd. specialize (Hhd _ Hin).
    destruct (Hbound (hp, hq)) as (p0 & [= <-] & Hle); [by left|].
    destruct side; simpl in *; lra.
  - destruct out as [|x rest] eqn:Hout; [simpl in Hfull; lia|].
    destruct (Hbound x) as (p0 & [= <-] & Hle); [by left|].
    specialize (Hworse x (list_elem_of_here _ _)).
    destruct side; simpl in *; lra.
Qed.

(** ** Orders that tie *)

Lemma heappush_tie k ts r1 r2 :
  r1 ≠ r2 → heapq.heappush [(k, ts, r1)] (k, ts, r2) = TypeError.
Proof.
  intros Hne. unfold heapq.heappush. cbn [app length Nat.sub].
  rewrite siftdown_S. cbn [Nat.ltb Nat.leb].
  change (parent 1) with 0. cbn [lookup list_lookup].
  unfold heapq.lt. rewrite !Qeq_bool_refl. cbn [negb].
  destruct (Nat.eqb_spec r2 r1) as [->|_]; done.
Qed.

Lemma fills_nothing s a b T b' T' :
  fills s a b T b' T' → heap_of s b = [] → b' = b ∧ T' = T.
Proof.
  intros [b0 T0|b0 T0 b1 ot b2 T2 Hs Hf] Hh; [done|].
  unfold fill_step in Hs. rewrite Hh in Hs.
  by destruct (deref b0 a).
Qed.

(** The first limit order on an empty book comes to rest alone. *)
Lemma first_limit_rests side q p t tr :
  (0 < q)%Q →
  ∃ s1, submit start side LIMIT q (Some p) t tr = Ok (s1, []) ∧
    id_counter s1 = 1 ∧
    heap_of side (book s1) = [(key_of side p, t, 1)] ∧
    heap_of (opposite side) (book s1) = [] ∧
    _orders (book s1) !! 2 = None.
Proof.
  intros Hq.
  destruct (submit_total start [] side LIMIT q (Some p) t tr)
    as (s1 & new & Hsub & _);
    [apply session_ok_start|apply ties_ok_start|by eexists| |].
  { intros t' Ht'. by apply elem_of_nil in Ht'. }
  pose proof (submit_cases _ _ _ _ _ _ _ _ _ session_ok_start sound_start Hsub)
    as (b1 & b2 & Hwf0 & Hnr & Hf & Htr & Hs & Hb & Hc).
  cbn zeta in *.
  set (order := (Order.__init__ (id_counter start) t side LIMIT q (Some p) tr).1)
    in *.
  change (id_counter start) with 0 in *.
  apply fills_nothing in Hf as [-> ->]; [|by destruct side].
  exists s1. split; [done|]. split; [done|]. rewrite Hb.
  rewrite !heap_of_with_history. cbn [with_history _orders].
  assert (Ho : _orders (store (book start) 1 order) !! 1 = Some order).
  { by rewrite orders_store, lookup_insert_eq. }
  destruct Hs as [o Hty Ho1 Hrem|o Hty Ho1 Hrem Hhe|o Hty Ho1 Hn
                 |o p1 b3 Hty Ho1 Hrem Hst Hp Hm Hadd]; try done.
  - assert (o = order) as -> by congruence. destruct Hn. by split.
  - apply add_to_heaps in Hadd as (Hor & Hh & o' & p' & Ho' & Hp' & Hperm).
    rewrite opposite_involutive in *.
    assert (o' = order) as -> by congruence.
    assert (p' = p) as -> by (simpl in Hp'; congruence).
    rewrite heap_of_store in Hperm, Hh.
    split; [|split].
    + replace (heap_of side (book start)) with (@nil (Q * Q * nat)) in Hperm
        by (by destruct side).
      by apply Permutation_singleton_r in Hperm.
    + rewrite Hh. by destruct side.
    + rewrite Hor, orders_store. by rewrite lookup_insert_ne.
Qed.

(** X20: two resting orders that tie on price and timestamp make [add_order]
    raise. On an empty book, when two limit orders of the same side, of
    positive quantities, carry the same price and the same timestamp, the
    first is accepted and the second raises [TypeError]: [heapq] has to
    order the two order objects, which define no order. *)
Theorem equal_price_and_timestamp_raise side p t q1 q2 tr1 tr2 :
  (0 < q1)%Q → (0 < q2)%Q →
  run start [Submit side LIMIT q1 (Some p) t tr1;
             Submit side LIMIT q2 (Some p) t tr2] = TypeError.
Proof.
  intros Hq1 Hq2.
  destruct (first_limit_rests side q1 p t tr1 Hq1)
    as (s1 & Hsub1 & Hc & Hown & Hopp & Hfresh).
  cbn [run step]. rewrite Hsub1, !res_bind_ret. cbn beta iota.
  pose (order := Order.mk 2 side LIMIT q2 (Some p) t q2 0 tr2 st_open).
  assert (Hsub : submit s1 side LIMIT q2 (Some p) t tr2 = TypeError);
    [|by rewrite Hsub].
  unfold submit. rewrite Hc.
  change (Order.__init__ 1 t side LIMIT q2 (Some p) tr2) with (order, 2).
  cbn beta iota.
  assert (Hadd : add_order (book s1) order = TypeError); [|by rewrite Hadd].
  rewrite add_order_limit by done.
  change (Order.id order) with 2. change (Order.side order) with side.
  set (b0 := store (book s1) 2 order).
  assert (Hd : deref b0 2 = Ok order).
  { apply deref_Ok. unfold b0. by rewrite orders_store, lookup_insert_eq. }
  assert (Hlim : limit_side (opposite side) b0 2 = TypeError);
    [|by rewrite Hlim].
  unfold limit_side.
  assert (Hh0 : heap_of (opposite side) b0 = []).
  { unfold b0. by rewrite heap_of_store. }
  rewrite Hh0. cbn [length].
  rewrite limit_loop_S, Hd, res_bind_ret.
  change (Order.remaining order) with q2.
  rewrite (proj2 (Qlt_bool_true 0 q2) Hq2). cbn [negb].
  rewrite Hh0, res_bind_ret. cbn beta iota.
  rewrite Hd, res_bind_ret. change (Order.remaining order) with q2.
  rewrite (proj2 (Qlt_bool_true 0 q2) Hq2).
  change (Order.status order) with st_open. cbn [andb negb bool_decide].
  rewrite opposite_involutive. unfold add_to.
  rewrite Hd, res_bind_ret. change (Order.price order) with (Some p).
  cbn [number]. rewrite res_bind_ret.
  rewrite heap_of_set_levels. unfold b0. rewrite heap_of_store, Hown.
  change (Order.timestamp order) with t.
  by rewrite heappush_tie.
Qed.











Lemma paired_kept b b' t : orders_kept b b' → paired b t → paired b' t.
Proof.
  intros Hk (ob & os & Hb & Hs & Hsb & Hss & Hq & Hlb & Hls).
  destruct (Hk _ _ Hb) as (ob' & Hb' & (_ & Hsb' & Htb' & _ & Hpb' & _)).
  destruct (Hk _ _ Hs) as (os' & Hs' & (_ & Hss' & Hts' & _ & Hps' & _)).
  exists ob', os'. split; [done|]. split; [done|].
  split; [congruence|]. split; [congruence|]. split; [done|].
  rewrite Htb', Hpb', Hts', Hps'. by split.
Qed.

Lemma step_paired s c s' :
  session_ok s → sound s ∧ history_paired s → step s c = Ok s' →
  sound s' ∧ history_paired s'.
Proof.
  intros Hok [Hsd Hpair] Hstep. split; [by eapply step_sound|].
  pose proof Hok as [Hwf Hdom].
  pose proof (step_kept _ _ _ Hok Hstep) as [Hkept _].
  assert (Hkeep : trades (book s') = trades (book s) → history_paired s').
  { intros Ht t Hin. rewrite Ht in Hin.
    eapply paired_kept; [exact Hkept|by apply Hpair]. }
  destruct c; simpl in Hstep.
  - apply res_bind_Ok in Hstep as ([s1 new] & H & [= <-]).
    pose proof (submit_spec _ _ _ _ _ _ _ _ _ Hok H)
      as (_ & _ & Hnew & Htr & _ & oa & Hoa & Hida).
    apply submit_cases in H as (b1 & b2 & _ & _ & _ & [_ _ HT] & _);
      [|done..].
    cbn zeta in *.
    set (order := (Order.__init__ (id_counter s) now side order_type quantity
                     price trader_id).1) in *.
    intros t Hin. rewrite Htr in Hin. apply elem_of_app in Hin as [Hin|Hin].
    { eapply paired_kept; [exact Hkept|by apply Hpair]. }
    rewrite Forall_forall in Hnew, HT.
    destruct (Hnew t Hin) as (Hagg & _ & op & p & Hop & Hsp & Hpp & Hprice).
    destruct (HT t Hin) as [Hq Hlim].
    destruct Hida as (_ & Hsa & Hta & _ & Hpa & _).
    change (Order.side order) with side in Hsa.
    unfold within_limit in Hlim. rewrite <- Hta, <- Hpa in Hlim.
    destruct side; simpl in Hagg, Hop, Hsp, Hlim.
    + exists oa, op. rewrite Hagg. split; [done|]. split; [done|].
      split; [done|]. split; [done|]. split; [done|]. split; [done|].
      intros _ L HL. assert (L = p) as -> by congruence. lra.
    + exists op, oa. rewrite Hagg. split; [done|]. split; [done|].
      split; [done|]. split; [done|]. split; [done|]. split; [|done].
      intros _ L HL. assert (L = p) as -> by congruence. lra.
  - apply res_bind_Ok in Hstep as ([b r] & H & [= <-]). simpl in *.
    apply Hkeep. simpl.
    by pose proof (cancel_order_spec _ _ _ _ Hwf H) as (_ & _ & (Ht & _) & _).
  - rewrite best_bid_eq in Hstep.
    apply res_bind_Ok in Hstep as ([b r] & H & [= <-]). simpl in *.
    apply Hkeep. simpl.
    pose proof (best_spec _ _ _ _ Hwf H) as [_ Hfr]. apply (fr_trades _ _ _ Hfr).
  - rewrite best_ask_eq in Hstep.
    apply res_bind_Ok in Hstep as ([b r] & H & [= <-]). simpl in *.
    apply Hkeep. simpl.
    pose proof (best_spec _ _ _ _ Hwf H) as [_ Hfr]. apply (fr_trades _ _ _ Hfr).
  - apply res_bind_Ok in Hstep as ([b r] & H & [= <-]). simpl in *.
    apply Hkeep. simpl.
    by pose proof (spread_spec _ _ _ Hwf H) as (_ & _ & Ht & _).
  - apply res_bind_Ok in Hstep as ([b r] & H & [= <-]). simpl in *.
    apply Hkeep. simpl.
    by pose proof (mid_price_spec _ _ _ Hwf H) as (_ & _ & Ht & _).
Qed.

(** X22: every trade joins a buy order with a sell order. After any run, each
    trade of the history names as buyer a buy order and as seller a sell
    order of the index, it has a positive quantity, and its price is at or
    below the limit of a limit buyer and at or above the limit of a limit
    seller. *)
Theorem trades_join_buyer_and_seller cs s t :
  run start cs = Ok s → t ∈ trades (book s) → paired (book s) t.
Proof.
  intros Hrun.
  apply (run_inv (λ s, sound s ∧ history_paired s)) in Hrun.
  - destruct Hrun as [_ H]. apply H.
  - split; [apply sound_start|]. intros t0 Hin. by apply elem_of_nil in Hin.
  - intros s0 c s1 Hok HP. by apply step_paired.
Qed.

Lemma live_remaining_nil objs : live_remaining objs [] = 0%Q.
Proof. reflexivity. Qed.

Lemma live_remaining_cons objs r refs :
  (live_remaining objs (r :: refs) ==
   live_left objs r + live_remaining objs refs)%Q.
Proof.
  unfold live_remaining, live_left. cbn [omap list_omap].
  destruct (objs !! r) as [o|]; [destruct (live o)|].
  - apply Qsum_cons.
  - ring.
  - ring.
Qed.

Lemma live_remaining_snoc objs refs r :
  (live_remaining objs (refs ++ [r]) ==
   live_remaining objs refs + live_left objs r)%Q.
Proof.
  induction refs as [|x refs IH]; cbn [app].
  - rewrite live_remaining_cons, !live_remaining_nil. ring.
  - rewrite !live_remaining_cons, IH. ring.
Qed.

Lemma live_remaining_mono objs objs' refs :
  (∀ r, r ∈ refs → (live_left objs' r <= live_left objs r)%Q) →
  (live_remaining objs' refs <= live_remaining objs refs)%Q.
Proof.
  induction refs as [|x refs IH]; intros H.
  - rewrite !live_remaining_nil. lra.
  - rewrite !live_remaining_cons.
    assert (live_left objs' x <= live_left objs x)%Q by (apply H; by left).
    assert (live_remaining objs' refs <= live_remaining objs refs)%Q.
    { apply IH. intros r Hr. apply H. by right. }
    lra.
Qed.

Lemma elem_of_filter_bool {A} (f : A → bool) l x :
  x ∈ List.filter f l ↔ x ∈ l ∧ f x = true.
Proof. rewrite !list_elem_of_In. apply filter_In. Qed.

Lemma StronglySorted_filter_bool {A} (R : A → A → Prop) (f : A → bool) l :
  StronglySorted R l → StronglySorted R (List.filter f l).
Proof.
  induction l as [|x l IH]; cbn [List.filter]; [done|].
  intros [Hs Hx]%StronglySorted_inv.
  destruct (f x); [|by apply IH].
  constructor; [by apply IH|]. rewrite Forall_forall in Hx |- *.
  intros y [Hy _]%elem_of_filter_bool. by apply Hx.
Qed.

Lemma StronglySorted_snoc l a :
  StronglySorted lt l → (∀ r, r ∈ l → r < a) → StronglySorted lt (l ++ [a]).
Proof.
  induction l as [|x l IH]; cbn [app]; intros Hs Ha.
  { constructor; [constructor|constructor]. }
  apply StronglySorted_inv in Hs as [Hs Hx].
  constructor.
  - apply IH; [done|]. intros r Hr. apply Ha. by right.
  - apply Forall_app. split; [done|]. apply Forall_singleton. apply Ha. by left.
Qed.

Lemma kept_ref_live objs r :
  kept_ref objs r = true ↔ ∃ o, objs !! r = Some o ∧ live o = true.
Proof.
  unfold kept_ref. destruct (objs !! r) as [o|].
  - rewrite keeps_live. split; [eauto|]. by intros (o' & [= <-] & ?).
  - split; [done|]. by intros (o' & [=] & _).
Qed.

(** A step of the book that purges some levels and leaves the others as they
    are keeps the levels exact, when no order comes to life, no live order
    gains quantity or loses its heap entry, and only purged levels list
    orders that are no longer live. *)
Lemma exact_general b b' :
  levels_exact b →
  (∀ s e, e ∈ heap_of s b' → e ∈ heap_of s b) →
  (∀ s e o', e ∈ heap_of s b → _orders b' !! e.2 = Some o' → live o' = true →
     e ∈ heap_of s b' ∧
     ∃ o, _orders b !! e.2 = Some o ∧ live o = true ∧
          (Order.remaining o' <= Order.remaining o)%Q) →
  (∀ s p,
     (∃ lvl lvl', dict_get (levels_of s b) p = Some lvl ∧
        dict_get (levels_of s b') p = Some lvl' ∧
        PriceLevel.remove_filled (_orders b') lvl = Ok lvl') ∨
     (dict_get (levels_of s b') p = dict_get (levels_of s b) p ∧
      ∀ lvl r, dict_get (levels_of s b) p = Some lvl →
        r ∈ PriceLevel.orders lvl →
        ∃ o', _orders b' !! r = Some o' ∧ live o' = true)) →
  levels_exact b'.
Proof.
  intros [Hlive Hlisted Hfifo Htotal] G1 G2 G3. split.
  - intros s p lvl' r Hget Hr.
    destruct (G3 s p) as [(lvl & lvl0 & Hold & Hnew & Hrm)|[Hsame Hkeep]].
    + assert (lvl0 = lvl') as -> by congruence.
      apply remove_filled_spec in Hrm as (_ & Hord & _).
      rewrite Hord in Hr. apply elem_of_filter_bool in Hr as [Hr Hk].
      apply kept_ref_live in Hk as (o' & Ho' & Hl').
      destruct (Hlive s p lvl r Hold Hr) as (k & ts & o & Hin & Ho & Hl & Hp).
      destruct (G2 s (k, ts, r) o' Hin Ho' Hl') as [Hin' _].
      by exists k, ts, o'.
    + rewrite Hsame in Hget.
      destruct (Hkeep lvl' r Hget Hr) as (o' & Ho' & Hl').
      destruct (Hlive s p lvl' r Hget Hr) as (k & ts & o & Hin & Ho & Hl & Hp).
      destruct (G2 s (k, ts, r) o' Hin Ho' Hl') as [Hin' _].
      by exists k, ts, o'.
  - intros s k ts r o' Hin' Ho' Hl'.
    pose proof (G1 s _ Hin') as Hin.
    destruct (G2 s (k, ts, r) o' Hin Ho' Hl') as (_ & o & Ho & Hl & _).
    destruct (Hlisted s k ts r o Hin Ho Hl) as (lvl & Hget & Hr).
    destruct (G3 s (price_of_key s k))
      as [(lvl1 & lvl' & Hold & Hnew & Hrm)|[Hsame _]].
    + assert (lvl1 = lvl) as -> by congruence.
      exists lvl'. split; [done|].
      apply remove_filled_spec in Hrm as (_ & -> & _).
      apply elem_of_filter_bool. split; [done|].
      apply kept_ref_live. eauto.
    + exists lvl. by rewrite Hsame.
  - intros s p lvl' Hget.
    destruct (G3 s p) as [(lvl & lvl0 & Hold & Hnew & Hrm)|[Hsame _]].
    + assert (lvl0 = lvl') as -> by congruence.
      apply remove_filled_spec in Hrm as (_ & -> & _).
      apply StronglySorted_filter_bool. by eapply Hfifo.
    + rewrite Hsame in Hget. by eapply Hfifo.
  - intros s p lvl' Hget.
    destruct (G3 s p) as [(lvl & lvl0 & Hold & Hnew & Hrm)|[Hsame Hkeep]].
    + assert (lvl0 = lvl') as -> by congruence.
      apply remove_filled_spec in Hrm as (_ & _ & -> & _). apply Qle_refl.
    + rewrite Hsame in Hget.
      eapply Qle_trans; [|by eapply Htotal].
      apply live_remaining_mono. intros r Hr.
      destruct (Hkeep lvl' r Hget Hr) as (o' & Ho' & Hl').
      destruct (Hlive s p lvl' r Hget Hr) as (k & ts & o & Hin & Ho & Hl & Hp).
      destruct (G2 s (k, ts, r) o' Hin Ho' Hl') as (_ & o2 & Ho2 & _ & Hle).
      simpl in Ho2. assert (o2 = o) as -> by congruence.
      unfold live_left. by rewrite Ho', Hl', Ho, Hl.
Qed.

(** Heap entries of orders that are not live are dropped. *)
Lemma exact_pruned b b' :
  levels_exact b → _orders b' = _orders b →
  (∀ s, levels_of s b' = levels_of s b) →
  (∀ s e, e ∈ heap_of s b' → e ∈ heap_of s b) →
  (∀ s e o, e ∈ heap_of s b → _orders b !! e.2 = Some o → live o = true →
     e ∈ heap_of s b') →
  levels_exact b'.
Proof.
  intros Hex Ho Hlv Hsub Hstay. apply (exact_general b); [done|done|..].
  - intros s e o' Hin Ho' Hl'. rewrite Ho in Ho'. split; [by eapply Hstay|].
    exists o'. split; [done|]. split; [done|]. apply Qle_refl.
  - intros s p. right. rewrite Hlv. split; [done|]. intros lvl r Hget Hr.
    destruct (lv_live _ Hex s p lvl r Hget Hr) as (k & ts & o & _ & Ho' & Hl & _).
    exists o. by rewrite Ho.
Qed.

(** An order that rests in no heap is written. *)
Lemma exact_store_aside b a o :
  levels_exact b → (∀ s, a ∉ (heap_of s b).*2) →
  levels_exact (store b a o).
Proof.
  intros Hex Ha. apply (exact_general b); [done|..].
  - intros s e. by rewrite heap_of_store.
  - intros s e o' Hin. rewrite heap_of_store, orders_store.
    assert (Hne : e.2 ≠ a).
    { intros <-. apply (Ha s), list_elem_of_fmap. by exists e. }
    rewrite lookup_insert_ne by done. intros Ho' Hl'. split; [done|].
    exists o'. split; [done|]. split; [done|]. apply Qle_refl.
  - intros s p. right. rewrite levels_of_store. split; [done|].
    intros lvl r Hget Hr.
    destruct (lv_live _ Hex s p lvl r Hget Hr) as (k & ts & o0 & Hin & Ho0 & Hl & _).
    assert (Hne : r ≠ a).
    { intros ->. apply (Ha s), list_elem_of_fmap. by exists (k, ts, a). }
    exists o0. by rewrite orders_store, lookup_insert_ne.
Qed.

Lemma exact_pop s b k ts r h o h' :
  heap_of s b = (k, ts, r) :: h → _orders b !! r = Some o → live o = false →
  heapq.heappop (heap_of s b) = Ok h' →
  levels_exact b → levels_exact (set_heap s b h').
Proof.
  intros Hh Ho Hl Hpop Hex.
  apply heappop_perm in Hpop as (x & tl & Hx & Hperm).
  rewrite Hh in Hx. injection Hx as <- <-.
  apply (exact_pruned b); [done|apply orders_set_heap|..].
  - intros s0. apply levels_of_set_heap.
  - intros s0 e. destruct (decide (s0 = s)) as [->|Hs].
    + rewrite heap_of_set_heap, Hperm, Hh. by right.
    + by rewrite heap_of_set_heap_ne.
  - intros s0 e o0 Hin Ho0 Hl0. destruct (decide (s0 = s)) as [->|Hs];
      [|by rewrite heap_of_set_heap_ne].
    rewrite heap_of_set_heap, Hperm. rewrite Hh in Hin.
    apply elem_of_cons in Hin as [->|Hin]; [|done].
    simpl in Ho0. congruence.
Qed.

Lemma fill_live_cases o q :
  (0 <= q)%Q → (0 < Order.remaining o)%Q →
  (Order.remaining (Order.fill o q).1 <= Order.remaining o)%Q ∧
  live (Order.fill o q).1 =
    negb (Qeq_bool (Order.remaining (Order.fill o q).1) 0).
Proof.
  intros Hq Hrem. unfold live.
  cbn [Order.fill fst Order.remaining Order.status].
  assert (H0 : (0 <= Qmin q (Order.remaining o))%Q).
  { apply Q.min_glb; lra. }
  pose proof (Q.le_min_r q (Order.remaining o)) as Hle.
  split; [lra|].
  destruct (Qeq_bool _ 0) eqn:E; [done|]. cbn [terminal negb andb].
  apply Qeq_bool_false in E. apply Qlt_bool_true.
  destruct (Qlt_le_dec 0 (Order.remaining o - Qmin q (Order.remaining o)))
    as [|Hc]; [done|].
  exfalso. apply E. lra.
Qed.

Lemma resting_side b s0 s k0 k ts0 ts r :
  wf b → (k0, ts0, r) ∈ heap_of s0 b → (k, ts, r) ∈ heap_of s b →
  s0 = s ∧ k0 = k.
Proof.
  intros Hwf H0 H1.
  destruct (wf_heap _ Hwf _ _ _ _ H0) as (o0 & p0 & Ho0 & Hs0 & Hp0 & -> & _).
  destruct (wf_heap _ Hwf _ _ _ _ H1) as (o1 & p1 & Ho1 & Hs1 & Hp1 & -> & _).
  assert (o1 = o0) as -> by congruence.
  assert (p1 = p0) as -> by congruence.
  split; congruence.
Qed.

Lemma exact_step s a b b' ot :
  wf b → resting_live b → (∀ s0, a ∉ (heap_of s0 b).*2) →
  levels_exact b → step_spec s a b b' ot → levels_exact b'.
Proof.
  intros Hwf Hres Ha Hex
    [k ts r h agg passive h' Hagg Hrem Hh Hp Hterm Hpop
    |k ts r h agg passive bn Hagg Hrem Hh Hp Hterm Hfar Hne q agg' passive'
       b2 Hb'].
  { eapply exact_pop; try done. unfold live. by rewrite Hterm. }
  assert (Hhead : (k, ts, r) ∈ heap_of s b) by (rewrite Hh; by left).
  assert (Hrp : (0 < Order.remaining passive)%Q).
  { by apply (Hres s k ts r). }
  assert (Hlp : live passive = true).
  { unfold live. rewrite Hterm. by apply Qlt_bool_true. }
  assert (Hq0 : (0 <= q)%Q) by (apply Q.min_glb; lra).
  destruct (fill_live_cases passive q Hq0 Hrp) as [Hle Hlive'].
  fold passive' in Hle, Hlive'.
  assert (Hna : ∀ s0 e, e ∈ heap_of s0 b → e.2 ≠ a).
  { intros s0 e Hin <-. apply (Ha s0), list_elem_of_fmap. by exists e. }
  assert (Hor2 : _orders b2 = <[r := passive']> (<[a := agg']> (_orders b))).
  { unfold b2. by rewrite !orders_store. }
  assert (Hh2 : ∀ s0, heap_of s0 b2 = heap_of s0 b).
  { intros s0. unfold b2. by rewrite !heap_of_store. }
  assert (Hl2 : ∀ s0, levels_of s0 b2 = levels_of s0 b).
  { intros s0. unfold b2. by rewrite !levels_of_store. }
  assert (Hkeep : ∀ s0 p lvl0 r0,
    dict_get (levels_of s0 b) p = Some lvl0 → r0 ∈ PriceLevel.orders lvl0 →
    r0 ≠ r → ∃ o', _orders b2 !! r0 = Some o' ∧ live o' = true).
  { intros s0 p lvl0 r0 Hget Hr0 Hnr.
    destruct (lv_live _ Hex s0 p lvl0 r0 Hget Hr0)
      as (k0 & ts0 & o0 & Hin0 & Ho0 & Hl0 & _).
    pose proof (Hna s0 _ Hin0) as Hnea. simpl in Hnea.
    exists o0. split; [|done]. by rewrite Hor2, !lookup_insert_ne. }
  destruct (Qeq_bool (Order.remaining passive') 0) eqn:Hz.
  - destruct Hb' as (h' & Hpop & Hpurge). cbn [negb] in Hlive'.
    apply heappop_perm in Hpop as (x & tl & Hx & Hperm).
    rewrite Hh in Hx. injection Hx as <- <-.
    destruct (lv_listed _ Hex s k ts r passive Hhead Hp Hlp)
      as (lvl1 & Hget1 & Hr1).
    apply purge_level_cases in Hpurge
      as [[Hnone _]|(lvl & lvl' & Hget & Hrm & ->)].
    { rewrite levels_of_set_heap, Hl2 in Hnone. congruence. }
    rewrite levels_of_set_heap, Hl2 in Hget. rewrite orders_set_heap in Hrm.
    apply (exact_general b); [done|..].
    + intros s0 e. rewrite heap_of_set_levels.
      destruct (decide (s0 = s)) as [->|Hs].
      * rewrite heap_of_set_heap, Hperm, Hh. by right.
      * by rewrite heap_of_set_heap_ne, Hh2.
    + intros s0 e o' Hin.
      rewrite orders_set_levels, orders_set_heap, Hor2, heap_of_set_levels.
      intros Ho' Hl'.
      assert (Hner : e.2 ≠ r).
      { intros Heq. rewrite Heq, lookup_insert_eq in Ho'. congruence. }
      pose proof (Hna s0 _ Hin) as Hnea.
      rewrite !lookup_insert_ne in Ho' by done.
      split.
      * destruct (decide (s0 = s)) as [->|Hs].
        -- rewrite heap_of_set_heap, Hperm. rewrite Hh in Hin.
           apply elem_of_cons in Hin as [->|Hin]; [done|done].
        -- by rewrite heap_of_set_heap_ne, Hh2.
      * exists o'. split; [done|]. split; [done|]. apply Qle_refl.
    + intros s0 p. rewrite orders_set_levels, orders_set_heap.
      destruct (decide (s0 = s)) as [->|Hs].
      * rewrite levels_of_set_levels, levels_of_set_heap, Hl2, dict_get_set.
        destruct (Qeq_bool p (price_of_key s k)) eqn:Hpk.
        -- left. exists lvl, lvl'. split; [|done].
           apply Qeq_bool_iff in Hpk. by rewrite (dict_get_proper _ _ _ Hpk).
        -- right. split; [done|]. intros lvl0 r0 Hget0 Hr0.
           apply (Hkeep s p lvl0 r0); [done..|]. intros ->.
           destruct (lv_live _ Hex s p lvl0 r Hget0 Hr0)
             as (k0 & ts0 & o0 & Hin0 & _ & _ & Hp0).
           destruct (resting_side _ _ _ _ _ _ _ _ Hwf Hin0 Hhead) as [_ ->].
           assert (Hc : (p == price_of_key s k)%Q) by (by symmetry).
           apply Qeq_bool_iff in Hc. congruence.
      * rewrite levels_of_set_levels_ne, levels_of_set_heap, Hl2 by done.
        right. split; [done|]. intros lvl0 r0 Hget0 Hr0.
        apply (Hkeep s0 p lvl0 r0); [done..|]. intros ->.
        destruct (lv_live _ Hex s0 p lvl0 r Hget0 Hr0)
          as (k0 & ts0 & o0 & Hin0 & _).
        by destruct (resting_side _ _ _ _ _ _ _ _ Hwf Hin0 Hhead) as [? _].
  - subst bn. cbn [negb] in Hlive'.
    apply (exact_general b); [done|..].
    + intros s0 e. by rewrite Hh2.
    + intros s0 e o' Hin. rewrite Hh2, Hor2. intros Ho' Hl'. split; [done|].
      destruct (decide (e.2 = r)) as [Heq|Hner].
      * rewrite Heq, lookup_insert_eq in Ho'. injection Ho' as <-.
        exists passive. by rewrite Heq.
      * pose proof (Hna s0 _ Hin) as Hnea.
        rewrite !lookup_insert_ne in Ho' by done.
        exists o'. split; [done|]. split; [done|]. apply Qle_refl.
    + intros s0 p. right. rewrite Hl2. split; [done|].
      intros lvl0 r0 Hget0 Hr0. destruct (decide (r0 = r)) as [->|Hner].
      * exists passive'. by rewrite Hor2, lookup_insert_eq.
      * by apply (Hkeep s0 p lvl0 r0).
Qed.

Lemma exact_fills s a b T b' T' :
  wf b → (∀ s0, a ∉ (heap_of s0 b).*2) → resting_live b → levels_exact b →
  fills s a b T b' T' →
  levels_exact b' ∧ ∀ s0, a ∉ (heap_of s0 b').*2.
Proof.
  intros Hwf Ha Hres Hex Hf.
  assert (Hall : ∀ b0, a ∉ (heap_of s b0).*2 →
            a ∉ (heap_of (opposite s) b0).*2 → ∀ s0, a ∉ (heap_of s0 b0).*2).
  { intros b0 H1 H2 s0. by destruct s, s0. }
  destruct (fills_wf _ _ _ _ _ _ Hwf (Ha s) Hf) as (_ & _ & Hns).
  cut (levels_exact b' ∧ resting_live b' ∧ a ∉ (heap_of (opposite s) b').*2).
  { intros (H1 & _ & H3). split; [done|]. by apply Hall. }
  apply (fills_inv (λ b0 _, levels_exact b0 ∧ resting_live b0 ∧
                            a ∉ (heap_of (opposite s) b0).*2) s a)
    with (b := b) (T := T) (T' := T'); try done.
  intros b0 T0 b1 ot Hwf0 Ha0 (Hex0 & Hres0 & Hopp0) Hs.
  destruct (step_spec_wf _ _ _ _ _ Hwf0 Hs) as [_ Hfr].
  split; [|split].
  - eapply exact_step; [done|done| |done|done]. by apply Hall.
  - by eapply step_spec_resting.
  - by rewrite (fr_other_heap _ _ _ Hfr).
Qed.

Lemma exact_add_to s b a b' o :
  levels_exact b → (∀ s0, a ∉ (heap_of s0 b).*2) →
  _orders b !! a = Some o → live o = true →
  (∀ r, is_Some (_orders b !! r) → r ≤ a) →
  add_to s b a = Ok b' → levels_exact b'.
Proof.
  intros Hex Ha Ho Hl Hdom. unfold add_to.
  rewrite (proj2 (deref_Ok _ _ _) Ho), res_bind_ret.
  intros (p & Hp & H)%res_bind_Ok.
  apply res_bind_Ok in H as (h' & Hpush & [= <-]).
  rewrite heap_of_set_levels in Hpush. apply heappush_perm in Hpush.
  unfold level_add.
  set (old := match dict_get (levels_of s b) p with
              | Some lvl => lvl
              | None => PriceLevel.__init__ p
              end).
  set (new := PriceLevel.add_order old a o).
  set (e := (key_of s p, Order.timestamp o, a)) in *.
  assert (Hold : ∀ r, r ∈ PriceLevel.orders old →
            ∃ lvl, dict_get (levels_of s b) p = Some lvl ∧ old = lvl).
  { intros r Hr. unfold old in *.
    destruct (dict_get (levels_of s b) p) as [lvl|]; [eauto|].
    by apply elem_of_nil in Hr. }
  assert (Hlow : ∀ s0 p0 lvl r, dict_get (levels_of s0 b) p0 = Some lvl →
            r ∈ PriceLevel.orders lvl → r < a).
  { intros s0 p0 lvl r Hget Hr.
    destruct (lv_live _ Hex s0 p0 lvl r Hget Hr) as (k & ts & o0 & Hin & Ho0 & _).
    assert (r ≤ a) by (apply Hdom; eauto).
    assert (r ≠ a); [|lia].
    intros ->. apply (Ha s0), list_elem_of_fmap. by exists (k, ts, a). }
  assert (Hla : live_left (_orders b) a = Order.remaining o).
  { unfold live_left. by rewrite Ho, Hl. }
  assert (Hkey : Qeq_bool (price_of_key s (key_of s p)) p = true).
  { apply Qeq_bool_iff, price_of_key_of. }
  assert (Hheap : ∀ s0 x, x ∈ heap_of s0
            (set_heap s (set_levels s b (dict_set (levels_of s b) p new)) h') ↔
            (s0 = s ∧ x = e) ∨ x ∈ heap_of s0 b).
  { intros s0 x. destruct (decide (s0 = s)) as [->|Hs].
    - rewrite heap_of_set_heap, Hpush, elem_of_cons. split.
      + intros [->|Hx]; [by left|by right].
      + intros [[_ ->]|Hx]; [by left|by right].
    - rewrite heap_of_set_heap_ne, heap_of_set_levels by done. split.
      + by right.
      + by intros [[? _]|Hx]. }
  assert (Hlev : ∀ s0 p0, dict_get (levels_of s0
            (set_heap s (set_levels s b (dict_set (levels_of s b) p new)) h')) p0
            = if decide (s0 = s)
              then if Qeq_bool p0 p then Some new
                   else dict_get (levels_of s b) p0
              else dict_get (levels_of s0 b) p0).
  { intros s0 p0. rewrite levels_of_set_heap.
    destruct (decide (s0 = s)) as [->|Hs].
    - by rewrite levels_of_set_levels, dict_get_set.
    - by rewrite levels_of_set_levels_ne. }
  split; rewrite ?orders_set_heap, ?orders_set_levels.
  - intros s0 p0 lvl r. rewrite Hlev. setoid_rewrite Hheap.
    destruct (decide (s0 = s)) as [->|Hs];
      [destruct (Qeq_bool p0 p) eqn:Hpk|].
    + intros [= <-]. cbn [new PriceLevel.add_order PriceLevel.orders].
      apply Qeq_bool_iff in Hpk.
      intros [Hr| ->%list_elem_of_singleton]%elem_of_app.
      * destruct (Hold r Hr) as (lvl & Hget & Heq). rewrite Heq in Hr.
        destruct (lv_live _ Hex s p lvl r Hget Hr)
          as (k & ts & o0 & Hin & Ho0 & Hl0 & Hp0).
        exists k, ts, o0. split; [by right|]. split; [done|]. split; [done|].
        by rewrite Hp0.
      * exists (key_of s p), (Order.timestamp o), o.
        split; [by left|]. split; [done|]. split; [done|].
        by rewrite price_of_key_of.
    + intros Hget Hr.
      destruct (lv_live _ Hex s p0 lvl r Hget Hr)
        as (k & ts & o0 & Hin & Ho0 & Hl0 & Hp0).
      exists k, ts, o0. split; [by right|]. done.
    + intros Hget Hr.
      destruct (lv_live _ Hex s0 p0 lvl r Hget Hr)
        as (k & ts & o0 & Hin & Ho0 & Hl0 & Hp0).
      exists k, ts, o0. split; [by right|]. done.
  - intros s0 k ts r o0. rewrite Hheap, Hlev.
    intros [[-> [= -> -> ->]]|Hin] Ho0 Hl0.
    + rewrite decide_True, Hkey by done. exists new. split; [done|].
      cbn [new PriceLevel.add_order PriceLevel.orders].
      apply elem_of_app. right. by apply list_elem_of_singleton.
    + destruct (lv_listed _ Hex s0 k ts r o0 Hin Ho0 Hl0) as (lvl & Hget & Hr).
      destruct (decide (s0 = s)) as [->|Hs]; [|eauto].
      destruct (Qeq_bool (price_of_key s k) p) eqn:Hpk; [|eauto].
      exists new. split; [done|].
      cbn [new PriceLevel.add_order PriceLevel.orders].
      apply elem_of_app. left. apply Qeq_bool_iff in Hpk.
      rewrite (dict_get_proper _ _ _ Hpk) in Hget.
      unfold old. by rewrite Hget.
  - intros s0 p0 lvl. rewrite Hlev.
    destruct (decide (s0 = s)) as [->|Hs];
      [destruct (Qeq_bool p0 p) eqn:Hpk|]; try apply (lv_fifo _ Hex).
    intros [= <-]. cbn [new PriceLevel.add_order PriceLevel.orders].
    apply StronglySorted_snoc.
    + unfold old. destruct (dict_get (levels_of s b) p) as [lvl|] eqn:Hget.
      * by apply (lv_fifo _ Hex s p).
      * constructor.
    + intros r Hr. destruct (Hold r Hr) as (lvl & Hget & Heq).
      rewrite Heq in Hr. by apply (Hlow s p lvl).
  - intros s0 p0 lvl. rewrite Hlev.
    destruct (decide (s0 = s)) as [->|Hs];
      [destruct (Qeq_bool p0 p) eqn:Hpk|]; try apply (lv_total _ Hex).
    intros [= <-].
    cbn [new PriceLevel.add_order PriceLevel.orders PriceLevel.total_quantity].
    rewrite live_remaining_snoc, Hla.
    assert (live_remaining (_orders b) (PriceLevel.orders old)
            <= PriceLevel.total_quantity old)%Q; [|lra].
    unfold old. destruct (dict_get (levels_of s b) p) as [lvl|] eqn:Hget.
    + by apply (lv_total _ Hex s p).
    + cbn [PriceLevel.__init__ PriceLevel.orders PriceLevel.total_quantity].
      rewrite live_remaining_nil. lra.
Qed.

Lemma exact_cancel b oid b' r :
  wf b → levels_exact b → cancel_order b oid = Ok (b', r) → levels_exact b'.
Proof.
  intros Hwf Hex H. destruct (_orders b !! oid) as [o|] eqn:Ho.
  2:{ unfold cancel_order in H. rewrite Ho in H. by injection H as <- <-. }
  rewrite (cancel_order_purge _ _ _ Ho) in H.
  apply res_bind_Ok in H as (b1 & Hp & [= <- <-]).
  set (b0 := store b oid (Order.cancel o)) in *.
  assert (Hdead : ∀ o', _orders b0 !! oid = Some o' → live o' = false).
  { intros o'. unfold b0. rewrite orders_store, lookup_insert_eq.
    by intros [= <-]. }
  assert (Hsame : ∀ r0, r0 ≠ oid → _orders b0 !! r0 = _orders b !! r0).
  { intros r0 Hne. unfold b0. by rewrite orders_store, lookup_insert_ne. }
  assert (G2 : ∀ s e o', e ∈ heap_of s b → _orders b0 !! e.2 = Some o' →
            live o' = true →
            e ∈ heap_of s b ∧ ∃ o1, _orders b !! e.2 = Some o1 ∧
              live o1 = true ∧ (Order.remaining o' <= Order.remaining o1)%Q).
  { intros s e o' Hin Ho' Hl'. split; [done|].
    destruct (decide (e.2 = oid)) as [Heq|Hne].
    - rewrite Heq in Ho'. apply Hdead in Ho'. congruence.
    - rewrite Hsame in Ho' by done. exists o'. split; [done|].
      split; [done|]. apply Qle_refl. }
  assert (Hkeep : ∀ s p lvl r0, dict_get (levels_of s b) p = Some lvl →
            r0 ∈ PriceLevel.orders lvl → r0 ≠ oid →
            ∃ o', _orders b0 !! r0 = Some o' ∧ live o' = true).
  { intros s p lvl r0 Hget Hr0 Hne.
    destruct (lv_live _ Hex s p lvl r0 Hget Hr0) as (k & ts & o0 & _ & Ho0 & Hl0 & _).
    exists o0. by rewrite Hsame. }
  assert (Hown : ∀ s p lvl, dict_get (levels_of s b) p = Some lvl →
            oid ∈ PriceLevel.orders lvl →
            s = Order.side o ∧ ∃ q, Order.price o = Some q ∧ (q == p)%Q).
  { intros s p lvl Hget Hr0.
    destruct (lv_live _ Hex s p lvl oid Hget Hr0)
      as (k & ts & o0 & Hin & Ho0 & _ & Hp0).
    destruct (wf_heap _ Hwf _ _ _ _ Hin) as (o1 & q & Ho1 & Hs1 & Hq1 & -> & _).
    assert (o1 = o) as -> by congruence. split; [done|].
    exists q. split; [done|]. by rewrite <- Hp0, price_of_key_of. }
  assert (Hl0 : ∀ s, levels_of s b0 = levels_of s b).
  { intros s. apply levels_of_store. }
  assert (Hh0 : ∀ s, heap_of s b0 = heap_of s b).
  { intros s. apply heap_of_store. }
  assert (Hplain : levels_exact b0 ∨
            ∃ q, Order.price o = Some q ∧
                 is_Some (dict_get (levels_of (Order.side o) b) q)).
  { destruct (Order.price o) as [q|] eqn:Hq.
    { destruct (dict_get (levels_of (Order.side o) b) q) eqn:Hg; [|left].
      { right. exists q. split; [done|]. by eexists. }
      apply (exact_general b); [done|..].
      - intros s e. by rewrite Hh0.
      - intros s e o'. rewrite Hh0. apply G2.
      - intros s p. right. rewrite Hl0. split; [done|].
        intros lvl r0 Hget Hr0.
        apply (Hkeep s p lvl r0); [done..|]. intros ->.
        destruct (Hown s p lvl Hget Hr0) as (-> & q' & [= <-] & Hqp).
        rewrite (dict_get_proper _ _ _ Hqp) in Hg. congruence. }
    left. apply (exact_general b); [done|..].
    - intros s e. by rewrite Hh0.
    - intros s e o'. rewrite Hh0. apply G2.
    - intros s p. right. rewrite Hl0. split; [done|].
      intros lvl r0 Hget Hr0.
      apply (Hkeep s p lvl r0); [done..|]. intros ->.
      by destruct (Hown s p lvl Hget Hr0) as (_ & q' & [=] & _). }
  destruct (Order.price o) as [q|] eqn:Hq.
  2:{ injection Hp as <-. by destruct Hplain as [?|(q & [=] & _)]. }
  apply purge_level_cases in Hp
    as [[Hnone ->]|(lvl & lvl' & Hget & Hrm & ->)].
  { destruct Hplain as [?|(q' & [= <-] & [lvl Hg])]; [done|].
    rewrite Hl0 in Hnone. congruence. }
  rewrite Hl0 in Hget.
  apply (exact_general b); [done|..].
  - intros s e. by rewrite heap_of_set_levels, Hh0.
  - intros s e o'. rewrite orders_set_levels, heap_of_set_levels, Hh0.
    apply G2.
  - intros s p. rewrite orders_set_levels.
    destruct (decide (s = Order.side o)) as [->|Hs].
    + rewrite levels_of_set_levels, Hl0, dict_get_set.
      destruct (Qeq_bool p q) eqn:Hpq.
      * left. exists lvl, lvl'. split; [|done].
        apply Qeq_bool_iff in Hpq. by rewrite (dict_get_proper _ _ _ Hpq).
      * right. split; [done|]. intros lvl0 r0 Hget0 Hr0.
        apply (Hkeep (Order.side o) p lvl0 r0); [done..|]. intros ->.
        destruct (Hown (Order.side o) p lvl0 Hget0 Hr0) as (_ & q' & [= <-] & Hqp).
        assert (Hc : (p == q)%Q) by (by symmetry).
        apply Qeq_bool_iff in Hc. congruence.
    + rewrite levels_of_set_levels_ne, Hl0 by done.
      right. split; [done|]. intros lvl0 r0 Hget0 Hr0.
      apply (Hkeep s p lvl0 r0); [done..|]. intros ->.
      by destruct (Hown s p lvl0 Hget0 Hr0) as (? & _).
Qed.

Lemma best_loop_exact s fuel b b' v :
  levels_exact b → best_loop s fuel b = Ok (b', v) → levels_exact b'.
Proof.
  revert b. induction fuel as [|fuel IH]; intros b Hex; [done|].
  rewrite best_loop_S.
  destruct (heap_of s b) as [|[[k ts] r] h] eqn:Hh.
  { by intros [= <- <-]. }
  intros (o & Ho%deref_Ok & H)%res_bind_Ok. destruct (live o) eqn:Hl.
  { by injection H as <- <-. }
  apply res_bind_Ok in H as (h' & Hpop & H). rewrite <- Hh in Hpop.
  apply IH in H; [done|]. by eapply exact_pop.
Qed.

Lemma both_best_exact b b1 bid b2 ask :
  levels_exact b → best BUY b = Ok (b1, bid) → best SELL b1 = Ok (b2, ask) →
  levels_exact b2.
Proof.
  intros Hex H1 H2. eapply best_loop_exact; [|exact H2].
  eapply best_loop_exact; [|exact H1]. done.
Qed.

Lemma exact_start : levels_exact (book start).
Proof.
  split.
  - intros s p lvl r. by destruct s.
  - intros s k ts r o Hin. destruct s; by apply elem_of_nil in Hin.
  - intros s p lvl. by destruct s.
  - intros s p lvl. by destruct s.
Qed.

Lemma step_exact s c s' :
  session_ok s → sound s ∧ levels_exact (book s) → step s c = Ok s' →
  sound s' ∧ levels_exact (book s').
Proof.
  intros Hok [Hsd Hex] Hstep. split; [by eapply step_sound|].
  pose proof Hok as [Hwf Hdom]. pose proof Hsd as [Hres _].
  destruct c; simpl in Hstep.
  - apply res_bind_Ok in Hstep as ([s1 new] & H & [= <-]).
    pose proof (submit_spec _ _ _ _ _ _ _ _ _ Hok H) as ([_ Hdom'] & Hc' & _).
    apply submit_cases in H
      as (b1 & b2 & Hwf0 & Hnr & Hf & Htr & Hs & Hb & _); [|done..].
    cbn zeta in *.
    set (order := (Order.__init__ (id_counter s) now side order_type quantity
                     price trader_id).1) in *.
    set (a := S (id_counter s)) in *.
    assert (Hfresh : _orders (book s) !! a = None).
    { destruct (_orders (book s) !! a) eqn:E; [|done].
      assert (a ≤ id_counter s) by (apply Hdom; eauto). unfold a in *. lia. }
    assert (Ha : ∀ s0, a ∉ (heap_of s0 (book s)).*2).
    { intros s0. by apply wf_not_resting. }
    assert (Ha0 : ∀ s0, a ∉ (heap_of s0 (store (book s) a order)).*2).
    { intros s0. by rewrite heap_of_store. }
    assert (Hex0 : levels_exact (store (book s) a order)).
    { by apply exact_store_aside. }
    assert (Hres0 : resting_live (store (book s) a order)).
    { by apply resting_live_store_fresh. }
    destruct (exact_fills _ _ _ _ _ _ Hwf0 Ha0 Hres0 Hex0 Hf) as [Hex1 Ha1].
    assert (Hex2 : levels_exact b2).
    { destruct Htr as [_ (o & Ho & _ & _ & Hst) _].
      change (Order.id order) with a in Ho.
      change (Order.status order) with st_open in Hst.
      destruct Hs as [o1 Hty Ho1 Hrem|o1 Hty Ho1 Hrem Hhe|o1 Hty Ho1 Hn
                     |o1 p1 b3 Hty Ho1 Hrem Hst1 Hp Hm Hadd]; try done.
      - by apply exact_store_aside.
      - assert (o1 = o) as -> by congruence.
        eapply exact_add_to; [exact Hex1|exact Ha1|exact Ho| |
                              |exact Hadd].
        + unfold live. rewrite (proj2 (Qlt_bool_true _ _) Hrem), andb_true_r.
          destruct Hst as [(_ & -> & _)|(_ & _ & Hst)]; [done|].
          rewrite Hst in Hst1 |- *.
          by destruct (Qeq_bool (Order.remaining o) 0).
        + intros r Hr. apply add_to_heaps in Hadd as (Hor & _).
          rewrite <- Hc'. apply Hdom'. rewrite Hb. cbn [with_history _orders].
          by rewrite Hor. }
    rewrite Hb. apply (exact_pruned b2); [done|done|..].
    + intros s0. apply levels_of_with_history.
    + intros s0 e. by rewrite heap_of_with_history.
    + intros s0 e o Hin _ _. by rewrite heap_of_with_history.
  - apply res_bind_Ok in Hstep as ([b r] & H & [= <-]). simpl.
    by eapply exact_cancel.
  - rewrite best_bid_eq in Hstep.
    apply res_bind_Ok in Hstep as ([b r] & H & [= <-]). simpl.
    by eapply best_loop_exact.
  - rewrite best_ask_eq in Hstep.
    apply res_bind_Ok in Hstep as ([b r] & H & [= <-]). simpl.
    by eapply best_loop_exact.
  - apply res_bind_Ok in Hstep as ([b r] & H & [= <-]). simpl.
    unfold spread in H. rewrite best_bid_eq in H.
    apply res_bind_Ok in H as ([b1 bid] & H1 & H). rewrite best_ask_eq in H.
    apply res_bind_Ok in H as ([b2 ask] & H2 & H).
    assert (b = b2) as ->.
    { destruct bid, ask; try destruct (_ && _); congruence. }
    by eapply both_best_exact.
  - apply res_bind_Ok in Hstep as ([b r] & H & [= <-]). simpl.
    unfold mid_price in H. rewrite best_bid_eq in H.
    apply res_bind_Ok in H as ([b1 bid] & H1 & H). rewrite best_ask_eq in H.
    apply res_bind_Ok in H as ([b2 ask] & H2 & H).
    assert (b = b2) as ->.
    { destruct bid, ask; try destruct (_ && _); congruence. }
    by eapply both_best_exact.
Qed.

Lemma run_exact cs s : run start cs = Ok s → levels_exact (book s).
Proof.
  intros Hrun.
  apply (run_inv (λ s, sound s ∧ levels_exact (book s))) in Hrun; [tauto| |].
  - split; [apply sound_start|apply exact_start].
  - intros s0 c s1 Hok HP. by apply step_exact.
Qed.


(** X24: every live resting order is queued in a price level. After any run,
    an order of a heap that is neither filled nor cancelled and has
    something left is listed in the price level of its price on its side,
    so that level exists. *)
Theorem live_orders_are_listed cs s side k ts r o :
  run start cs = Ok s →
  (k, ts, r) ∈ heap_of side (book s) →
  _orders (book s) !! r = Some o → live o = true →
  ∃ q lvl, Order.price o = Some q ∧
    dict_get (levels_of side (book s)) q = Some lvl ∧
    r ∈ PriceLevel.orders lvl.
Proof.
  intros Hrun Hin Ho Hl. pose proof (run_exact _ _ Hrun) as Hex.
  apply run_start_ok in Hrun as [Hwf _].
  destruct (lv_listed _ Hex side k ts r o Hin Ho Hl) as (lvl & Hget & Hr).
  destruct (wf_heap _ Hwf _ _ _ _ Hin) as (o1 & q & Ho1 & _ & Hq1 & -> & _).
  assert (o1 = o) as -> by congruence.
  exists q, lvl. split; [done|]. split; [|done].
  by rewrite <- (dict_get_proper _ _ _ (price_of_key_of side q)).
Qed.

Lemma best_bid_below_best_ask_witness :
  run start narrow_book = Ok (session_after narrow_book) ∧
  best_bid (book (session_after narrow_book)) =
    Ok (book (session_after narrow_book), Some 100%Q) ∧
  best_ask (book (session_after narrow_book)) =
    Ok (book (session_after narrow_book), Some (100001 # 1000)%Q) ∧
  (100 < 100001 # 1000)%Q.
Proof.
  assert (H1 : run start narrow_book = Ok (session_after narrow_book))
    by (vm_compute; reflexivity).
  assert (H2 : best_bid (book (session_after narrow_book)) =
    Ok (book (session_after narrow_book), Some 100%Q))
    by (vm_compute; reflexivity).
  assert (H3 : best_ask (book (session_after narrow_book)) =
    Ok (book (session_after narrow_book), Some (100001 # 1000)%Q))
    by (vm_compute; reflexivity).
  split; [exact H1|]. split; [exact H2|]. split; [exact H3|].
  exact (best_bid_below_best_ask narrow_book _ _ _ _ _ H1 H2 H3).
Defined.

Lemma spread_is_never_negative_witness :
  run start narrow_book = Ok (session_after narrow_book) ∧
  ∀ b' v, spread (book (session_after narrow_book)) = Ok (b', Some v) →
    (0 <= v)%Q.
Proof.
  assert (H1 : run start narrow_book = Ok (session_after narrow_book))
    by (vm_compute; reflexivity).
  split; [exact H1|].
  exact (λ b' v, spread_is_never_negative narrow_book _ b' v H1).
Defined.

Lemma best_price_is_extreme_witness :
  run start two_asks = Ok (session_after two_asks) ∧
  best_price SELL (book (session_after two_asks)) =
    Ok (book (session_after two_asks), Some 68010%Q) ∧
  ∃ p, Some 68010%Q = Some p ∧ (p <= 68020)%Q.
Proof.
  assert (H1 : run start two_asks = Ok (session_after two_asks))
    by (vm_compute; reflexivity).
  assert (H2 : best_price SELL (book (session_after two_asks)) =
    Ok (book (session_after two_asks), Some 68010%Q))
    by (vm_compute; reflexivity).
  split; [exact H1|]. split; [exact H2|].
  apply (best_price_is_extreme two_asks _ SELL _ _ H1 H2 68020%Q 2%Q 2
           (order_of (book_after two_asks) 2) 68020%Q).
  - apply list_elem_of_In. vm_compute. right. left. reflexivity.
  - vm_compute. reflexivity.
  - vm_compute. reflexivity.
  - reflexivity.
Defined.

Lemma limit_order_trades_within_limit_witness :
  run start one_ask = Ok (session_after one_ask) ∧
  submit (session_after one_ask) BUY LIMIT 1 (Some 105%Q) 2 "b" =
    Ok (session_after (one_ask ++ [Submit BUY LIMIT 1 (Some 105%Q) 2 "b"]),
        [Trade.mk 2 1 100 1]) ∧
  (Trade.price (Trade.mk 2 1 100 1) <= 105)%Q.
Proof.
  assert (H1 : run start one_ask = Ok (session_after one_ask))
    by (vm_compute; reflexivity).
  assert (H2 : submit (session_after one_ask) BUY LIMIT 1 (Some 105%Q) 2 "b" =
    Ok (session_after (one_ask ++ [Submit BUY LIMIT 1 (Some 105%Q) 2 "b"]),
        [Trade.mk 2 1 100 1])) by (vm_compute; reflexivity).
  split; [exact H1|]. split; [exact H2|].
  exact (limit_order_trades_within_limit one_ask _ BUY 1 105 2 "b" _ _
           (Trade.mk 2 1 100 1) H1 H2 (list_elem_of_here _ _)).
Defined.


Lemma market_order_outcome_witness :
  run start two_asks = Ok (session_after two_asks) ∧
  (0 < 6 # 10)%Q ∧
  submit (session_after two_asks) BUY MARKET (6 # 10) None 3 "m" =
    Ok (session_after sweep,
        [Trade.mk 3 1 68010 (1 # 2); Trade.mk 3 2 68020 (2 # 20)]) ∧
  heap_of BUY (book (session_after sweep)) =
    heap_of BUY (book (session_after two_asks)).
Proof.
  assert (H1 : run start two_asks = Ok (session_after two_asks))
    by (vm_compute; reflexivity).
  assert (H2 : submit (session_after two_asks) BUY MARKET (6 # 10) None 3 "m" =
    Ok (session_after sweep,
        [Trade.mk 3 1 68010 (1 # 2); Trade.mk 3 2 68020 (2 # 20)]))
    by (vm_compute; reflexivity).
  split; [exact H1|]. split; [reflexivity|]. split; [exact H2|].
  destruct (market_order_outcome two_asks _ BUY (6 # 10) None 3 "m" _ _
              H1 eq_refl H2) as (o & _ & _ & Hh & _).
  exact Hh.
Defined.

Lemma limit_order_outcome_witness :
  run start [] = Ok start ∧ (0 < 1)%Q ∧
  submit start BUY LIMIT 1 (Some 68000%Q) 1 "a" =
    Ok (session_after one_bid, []) ∧
  ∃ o, _orders (book (session_after one_bid)) !! 1 = Some o.
Proof.
  assert (H2 : submit start BUY LIMIT 1 (Some 68000%Q) 1 "a" =
    Ok (session_after one_bid, [])) by (vm_compute; reflexivity).
  split; [reflexivity|]. split; [reflexivity|]. split; [exact H2|].
  destruct (limit_order_outcome [] start BUY 1 68000 1 "a" _ _
              eq_refl eq_refl H2) as (o & Ho & _).
  exists o. exact Ho.
Defined.

Lemma terminal_orders_never_trade_witness :
  run start stale_ask = Ok (session_after stale_ask) ∧
  _orders (book (session_after stale_ask)) !! 1 =
    Some (order_of (book_after stale_ask) 1) ∧
  terminal (Order.status (order_of (book_after stale_ask) 1)) = true ∧
  run (session_after stale_ask) [Submit BUY MARKET (6 # 10) None 3 "m"] =
    Ok (session_after (stale_ask ++ [Submit BUY MARKET (6 # 10) None 3 "m"])) ∧
  ∃ o', _orders (book (session_after
          (stale_ask ++ [Submit BUY MARKET (6 # 10) None 3 "m"]))) !! 1
        = Some o' ∧
        terminal (Order.status o') = true.
Proof.
  assert (H1 : run start stale_ask = Ok (session_after stale_ask))
    by (vm_compute; reflexivity).
  assert (H2 : _orders (book (session_after stale_ask)) !! 1 =
    Some (order_of (book_after stale_ask) 1)) by (vm_compute; reflexivity).
  assert (H3 : run (session_after stale_ask)
                 [Submit BUY MARKET (6 # 10) None 3 "m"] =
    Ok (session_after (stale_ask ++ [Submit BUY MARKET (6 # 10) None 3 "m"])))
    by (vm_compute; reflexivity).
  split; [exact H1|]. split; [exact H2|]. split; [reflexivity|].
  split; [exact H3|].
  destruct (terminal_orders_never_trade stale_ask _ 1 _ _ _ H1 H2 eq_refl H3)
    as [(o' & Ho' & Ht & _) _].
  exists o'. split; assumption.
Defined.

Lemma orders_stay_indexed_witness :
  run start one_ask = Ok (session_after one_ask) ∧
  submit (session_after one_ask) BUY LIMIT 1 (Some 105%Q) 2 "b" =
    Ok (session_after (one_ask ++ [Submit BUY LIMIT 1 (Some 105%Q) 2 "b"]),
        [Trade.mk 2 1 100 1]) ∧
  run (session_after (one_ask ++ [Submit BUY LIMIT 1 (Some 105%Q) 2 "b"]))
      [Cancel 2] =
    Ok (session_after
          (one_ask ++ [Submit BUY LIMIT 1 (Some 105%Q) 2 "b"; Cancel 2])) ∧
  id_counter (session_after one_ask) = submits one_ask.
Proof.
  assert (H1 : run start one_ask = Ok (session_after one_ask))
    by (vm_compute; reflexivity).
  assert (H2 : submit (session_after one_ask) BUY LIMIT 1 (Some 105%Q) 2 "b" =
    Ok (session_after (one_ask ++ [Submit BUY LIMIT 1 (Some 105%Q) 2 "b"]),
        [Trade.mk 2 1 100 1])) by (vm_compute; reflexivity).
  assert (H3 : run (session_after
                      (one_ask ++ [Submit BUY LIMIT 1 (Some 105%Q) 2 "b"]))
                 [Cancel 2] =
    Ok (session_after
          (one_ask ++ [Submit BUY LIMIT 1 (Some 105%Q) 2 "b"; Cancel 2])))
    by (vm_compute; reflexivity).
  split; [exact H1|]. split; [exact H2|]. split; [exact H3|].
  exact (proj1 (orders_stay_indexed one_ask _ BUY LIMIT 1 (Some 105%Q) 2 "b"
                  _ _ [Cancel 2] _ H1 H2 H3)).
Defined.

Lemma distinct_timestamps_never_raise_witness :
  valid [] two_asks = true ∧ ∃ s, run start two_asks = Ok s.
Proof.
  split; [reflexivity|].
  exact (distinct_timestamps_never_raise two_asks eq_refl).
Defined.

Lemma remaining_stays_within_quantity_witness :
  (0 <= 1)%Q ∧ fills_nonneg [CallFill (2 # 5); CallCancel; CallFill 7] = true ∧
  (Order.remaining
     (apply_calls (Order.__init__ 0 0 BUY LIMIT 1 (Some 100%Q) "a").1
        [CallFill (2 # 5); CallCancel; CallFill 7]) <= 1)%Q.
Proof.
  split; [discriminate|]. split; [reflexivity|].
  destruct (remaining_stays_within_quantity 0 0 BUY LIMIT 1 (Some 100%Q) "a"
              [CallFill (2 # 5); CallCancel; CallFill 7]
              ltac:(discriminate) eq_refl) as (_ & _ & H & _).
  exact H.
Defined.

Lemma remove_filled_cleans_level_witness :
  PriceLevel.remove_filled (_orders (book_after partial_fill_book)) stale_level
    = Ok (level_after (_orders (book_after partial_fill_book)) stale_level) ∧
  PriceLevel.total_quantity
    (level_after (_orders (book_after partial_fill_book)) stale_level) =
  live_remaining (_orders (book_after partial_fill_book))
    (PriceLevel.orders
       (level_after (_orders (book_after partial_fill_book)) stale_level)).
Proof.
  assert (H1 : PriceLevel.remove_filled
                 (_orders (book_after partial_fill_book)) stale_level
    = Ok (level_after (_orders (book_after partial_fill_book)) stale_level))
    by (vm_compute; reflexivity).
  split; [exact H1|].
  destruct (remove_filled_cleans_level _ _ _ H1) as (_ & _ & H & _).
  exact H.
Defined.

Lemma cancel_order_twice_witness :
  cancel_order (book_after one_bid) 1 =
    Ok (cancelled_book (book_after one_bid) 1, true) ∧
  cancel_order (cancelled_book (book_after one_bid) 1) 1 =
    Ok (cancelled_book (book_after one_bid) 1, true).
Proof.
  assert (H1 : cancel_order (book_after one_bid) 1 =
    Ok (cancelled_book (book_after one_bid) 1, true))
    by (vm_compute; reflexivity).
  split; [exact H1|].
  exact (proj1 (cancel_order_twice _ _ _ _ H1)).
Defined.

Lemma cancel_order_cleans_level_witness :
  _orders (book_after one_bid) !! 1 = Some (order_of (book_after one_bid) 1) ∧
  Order.price (order_of (book_after one_bid) 1) = Some 68000%Q ∧
  cancel_order (book_after one_bid) 1 =
    Ok (cancelled_book (book_after one_bid) 1, true) ∧
  _orders (cancelled_book (book_after one_bid) 1) !! 1 =
    Some (Order.cancel (order_of (book_after one_bid) 1)).
Proof.
  assert (H1 : _orders (book_after one_bid) !! 1 =
    Some (order_of (book_after one_bid) 1)) by (vm_compute; reflexivity).
  assert (H2 : cancel_order (book_after one_bid) 1 =
    Ok (cancelled_book (book_after one_bid) 1, true))
    by (vm_compute; reflexivity).
  split; [exact H1|]. split; [reflexivity|]. split; [exact H2|].
  exact (proj1 (cancel_order_cleans_level _ 1 _ 68000%Q _ H1 eq_refl H2)).
Defined.

Lemma get_depth_lists_live_prices_witness :
  run start two_asks = Ok (session_after two_asks) ∧
  ∃ bids asks,
    get_depth (book (session_after two_asks)) 10 = Ok (bids, asks) ∧
    depth_of SELL (book (session_after two_asks)) 10 asks.
Proof.
  assert (H1 : run start two_asks = Ok (session_after two_asks))
    by (vm_compute; reflexivity).
  split; [exact H1|].
  destruct (get_depth_lists_live_prices two_asks _ 10 H1)
    as (bids & asks & Hd & _ & Ha).
  exists bids, asks. split; assumption.
Defined.

Lemma depth_starts_at_best_price_witness :
  run start two_asks = Ok (session_after two_asks) ∧ (0 < 10)%Z ∧
  get_depth (book (session_after two_asks)) 10 = Ok (depth_after two_asks 10) ∧
  best_price SELL (book (session_after two_asks)) =
    Ok (book (session_after two_asks), Some 68010%Q) ∧
  ∃ p' q rest,
    depth_side_of SELL (depth_after two_asks 10) = (p', q) :: rest ∧
    (p' == 68010)%Q.
Proof.
  assert (H1 : run start two_asks = Ok (session_after two_asks))
    by (vm_compute; reflexivity).
  assert (H2 : get_depth (book (session_after two_asks)) 10 =
    Ok (depth_after two_asks 10)) by (vm_compute; reflexivity).
  assert (H3 : best_price SELL (book (session_after two_asks)) =
    Ok (book (session_after two_asks), Some 68010%Q))
    by (vm_compute; reflexivity).
  split; [exact H1|]. split; [reflexivity|]. split; [exact H2|].
  split; [exact H3|].
  exact (depth_starts_at_best_price two_asks _ SELL 10 _ _ _ H1 eq_refl H2 H3).
Defined.

Lemma equal_price_and_timestamp_raise_witness :
  (0 < 1)%Q ∧ (0 < 2)%Q ∧
  run start [Submit SELL LIMIT 1 (Some 100%Q) 1 "a";
             Submit SELL LIMIT 2 (Some 100%Q) 1 "b"] = TypeError.
Proof.
  split; [reflexivity|]. split; [reflexivity|].
  exact (equal_price_and_timestamp_raise SELL 100 1 1 2 "a" "b"
           eq_refl eq_refl).
Defined.


Lemma trades_join_buyer_and_seller_witness :
  run start sweep = Ok (session_after sweep) ∧
  Trade.mk 3 1 68010 (1 # 2) ∈ trades (book (session_after sweep)) ∧
  paired (book (session_after sweep)) (Trade.mk 3 1 68010 (1 # 2)).
Proof.
  assert (H1 : run start sweep = Ok (session_after sweep))
    by (vm_compute; reflexivity).
  assert (H2 : Trade.mk 3 1 68010 (1 # 2)
                 ∈ trades (book (session_after sweep))).
  { apply list_elem_of_In. vm_compute. left. reflexivity. }
  split; [exact H1|]. split; [exact H2|].
  exact (trades_join_buyer_and_seller sweep _ _ H1 H2).
Defined.


Lemma live_orders_are_listed_witness :
  run start two_asks = Ok (session_after two_asks) ∧
  (68020%Q, 2%Q, 2) ∈ heap_of SELL (book (session_after two_asks)) ∧
  _orders (book (session_after two_asks)) !! 2 =
    Some (order_of (book_after two_asks) 2) ∧
  live (order_of (book_after two_asks) 2) = true ∧
  ∃ q lvl, Order.price (order_of (book_after two_asks) 2) = Some q ∧
    dict_get (levels_of SELL (book (session_after two_asks))) q = Some lvl ∧
    2 ∈ PriceLevel.orders lvl.
Proof.
  assert (H1 : run start two_asks = Ok (session_after two_asks))
    by (vm_compute; reflexivity).
  assert (H2 : (68020%Q, 2%Q, 2)
                 ∈ heap_of SELL (book (session_after two_asks))).
  { apply list_elem_of_In. vm_compute. right. left. reflexivity. }
  assert (H3 : _orders (book (session_after two_asks)) !! 2 =
    Some (order_of (book_after two_asks) 2)) by (vm_compute; reflexivity).
  assert (H4 : live (order_of (book_after two_asks) 2) = true)
    by (vm_compute; reflexivity).
  split; [exact H1|]. split; [exact H2|]. split; [exact H3|].
  split; [exact H4|].
  exact (live_orders_are_listed two_asks _ SELL _ _ _ _ H1 H2 H3 H4).
Defined.

